(** * WIM: the opponent core of the strategy game

    A shallow embedding of the TypeScript sources

    - [src/systems/TerrainManager.ts] (terrain grid, A* path finder,
      resource zones),
    - [src/systems/IntelligentUnitController.ts] (the unit command
      controller, combat groups and threat assessment),
    - [src/ai/AdvancedAI.ts] (the strategic planner),
    - [src/store/gameStore.ts] (the store actions that the planner calls),

    together with the properties the specification states about them and
    further properties of the code.

    Conventions of the embedding.

    - A JavaScript [number] is an exact rational extended with [NaN] and
      the two infinities.  Arithmetic on finite values is exact: rounding,
      overflow and the negative zero of IEEE 754 are not represented.
      [Math.sqrt] is computed downwards to a fixed binary precision and is
      exact on squares of rationals.
    - A JavaScript [Map] is the list of its entries in insertion order,
      together with the cursor of the one iterator that may be live on it,
      because the controller inserts into its command table while it
      iterates over it.
    - Objects referenced from arrays ([Unit]s) are addressed by their index
      in the array; a mutation of a field rewrites the element at that
      index.  A [Position] stored in a command, a threat entry or a path
      is stored by value.
    - [Date.now()] reads successive values of a clock [nat -> Z]; the
      number of readings made so far is part of the state. *)

From Stdlib Require Import ZArith QArith Qround Qreduction Qabs Lqa Lia.
From Stdlib Require Import List Bool String Ascii DecimalString.
Import ListNotations.

Set Implicit Arguments.

(* ================================================================== *)
(** * JavaScript numbers *)
(* ================================================================== *)

Declare Scope js_scope.
Delimit Scope js_scope with js.

Module Number.

Inductive number : Type :=
| NaN
| NegInf
| PosInf
| Num (q : Q).

Definition of_Z (z : Z) : number := Num (inject_Z z).
Definition of_nat (n : nat) : number := of_Z (Z.of_nat n).

Definition is_finite (x : number) : bool :=
  match x with Num _ => true | _ => false end.

Definition is_nan (x : number) : bool :=
  match x with NaN => true | _ => false end.

(** Sign of a number that is not [NaN]. *)
Definition sign (x : number) : comparison :=
  match x with
  | NaN => Eq
  | NegInf => Lt
  | PosInf => Gt
  | Num q => (q ?= 0)%Q
  end.

Definition inf_of (s : comparison) : number :=
  match s with Lt => NegInf | Gt => PosInf | Eq => NaN end.

Definition sign_mul (a b : comparison) : comparison :=
  match a, b with
  | Eq, _ | _, Eq => Eq
  | Lt, Lt | Gt, Gt => Gt
  | _, _ => Lt
  end.

Definition add (x y : number) : number :=
  match x, y with
  | NaN, _ | _, NaN => NaN
  | PosInf, NegInf | NegInf, PosInf => NaN
  | PosInf, _ | _, PosInf => PosInf
  | NegInf, _ | _, NegInf => NegInf
  | Num a, Num b => Num (Qred (a + b))
  end.

Definition sub (x y : number) : number :=
  match x, y with
  | NaN, _ | _, NaN => NaN
  | PosInf, PosInf | NegInf, NegInf => NaN
  | PosInf, _ | _, NegInf => PosInf
  | NegInf, _ | _, PosInf => NegInf
  | Num a, Num b => Num (Qred (a - b))
  end.

Definition mul (x y : number) : number :=
  match x, y with
  | NaN, _ | _, NaN => NaN
  | Num a, Num b => Num (Qred (a * b))
  | _, _ => inf_of (sign_mul (sign x) (sign y))
  end.

(** Division; the zero divisor is the positive zero. *)
Definition div (x y : number) : number :=
  match x, y with
  | NaN, _ | _, NaN => NaN
  | Num a, Num b =>
      if Qeq_bool b 0 then inf_of (a ?= 0)%Q else Num (Qred (a / b))
  | Num _, _ => Num 0
  | _, Num b => if Qle_bool 0 b then x else inf_of (sign_mul (sign x) Lt)
  | _, _ => NaN
  end.

(** Three-way comparison; [None] when an operand is [NaN]. *)
Definition compare (x y : number) : option comparison :=
  match x, y with
  | NaN, _ | _, NaN => None
  | NegInf, NegInf | PosInf, PosInf => Some Eq
  | NegInf, _ | _, PosInf => Some Lt
  | PosInf, _ | _, NegInf => Some Gt
  | Num a, Num b => Some (a ?= b)%Q
  end.

Definition ltb (x y : number) : bool :=
  match compare x y with Some Lt => true | _ => false end.
Definition leb (x y : number) : bool :=
  match compare x y with Some Lt | Some Eq => true | _ => false end.
Definition gtb (x y : number) : bool := ltb y x.
Definition geb (x y : number) : bool := leb y x.

(** [x === y]. *)
Definition eqb (x y : number) : bool :=
  match compare x y with Some Eq => true | _ => false end.

(** Equality of the decimal renderings [`${x}`] and [`${y}`]. *)
Definition same (x y : number) : bool :=
  match x, y with
  | NaN, NaN => true
  | _, _ => eqb x y
  end.

(** [Math.min] and [Math.max] of two arguments. *)
Definition min (x y : number) : number :=
  match compare x y with
  | None => NaN
  | Some Gt => y
  | Some _ => x
  end.

Definition max (x y : number) : number :=
  match compare x y with
  | None => NaN
  | Some Lt => y
  | Some _ => x
  end.

(** [Math.floor]. *)
Definition floor (x : number) : number :=
  match x with
  | Num q => of_Z (Qfloor q)
  | _ => x
  end.

(** Binary digits kept after the point by [Math.sqrt]. *)
Definition sqrt_bits : Z := 64.

(** Square root of a non-negative rational, rounded down to a multiple
    of [1 / (den * 2 ^ sqrt_bits)]. *)
Definition Qsqrt (q : Q) : Q :=
  let d := Z.pos (Qden q) in
  Qred (Z.sqrt (Qnum q * d * 4 ^ sqrt_bits) # Z.to_pos (d * 2 ^ sqrt_bits)).

(** [Math.sqrt]. *)
Definition sqrt (x : number) : number :=
  match x with
  | NaN | NegInf => NaN
  | PosInf => PosInf
  | Num q => if Qle_bool 0 q then Num (Qsqrt q) else NaN
  end.

(** [Math.pow(x, 2)]. *)
Definition pow2 (x : number) : number := mul x x.

(** Truthiness of a number, as [||] tests it. *)
Definition truthy (x : number) : bool :=
  match x with
  | NaN => false
  | Num q => negb (Qeq_bool q 0)
  | _ => true
  end.

(** [Math.round]: the nearest whole number, a half going up. *)
Definition round (x : number) : number :=
  match x with
  | Num q => of_Z (Qfloor (q + (1 # 2)))
  | _ => x
  end.

(** [x % y]: the remainder has the sign of [x]. *)
Definition rem (x y : number) : number :=
  match x, y with
  | Num a, Num b =>
      if Qeq_bool b 0 then NaN
      else
        let quotient := (a / b)%Q in
        let truncated :=
          if Qle_bool 0 quotient then Qfloor quotient else Qceiling quotient in
        Num (Qred (a - b * inject_Z truncated))
  | Num _, (PosInf | NegInf) => x
  | _, _ => NaN
  end.

(** Numeric equality as a proposition: same class, equal value. *)
Definition equiv (x y : number) : Prop :=
  match x, y with
  | NaN, NaN | NegInf, NegInf | PosInf, PosInf => True
  | Num a, Num b => (a == b)%Q
  | _, _ => False
  end.

End Number.

Export Number.

Notation "x + y" := (Number.add x y) : js_scope.
Notation "x - y" := (Number.sub x y) : js_scope.
Notation "x * y" := (Number.mul x y) : js_scope.
Notation "x / y" := (Number.div x y) : js_scope.
Notation "x <? y" := (Number.ltb x y) : js_scope.
Notation "x <=? y" := (Number.leb x y) : js_scope.
Notation "x >? y" := (Number.gtb x y) : js_scope.
Notation "x >=? y" := (Number.geb x y) : js_scope.
Notation "x =? y" := (Number.eqb x y) : js_scope.
Notation "x == y" := (Number.equiv x y) : js_scope.

(** Numeric literals of the sources. *)
Definition num (z : Z) : number := Number.of_Z z.
Definition frac (a : Z) (b : positive) : number := Num (Qred (a # b)).

(* ================================================================== *)
(** * JavaScript maps *)
(* ================================================================== *)

(** A [Map<string, V>]: its entries in insertion order, split at the cursor
    of the iterator that is live on it.  [yielded] are the entries the
    iterator has produced, [pending] those it will still produce.  Outside
    an iteration the split carries no meaning. *)
Module JSMap.
Section Defs.

Variable V : Type.

Record t : Type := mk {
  yielded : list (string * V);
  pending : list (string * V)
}.

Definition empty : t := mk [] [].

Definition entries (m : t) : list (string * V) := yielded m ++ pending m.
Definition keys (m : t) : list string := map fst (entries m).
Definition values (m : t) : list V := map snd (entries m).
Definition size (m : t) : nat := List.length (entries m).

Fixpoint lookup (k : string) (l : list (string * V)) : option V :=
  match l with
  | [] => None
  | (k', v) :: r => if String.eqb k k' then Some v else lookup k r
  end.

Definition mem (k : string) (l : list (string * V)) : bool :=
  match lookup k l with Some _ => true | None => false end.

Fixpoint replace (k : string) (v : V) (l : list (string * V))
  : list (string * V) :=
  match l with
  | [] => []
  | (k', v') :: r =>
      if String.eqb k k' then (k', v) :: r else (k', v') :: replace k v r
  end.

Definition remove (k : string) (l : list (string * V)) : list (string * V) :=
  filter (fun e => negb (String.eqb k (fst e))) l.

Definition get (k : string) (m : t) : option V := lookup k (entries m).

Definition has (k : string) (m : t) : bool := mem k (entries m).

(** [m.set(k, v)]: an existing key keeps its place, a new key is appended
    and will be reached by a live iterator. *)
Definition set (k : string) (v : V) (m : t) : t :=
  if mem k (yielded m) then mk (replace k v (yielded m)) (pending m)
  else if mem k (pending m) then mk (yielded m) (replace k v (pending m))
  else mk (yielded m) (pending m ++ [(k, v)]).

Definition delete (k : string) (m : t) : t :=
  mk (remove k (yielded m)) (remove k (pending m)).

(** A new iterator starts before the first entry. *)
Definition rewind (m : t) : t := mk [] (entries m).

(** One step of the iterator. *)
Definition next (m : t) : option (string * V * t) :=
  match pending m with
  | [] => None
  | e :: r => Some (e, mk (yielded m ++ [e]) r)
  end.

Definition of_list (l : list (string * V)) : t := mk [] l.

End Defs.
End JSMap.

Arguments JSMap.empty {V}.

(* ================================================================== *)
(** * Game types ([src/types/game.ts]) *)
(* ================================================================== *)

Record Position : Type := Pos { x : number; y : number }.

Inductive UnitType : Type :=
| infantry | tank | drone | jet | helicopter | missile_launcher | engineer.

Inductive BuildingType : Type :=
| command_center | barracks | vehicle_factory | airbase | power_plant
| oil_refinery | steel_mill | research_lab | defense_turret.

(** The fields of a [Unit] that the core reads or writes. *)
Module Unit.
Record t : Type := mk {
  id : string;
  type : UnitType;
  position : Position;
  playerId : string;
  health : number;
  maxHealth : number;
  damage : number;
  range : number;
  speed : number
}.

Definition with_position (p : Position) (u : t) : t :=
  mk (id u) (type u) p (playerId u) (health u) (maxHealth u) (damage u)
     (range u) (speed u).

Definition with_health (h : number) (u : t) : t :=
  mk (id u) (type u) (position u) (playerId u) h (maxHealth u) (damage u)
     (range u) (speed u).
End Unit.

Module Building.
Record t : Type := mk {
  id : string;
  type : BuildingType;
  position : Position;
  playerId : string
}.
End Building.

(** [Resources], the stock of a player. *)
Module Resources.
Record t : Type := mk {
  oil : number;
  steel : number;
  energy : number;
  money : number
}.
End Resources.

(** [units.find(u => u.id === wanted)] as the index of the object found. *)
Fixpoint findIndex_from (i : nat) (wanted : string) (units : list Unit.t)
  : option nat :=
  match units with
  | [] => None
  | u :: r =>
      if String.eqb (Unit.id u) wanted then Some i
      else findIndex_from (S i) wanted r
  end.

Definition findUnit (wanted : string) (units : list Unit.t) : option nat :=
  findIndex_from 0 wanted units.

(** Rewrite the element at an index, leaving the array alone when the
    index is out of range. *)
Fixpoint update_nth {A : Type} (i : nat) (f : A -> A) (l : list A) : list A :=
  match l, i with
  | [], _ => []
  | a :: r, O => f a :: r
  | a :: r, S i' => a :: update_nth i' f r
  end.

(** [arr[n]] for a [number] [n]: only a non-negative integer is an index. *)
Definition index_of (n : number) : option nat :=
  match n with
  | Num q =>
      if Qeq_bool q (inject_Z (Qfloor q)) && (0 <=? Qfloor q)%Z
      then Some (Z.to_nat (Qfloor q))
      else None
  | _ => None
  end.


(** [getDistance], defined alike in the terrain manager, the controller
    and the planner. *)
Definition getDistance (pos1 pos2 : Position) : number :=
  Number.sqrt (pow2 (x pos1 - x pos2) + pow2 (y pos1 - y pos2))%js.

(* ================================================================== *)
(** * Terrain, path finding and resource zones
      ([src/systems/TerrainManager.ts]) *)
(* ================================================================== *)

Module ResourceZone.
Inductive kind : Type := oil | steel | energy.

Record t : Type := mk {
  id : string;
  type : kind;
  position : Position;
  radius : number;
  totalResources : number;
  remainingResources : number;
  gatheringRate : number;
  workersAssigned : list string;
  isExhausted : bool
}.

Definition kind_name (k : kind) : string :=
  match k with oil => "oil" | steel => "steel" | energy => "energy" end.

Definition with_workersAssigned (w : list string) (z : t) : t :=
  mk (id z) (type z) (position z) (radius z) (totalResources z)
     (remainingResources z) (gatheringRate z) w (isExhausted z).

Definition with_remainingResources (r : number) (z : t) : t :=
  mk (id z) (type z) (position z) (radius z) (totalResources z)
     r (gatheringRate z) (workersAssigned z) (isExhausted z).

Definition with_isExhausted (b : bool) (z : t) : t :=
  mk (id z) (type z) (position z) (radius z) (totalResources z)
     (remainingResources z) (gatheringRate z) (workersAssigned z) b.
End ResourceZone.

Module TerrainTile.
Inductive kind : Type := grass | water | mountain | forest | road.

Record t : Type := mk {
  position : Position;
  type : kind;
  isPassable : bool;
  movementCost : number;
  resourceZone : option string
}.
End TerrainTile.

(** A search node; [parent] links lead back to the start node. *)
Unset Elimination Schemes.
Inductive PathNode : Type :=
| Node (position : Position) (gCost hCost fCost : number)
       (parent : option PathNode).
Set Elimination Schemes.

Module PathNode.
Definition position (n : PathNode) : Position :=
  match n with Node p _ _ _ _ => p end.
Definition gCost (n : PathNode) : number :=
  match n with Node _ g _ _ _ => g end.
Definition hCost (n : PathNode) : number :=
  match n with Node _ _ h _ _ => h end.
Definition fCost (n : PathNode) : number :=
  match n with Node _ _ _ f _ => f end.
Definition parent (n : PathNode) : option PathNode :=
  match n with Node _ _ _ _ p => p end.
End PathNode.

Definition string_of_Z (z : Z) : string := NilZero.string_of_int (Z.to_int z).
Definition string_of_nat (n : nat) : string := string_of_Z (Z.of_nat n).

Module TerrainManager.

Record t : Type := mk {
  terrain : list (list TerrainTile.t);
  resourceZones : JSMap.t ResourceZone.t;
  mapSize_width : number;
  mapSize_height : number
}.

Definition with_resourceZones (z : JSMap.t ResourceZone.t) (tm : t) : t :=
  mk (terrain tm) z (mapSize_width tm) (mapSize_height tm).

(** [this.terrain[position.y][position.x]], [None] when either lookup is
    [undefined]. *)
Definition tile_at (tm : t) (position : Position) : option TerrainTile.t :=
  match index_of (y position) with
  | None => None
  | Some r =>
      match nth_error (terrain tm) r with
      | None => None
      | Some row =>
          match index_of (x position) with
          | None => None
          | Some c => nth_error row c
          end
      end
  end.

(** The zone object built in [generateResourceZones]; [rnd] is the value of
    [Math.random()]. *)
Definition newZone (resourceType : ResourceZone.kind) (i : nat)
    (position : Position) (rnd : number) : ResourceZone.t :=
  let total := (num 5000 + rnd * num 3000)%js in
  ResourceZone.mk
    (ResourceZone.kind_name resourceType ++ "_" ++ string_of_nat i)
    resourceType position (num 3) total total
    (match resourceType with
     | ResourceZone.oil => num 50
     | ResourceZone.steel => num 40
     | ResourceZone.energy => num 60
     end)
    [] false.

(** ** Path finding *)

Definition getNeighbors (tm : t) (position : Position) : list Position :=
  flat_map
    (fun dy =>
       flat_map
         (fun dx =>
            if (dx =? 0)%Z && (dy =? 0)%Z then []
            else
              let nx := (x position + num dx)%js in
              let ny := (y position + num dy)%js in
              if (nx >=? num 0)%js && (nx <? mapSize_width tm)%js
                 && (ny >=? num 0)%js && (ny <? mapSize_height tm)%js
              then [Pos nx ny] else [])
         [-1; 0; 1]%Z)
    [-1; 0; 1]%Z.

Definition isPassable (tm : t) (position : Position)
    (units : list Unit.t) (buildings : list Building.t) : bool :=
  match tile_at tm position with
  | None => false
  | Some tile =>
      if negb (TerrainTile.isPassable tile) then false
      else if existsb
                (fun building =>
                   (getDistance position (Building.position building)
                    <? frac 5 2)%js)
                buildings
      then false
      else
        let nearbyUnits :=
          filter
            (fun unit =>
               (getDistance position (Unit.position unit) <? frac 4 5)%js)
            units in
        (List.length nearbyUnits <? 1)%nat
  end.

Definition getMovementCost (tm : t) (position : Position) : number :=
  match tile_at tm position with
  | None => PosInf
  | Some tile => TerrainTile.movementCost tile
  end.

Fixpoint reconstructPath_from (current : PathNode) (path : list Position)
  : list Position :=
  match current with
  | Node p _ _ _ parent =>
      match parent with
      | None => p :: path
      | Some n => reconstructPath_from n (p :: path)
      end
  end.

Definition reconstructPath (node : PathNode) : list Position :=
  reconstructPath_from node [].

(** The scan for the node with the lowest [fCost]: the first of the least
    ones, and its index. *)
Fixpoint lowest (i : nat) (rest : list PathNode)
    (currentNode : PathNode) (currentIndex : nat) : PathNode * nat :=
  match rest with
  | [] => (currentNode, currentIndex)
  | n :: r =>
      if (PathNode.fCost n <? PathNode.fCost currentNode)%js
      then lowest (S i) r n i
      else lowest (S i) r currentNode currentIndex
  end.

(** [openSet.splice(i, 1)]. *)
Fixpoint splice1 {A : Type} (i : nat) (l : list A) : list A :=
  match l, i with
  | [], _ => []
  | _ :: r, O => r
  | a :: r, S i' => a :: splice1 i' r
  end.

Definition samePosition (p q : Position) : bool :=
  (x p =? x q)%js && (y p =? y q)%js.

(** Equality of the keys [`${x},${y}`] of the closed set. *)
Definition sameKey (p q : Position) : bool :=
  Number.same (x p) (x q) && Number.same (y p) (y q).

Definition closed_has (closedSet : list Position) (p : Position) : bool :=
  existsb (sameKey p) closedSet.

Definition closed_add (closedSet : list Position) (p : Position)
  : list Position :=
  if closed_has closedSet p then closedSet else closedSet ++ [p].

(** The update of the first open node at the position of [neighbor], when
    the new route to it is cheaper. *)
Fixpoint relax (neighbor : Position) (gCost : number)
    (currentNode : PathNode) (openSet : list PathNode)
  : option (list PathNode) :=
  match openSet with
  | [] => None
  | n :: r =>
      if samePosition (PathNode.position n) neighbor then
        Some
          (if (gCost <? PathNode.gCost n)%js
           then Node (PathNode.position n) gCost (PathNode.hCost n)
                     (gCost + PathNode.hCost n)%js (Some currentNode) :: r
           else n :: r)
      else
        match relax neighbor gCost currentNode r with
        | None => None
        | Some r' => Some (n :: r')
        end
  end.

(** The body of the loop over the neighbours of [currentNode]. *)
Definition visit (tm : t) (end_ : Position)
    (units : list Unit.t) (buildings : list Building.t)
    (closedSet : list Position) (currentNode : PathNode)
    (openSet : list PathNode) (neighbor : Position) : list PathNode :=
  if closed_has closedSet neighbor || negb (isPassable tm neighbor units buildings)
  then openSet
  else
    let gCost := (PathNode.gCost currentNode + getMovementCost tm neighbor)%js in
    let hCost := getDistance neighbor end_ in
    let fCost := (gCost + hCost)%js in
    match relax neighbor gCost currentNode openSet with
    | None => openSet ++ [Node neighbor gCost hCost fCost (Some currentNode)]
    | Some openSet' => openSet'
    end.

(** The [while (openSet.length > 0)] loop; [fuel] bounds the number of
    iterations and [None] reports that it ran out. *)
Fixpoint search (fuel : nat) (tm : t) (end_ : Position)
    (units : list Unit.t) (buildings : list Building.t)
    (openSet : list PathNode) (closedSet : list Position)
  : option (list Position) :=
  match openSet with
  | [] => Some [end_]
  | first :: rest =>
      match fuel with
      | O => None
      | S fuel' =>
          let (currentNode, currentIndex) := lowest 1 rest first 0 in
          let openSet1 := splice1 currentIndex openSet in
          let closedSet1 := closed_add closedSet (PathNode.position currentNode) in
          if (getDistance (PathNode.position currentNode) end_ <? num 1)%js
          then Some (reconstructPath currentNode)
          else
            let neighbors := getNeighbors tm (PathNode.position currentNode) in
            let openSet2 :=
              fold_left (visit tm end_ units buildings closedSet1 currentNode)
                        neighbors openSet1 in
            search fuel' tm end_ units buildings openSet2 closedSet1
      end
  end.

(** Every iteration closes the start or one more tile. *)
Definition search_fuel (tm : t) : nat :=
  S (List.length (List.concat (terrain tm))).

Definition startNode (start end_ : Position) : PathNode :=
  let h := getDistance start end_ in
  Node start (num 0) h (num 0 + h)%js None.

Definition findPath (tm : t) (start end_ : Position)
    (units : list Unit.t) (buildings : list Building.t)
  : option (list Position) :=
  search (search_fuel tm) tm end_ units buildings [startNode start end_] [].

(** ** Resource zones *)

Definition getResourceZones (tm : t) : list ResourceZone.t :=
  JSMap.values (resourceZones tm).

Definition assignWorkerToZone (workerId zoneId : string) (tm : t) : bool * t :=
  match JSMap.get zoneId (resourceZones tm) with
  | Some zone =>
      if negb (ResourceZone.isExhausted zone)
         && (List.length (ResourceZone.workersAssigned zone) <? 5)%nat
      then
        (true,
         with_resourceZones
           (JSMap.set zoneId
              (ResourceZone.with_workersAssigned
                 (ResourceZone.workersAssigned zone ++ [workerId]) zone)
              (resourceZones tm))
           tm)
      else (false, tm)
  | None => (false, tm)
  end.

Definition removeWorkerFromZone (workerId zoneId : string) (tm : t) : t :=
  match JSMap.get zoneId (resourceZones tm) with
  | Some zone =>
      with_resourceZones
        (JSMap.set zoneId
           (ResourceZone.with_workersAssigned
              (filter (fun id => negb (String.eqb id workerId))
                      (ResourceZone.workersAssigned zone))
              zone)
           (resourceZones tm))
        tm
  | None => tm
  end.

(** The zone after one extraction, and the amount extracted. *)
Definition gatherFrom (zone : ResourceZone.t) (deltaTime : number)
  : number * ResourceZone.t :=
  if ResourceZone.isExhausted zone
     || (List.length (ResourceZone.workersAssigned zone) =? 0)%nat
  then (num 0, zone)
  else
    let gathered :=
      Number.min
        ((ResourceZone.gatheringRate zone
          * Number.of_nat (List.length (ResourceZone.workersAssigned zone))
          * deltaTime) / num 1000)%js
        (ResourceZone.remainingResources zone) in
    let zone1 :=
      ResourceZone.with_remainingResources
        (ResourceZone.remainingResources zone - gathered)%js zone in
    let zone2 :=
      if (ResourceZone.remainingResources zone1 <=? num 0)%js
      then ResourceZone.with_workersAssigned []
             (ResourceZone.with_isExhausted true zone1)
      else zone1 in
    (gathered, zone2).

Definition gatherResources (zoneId : string) (deltaTime : number) (tm : t)
  : number * t :=
  match JSMap.get zoneId (resourceZones tm) with
  | None => (num 0, tm)
  | Some zone =>
      let (gathered, zone') := gatherFrom zone deltaTime in
      (gathered, with_resourceZones (JSMap.set zoneId zone' (resourceZones tm)) tm)
  end.

End TerrainManager.

(* ================================================================== *)
(** * The unit command controller
      ([src/systems/IntelligentUnitController.ts]) *)
(* ================================================================== *)

Module UnitCommand.
Inductive kind : Type := move | attack | gather | patrol | guard | build_assist.

(** [target: Position | string]. *)
Inductive target_t : Type :=
| AtPosition (p : Position)
| Entity (id : string).

Inductive issuer : Type := player | ai.

(** [createdAt] holds a reading of [Date.now()], a whole number of
    milliseconds. *)
Record t : Type := mk {
  id : string;
  unitId : string;
  type : kind;
  target : target_t;
  priority : number;
  createdAt : Z;
  issuedBy : issuer
}.

(** [command.target as Position]: the fields of a string are [undefined]. *)
Definition as_Position (g : target_t) : Position :=
  match g with
  | AtPosition p => p
  | Entity _ => Pos NaN NaN
  end.

(** [command.target as string]: an object equals no id. *)
Definition as_string (g : target_t) : option string :=
  match g with
  | AtPosition _ => None
  | Entity s => Some s
  end.
End UnitCommand.

Module CombatGroup.
Inductive role_t : Type := attack | defend | scout | raid.

Record t : Type := mk {
  id : string;
  unitIds : list string;
  role : role_t;
  target : option Position;
  formation : list Position;
  leader : option string
}.

Definition with_unitIds (l : list string) (g : t) : t :=
  mk (id g) l (role g) (target g) (formation g) (leader g).
End CombatGroup.

Module ThreatAssessment.
Record t : Type := mk {
  enemyUnitId : string;
  position : Position;
  threatLevel : number;
  unitType : UnitType;
  lastSeen : Z;
  isEngaged : bool
}.
End ThreatAssessment.

Module IntelligentUnitController.

Record t : Type := mk {
  terrainManager : TerrainManager.t;
  activeCommands : JSMap.t UnitCommand.t;
  combatGroups : JSMap.t CombatGroup.t;
  threatMap : JSMap.t ThreatAssessment.t;
  unitPaths : JSMap.t (list Position)
}.

Definition new (terrainManager : TerrainManager.t) : t :=
  mk terrainManager JSMap.empty JSMap.empty JSMap.empty JSMap.empty.

Definition with_terrainManager (v : TerrainManager.t) (c : t) : t :=
  mk v (activeCommands c) (combatGroups c) (threatMap c) (unitPaths c).
Definition with_activeCommands (v : JSMap.t UnitCommand.t) (c : t) : t :=
  mk (terrainManager c) v (combatGroups c) (threatMap c) (unitPaths c).
Definition with_combatGroups (v : JSMap.t CombatGroup.t) (c : t) : t :=
  mk (terrainManager c) (activeCommands c) v (threatMap c) (unitPaths c).
Definition with_threatMap (v : JSMap.t ThreatAssessment.t) (c : t) : t :=
  mk (terrainManager c) (activeCommands c) (combatGroups c) v (unitPaths c).
Definition with_unitPaths (v : JSMap.t (list Position)) (c : t) : t :=
  mk (terrainManager c) (activeCommands c) (combatGroups c) (threatMap c) v.

(** What a method call can read and write: the controller, the [units]
    array it was handed, and how many times the clock has been read. *)
Record state : Type := mkState {
  self : t;
  units : list Unit.t;
  reads : nat
}.

(** The result type of a method that returns nothing. *)
Definition void : Type := Datatypes.unit.

(** Computations over [state]; [None] when a loop ran out of fuel. *)
Definition M (A : Type) : Type := state -> option (A * state).

Definition ret {A : Type} (a : A) : M A := fun s => Some (a, s).

Definition bind {A B : Type} (m : M A) (k : A -> M B) : M B :=
  fun s => match m s with
           | None => None
           | Some (a, s') => k a s'
           end.

Notation "v <- c1 ;; c2" := (bind c1 (fun v => c2))
  (at level 61, c1 at next level, right associativity).
Notation "c1 ;; c2" := (bind c1 (fun _ => c2))
  (at level 61, right associativity).

Definition get_self : M t := fun s => Some (self s, s).
Definition get_units : M (list Unit.t) := fun s => Some (units s, s).
Definition modify_self (f : t -> t) : M void :=
  fun s => Some (tt, mkState (f (self s)) (units s) (reads s)).
Definition modify_unit (i : nat) (f : Unit.t -> Unit.t) : M void :=
  fun s => Some (tt, mkState (self s) (update_nth i f (units s)) (reads s)).
Definition lift_option {A : Type} (o : option A) : M A :=
  fun s => match o with Some a => Some (a, s) | None => None end.

(** The unit object behind a reference; the default is never reached, a
    reference being an index found in [units]. *)
Definition deref (i : nat) : M Unit.t :=
  fun s =>
    Some (nth i (units s)
            (Unit.mk "" infantry (Pos NaN NaN) "" NaN NaN NaN NaN NaN), s).

Definition when (b : bool) (m : M void) : M void := if b then m else ret tt.

Fixpoint forEach {A : Type} (l : list A) (body : A -> M void) : M void :=
  match l with
  | [] => ret tt
  | a :: r => body a ;; forEach r body
  end.

Section Clock.

(** The successive values of [Date.now()]. *)
Variable clock : nat -> Z.

Definition Date_now : M Z :=
  fun s => Some (clock (reads s), mkState (self s) (units s) (S (reads s))).

Definition calculateThreatLevel (enemy : Unit.t) : number :=
  let threatLevel :=
    match Unit.type enemy with
    | tank => frac 9 10
    | missile_launcher => num 1
    | jet => frac 7 10
    | helicopter => frac 6 10
    | infantry => frac 3 10
    | drone => frac 4 10
    | engineer => frac 1 10
    end in
  (threatLevel * (Unit.health enemy / Unit.maxHealth enemy))%js.

(** The pruning loop deletes the entry it stands on, which does not disturb
    the iteration; the refresh then overwrites by enemy id. *)
Definition updateThreatAssessment (enemyUnits : list Unit.t) : M void :=
  currentTime <- Date_now ;;
  modify_self (fun c =>
    with_threatMap
      (fold_left
         (fun m e =>
            if (currentTime - ThreatAssessment.lastSeen (snd e) >? 30000)%Z
            then JSMap.delete (fst e) m else m)
         (JSMap.entries (threatMap c)) (threatMap c))
      c) ;;
  forEach enemyUnits (fun enemy =>
    let threat :=
      ThreatAssessment.mk (Unit.id enemy) (Unit.position enemy)
        (calculateThreatLevel enemy) (Unit.type enemy) currentTime false in
    modify_self (fun c =>
      with_threatMap (JSMap.set (Unit.id enemy) threat (threatMap c)) c)).

Definition issueCommand (command : UnitCommand.t) : M void :=
  modify_self (fun c =>
    with_activeCommands
      (JSMap.set (UnitCommand.id command) command (activeCommands c)) c).

Definition deleteCommand (key : string) : M void :=
  modify_self (fun c =>
    with_activeCommands (JSMap.delete key (activeCommands c)) c).

Definition executeMoveCommand (unit : nat) (target : Position)
    (buildings : list Building.t) : M void :=
  u <- deref unit ;;
  let distance := getDistance (Unit.position u) target in
  if (distance <? num 1)%js then deleteCommand (Unit.id u)
  else
    c <- get_self ;;
    us <- get_units ;;
    path <-
      match JSMap.get (Unit.id u) (unitPaths c) with
      | Some (p :: r) => ret (p :: r)
      | _ =>
          path <- lift_option
                    (TerrainManager.findPath (terrainManager c)
                       (Unit.position u) target us buildings) ;;
          modify_self (fun c =>
            with_unitPaths (JSMap.set (Unit.id u) path (unitPaths c)) c) ;;
          ret path
      end ;;
    match path with
    | _ :: nextPoint :: _ =>
        let moveDistance := (Unit.speed u * frac 16 1000)%js in
        let dx := (x nextPoint - x (Unit.position u))%js in
        let dy := (y nextPoint - y (Unit.position u))%js in
        let directionLength := Number.sqrt (dx * dx + dy * dy)%js in
        if (directionLength >? num 0)%js then
          let dx := (dx / directionLength)%js in
          let dy := (dy / directionLength)%js in
          let position' :=
            Pos (x (Unit.position u) + dx * moveDistance)%js
                (y (Unit.position u) + dy * moveDistance)%js in
          modify_unit unit (Unit.with_position position') ;;
          when (getDistance position' nextPoint <? frac 1 2)%js
            (modify_self (fun c =>
               with_unitPaths
                 (JSMap.set (Unit.id u) (tl path) (unitPaths c)) c))
        else ret tt
    | _ => ret tt
    end.

Definition performAttack (attacker target : nat) : M void :=
  a <- deref attacker ;;
  g <- deref target ;;
  let damage := Number.min (Unit.damage a) (Unit.health g) in
  let health' := (Unit.health g - damage)%js in
  modify_unit target (Unit.with_health health') ;;
  when (health' <=? num 0)%js (deleteCommand (Unit.id a)).

(** The command built by the [executeXCommand] methods and the public
    entry points: the clock is read for the id, then for [createdAt]. *)
Definition makeCommand (prefix unitId : string) (type : UnitCommand.kind)
    (target : UnitCommand.target_t) (priority : number)
    (issuedBy : UnitCommand.issuer) : M UnitCommand.t :=
  t1 <- Date_now ;;
  t2 <- Date_now ;;
  ret (UnitCommand.mk (prefix ++ unitId ++ "_" ++ string_of_Z t1)%string unitId type
         target priority t2 issuedBy).

Definition issueMoveTo (unitId : string) (target : Position)
    (priority : number) : M void :=
  moveCommand <- makeCommand "move_" unitId UnitCommand.move
                   (UnitCommand.AtPosition target) priority UnitCommand.ai ;;
  issueCommand moveCommand.

Definition executeAttackCommand (unit : nat) (targetId : option string)
  : M void :=
  u <- deref unit ;;
  us <- get_units ;;
  match match targetId with
        | Some i => findUnit i us
        | None => None
        end with
  | None => deleteCommand (Unit.id u)
  | Some target =>
      g <- deref target ;;
      let distance := getDistance (Unit.position u) (Unit.position g) in
      if (distance <=? Unit.range u)%js then performAttack unit target
      else issueMoveTo (Unit.id u) (Unit.position g) (num 8)
  end.

Definition executeGatherCommand (unit : nat) (zoneId : option string)
  : M void :=
  u <- deref unit ;;
  c <- get_self ;;
  let resourceZones := TerrainManager.getResourceZones (terrainManager c) in
  match match zoneId with
        | Some i => find (fun z => String.eqb (ResourceZone.id z) i) resourceZones
        | None => None
        end, zoneId with
  | Some zone, Some zid =>
      if ResourceZone.isExhausted zone then deleteCommand (Unit.id u)
      else
        let distance := getDistance (Unit.position u) (ResourceZone.position zone) in
        if (distance <=? ResourceZone.radius zone)%js then
          when (negb (existsb (String.eqb (Unit.id u))
                        (ResourceZone.workersAssigned zone)))
            (modify_self (fun c =>
               with_terrainManager
                 (snd (TerrainManager.assignWorkerToZone (Unit.id u) zid
                         (terrainManager c))) c))
        else issueMoveTo (Unit.id u) (ResourceZone.position zone) (num 5)
  | _, _ => deleteCommand (Unit.id u)
  end.

Definition executePatrolCommand (unit : nat) (patrolPoint : Position)
    (buildings : list Building.t) : M void :=
  u <- deref unit ;;
  let startPos := Unit.position u in
  let distance1 := getDistance (Unit.position u) patrolPoint in
  let distance2 := getDistance (Unit.position u) startPos in
  let target := if (distance1 <? distance2)%js then startPos else patrolPoint in
  executeMoveCommand unit target buildings.

(** [list.reduce((closest, v) => d(v) < d(closest) ? v : closest)] on a
    non-empty list. *)
Definition closestTo {A : Type} (position_of : A -> Position)
    (here : Position) (first : A) (rest : list A) : A :=
  fold_left
    (fun closest v =>
       if (getDistance (position_of v) here
           <? getDistance (position_of closest) here)%js
       then v else closest)
    rest first.

Definition executeGuardCommand (unit : nat) (targetId : option string)
  : M void :=
  u <- deref unit ;;
  us <- get_units ;;
  match match targetId with
        | Some i => findUnit i us
        | None => None
        end with
  | None => deleteCommand (Unit.id u)
  | Some target =>
      guardTarget <- deref target ;;
      let distance := getDistance (Unit.position u) (Unit.position guardTarget) in
      when (distance >? num 3)%js
        (issueMoveTo (Unit.id u) (Unit.position guardTarget) (num 6)) ;;
      c <- get_self ;;
      let nearbyThreats :=
        filter
          (fun threat =>
             (getDistance (ThreatAssessment.position threat)
                          (Unit.position guardTarget) <? num 8)%js)
          (JSMap.values (threatMap c)) in
      match nearbyThreats with
      | [] => ret tt
      | first :: rest =>
          let closestThreat :=
            closestTo ThreatAssessment.position (Unit.position u) first rest in
          attackCommand <- makeCommand "attack_" (Unit.id u) UnitCommand.attack
                             (UnitCommand.Entity
                                (ThreatAssessment.enemyUnitId closestThreat))
                             (num 9) UnitCommand.ai ;;
          issueCommand attackCommand
      end
  end.

(** The [switch (command.type)] of [processCommands]. *)
Definition executeCommand (unit : nat) (command : UnitCommand.t)
    (buildings : list Building.t) : M void :=
  match UnitCommand.type command with
  | UnitCommand.move =>
      executeMoveCommand unit
        (UnitCommand.as_Position (UnitCommand.target command)) buildings
  | UnitCommand.attack =>
      executeAttackCommand unit
        (UnitCommand.as_string (UnitCommand.target command))
  | UnitCommand.gather =>
      executeGatherCommand unit
        (UnitCommand.as_string (UnitCommand.target command))
  | UnitCommand.patrol =>
      executePatrolCommand unit
        (UnitCommand.as_Position (UnitCommand.target command)) buildings
  | UnitCommand.guard =>
      executeGuardCommand unit
        (UnitCommand.as_string (UnitCommand.target command))
  | UnitCommand.build_assist => ret tt
  end.

(** The [for ... of this.activeCommands.entries()] loop.  The iterator
    also yields the commands issued while it runs. *)
Fixpoint processLoop (fuel : nat) (currentTime : Z)
    (buildings : list Building.t) (commandsToRemove : list string)
  : M (list string) :=
  fun s =>
    match JSMap.next (activeCommands (self s)) with
    | None => Some (commandsToRemove, s)
    | Some (commandId, command, advanced) =>
        match fuel with
        | O => None
        | S fuel' =>
            let s1 :=
              mkState (with_activeCommands advanced (self s)) (units s)
                      (reads s) in
            match findUnit (UnitCommand.unitId command) (units s1) with
            | None =>
                processLoop fuel' currentTime buildings
                  (commandsToRemove ++ [commandId]) s1
            | Some unit =>
                (executeCommand unit command buildings ;;
                 processLoop fuel' currentTime buildings
                   (if (currentTime - UnitCommand.createdAt command >? 60000)%Z
                    then commandsToRemove ++ [commandId]
                    else commandsToRemove)) s1
            end
        end
    end.

(** Iterations a command can cause: its own and those of the commands it
    issues in turn. *)
Definition commandWeight (command : UnitCommand.t) : nat :=
  match UnitCommand.type command with
  | UnitCommand.guard => 4
  | UnitCommand.attack | UnitCommand.gather => 2
  | _ => 1
  end.

Definition weight (l : list (string * UnitCommand.t)) : nat :=
  list_sum (map (fun e => commandWeight (snd e)) l).

Definition processCommands (buildings : list Building.t) : M void :=
  currentTime <- Date_now ;;
  modify_self (fun c =>
    with_activeCommands (JSMap.rewind (activeCommands c)) c) ;;
  c <- get_self ;;
  commandsToRemove <-
    processLoop (weight (JSMap.entries (activeCommands c))) currentTime
      buildings [] ;;
  forEach commandsToRemove deleteCommand.


(** ** Combat groups *)

Section Formation.

(** [Math.cos], [Math.sin] and [Math.PI]. *)
Variable Math_cos Math_sin : number -> number.
Variable Math_PI : number.

Definition calculateFormation (unitCount : nat) (role : CombatGroup.role_t)
  : list Position :=
  match role with
  | CombatGroup.attack =>
      map (fun i => Pos (Number.of_nat i * num 2)%js (num 0)) (seq 0 unitCount)
  | CombatGroup.defend =>
      let arcRadius := Number.max (num 2) (Number.of_nat unitCount / num 2)%js in
      map
        (fun i =>
           let angle :=
             ((Number.of_nat i / (Number.of_nat unitCount - num 1)) * Math_PI
              - Math_PI / num 2)%js in
           Pos (Math_cos angle * arcRadius)%js (Math_sin angle * arcRadius)%js)
        (seq 0 unitCount)
  | CombatGroup.scout =>
      map
        (fun i =>
           let angle :=
             ((Number.of_nat i / Number.of_nat unitCount) * num 2 * Math_PI)%js in
           Pos (Math_cos angle * num 3)%js (Math_sin angle * num 3)%js)
        (seq 0 unitCount)
  | CombatGroup.raid =>
      map
        (fun i =>
           Pos (Number.of_nat (i mod 2) * frac 3 2)%js
               (Number.floor (Number.of_nat i / num 2) * frac 3 2)%js)
        (seq 0 unitCount)
  end.

(** [suffix] is the text of [Math.random().toString(36).substr(2, 9)]. *)
Definition createCombatGroup (unitIds : list string)
    (role : CombatGroup.role_t) (target : option Position) (suffix : string)
  : M string :=
  now <- Date_now ;;
  let groupId := ("group_" ++ string_of_Z now ++ "_" ++ suffix)%string in
  let group :=
    CombatGroup.mk groupId unitIds role target
      (calculateFormation (List.length unitIds) role) (hd_error unitIds) in
  modify_self (fun c =>
    with_combatGroups (JSMap.set groupId group (combatGroups c)) c) ;;
  ret groupId.

End Formation.

Definition issueAttackOn (prefix unitId targetId : string) (priority : number)
  : M void :=
  attackCommand <- makeCommand prefix unitId UnitCommand.attack
                     (UnitCommand.Entity targetId) priority UnitCommand.ai ;;
  issueCommand attackCommand.

Definition groupUnits_of (group : CombatGroup.t) (units : list Unit.t)
  : list Unit.t :=
  filter (fun unit => existsb (String.eqb (Unit.id unit)) (CombatGroup.unitIds group))
         units.

Definition updateAttackGroup (group : CombatGroup.t) (enemyUnits : list Unit.t)
  : M void :=
  match CombatGroup.target group with
  | None => ret tt
  | Some target =>
      us <- get_units ;;
      let groupUnits := groupUnits_of group us in
      match enemyUnits with
      | [] => ret tt
      | first :: _ =>
          let nearestEnemy :=
            fold_left
              (fun nearest enemy =>
                 if (getDistance (Unit.position enemy) target
                     <? getDistance (Unit.position nearest) target)%js
                 then enemy else nearest)
              enemyUnits first in
          forEach groupUnits (fun unit =>
            issueAttackOn "group_attack_" (Unit.id unit) (Unit.id nearestEnemy)
              (num 8))
      end
  end.

(** [list.forEach((v, index) => ...)]. *)
Fixpoint forEachIndexed {A : Type} (index : nat) (l : list A)
    (body : A -> nat -> M void) : M void :=
  match l with
  | [] => ret tt
  | a :: r => body a index ;; forEachIndexed (S index) r body
  end.

Definition updateDefenseGroup (group : CombatGroup.t) (enemyUnits : list Unit.t)
  : M void :=
  match CombatGroup.target group with
  | None => ret tt
  | Some target =>
      us <- get_units ;;
      let groupUnits := groupUnits_of group us in
      forEachIndexed 0 groupUnits (fun unit index =>
        match nth_error (CombatGroup.formation group) index with
        | None => ret tt
        | Some offset =>
            let formationPos :=
              Pos (x target + x offset)%js (y target + y offset)%js in
            let distance := getDistance (Unit.position unit) formationPos in
            when (distance >? num 1)%js
              (moveCommand <- makeCommand "defense_move_" (Unit.id unit)
                                UnitCommand.move
                                (UnitCommand.AtPosition formationPos) (num 7)
                                UnitCommand.ai ;;
               issueCommand moveCommand)
        end) ;;
      let nearbyEnemies :=
        filter
          (fun enemy => (getDistance (Unit.position enemy) target <? num 12)%js)
          enemyUnits in
      match nearbyEnemies with
      | [] => ret tt
      | first :: rest =>
          forEach groupUnits (fun unit =>
            let closestEnemy :=
              closestTo Unit.position (Unit.position unit) first rest in
            issueAttackOn "defense_attack_" (Unit.id unit) (Unit.id closestEnemy)
              (num 8))
      end
  end.

(** [a || b] on numbers. *)
Definition or_else (a b : number) : number :=
  if Number.truthy a then a else b.

Definition updateScoutGroup (group : CombatGroup.t) : M void :=
  us <- get_units ;;
  let groupUnits := groupUnits_of group us in
  forEachIndexed 0 groupUnits (fun unit index =>
    match nth_error (CombatGroup.formation group) index with
    | None => ret tt
    | Some offset =>
        let scoutTarget :=
          match CombatGroup.target group with
          | Some target =>
              Pos (or_else (x target) (num 25 + x offset * num 5)%js)
                  (or_else (y target) (num 25 + y offset * num 5)%js)
          | None =>
              Pos (num 25 + x offset * num 5)%js (num 25 + y offset * num 5)%js
          end in
        moveCommand <- makeCommand "scout_move_" (Unit.id unit)
                         UnitCommand.patrol
                         (UnitCommand.AtPosition scoutTarget) (num 4)
                         UnitCommand.ai ;;
        issueCommand moveCommand
    end).

Definition updateRaidGroup (group : CombatGroup.t) (enemyUnits : list Unit.t)
  : M void :=
  us <- get_units ;;
  let groupUnits := groupUnits_of group us in
  let isolatedEnemies :=
    filter
      (fun enemy =>
         let nearbyAllies :=
           List.length
             (filter
                (fun ally =>
                   negb (String.eqb (Unit.id ally) (Unit.id enemy))
                   && (getDistance (Unit.position ally) (Unit.position enemy)
                       <? num 5)%js)
                enemyUnits) in
         (nearbyAllies <? 2)%nat)
      enemyUnits in
  match isolatedEnemies with
  | [] => ret tt
  | target :: _ =>
      forEach groupUnits (fun unit =>
        issueAttackOn "raid_attack_" (Unit.id unit) (Unit.id target) (num 7))
  end.

(** The loop over the groups removes or rewrites only the entry it stands
    on, so it visits the entries present when it starts. *)
Definition updateCombatGroups (enemyUnits : list Unit.t) : M void :=
  c <- get_self ;;
  forEach (JSMap.entries (combatGroups c)) (fun e =>
    let groupId := fst e in
    us <- get_units ;;
    let group :=
      CombatGroup.with_unitIds
        (filter
           (fun unitId => existsb (fun unit => String.eqb (Unit.id unit) unitId) us)
           (CombatGroup.unitIds (snd e)))
        (snd e) in
    modify_self (fun c =>
      with_combatGroups (JSMap.set groupId group (combatGroups c)) c) ;;
    match CombatGroup.unitIds group with
    | [] =>
        modify_self (fun c =>
          with_combatGroups (JSMap.delete groupId (combatGroups c)) c)
    | _ =>
        match CombatGroup.role group with
        | CombatGroup.attack => updateAttackGroup group enemyUnits
        | CombatGroup.defend => updateDefenseGroup group enemyUnits
        | CombatGroup.scout => updateScoutGroup group
        | CombatGroup.raid => updateRaidGroup group enemyUnits
        end
    end).

(** [units.forEach]: each callback reads the unit object as it is then. *)
Definition executeUnitBehaviors : M void :=
  us <- get_units ;;
  forEach (seq 0 (List.length us)) (fun i =>
    unit <- deref i ;;
    c <- get_self ;;
    if JSMap.has (Unit.id unit) (activeCommands c) then ret tt
    else
      let nearbyThreats :=
        filter
          (fun threat =>
             (getDistance (ThreatAssessment.position threat) (Unit.position unit)
              <? Unit.range unit + num 2)%js)
          (JSMap.values (threatMap c)) in
      match nearbyThreats with
      | [] => ret tt
      | first :: rest =>
          let closestThreat :=
            closestTo ThreatAssessment.position (Unit.position unit) first rest in
          issueAttackOn "auto_attack_" (Unit.id unit)
            (ThreatAssessment.enemyUnitId closestThreat) (num 6)
      end).

(** [update(units, buildings, enemyUnits, _deltaTime)]; [units] is the
    array of the state. *)
Definition update (buildings : list Building.t) (enemyUnits : list Unit.t)
    (_deltaTime : number) : M void :=
  updateThreatAssessment enemyUnits ;;
  processCommands buildings ;;
  updateCombatGroups enemyUnits ;;
  executeUnitBehaviors.

(** ** Public entry points *)

Definition moveUnit (unitId : string) (target : Position) (priority : number)
  : M void :=
  command <- makeCommand "move_" unitId UnitCommand.move
               (UnitCommand.AtPosition target) priority UnitCommand.player ;;
  issueCommand command.

Definition attackTarget (unitId targetId : string) (priority : number)
  : M void :=
  command <- makeCommand "attack_" unitId UnitCommand.attack
               (UnitCommand.Entity targetId) priority UnitCommand.player ;;
  issueCommand command.

Definition gatherResources (unitId zoneId : string) (priority : number)
  : M void :=
  command <- makeCommand "gather_" unitId UnitCommand.gather
               (UnitCommand.Entity zoneId) priority UnitCommand.player ;;
  issueCommand command.

Definition getThreatMap (c : t) : list ThreatAssessment.t :=
  JSMap.values (threatMap c).

Definition getCombatGroups (c : t) : list CombatGroup.t :=
  JSMap.values (combatGroups c).

End Clock.
End IntelligentUnitController.

(* ================================================================== *)
(** * The strategic planner ([src/ai/AdvancedAI.ts]) *)
(* ================================================================== *)

Module AdvancedAI.

Inductive phase_t : Type := early | mid | late.

Record EconomicPlan : Type := mkEconomicPlan {
  targetWorkerCount : number;
  expansionThreshold : number;
  buildingQueue : list BuildingType;
  nextBuildTime : Z
}.

Record MilitaryPlan : Type := mkMilitaryPlan {
  preferredUnits : list UnitType;
  targetArmySize : number;
  attackThreshold : number;
  lastAttackTime : Z;
  unitProductionQueue : list UnitType
}.

Record StrategicState : Type := mkStrategicState {
  phase : phase_t;
  economicPlan : EconomicPlan;
  militaryPlan : MilitaryPlan;
  enemyThreatLevel : number
}.

Definition initializeStrategicState : StrategicState :=
  mkStrategicState early
    (mkEconomicPlan (num 15) (num 500)
       [power_plant; barracks; vehicle_factory; defense_turret] 0)
    (mkMilitaryPlan [infantry; tank] (num 15) (num 6) 0
       [infantry; infantry; tank; missile_launcher])
    (num 0).

Definition getUnitThreatValue (unitType : UnitType) : number :=
  match unitType with
  | infantry => frac 3 10
  | tank => frac 8 10
  | jet => frac 6 10
  | drone => frac 4 10
  | helicopter => frac 5 10
  | missile_launcher => frac 9 10
  | engineer => frac 1 10
  end.

Definition calculateThreatLevel (myBuildings : list Building.t)
    (enemyUnits : list Unit.t) : number :=
  if (List.length myBuildings =? 0)%nat then num 0 else
  match find
          (fun b => match Building.type b with
                    | command_center => true
                    | _ => false
                    end)
          myBuildings with
  | None => num 0
  | Some commandCenter =>
      let maxThreatDistance := num 15 in
      let threatLevel :=
        fold_left
          (fun threatLevel enemy =>
             let distance :=
               getDistance (Building.position commandCenter) (Unit.position enemy) in
             if (distance <? maxThreatDistance)%js then
               let proximityThreat := (num 1 - distance / maxThreatDistance)%js in
               let unitThreat := getUnitThreatValue (Unit.type enemy) in
               (threatLevel + proximityThreat * unitThreat)%js
             else threatLevel)
          enemyUnits (num 0) in
      Number.min (threatLevel / num 5)%js (num 1)
  end.

Definition with_targets (workers army : number) (s : StrategicState)
  : StrategicState :=
  mkStrategicState (phase s)
    (mkEconomicPlan workers (expansionThreshold (economicPlan s))
       (buildingQueue (economicPlan s)) (nextBuildTime (economicPlan s)))
    (mkMilitaryPlan (preferredUnits (militaryPlan s)) army
       (attackThreshold (militaryPlan s)) (lastAttackTime (militaryPlan s))
       (unitProductionQueue (militaryPlan s)))
    (enemyThreatLevel s).

Definition with_preferredUnits (l : list UnitType) (s : StrategicState)
  : StrategicState :=
  mkStrategicState (phase s) (economicPlan s)
    (mkMilitaryPlan l (targetArmySize (militaryPlan s))
       (attackThreshold (militaryPlan s)) (lastAttackTime (militaryPlan s))
       (unitProductionQueue (militaryPlan s)))
    (enemyThreatLevel s).

Definition updateStrategicState (myUnits : list Unit.t)
    (myBuildings : list Building.t) (enemyUnits : list Unit.t)
    (s : StrategicState) : StrategicState :=
  let totalUnits := List.length myUnits in
  let totalBuildings := List.length myBuildings in
  let phase' :=
    if (totalUnits <? 10)%nat && (totalBuildings <? 3)%nat then early
    else if (totalUnits <? 25)%nat && (totalBuildings <? 6)%nat then mid
    else late in
  let s1 :=
    mkStrategicState phase' (economicPlan s) (militaryPlan s)
      (calculateThreatLevel myBuildings enemyUnits) in
  let s2 :=
    match phase s1 with
    | early => with_targets (num 8) (num 6) s1
    | mid => with_targets (num 12) (num 12) s1
    | late => with_targets (num 16) (num 20) s1
    end in
  if (enemyThreatLevel s2 >? frac 7 10)%js
  then with_preferredUnits [tank; infantry] s2
  else if (enemyThreatLevel s2 >? frac 4 10)%js
  then with_preferredUnits [infantry; drone] s2
  else s2.

(** ** Construction *)

(** The [costs] table of [canAffordBuilding]: oil, steel and energy. *)
Definition costs (buildingType : BuildingType)
  : option (number * number * number) :=
  match buildingType with
  | command_center => Some (num 500, num 300, num 200)
  | power_plant => Some (num 150, num 100, num 50)
  | barracks => Some (num 200, num 150, num 100)
  | vehicle_factory => Some (num 300, num 250, num 150)
  | defense_turret => Some (num 100, num 200, num 50)
  | _ => None
  end.

Definition canAffordBuilding (buildingType : BuildingType)
    (resources : Resources.t) : bool :=
  match costs buildingType with
  | None => false
  | Some (oil, steel, energy) =>
      (Resources.oil resources >=? oil)%js
      && (Resources.steel resources >=? steel)%js
      && (Resources.energy resources >=? energy)%js
  end.

Definition with_buildingQueue (queue : list BuildingType) (s : StrategicState)
  : StrategicState :=
  mkStrategicState (phase s)
    (mkEconomicPlan (targetWorkerCount (economicPlan s))
       (expansionThreshold (economicPlan s)) queue
       (nextBuildTime (economicPlan s)))
    (militaryPlan s) (enemyThreatLevel s).

Definition with_unitProductionQueue (queue : list UnitType) (s : StrategicState)
  : StrategicState :=
  mkStrategicState (phase s) (economicPlan s)
    (mkMilitaryPlan (preferredUnits (militaryPlan s))
       (targetArmySize (militaryPlan s)) (attackThreshold (militaryPlan s))
       (lastAttackTime (militaryPlan s)) queue)
    (enemyThreatLevel s).

(** [if (b) queue.push(...items)]. *)
Definition pushWhen {A : Type} (b : bool) (items queue : list A) : list A :=
  if b then queue ++ items else queue.

(** [myBuildings.filter(b => b.type === ...).length]. *)
Definition countBuildings (ofType : BuildingType -> bool)
    (myBuildings : list Building.t) : nat :=
  List.length (filter (fun b => ofType (Building.type b)) myBuildings).

Definition updateBuildingQueue (myBuildings : list Building.t)
    (totalUnits : nat) (s : StrategicState) : StrategicState :=
  let count_power_plant :=
    countBuildings (fun t => match t with power_plant => true | _ => false end)
      myBuildings in
  let count_barracks :=
    countBuildings (fun t => match t with barracks => true | _ => false end)
      myBuildings in
  let count_vehicle_factory :=
    countBuildings (fun t => match t with vehicle_factory => true | _ => false end)
      myBuildings in
  let count_defense_turret :=
    countBuildings (fun t => match t with defense_turret => true | _ => false end)
      myBuildings in
  let queue := buildingQueue (economicPlan s) in
  let queue := pushWhen (count_power_plant <? 2)%nat [power_plant] queue in
  let queue := pushWhen (count_barracks <? 2)%nat [barracks] queue in
  let queue :=
    pushWhen ((count_vehicle_factory <? 1)%nat && (5 <? totalUnits)%nat)
      [vehicle_factory] queue in
  let queue := pushWhen (count_defense_turret <? 3)%nat [defense_turret] queue in
  let queue :=
    if (10 <? totalUnits)%nat then
      let queue := pushWhen (count_barracks <? 3)%nat [barracks] queue in
      pushWhen (count_vehicle_factory <? 2)%nat [vehicle_factory] queue
    else queue in
  with_buildingQueue queue s.

(** ** Production *)

Definition updateUnitProductionQueue (currentMilitaryCount enemyCount : nat)
    (s : StrategicState) : StrategicState :=
  let queue := unitProductionQueue (militaryPlan s) in
  let queue := pushWhen (currentMilitaryCount <? 3)%nat [infantry; infantry] queue in
  let queue := pushWhen (3 <=? currentMilitaryCount)%nat [tank] queue in
  let queue := pushWhen (5 <? enemyCount)%nat [missile_launcher; helicopter] queue in
  let queue := pushWhen (8 <? currentMilitaryCount)%nat [jet; drone] queue in
  with_unitProductionQueue (queue ++ [infantry; tank]) s.

(** ** Targets *)

Definition findEnemyCenter (enemyUnits : list Unit.t) : Position :=
  if (List.length enemyUnits =? 0)%nat then Pos (num 25) (num 25)
  else
    let avgX :=
      (fold_left (fun sum unit => sum + x (Unit.position unit))%js
                 enemyUnits (num 0)
       / Number.of_nat (List.length enemyUnits))%js in
    let avgY :=
      (fold_left (fun sum unit => sum + y (Unit.position unit))%js
                 enemyUnits (num 0)
       / Number.of_nat (List.length enemyUnits))%js in
    Pos (Number.round avgX) (Number.round avgY).

Definition findBestAttackTarget (enemyUnits : list Unit.t) : Position :=
  let priorityTargets :=
    filter
      (fun unit =>
         match Unit.type unit with
         | missile_launcher | tank => true
         | _ => false
         end)
      enemyUnits in
  match priorityTargets with
  | first :: _ => Unit.position first
  | [] =>
      match enemyUnits with
      | first :: _ => Unit.position first
      | [] => Pos (num 25) (num 25)
      end
  end.

Definition findClosestUnit (position : Position) (units : list Unit.t)
  : option Unit.t :=
  match units with
  | [] => None
  | first :: rest =>
      Some
        (fold_left
           (fun closest unit =>
              let distance := getDistance position (Unit.position unit) in
              let closestDistance :=
                getDistance position (Unit.position closest) in
              if (distance <? closestDistance)%js then unit else closest)
           rest first)
  end.

Definition findClosestBuilding (position : Position)
    (buildings : list Building.t) : option Building.t :=
  match buildings with
  | [] => None
  | first :: rest =>
      Some
        (fold_left
           (fun closest building =>
              let distance := getDistance position (Building.position building) in
              let closestDistance :=
                getDistance position (Building.position closest) in
              if (distance <? closestDistance)%js then building else closest)
           rest first)
  end.

End AdvancedAI.

(* ================================================================== *)
(** * The game store ([src/store/gameStore.ts]) *)
(* ================================================================== *)

(** A [Player]: the fields that the store actions read or write. *)
Module Player.
Inductive difficulty_t : Type := easy | medium | hard.
Inductive strategy_t : Type := aggressive | defensive | balanced.
Record t : Type := mk {
  id : string;
  name : string;
  color : string;
  isAI : bool;
  difficulty : difficulty_t;
  strategy : strategy_t;
  resources : Resources.t;
  isAlive : bool
}.

Definition with_resources (v : Resources.t) (p : t) : t :=
  mk (id p) (name p) (color p) (isAI p) (difficulty p) (strategy p) v
     (isAlive p).
End Player.

Module ProductionItem.
Record t : Type := mk {
  type : UnitType;
  progress : number;
  cost : Resources.t
}.
End ProductionItem.

(** A [Unit] as the store keeps it: the fields of [Unit.t] and the ones
    that only the store uses. *)
Module StoredUnit.
Record t : Type := mk {
  unit : Unit.t;
  isSelected : bool;
  target : option Position;
  isMoving : bool;
  lastMoved : number
}.
End StoredUnit.

(** A [Building] as the store keeps it. *)
Module StoredBuilding.
Record t : Type := mk {
  building : Building.t;
  health : number;
  maxHealth : number;
  isConstructed : bool;
  constructionProgress : number;
  isSelected : bool;
  productionQueue : list ProductionItem.t
}.

Definition with_productionQueue (v : list ProductionItem.t) (b : t) : t :=
  mk (building b) (health b) (maxHealth b) (isConstructed b)
     (constructionProgress b) (isSelected b) v.
End StoredBuilding.

Module MapSize.
Record t : Type := mk { width : number; height : number }.
End MapSize.

Module Camera.
Record t : Type := mk { x : number; y : number; zoom : number }.
End Camera.

Module GameStore.

Inductive gameMode_t : Type := singleplayer | multiplayer.
Inductive victoryCondition_t : Type := domination | economic | diplomatic.

(** A row of [fogOfWar]; [None] is an index of the row that holds no
    boolean. *)
Definition row : Type := list (option bool).

Record state : Type := mkState {
  gameId : string;
  isGameStarted : bool;
  isPaused : bool;
  gameSpeed : number;
  currentTick : number;
  players : list Player.t;
  currentPlayerId : string;
  units : list StoredUnit.t;
  buildings : list StoredBuilding.t;
  mapSize : MapSize.t;
  fogOfWar : list row;
  selectedUnits : list string;
  selectedBuildings : list string;
  camera : Camera.t;
  gameMode : gameMode_t;
  victoryCondition : victoryCondition_t;
  gameTime : number
}.

(** [set({ field: v })] for the fields that the actions below set. *)
Definition with_currentTick (v : number) (s : state) : state :=
  mkState (gameId s) (isGameStarted s) (isPaused s) (gameSpeed s) v
    (players s) (currentPlayerId s) (units s) (buildings s) (mapSize s)
    (fogOfWar s) (selectedUnits s) (selectedBuildings s) (camera s)
    (gameMode s) (victoryCondition s) (gameTime s).
Definition with_players (v : list Player.t) (s : state) : state :=
  mkState (gameId s) (isGameStarted s) (isPaused s) (gameSpeed s)
    (currentTick s) v (currentPlayerId s) (units s) (buildings s) (mapSize s)
    (fogOfWar s) (selectedUnits s) (selectedBuildings s) (camera s)
    (gameMode s) (victoryCondition s) (gameTime s).
Definition with_units (v : list StoredUnit.t) (s : state) : state :=
  mkState (gameId s) (isGameStarted s) (isPaused s) (gameSpeed s)
    (currentTick s) (players s) (currentPlayerId s) v (buildings s) (mapSize s)
    (fogOfWar s) (selectedUnits s) (selectedBuildings s) (camera s)
    (gameMode s) (victoryCondition s) (gameTime s).
Definition with_buildings (v : list StoredBuilding.t) (s : state) : state :=
  mkState (gameId s) (isGameStarted s) (isPaused s) (gameSpeed s)
    (currentTick s) (players s) (currentPlayerId s) (units s) v (mapSize s)
    (fogOfWar s) (selectedUnits s) (selectedBuildings s) (camera s)
    (gameMode s) (victoryCondition s) (gameTime s).
Definition with_fogOfWar (v : list row) (s : state) : state :=
  mkState (gameId s) (isGameStarted s) (isPaused s) (gameSpeed s)
    (currentTick s) (players s) (currentPlayerId s) (units s) (buildings s)
    (mapSize s) v (selectedUnits s) (selectedBuildings s) (camera s)
    (gameMode s) (victoryCondition s) (gameTime s).
Definition with_selectedUnits (v : list string) (s : state) : state :=
  mkState (gameId s) (isGameStarted s) (isPaused s) (gameSpeed s)
    (currentTick s) (players s) (currentPlayerId s) (units s) (buildings s)
    (mapSize s) (fogOfWar s) v (selectedBuildings s) (camera s)
    (gameMode s) (victoryCondition s) (gameTime s).
Definition with_selectedBuildings (v : list string) (s : state) : state :=
  mkState (gameId s) (isGameStarted s) (isPaused s) (gameSpeed s)
    (currentTick s) (players s) (currentPlayerId s) (units s) (buildings s)
    (mapSize s) (fogOfWar s) (selectedUnits s) v (camera s)
    (gameMode s) (victoryCondition s) (gameTime s).
Definition with_gameTime (v : number) (s : state) : state :=
  mkState (gameId s) (isGameStarted s) (isPaused s) (gameSpeed s)
    (currentTick s) (players s) (currentPlayerId s) (units s) (buildings s)
    (mapSize s) (fogOfWar s) (selectedUnits s) (selectedBuildings s) (camera s)
    (gameMode s) (victoryCondition s) v.

Definition selectUnits (unitIds : list string) (s : state) : state :=
  with_units
    (map
       (fun u =>
          StoredUnit.mk (StoredUnit.unit u)
            (existsb (String.eqb (Unit.id (StoredUnit.unit u))) unitIds)
            (StoredUnit.target u) (StoredUnit.isMoving u)
            (StoredUnit.lastMoved u))
       (units s))
    (with_selectedUnits unitIds (with_selectedBuildings [] s)).

Definition moveUnitsTo (position : Position) (s : state) : state :=
  if (List.length (selectedUnits s) =? 0)%nat then s
  else
    with_units
      (map
         (fun u =>
            if existsb (String.eqb (Unit.id (StoredUnit.unit u)))
                       (selectedUnits s)
               && String.eqb (Unit.playerId (StoredUnit.unit u))
                             (currentPlayerId s)
            then StoredUnit.mk (StoredUnit.unit u) (StoredUnit.isSelected u)
                   (Some position) true (StoredUnit.lastMoved u)
            else u)
         (units s))
      s.

Definition canAfford (playerId : string) (cost : Resources.t) (s : state)
  : bool :=
  match find (fun p => String.eqb (Player.id p) playerId) (players s) with
  | None => false
  | Some player =>
      (Resources.oil (Player.resources player) >=? Resources.oil cost)%js
      && (Resources.steel (Player.resources player) >=? Resources.steel cost)%js
      && (Resources.energy (Player.resources player) >=? Resources.energy cost)%js
      && (Resources.money (Player.resources player) >=? Resources.money cost)%js
  end.

(** The player with the new [resources] object, after paying [cost]. *)
Definition pay (cost : Resources.t) (player : Player.t) : Player.t :=
  Player.with_resources
    (Resources.mk
       (Resources.oil (Player.resources player) - Resources.oil cost)%js
       (Resources.steel (Player.resources player) - Resources.steel cost)%js
       (Resources.energy (Player.resources player) - Resources.energy cost)%js
       (Resources.money (Player.resources player) - Resources.money cost)%js)
    player.

(** [players.map(player => player.id === currentPlayerId ? ... : player)]. *)
Definition charge (cost : Resources.t) (s : state) : list Player.t :=
  map
    (fun player =>
       if String.eqb (Player.id player) (currentPlayerId s)
       then pay cost player else player)
    (players s).

Definition buildingCosts (type : BuildingType) : Resources.t :=
  match type with
  | command_center => Resources.mk (num 0) (num 500) (num 0) (num 1000)
  | barracks => Resources.mk (num 50) (num 200) (num 100) (num 300)
  | vehicle_factory => Resources.mk (num 100) (num 400) (num 200) (num 600)
  | airbase => Resources.mk (num 200) (num 600) (num 300) (num 1000)
  | power_plant => Resources.mk (num 0) (num 300) (num 0) (num 500)
  | oil_refinery => Resources.mk (num 0) (num 250) (num 150) (num 400)
  | steel_mill => Resources.mk (num 100) (num 200) (num 200) (num 450)
  | research_lab => Resources.mk (num 50) (num 300) (num 250) (num 700)
  | defense_turret => Resources.mk (num 30) (num 150) (num 100) (num 250)
  end.

(** [newId] is the value of [uuidv4()]. *)
Definition constructBuilding (type : BuildingType) (position : Position)
    (newId : string) (s : state) : state :=
  let cost := buildingCosts type in
  if negb (canAfford (currentPlayerId s) cost s) then s
  else
    let newBuilding :=
      StoredBuilding.mk (Building.mk newId type position (currentPlayerId s))
        (num 100) (num 100) false (num 0) false [] in
    with_buildings (buildings s ++ [newBuilding]) (with_players (charge cost s) s).

Definition unitCosts (unitType : UnitType) : Resources.t :=
  match unitType with
  | infantry => Resources.mk (num 0) (num 20) (num 10) (num 100)
  | tank => Resources.mk (num 50) (num 100) (num 30) (num 300)
  | drone => Resources.mk (num 20) (num 60) (num 40) (num 200)
  | jet => Resources.mk (num 100) (num 150) (num 80) (num 500)
  | helicopter => Resources.mk (num 80) (num 120) (num 60) (num 400)
  | missile_launcher => Resources.mk (num 60) (num 80) (num 50) (num 350)
  | engineer => Resources.mk (num 0) (num 30) (num 20) (num 150)
  end.

Definition produceUnit (buildingId : string) (unitType : UnitType) (s : state)
  : state :=
  match find
          (fun b => String.eqb (Building.id (StoredBuilding.building b)) buildingId)
          (buildings s) with
  | None => s
  | Some found =>
      if negb (String.eqb (Building.playerId (StoredBuilding.building found))
                          (currentPlayerId s))
      then s
      else
        let cost := unitCosts unitType in
        if negb (canAfford (currentPlayerId s) cost s) then s
        else
          let productionItem := ProductionItem.mk unitType (num 0) cost in
          with_buildings
            (map
               (fun b =>
                  if String.eqb (Building.id (StoredBuilding.building b))
                                buildingId
                  then StoredBuilding.with_productionQueue
                         (StoredBuilding.productionQueue b ++ [productionItem])
                         b
                  else b)
               (buildings s))
            (with_players (charge cost s) s)
  end.

(** ** Fog of war *)

(** [row[i] = false]: an index past the end lengthens the row, leaving the
    indices in between without a boolean; from [2 ^ 32 - 1] on, [i] is no
    array index and the row is as it was. *)
Definition clear_cell (i : nat) (r : row) : row :=
  if (i <? List.length r)%nat then update_nth i (fun _ => Some false) r
  else if (Z.of_nat i <? 2 ^ 32 - 1)%Z
       then r ++ repeat None (i - List.length r) ++ [Some false]
       else r.

(** [newFogOfWar[y][x] = false], which throws where [newFogOfWar[y]] is
    undefined. *)
Definition clear (cy cx : number) (fog : list row) : option (list row) :=
  match index_of cy with
  | None => None
  | Some j =>
      match nth_error fog j with
      | None => None
      | Some _ =>
          match index_of cx with
          | None => Some fog
          | Some i => Some (update_nth j (clear_cell i) fog)
          end
      end
  end.

Definition visionRange : Z := 8.

(** The integers from [-visionRange] to [visionRange], as the two loops
    count. *)
Definition offsets : list Z :=
  map (fun k => (Z.of_nat k - visionRange)%Z)
      (seq 0 (Z.to_nat (2 * visionRange + 1))).

(** The body of the inner loop. *)
Definition reveal (size : MapSize.t) (position : Position) (dx dy : Z)
    (fog : list row) : option (list row) :=
  let cx := Number.floor (x position + num dx)%js in
  let cy := Number.floor (y position + num dy)%js in
  if (cx >=? num 0)%js && (cx <? MapSize.width size)%js
     && (cy >=? num 0)%js && (cy <? MapSize.height size)%js
  then
    let distance := Number.sqrt (num dx * num dx + num dy * num dy)%js in
    if (distance <=? num visionRange)%js then clear cy cx fog else Some fog
  else Some fog.

(** A loop whose body may throw. *)
Fixpoint forEach {A S : Type} (body : A -> S -> option S) (l : list A) (s : S)
  : option S :=
  match l with
  | [] => Some s
  | a :: r =>
      match body a s with
      | None => None
      | Some s' => forEach body r s'
      end
  end.

Definition revealAround (size : MapSize.t) (position : Position)
    (fog : list row) : option (list row) :=
  forEach (fun dx => forEach (fun dy => reveal size position dx dy) offsets)
    offsets fog.

Definition updateFogOfWar (playerId : string) (s : state) : option state :=
  let playerUnits :=
    filter (fun u => String.eqb (Unit.playerId (StoredUnit.unit u)) playerId)
      (units s) in
  let playerBuildings :=
    filter
      (fun b => String.eqb (Building.playerId (StoredBuilding.building b))
                  playerId)
      (buildings s) in
  match
    forEach (revealAround (mapSize s))
      (map (fun u => Unit.position (StoredUnit.unit u)) playerUnits
       ++ map (fun b => Building.position (StoredBuilding.building b))
            playerBuildings)
      (fogOfWar s)
  with
  | None => None
  | Some newFogOfWar => Some (with_fogOfWar newFogOfWar s)
  end.

(** ** The game loop *)

(** The unit after one tick of movement. *)
Definition moveUnit (unit : StoredUnit.t) : StoredUnit.t :=
  match StoredUnit.isMoving unit, StoredUnit.target unit with
  | true, Some target =>
      let position := Unit.position (StoredUnit.unit unit) in
      let dx := (x target - x position)%js in
      let dy := (y target - y position)%js in
      let distance := Number.sqrt (dx * dx + dy * dy)%js in
      if (distance <? frac 1 2)%js then
        StoredUnit.mk (StoredUnit.unit unit) (StoredUnit.isSelected unit)
          None false (StoredUnit.lastMoved unit)
      else
        let moveX := (dx / distance * Unit.speed (StoredUnit.unit unit)
                      * frac 1 10)%js in
        let moveY := (dy / distance * Unit.speed (StoredUnit.unit unit)
                      * frac 1 10)%js in
        StoredUnit.mk
          (Unit.with_position
             (Pos (x position + moveX)%js (y position + moveY)%js)
             (StoredUnit.unit unit))
          (StoredUnit.isSelected unit) (StoredUnit.target unit)
          (StoredUnit.isMoving unit) (StoredUnit.lastMoved unit)
  | _, _ => unit
  end.

(** The unit that leaves a building of [building]'s place and owner. *)
Definition newUnit (id : string) (unitType : UnitType) (building : Building.t)
    (newTick : number) : StoredUnit.t :=
  StoredUnit.mk
    (Unit.mk id unitType
       (Pos (x (Building.position building) + num 2)%js
            (y (Building.position building) + num 2)%js)
       (Building.playerId building) (num 100) (num 100)
       (match unitType with infantry => num 25 | tank => num 75 | _ => num 50 end)
       (match unitType with jet => num 10 | tank => num 5 | _ => num 3 end)
       (match unitType with jet => num 3 | infantry => num 1 | _ => num 2 end))
    false None false newTick.

(** The callback of [state.buildings.map]: the building it returns, and what
    it does to the store, namely to its [units] and to the number of
    identifiers drawn so far. *)
Definition tickBuilding (uuidv4 : nat -> string) (newTick : number)
    (store : list StoredUnit.t * nat) (building : StoredBuilding.t)
  : (list StoredUnit.t * nat) * StoredBuilding.t :=
  if negb (StoredBuilding.isConstructed building) then
    let newProgress :=
      Number.min (num 100) (StoredBuilding.constructionProgress building + num 2)%js in
    (store,
     StoredBuilding.mk (StoredBuilding.building building)
       (StoredBuilding.health building) (StoredBuilding.maxHealth building)
       (newProgress >=? num 100)%js newProgress
       (StoredBuilding.isSelected building)
       (StoredBuilding.productionQueue building))
  else
    match StoredBuilding.productionQueue building with
    | first :: rest =>
        let first' :=
          ProductionItem.mk (ProductionItem.type first)
            (Number.min (num 100) (ProductionItem.progress first + num 1)%js)
            (ProductionItem.cost first) in
        if (ProductionItem.progress first' >=? num 100)%js then
          let unit :=
            newUnit (uuidv4 (snd store)) (ProductionItem.type first')
              (StoredBuilding.building building) newTick in
          ((fst store ++ [unit], S (snd store)),
           StoredBuilding.with_productionQueue rest building)
        else
          (store, StoredBuilding.with_productionQueue (first' :: rest) building)
    | [] => (store, building)
    end.

(** [array.map(callback)] for a callback that also acts on a store. *)
Fixpoint mapWith {A B S : Type} (callback : S -> A -> S * B) (store : S)
    (l : list A) : S * list B :=
  match l with
  | [] => (store, [])
  | a :: r =>
      let '(store', b) := callback store a in
      let '(store'', bs) := mapWith callback store' r in
      (store'', b :: bs)
  end.

(** The player after the income of one tick. *)
Definition income (updatedBuildings : list StoredBuilding.t)
    (player : Player.t) : Player.t :=
  let playerBuildings :=
    filter
      (fun b =>
         String.eqb (Building.playerId (StoredBuilding.building b))
                    (Player.id player)
         && StoredBuilding.isConstructed b)
      updatedBuildings in
  let count (ofType : BuildingType -> bool) :=
    Number.of_nat
      (List.length
         (filter (fun b => ofType (Building.type (StoredBuilding.building b)))
            playerBuildings)) in
  let resourceGain :=
    Resources.mk
      (count (fun t => match t with oil_refinery => true | _ => false end)
       * num 10)%js
      (count (fun t => match t with steel_mill => true | _ => false end)
       * num 8)%js
      (count (fun t => match t with power_plant => true | _ => false end)
       * num 15)%js
      (count (fun t => match t with command_center => true | _ => false end)
       * num 20)%js in
  Player.with_resources
    (Resources.mk
       (Resources.oil (Player.resources player) + Resources.oil resourceGain)%js
       (Resources.steel (Player.resources player)
        + Resources.steel resourceGain)%js
       (Resources.energy (Player.resources player)
        + Resources.energy resourceGain)%js
       (Resources.money (Player.resources player)
        + Resources.money resourceGain)%js)
    player.

(** [tick] gives the store as it is when [tick] returns or calls
    [gameManager.updateAI()], and tells whether it makes that call; it gives
    nothing when it throws.  [uuidv4 k] is the value of the call of
    [uuidv4()] that [k] calls precede. *)
Definition tick (uuidv4 : nat -> string) (s : state) : option (state * bool) :=
  if negb (isGameStarted s) || isPaused s then Some (s, false)
  else
    let newTick := (currentTick s + num 1)%js in
    let newGameTime := (gameTime s + num 1000 / num 60 * gameSpeed s)%js in
    let updatedUnits := map moveUnit (units s) in
    let '(store, updatedBuildings) :=
      mapWith (tickBuilding uuidv4 newTick) (units s, 0%nat) (buildings s) in
    let s1 := with_units (fst store) s in
    let updatedPlayers := map (income updatedBuildings) (players s) in
    let s2 :=
      with_currentTick newTick
        (with_gameTime newGameTime
           (with_units updatedUnits
              (with_buildings updatedBuildings
                 (with_players updatedPlayers s1)))) in
    match updateFogOfWar (currentPlayerId s) s2 with
    | None => None
    | Some s3 => Some (s3, (Number.rem newTick (num 60) =? num 0)%js)
    end.

End GameStore.

(* ================================================================== *)
(** * Sample worlds *)
(* ================================================================== *)

Module Sample.

Definition at_ (cx cy : Z) : Position := Pos (num cx) (num cy).

Definition tile (k : TerrainTile.kind) (cx cy : nat) : TerrainTile.t :=
  match k with
  | TerrainTile.mountain | TerrainTile.water =>
      TerrainTile.mk (Pos (Number.of_nat cx) (Number.of_nat cy)) k false PosInf None
  | TerrainTile.forest =>
      TerrainTile.mk (Pos (Number.of_nat cx) (Number.of_nat cy)) k true (num 2) None
  | TerrainTile.road =>
      TerrainTile.mk (Pos (Number.of_nat cx) (Number.of_nat cy)) k true (frac 1 2) None
  | TerrainTile.grass =>
      TerrainTile.mk (Pos (Number.of_nat cx) (Number.of_nat cy)) k true (num 1) None
  end.

(** A [w] by [h] map of grass without resource zones. *)
Definition openGrid (w h : nat) : TerrainManager.t :=
  TerrainManager.mk
    (map (fun cy => map (fun cx => tile TerrainTile.grass cx cy) (seq 0 w))
         (seq 0 h))
    JSMap.empty (Number.of_nat w) (Number.of_nat h).

(** A map of four by three passable tiles: forest between the two ends of
    the first row, and a road around it. *)
Definition roadsAndForest : TerrainManager.t :=
  TerrainManager.mk
    [[tile TerrainTile.grass 0 0; tile TerrainTile.forest 1 0;
      tile TerrainTile.forest 2 0; tile TerrainTile.grass 3 0];
     [tile TerrainTile.road 0 1; tile TerrainTile.forest 1 1;
      tile TerrainTile.forest 2 1; tile TerrainTile.road 3 1];
     [tile TerrainTile.road 0 2; tile TerrainTile.road 1 2;
      tile TerrainTile.road 2 2; tile TerrainTile.road 3 2]]
    JSMap.empty (num 4) (num 3).

(** A corridor of three tiles whose middle one is a mountain. *)
Definition walledCorridor : TerrainManager.t :=
  TerrainManager.mk
    [[tile TerrainTile.grass 0 0; tile TerrainTile.mountain 1 0;
      tile TerrainTile.grass 2 0]]
    JSMap.empty (num 3) (num 1).

(** A map with one oil zone holding [remaining] units and [workers]. *)
Definition oilField (remaining : number) (workers : list string)
  : TerrainManager.t :=
  TerrainManager.mk []
    (JSMap.of_list
       [("oil_0"%string,
         ResourceZone.mk "oil_0" ResourceZone.oil (at_ 10 10) (num 3)
           (num 5000) remaining (num 50) workers false)])
    (num 50) (num 50).

(** A map whose one zone is as generated, and the same with a worker. *)
Definition freshField : TerrainManager.t :=
  TerrainManager.mk []
    (JSMap.of_list
       [("oil_0"%string,
         TerrainManager.newZone ResourceZone.oil 0 (at_ 10 10) (num 0))])
    (num 50) (num 50).

Definition staffedField : TerrainManager.t :=
  snd (TerrainManager.assignWorkerToZone "w1" "oil_0" freshField).

(** A map whose one zone has been emptied. *)
Definition drainedZone : ResourceZone.t :=
  ResourceZone.mk "oil_0" ResourceZone.oil (at_ 10 10) (num 3) (num 5000)
    (num 0) (num 50) [] true.

Definition drainedField : TerrainManager.t :=
  TerrainManager.mk [] (JSMap.of_list [("oil_0"%string, drainedZone)])
    (num 50) (num 50).

Definition soldier (id : string) (p : Position) : Unit.t :=
  Unit.mk id infantry p "p2" (num 100) (num 100) (num 10) (num 5) (num 2).

Definition moveOrder (id unitId : string) (p : Position) (createdAt : Z)
  : UnitCommand.t :=
  UnitCommand.mk id unitId UnitCommand.move (UnitCommand.AtPosition p)
    (num 5) createdAt UnitCommand.player.

Definition controller (commands : list (string * UnitCommand.t))
  : IntelligentUnitController.t :=
  IntelligentUnitController.with_activeCommands (JSMap.of_list commands)
    (IntelligentUnitController.new (openGrid 5 5)).

(** A world whose unit [w1] stands in the oil zone it is registered with. *)
Definition gatherWorld : IntelligentUnitController.state :=
  IntelligentUnitController.mkState
    (IntelligentUnitController.new staffedField)
    [soldier "w1" (at_ 10 10)] 0.

(** A world whose unit [u1] stands on the target of its move command. *)
Definition arrivedWorld (commandId : string) : IntelligentUnitController.state :=
  IntelligentUnitController.mkState
    (controller [(commandId, moveOrder commandId "u1" (at_ 2 2) 1000)])
    [soldier "u1" (at_ 2 2)] 0.

(** A world with a move command issued at time 0 that is still under way,
    and a recent one. *)
Definition staleWorld : IntelligentUnitController.state :=
  IntelligentUnitController.mkState
    (controller
       [("move_u1_0"%string, moveOrder "move_u1_0" "u1" (at_ 4 4) 0);
        ("move_u2_99000"%string, moveOrder "move_u2_99000" "u2" (at_ 0 4) 99000)])
    [soldier "u1" (at_ 0 0); soldier "u2" (at_ 4 0)] 0.

(** A world that remembers the enemy [e1], sighted at time 0. *)
Definition hauntedWorld : IntelligentUnitController.state :=
  IntelligentUnitController.mkState
    (IntelligentUnitController.with_threatMap
       (JSMap.of_list
          [("e1"%string,
            ThreatAssessment.mk "e1" (at_ 1 1) (frac 3 10) infantry 0 false)])
       (controller []))
    [soldier "u1" (at_ 0 0)] 0.

(** A world whose unit [u1] stands at one end of the walled corridor. *)
Definition blockedWorld : IntelligentUnitController.state :=
  IntelligentUnitController.mkState
    (IntelligentUnitController.new walledCorridor)
    [soldier "u1" (at_ 0 0)] 0.

(** A world whose unit [u1] is at the first waypoint of the path stored
    for it. *)
Definition marchingWorld : IntelligentUnitController.state :=
  IntelligentUnitController.mkState
    (IntelligentUnitController.with_unitPaths
       (JSMap.of_list [("u1"%string, [at_ 0 0; at_ 4 0])])
       (controller []))
    [soldier "u1" (at_ 0 0)] 0.

(** Stand-ins for [Math.cos], [Math.sin] and [Math.PI]: Taylor polynomials
    of the second order and the fraction 355 / 113. *)
Definition cosine (a : number) : number :=
  match a with
  | Num q => Num (Qred (1 - q * q / 2))
  | _ => NaN
  end.

Definition sine (a : number) : number :=
  match a with
  | Num q => Num (Qred q)
  | _ => NaN
  end.

Definition pi : number := frac 355 113.

Definition treasury (n : Z) : Resources.t :=
  Resources.mk (num n) (num n) (num n) (num n).

(** A store with a human player, whose turn it is, and an AI player.  Each
    has one soldier; the command center of the human player is about to
    finish a soldier, on a map of twelve by ten cells under fog. *)
Definition store : GameStore.state :=
  GameStore.mkState "game" true false (num 1) (num 59)
    [Player.mk "p1" "Player 1" "#3b82f6" false Player.medium Player.balanced
       (treasury 1000) true;
     Player.mk "ai1" "AI 1" "#ef4444" true Player.medium Player.balanced
       (treasury 1000) true]
    "p1"
    [StoredUnit.mk
       (Unit.mk "mine" infantry (at_ 1 1) "p1" (num 100) (num 100) (num 25)
          (num 3) (num 1))
       false None false (num 0);
     StoredUnit.mk
       (Unit.mk "theirs" infantry (at_ 8 8) "ai1" (num 100) (num 100) (num 25)
          (num 3) (num 1))
       false None false (num 0)]
    [StoredBuilding.mk (Building.mk "hq" command_center (at_ 0 0) "p1")
       (num 1000) (num 1000) true (num 100) false
       [ProductionItem.mk infantry (num 99) (GameStore.unitCosts infantry)]]
    (MapSize.mk (num 12) (num 10))
    (repeat (repeat (Some true) 12) 10)
    [] [] (Camera.mk (num 0) (num 0) (num 1))
    GameStore.singleplayer GameStore.domination (num 0).

(** A clock that advances one millisecond at each reading. *)
Definition ticking (start : Z) : nat -> Z := fun n => (start + Z.of_nat n)%Z.

End Sample.


(* ================================================================== *)
(** * Vocabulary of the properties *)
(* ================================================================== *)

(** ** Resource zones *)

(** The workers registered with the zone stored under [zoneId]. *)
Definition workersOf (zoneId : string) (tm : TerrainManager.t) : list string :=
  match JSMap.get zoneId (TerrainManager.resourceZones tm) with
  | Some zone => ResourceZone.workersAssigned zone
  | None => []
  end.

(** What holds of every zone the manager can come to hold: amounts are
    finite and not negative, an exhausted zone has no workers, and an empty
    one is exhausted. *)
Definition zone_ok (zone : ResourceZone.t) : Prop :=
  exists remaining rate : Q,
    ResourceZone.remainingResources zone = Num remaining
    /\ ResourceZone.gatheringRate zone = Num rate
    /\ (0 <= remaining)%Q /\ (0 <= rate)%Q
    /\ (ResourceZone.isExhausted zone = true ->
        ResourceZone.workersAssigned zone = [])
    /\ ((remaining <= 0)%Q -> ResourceZone.isExhausted zone = true).

(** A zone as [generateResourceZones] stores it. *)
Definition generated (e : string * ResourceZone.t) : Prop :=
  exists resourceType i position (rnd : Q),
    (0 <= rnd)%Q /\ (rnd < 1)%Q
    /\ snd e = TerrainManager.newZone resourceType i position (Num rnd)
    /\ fst e = ResourceZone.id (snd e).

(** The managers that the constructor and the zone operations produce;
    a tick lasts a finite, non-negative time. *)
Inductive reachable : TerrainManager.t -> Prop :=
| reach_new tm :
    Forall generated (JSMap.entries (TerrainManager.resourceZones tm)) ->
    reachable tm
| reach_assign workerId zoneId tm :
    reachable tm ->
    reachable (snd (TerrainManager.assignWorkerToZone workerId zoneId tm))
| reach_remove workerId zoneId tm :
    reachable tm ->
    reachable (TerrainManager.removeWorkerFromZone workerId zoneId tm)
| reach_gather zoneId (deltaTime : Q) tm :
    reachable tm -> (0 <= deltaTime)%Q ->
    reachable (snd (TerrainManager.gatherResources zoneId (Num deltaTime) tm)).

(** ** Commands *)

(** The active commands addressed to a unit. *)
Definition commandsFor (unitId : string) (c : IntelligentUnitController.t)
  : list UnitCommand.t :=
  filter (fun command => String.eqb (UnitCommand.unitId command) unitId)
         (JSMap.values (IntelligentUnitController.activeCommands c)).

(** ** Formations *)

Definition finitePosition (p : Position) : Prop :=
  Number.is_finite (x p) = true /\ Number.is_finite (y p) = true.

(** ** The search of the path finder *)

(** Two positions with the same key in the closed set. *)
Definition samePos (p q : Position) : Prop :=
  (x p == x q)%js /\ (y p == y q)%js.

Fixpoint rowPositions (r c : nat) (row : list TerrainTile.t) : list Position :=
  match row with
  | [] => []
  | _ :: rest => Pos (Number.of_nat c) (Number.of_nat r) :: rowPositions r (S c) rest
  end.

Fixpoint gridPositions (r : nat) (rows : list (list TerrainTile.t))
  : list Position :=
  match rows with
  | [] => []
  | row :: rest => rowPositions r 0 row ++ gridPositions (S r) rest
  end.

(** The coordinates at which [terrain[y][x]] is defined. *)
Definition tilePositions (tm : TerrainManager.t) : list Position :=
  gridPositions 0 (TerrainManager.terrain tm).

Definition isTile (tm : TerrainManager.t) (p : Position) : Prop :=
  exists t, In t (tilePositions tm) /\ samePos t p.

(** The tiles that are not closed yet: the search closes one of them at
    each iteration after the first. *)
Definition unclosed (tm : TerrainManager.t) (closedSet : list Position)
  : list Position :=
  filter (fun t => negb (TerrainManager.closed_has closedSet t))
         (tilePositions tm).

(** What holds of the open and the closed set between two iterations: the
    open nodes stand on tiles that are not closed, no two on the same. *)
Record search_inv (tm : TerrainManager.t) (openSet : list PathNode)
    (closedSet : list Position) : Prop := {
  inv_tiles : Forall (isTile tm) (map PathNode.position openSet);
  inv_fresh :
    Forall (fun p => TerrainManager.closed_has closedSet p = false)
           (map PathNode.position openSet);
  inv_distinct :
    ForallOrdPairs (fun p q => ~ samePos p q) (map PathNode.position openSet)
}.

(** [q] is one of the eight neighbours of [p]. *)
Definition adjacent (p q : Position) : Prop :=
  exists dx dy : Z,
    (-1 <= dx <= 1)%Z /\ (-1 <= dy <= 1)%Z
    /\ (x q == x p + num dx)%js /\ (y q == y p + num dy)%js.

(** The nodes the search from [start] creates: the [parent] links step
    from neighbour to neighbour back to a node on [start]. *)
Inductive chain (start : Position) : PathNode -> Prop :=
| chain_root g h f : chain start (Node start g h f None)
| chain_step p g h f parent :
    chain start parent ->
    adjacent (PathNode.position parent) p ->
    chain start (Node p g h f (Some parent)).

(** Consecutive waypoints are neighbours. *)
Fixpoint stepwise (path : list Position) : Prop :=
  match path with
  | p :: (q :: _) as rest => adjacent p q /\ stepwise rest
  | _ => True
  end.

(** ** The effect of controller methods on the command table *)

(** A clock that never runs backwards. *)
Definition monotone (clock : nat -> Z) : Prop :=
  forall n m, (n <= m)%nat -> (clock n <= clock m)%Z.

(** A command created at one of the readings of the clock from the
    [r0]-th on. *)
Definition createdSince (clock : nat -> Z) (r0 : nat) (command : UnitCommand.t)
  : Prop :=
  exists r, (r0 <= r)%nat /\ UnitCommand.createdAt command = clock r.

(** [table_ops fresh m m' w]: the table [m'] results from [m] by removals
    and by insertions of [fresh] commands of total weight [w]. *)
Inductive table_ops (fresh : UnitCommand.t -> Prop)
  : JSMap.t UnitCommand.t -> JSMap.t UnitCommand.t -> nat -> Prop :=
| ops_none m : table_ops fresh m m 0
| ops_delete k m m' w :
    table_ops fresh m m' w -> table_ops fresh m (JSMap.delete k m') w
| ops_set command m m' w :
    fresh command ->
    table_ops fresh m m' w ->
    table_ops fresh m (JSMap.set (UnitCommand.id command) command m')
      (w + IntelligentUnitController.commandWeight command).

(** [effect clock r0 w Q m]: started after at least [r0] readings of the
    clock, the method [m] returns, its result satisfies [Q], it leaves the
    threat map alone, and it changes the command table by removals and by
    insertions, of weight [w] at most, of commands created since [r0]. *)
Definition effect {A : Type} (clock : nat -> Z) (r0 w : nat) (Q : A -> Prop)
    (m : IntelligentUnitController.M A) : Prop :=
  forall s,
    (r0 <= IntelligentUnitController.reads s)%nat ->
    exists a s' w',
      m s = Some (a, s') /\ Q a
      /\ (IntelligentUnitController.reads s
          <= IntelligentUnitController.reads s')%nat
      /\ IntelligentUnitController.threatMap (IntelligentUnitController.self s')
         = IntelligentUnitController.threatMap (IntelligentUnitController.self s)
      /\ (w' <= w)%nat
      /\ table_ops (createdSince clock r0)
           (IntelligentUnitController.activeCommands
              (IntelligentUnitController.self s))
           (IntelligentUnitController.activeCommands
              (IntelligentUnitController.self s'))
           w'.

(** Every command the iterator has yielded is [good] or listed for
    removal. *)
Definition kept (good : UnitCommand.t -> Prop) (commandsToRemove : list string)
    (m : JSMap.t UnitCommand.t) : Prop :=
  forall k command,
    In (k, command) (JSMap.yielded m) -> good command \/ In k commandsToRemove.

(** A command no older than the timeout at time [t]. *)
Definition young (t : Z) (command : UnitCommand.t) : Prop :=
  (t - UnitCommand.createdAt command <= 60000)%Z.

(** ** Threat entries *)

(** An entry sighted at most 30 s before [t]. *)
Definition recent (t : Z) (threat : ThreatAssessment.t) : Prop :=
  (t - ThreatAssessment.lastSeen threat <= 30000)%Z.

(** A method that returns and leaves the threat map as it found it. *)
Definition keeps_threats {A : Type} (m : IntelligentUnitController.M A) : Prop :=
  forall s,
    exists a s',
      m s = Some (a, s')
      /\ IntelligentUnitController.threatMap (IntelligentUnitController.self s')
         = IntelligentUnitController.threatMap (IntelligentUnitController.self s).

(** ** Maps without obstacles *)

(** A map of [h] rows of [w] tiles, all passable, with [mapSize] to match. *)
Record openTerrain (tm : TerrainManager.t) (w h : nat) : Prop := {
  open_rows : List.length (TerrainManager.terrain tm) = h;
  open_cols :
    Forall (fun row => List.length row = w) (TerrainManager.terrain tm);
  open_passable :
    Forall (Forall (fun t => TerrainTile.isPassable t = true))
           (TerrainManager.terrain tm);
  open_width : TerrainManager.mapSize_width tm = Number.of_nat w;
  open_height : TerrainManager.mapSize_height tm = Number.of_nat h
}.

(** The position of the tile in column [c] of row [r]. *)
Definition tileAt (c r : nat) : Position :=
  Pos (Number.of_nat c) (Number.of_nat r).

(** Two tiles that touch, or one tile twice. *)
Definition touching (c r c' r' : nat) : Prop :=
  (c <= S c' /\ c' <= S c /\ r <= S r' /\ r' <= S r)%nat.

(** A position that a node of the open set stands on. *)
Definition openAt (openSet : list PathNode) (p : Position) : Prop :=
  exists q, In q (map PathNode.position openSet) /\ samePos q p.

(** A position that is closed or has a node in the open set. *)
Definition covered (openSet : list PathNode) (closedSet : list Position)
    (p : Position) : Prop :=
  TerrainManager.closed_has closedSet p = true
  \/ exists n, In n openSet /\ samePos (PathNode.position n) p.

(** What holds between two iterations of a search on an open map that has
    not reached the goal: no closed position is within reach of the goal,
    the tiles around a closed tile are closed or open, and so is the
    start. *)
Record frontier_inv (w h : nat) (start end_ : Position)
    (openSet : list PathNode) (closedSet : list Position) : Prop := {
  frontier_far :
    Forall (fun c => (getDistance c end_ <? num 1)%js = false) closedSet;
  frontier_closed :
    forall c r c' r',
      (c < w)%nat -> (r < h)%nat -> (c' < w)%nat -> (r' < h)%nat ->
      touching c r c' r' ->
      TerrainManager.closed_has closedSet (tileAt c r) = true ->
      covered openSet closedSet (tileAt c' r');
  frontier_start : covered openSet closedSet start
}.

(** ** Maps of grass *)

(** A map whose tiles all cost 1 to enter, as grass does. *)
Definition plainTerrain (tm : TerrainManager.t) : Prop :=
  Forall (Forall (fun t => TerrainTile.movementCost t = num 1))
         (TerrainManager.terrain tm).

(** The number of [parent] links behind a node. *)
Fixpoint depth (n : PathNode) : nat :=
  match n with
  | Node _ _ _ _ parent =>
      match parent with
      | None => 0
      | Some p => S (depth p)
      end
  end.

(** A node of a search on a map of grass: its [gCost] is the number of
    steps behind it, its [hCost] its distance from the goal, and its
    [fCost] their sum. *)
Definition priced (end_ : Position) (n : PathNode) : Prop :=
  exists g hc : Q,
    PathNode.gCost n = Num g /\ (g == inject_Z (Z.of_nat (depth n)))%Q
    /\ PathNode.hCost n = Num hc
    /\ getDistance (PathNode.position n) end_ = Num hc
    /\ PathNode.fCost n = Num (Qred (g + hc)).

(** A node whose [fCost] is at most [bound]. *)
Definition within (bound : Q) (n : PathNode) : Prop :=
  exists f, PathNode.fCost n = Num f /\ (f <= bound)%Q.

(** The column, or row, next to [c] on the side of [g]. *)
Definition toward (c g : nat) : nat :=
  if (c <? g)%nat then S c else if (g <? c)%nat then pred c else c.

(** A position that is closed or has an open node within [bound]. *)
Definition promising (bound : Q) (openSet : list PathNode)
    (closedSet : list Position) (p : Position) : Prop :=
  TerrainManager.closed_has closedSet p = true
  \/ exists n, In n openSet /\ samePos (PathNode.position n) p /\ within bound n.

(** What holds between two iterations of a search for the tile in column
    [gc] of row [gr] on a map of grass: the start is promising, and so is
    the tile next to a closed tile on the side of the goal. *)
Record guided_inv (w h gc gr : nat) (bound : Q) (start : Position)
    (openSet : list PathNode) (closedSet : list Position) : Prop := {
  guided_start : promising bound openSet closedSet start;
  guided_next :
    forall c r,
      (c < w)%nat -> (r < h)%nat -> (c, r) <> (gc, gr) ->
      TerrainManager.closed_has closedSet (tileAt c r) = true ->
      promising bound openSet closedSet (tileAt (toward c gc) (toward r gr))
}.

(** The square of the distance between two tiles, as a whole number. *)
Definition gap (c r gc gr : nat) : Z :=
  ((Z.of_nat c - Z.of_nat gc) * (Z.of_nat c - Z.of_nat gc)
   + (Z.of_nat r - Z.of_nat gr) * (Z.of_nat r - Z.of_nat gr))%Z.

(** The root of [d], in units of [2 ^ - sqrt_bits]. *)
Definition root (d : Z) : Z := Z.sqrt (d * 4 ^ Number.sqrt_bits).

(** The number of steps from a tile to the goal. *)
Definition remaining (c r gc gr : nat) : nat :=
  Nat.max ((c - gc) + (gc - c)) ((r - gr) + (gr - r)).

(** ** Paths among obstacles *)

(** The nodes of a search among [units] and [buildings]: each node but the
    first of its [parent] links stands on a position that [isPassable]
    accepts. *)
Inductive cleared (tm : TerrainManager.t) (units : list Unit.t)
    (buildings : list Building.t) : PathNode -> Prop :=
| cleared_root p g h f : cleared tm units buildings (Node p g h f None)
| cleared_step p g h f parent :
    cleared tm units buildings parent ->
    TerrainManager.isPassable tm p units buildings = true ->
    cleared tm units buildings (Node p g h f (Some parent)).



(** ** Sequences of zone operations *)

(** A call of one of the three operations on resource zones. *)
Inductive zoneOp : Type :=
| Assign (workerId zoneId : string)
| Remove (workerId zoneId : string)
| Gather (zoneId : string) (deltaTime : number).

(** The manager after a call. *)
Definition after (op : zoneOp) (tm : TerrainManager.t) : TerrainManager.t :=
  match op with
  | Assign workerId zoneId =>
      snd (TerrainManager.assignWorkerToZone workerId zoneId tm)
  | Remove workerId zoneId => TerrainManager.removeWorkerFromZone workerId zoneId tm
  | Gather zoneId deltaTime =>
      snd (TerrainManager.gatherResources zoneId deltaTime tm)
  end.

(** What a call returns as extracted from the zone [zoneId]. *)
Definition yieldOf (zoneId : string) (op : zoneOp) (tm : TerrainManager.t)
  : number :=
  match op with
  | Gather z deltaTime =>
      if String.eqb z zoneId
      then fst (TerrainManager.gatherResources z deltaTime tm)
      else num 0
  | _ => num 0
  end.

(** The calls [ops] made in turn: the sum of what they extract from the
    zone [zoneId], and the manager in the end. *)
Fixpoint harvest (zoneId : string) (ops : list zoneOp) (tm : TerrainManager.t)
  : number * TerrainManager.t :=
  match ops with
  | [] => (num 0, tm)
  | op :: rest =>
      let (total, tm') := harvest zoneId rest (after op tm) in
      ((yieldOf zoneId op tm + total)%js, tm')
  end.

(** The calls [ops] made in turn: what each of them extracts from the zone
    [zoneId], and the manager in the end. *)
Fixpoint yields (zoneId : string) (ops : list zoneOp) (tm : TerrainManager.t)
  : list number * TerrainManager.t :=
  match ops with
  | [] => ([], tm)
  | op :: rest =>
      let (amounts, tm') := yields zoneId rest (after op tm) in
      (yieldOf zoneId op tm :: amounts, tm')
  end.

(** A call whose tick, if it has one, lasts a finite, non-negative time. *)
Definition timed (op : zoneOp) : Prop :=
  match op with
  | Gather _ deltaTime => exists d : Q, deltaTime = Num d /\ (0 <= d)%Q
  | _ => True
  end.

(** The bounds of a zone: at most five workers, a total between 5000 and
    8000, and an amount left between zero and the total, which is zero when
    the zone is exhausted. *)
Definition bounded_zone (zone : ResourceZone.t) : Prop :=
  (List.length (ResourceZone.workersAssigned zone) <= 5)%nat
  /\ exists remaining total : Q,
       ResourceZone.remainingResources zone = Num remaining
       /\ ResourceZone.totalResources zone = Num total
       /\ (0 <= remaining)%Q /\ (remaining <= total)%Q
       /\ (5000 <= total)%Q /\ (total <= 8000)%Q
       /\ (ResourceZone.isExhausted zone = true ->
           (remaining == 0)%Q /\ ResourceZone.workersAssigned zone = []).

(** ** Combat groups *)

(** A method that returns and leaves the units and the combat groups as it
    found them. *)
Definition orders_only {A : Type} (m : IntelligentUnitController.M A) : Prop :=
  forall s,
    exists a s',
      m s = Some (a, s')
      /\ IntelligentUnitController.units s' = IntelligentUnitController.units s
      /\ IntelligentUnitController.combatGroups (IntelligentUnitController.self s')
         = IntelligentUnitController.combatGroups (IntelligentUnitController.self s).

(** A group whose members are all among [units], and that has a member. *)
Definition manned (units : list Unit.t) (group : CombatGroup.t) : Prop :=
  CombatGroup.unitIds group <> []
  /\ forall unitId,
       In unitId (CombatGroup.unitIds group) ->
       exists unit, In unit units /\ Unit.id unit = unitId.

(** ** Commands and the units they are for *)

(** A command for one of the units that bear the ids [ids]. *)
Definition addressed (ids : list string) (command : UnitCommand.t) : Prop :=
  In (UnitCommand.unitId command) ids.

(** [sends ids Q m]: wherever [m] returns from a state whose units bear the
    ids [ids], its result satisfies [Q], the units still bear these ids, and
    the command table has changed by removals and by insertions of commands
    for these units. *)
Definition sends {A : Type} (ids : list string) (Q : A -> Prop)
    (m : IntelligentUnitController.M A) : Prop :=
  forall s a s',
    m s = Some (a, s') ->
    map Unit.id (IntelligentUnitController.units s) = ids ->
    Q a
    /\ map Unit.id (IntelligentUnitController.units s') = ids
    /\ exists w,
         table_ops (addressed ids)
           (IntelligentUnitController.activeCommands
              (IntelligentUnitController.self s))
           (IntelligentUnitController.activeCommands
              (IntelligentUnitController.self s'))
           w.

(** ** Fog of war *)

(** [fog'] shows at least what [fog] shows: it has as many rows, none of
    them shorter, and no cell that was uncovered is covered again. *)
Definition uncovers (fog fog' : list GameStore.row) : Prop :=
  List.length fog' = List.length fog
  /\ forall j r,
       nth_error fog j = Some r ->
       exists r',
         nth_error fog' j = Some r'
         /\ (List.length r <= List.length r')%nat
         /\ forall i,
              nth_error r i = Some (Some false) ->
              nth_error r' i = Some (Some false).

(** The fog has a row for each line of cells of a map of this size. *)
Definition rows_for (size : MapSize.t) (fog : list GameStore.row) : Prop :=
  forall j : nat,
    (Number.of_nat j <? MapSize.height size)%js = true ->
    (j < List.length fog)%nat.

(** The cell at column [i] of row [j] is uncovered. *)
Definition uncovered (i j : nat) (fog : list GameStore.row) : Prop :=
  exists r, nth_error fog j = Some r /\ nth_error r i = Some (Some false).
(* ================================================================== *)
(** * Facts about numbers *)
(* ================================================================== *)

(** Rational arithmetic is kept folded by simplification. *)
#[local] Arguments Qred : simpl never.
#[local] Arguments Qplus : simpl never.
#[local] Arguments Qminus : simpl never.
#[local] Arguments Qmult : simpl never.
#[local] Arguments Qdiv : simpl never.
#[local] Arguments Qopp : simpl never.
#[local] Arguments Qinv : simpl never.
#[local] Arguments Qcompare : simpl never.
#[local] Arguments Qle_bool : simpl never.
#[local] Arguments Qeq_bool : simpl never.
#[local] Arguments inject_Z : simpl never.
#[local] Arguments Qfloor : simpl never.
#[local] Arguments Number.Qsqrt : simpl never.

Lemma ltb_Num (a b : Q) : (Num a <? Num b)%js = true <-> (a < b)%Q.
Proof.
  unfold Number.ltb; simpl. rewrite Qlt_alt.
  destruct (a ?= b)%Q; split; congruence.
Qed.

Lemma leb_Num (a b : Q) : (Num a <=? Num b)%js = true <-> (a <= b)%Q.
Proof.
  unfold Number.leb; simpl. rewrite Qle_alt.
  destruct (a ?= b)%Q; split; congruence.
Qed.

Lemma leb_Num_false (a b : Q) : (Num a <=? Num b)%js = false <-> (b < a)%Q.
Proof.
  unfold Number.leb; simpl.
  destruct (Qcompare_spec a b) as [H | H | H]; split; intros; try lra;
    try discriminate; reflexivity.
Qed.

Lemma min_Num (a b : Q) :
  Number.min (Num a) (Num b) = Num (if Qle_bool a b then a else b).
Proof.
  unfold Number.min; simpl.
  destruct (Qcompare_spec a b) as [H | H | H];
    destruct (Qle_bool a b) eqn:E; try reflexivity.
  - rewrite <- not_true_iff_false, Qle_bool_iff in E. exfalso; apply E. lra.
  - rewrite <- not_true_iff_false, Qle_bool_iff in E. exfalso; apply E. lra.
  - rewrite Qle_bool_iff in E. lra.
Qed.

(* ================================================================== *)
(** * The strategic phase *)
(* ================================================================== *)

Lemma phase_updateStrategicState myUnits myBuildings enemyUnits s :
  AdvancedAI.phase (AdvancedAI.updateStrategicState myUnits myBuildings enemyUnits s)
  = if (List.length myUnits <? 10)%nat && (List.length myBuildings <? 3)%nat
    then AdvancedAI.early
    else if (List.length myUnits <? 25)%nat && (List.length myBuildings <? 6)%nat
    then AdvancedAI.mid
    else AdvancedAI.late.
Proof.
  unfold AdvancedAI.updateStrategicState.
  set (th := AdvancedAI.calculateThreatLevel myBuildings enemyUnits).
  destruct ((List.length myUnits <? 10)%nat && (List.length myBuildings <? 3)%nat);
    [ | destruct ((List.length myUnits <? 25)%nat && (List.length myBuildings <? 6)%nat) ];
    cbn [AdvancedAI.phase AdvancedAI.with_targets AdvancedAI.enemyThreatLevel];
    destruct (th >? frac 7 10)%js; try reflexivity;
    destruct (th >? frac 4 10)%js; reflexivity.
Qed.

(** C9.  The phase written by [updateStrategicState] is a function of the
    number of units and the number of buildings alone: it depends neither
    on the previous state (so also not on the previous phase) nor on which
    units, buildings and enemies there are.  That function sends 2 units
    with 1 building to [early] and 12 units with 4 buildings to [mid]. *)
Theorem phase_is_function_of_counts :
  exists f : nat -> nat -> AdvancedAI.phase_t,
    (forall myUnits myBuildings enemyUnits s,
        AdvancedAI.phase
          (AdvancedAI.updateStrategicState myUnits myBuildings enemyUnits s)
        = f (List.length myUnits) (List.length myBuildings))
    /\ f 2%nat 1%nat = AdvancedAI.early
    /\ f 12%nat 4%nat = AdvancedAI.mid.
Proof.
  exists (fun u b =>
            if (u <? 10)%nat && (b <? 3)%nat then AdvancedAI.early
            else if (u <? 25)%nat && (b <? 6)%nat then AdvancedAI.mid
            else AdvancedAI.late).
  split; [ | split; reflexivity ].
  intros. apply phase_updateStrategicState.
Qed.

Lemma add_Num (a b : Q) : (Num a + Num b)%js = Num (Qred (a + b)).
Proof. reflexivity. Qed.

Lemma sub_Num (a b : Q) : (Num a - Num b)%js = Num (Qred (a - b)).
Proof. reflexivity. Qed.

Lemma mul_Num (a b : Q) : (Num a * Num b)%js = Num (Qred (a * b)).
Proof. reflexivity. Qed.

Lemma div_Num (a b : Q) :
  ~ (b == 0)%Q -> (Num a / Num b)%js = Num (Qred (a / b)).
Proof.
  intros H. unfold Number.div.
  destruct (Qeq_bool b 0) eqn:E; [ | reflexivity ].
  apply Qeq_bool_eq in E. contradiction.
Qed.

Lemma num_is_Num (z : Z) : num z = Num (inject_Z z).
Proof. reflexivity. Qed.

Lemma of_nat_is_Num (n : nat) : Number.of_nat n = Num (inject_Z (Z.of_nat n)).
Proof. reflexivity. Qed.

(* ================================================================== *)
(** * Facts about maps *)
(* ================================================================== *)

Section JSMapFacts.

Variable V : Type.
Implicit Types (m : JSMap.t V) (l : list (string * V)) (k : string) (v : V).

Lemma lookup_app k l1 l2 :
  JSMap.lookup k (l1 ++ l2)
  = match JSMap.lookup k l1 with
    | Some v => Some v
    | None => JSMap.lookup k l2
    end.
Proof.
  induction l1 as [ | [k' v'] l1 IH ]; simpl; [ reflexivity | ].
  destruct (String.eqb k k'); [ reflexivity | exact IH ].
Qed.

Lemma lookup_replace_same k v l :
  JSMap.mem k l = true -> JSMap.lookup k (JSMap.replace k v l) = Some v.
Proof.
  unfold JSMap.mem.
  induction l as [ | [k' v'] l IH ]; simpl; [ discriminate | ].
  destruct (String.eqb k k') eqn:E; simpl; rewrite E; [ reflexivity | exact IH ].
Qed.

Lemma lookup_replace_other k k' v l :
  k <> k' -> JSMap.lookup k' (JSMap.replace k v l) = JSMap.lookup k' l.
Proof.
  intros Hne.
  induction l as [ | [k0 v0] l IH ]; simpl; [ reflexivity | ].
  destruct (String.eqb k k0) eqn:E; simpl.
  - apply String.eqb_eq in E; subst k0.
    destruct (String.eqb k' k) eqn:E'; [ | reflexivity ].
    apply String.eqb_eq in E'; congruence.
  - destruct (String.eqb k' k0); [ reflexivity | exact IH ].
Qed.

Lemma mem_false_lookup k l : JSMap.mem k l = false -> JSMap.lookup k l = None.
Proof. unfold JSMap.mem. destruct (JSMap.lookup k l); [ discriminate | reflexivity ]. Qed.

Lemma get_set_same k v m : JSMap.get k (JSMap.set k v m) = Some v.
Proof.
  unfold JSMap.get, JSMap.set, JSMap.entries.
  destruct (JSMap.mem k (JSMap.yielded m)) eqn:E1; simpl.
  - rewrite lookup_app, lookup_replace_same by exact E1. reflexivity.
  - destruct (JSMap.mem k (JSMap.pending m)) eqn:E2; simpl.
    + rewrite lookup_app, (mem_false_lookup _ _ E1).
      apply lookup_replace_same; exact E2.
    + rewrite !lookup_app, (mem_false_lookup _ _ E1), (mem_false_lookup _ _ E2).
      simpl. rewrite String.eqb_refl. reflexivity.
Qed.

Lemma get_set_other k k' v m :
  k <> k' -> JSMap.get k' (JSMap.set k v m) = JSMap.get k' m.
Proof.
  intros Hne. unfold JSMap.get, JSMap.set, JSMap.entries.
  destruct (JSMap.mem k (JSMap.yielded m)); simpl.
  - rewrite !lookup_app, lookup_replace_other by exact Hne. reflexivity.
  - destruct (JSMap.mem k (JSMap.pending m)); simpl.
    + rewrite !lookup_app, lookup_replace_other by exact Hne. reflexivity.
    + rewrite !lookup_app. simpl.
      destruct (String.eqb k' k) eqn:E.
      * apply String.eqb_eq in E; congruence.
      * destruct (JSMap.lookup k' (JSMap.yielded m)); [ reflexivity | ].
        destruct (JSMap.lookup k' (JSMap.pending m)); reflexivity.
Qed.

Lemma In_replace k v l e :
  In e (JSMap.replace k v l) -> e = (k, v) \/ In e l.
Proof.
  induction l as [ | [k0 v0] l IH ]; simpl; [ tauto | ].
  destruct (String.eqb k k0) eqn:E; simpl.
  - apply String.eqb_eq in E; subst k0. intros [H | H]; auto.
  - intros [H | H]; auto. destruct (IH H); auto.
Qed.

Lemma In_entries_set k v m e :
  In e (JSMap.entries (JSMap.set k v m)) ->
  e = (k, v) \/ In e (JSMap.entries m).
Proof.
  unfold JSMap.set, JSMap.entries.
  destruct (JSMap.mem k (JSMap.yielded m)); simpl.
  - rewrite !in_app_iff. intros [H | H]; auto.
    apply In_replace in H. tauto.
  - destruct (JSMap.mem k (JSMap.pending m)); simpl.
    + rewrite !in_app_iff. intros [H | H]; auto.
      apply In_replace in H. tauto.
    + rewrite !in_app_iff. simpl. intros [H | [H | [H | []]]]; auto.
Qed.

Lemma In_remove k l e : In e (JSMap.remove k l) -> In e l /\ fst e <> k.
Proof.
  unfold JSMap.remove. rewrite filter_In. intros [H1 H2]. split; [ exact H1 | ].
  intros E. rewrite E, String.eqb_refl in H2. discriminate.
Qed.

Lemma In_entries_delete k m e :
  In e (JSMap.entries (JSMap.delete k m)) ->
  In e (JSMap.entries m) /\ fst e <> k.
Proof.
  unfold JSMap.delete, JSMap.entries; simpl. rewrite !in_app_iff.
  intros [H | H]; apply In_remove in H; tauto.
Qed.

Lemma lookup_In k v l : JSMap.lookup k l = Some v -> In (k, v) l.
Proof.
  induction l as [ | [k0 v0] l IH ]; simpl; [ discriminate | ].
  destruct (String.eqb k k0) eqn:E.
  - apply String.eqb_eq in E; subst. intros [= ->]. auto.
  - auto.
Qed.

Lemma get_In_values k v m : JSMap.get k m = Some v -> In v (JSMap.values m).
Proof.
  intros H. apply lookup_In in H. unfold JSMap.values.
  change v with (snd (k, v)). apply in_map. exact H.
Qed.

Lemma In_values_set k v m w :
  In w (JSMap.values (JSMap.set k v m)) -> w = v \/ In w (JSMap.values m).
Proof.
  unfold JSMap.values. rewrite in_map_iff. intros [e [<- He]].
  apply In_entries_set in He. destruct He as [-> | He]; [ left; reflexivity | ].
  right. apply in_map. exact He.
Qed.

End JSMapFacts.

(* ================================================================== *)
(** * Resource zones *)
(* ================================================================== *)

Lemma newZone_ok resourceType i position (rnd : Q) :
  (0 <= rnd)%Q -> zone_ok (TerrainManager.newZone resourceType i position (Num rnd)).
Proof.
  intros Hr.
  exists (Qred (inject_Z 5000 + Qred (rnd * inject_Z 3000))),
         (match resourceType with
          | ResourceZone.oil => inject_Z 50
          | ResourceZone.steel => inject_Z 40
          | ResourceZone.energy => inject_Z 60
          end).
  assert (H5 : (5000 <= Qred (inject_Z 5000 + Qred (rnd * inject_Z 3000)))%Q).
  { rewrite !Qred_correct. change (inject_Z 5000) with 5000%Q.
    change (inject_Z 3000) with 3000%Q.
    assert (0 <= rnd * 3000)%Q by (apply Qmult_le_0_compat; lra). lra. }
  unfold TerrainManager.newZone; cbn.
  repeat split; try reflexivity.
  - destruct resourceType; reflexivity.
  - lra.
  - destruct resourceType; discriminate.
  - intros H. lra.
Qed.

Lemma gatherFrom_spec zone (deltaTime : Q) :
  zone_ok zone -> (0 <= deltaTime)%Q ->
  let gathered := fst (TerrainManager.gatherFrom zone (Num deltaTime)) in
  let zone' := snd (TerrainManager.gatherFrom zone (Num deltaTime)) in
  let dt := (Num deltaTime / num 1000)%js in
  zone_ok zone'
  /\ (gathered
      == Number.min
           (ResourceZone.gatheringRate zone
            * Number.of_nat (List.length (ResourceZone.workersAssigned zone))
            * dt)
           (ResourceZone.remainingResources zone))%js
  /\ (ResourceZone.remainingResources zone'
      == ResourceZone.remainingResources zone - gathered)%js
  /\ (ResourceZone.remainingResources zone'
      <=? ResourceZone.remainingResources zone)%js = true
  /\ (num 0 <=? ResourceZone.remainingResources zone')%js = true
  /\ ((ResourceZone.remainingResources zone' <=? num 0)%js = true ->
      ResourceZone.isExhausted zone' = true
      /\ ResourceZone.workersAssigned zone' = []).
Proof.
  intros (r & g & Hr & Hg & Hr0 & Hg0 & Hex & Hempty) Hd.
  unfold TerrainManager.gatherFrom.
  rewrite Hr, Hg, of_nat_is_Num, !num_is_Num.
  rewrite !mul_Num.
  rewrite !div_Num by (intros E; discriminate E).
  rewrite !mul_Num, !min_Num.
  set (n := inject_Z (Z.of_nat (List.length (ResourceZone.workersAssigned zone)))).
  assert (Hn : (0 <= n)%Q).
  { unfold n. change 0%Q with (inject_Z 0). rewrite <- Zle_Qle. lia. }
  set (claimed := Qred (Qred (g * n) * Qred (deltaTime / inject_Z 1000))).
  assert (Hclaimed : (claimed == g * n * deltaTime / 1000)%Q).
  { unfold claimed. rewrite !Qred_correct.
    change (inject_Z 1000) with 1000%Q. field. }
  assert (Hpos : (0 <= g * n * deltaTime / 1000)%Q).
  { apply Qle_shift_div_l; [ reflexivity | ].
    assert (0 <= g * n)%Q by (apply Qmult_le_0_compat; assumption).
    assert (0 <= g * n * deltaTime)%Q by (apply Qmult_le_0_compat; assumption).
    lra. }
  destruct (ResourceZone.isExhausted zone
            || (List.length (ResourceZone.workersAssigned zone) =? 0)%nat) eqn:Eguard.
  - (* nothing is extracted *)
    assert (Hlen : (n == 0)%Q).
    { apply orb_true_iff in Eguard. destruct Eguard as [E | E].
      - unfold n. rewrite (Hex E). reflexivity.
      - apply Nat.eqb_eq in E. unfold n. rewrite E. reflexivity. }
    assert (Hzero : (claimed == 0)%Q).
    { rewrite Hclaimed, Hlen. field. }
    cbn [fst snd]. rewrite Hr.
    split; [ exists r, g; repeat split; assumption | ].
    split.
    { unfold Number.equiv. destruct (Qle_bool claimed r) eqn:E.
      - change (inject_Z 0) with 0%Q. lra.
      - rewrite <- not_true_iff_false, Qle_bool_iff in E.
        exfalso. apply E. lra. }
    split; [ rewrite sub_Num; unfold Number.equiv; rewrite Qred_correct;
             change (inject_Z 0) with 0%Q; ring | ].
    split; [ apply leb_Num; lra | ].
    split; [ apply leb_Num; exact Hr0 | ].
    intros H. apply leb_Num in H. change (inject_Z 0) with 0%Q in H.
    specialize (Hempty H). auto.
  - (* an extraction *)
    apply orb_false_iff in Eguard. destruct Eguard as [Enot Elen].
    set (amount := Qred (Qred (Qred (g * n) * deltaTime) / inject_Z 1000)).
    assert (Ham : (amount == g * n * deltaTime / 1000)%Q).
    { unfold amount. rewrite !Qred_correct.
      change (inject_Z 1000) with 1000%Q. field. }
    set (gathered := if Qle_bool amount r then amount else r).
    assert (Hgr : (0 <= gathered /\ gathered <= r)%Q).
    { unfold gathered. destruct (Qle_bool amount r) eqn:E.
      - apply Qle_bool_iff in E. lra.
      - lra. }
    assert (Hsame : (gathered == if Qle_bool claimed r then claimed else r)%Q).
    { unfold gathered.
      destruct (Qle_bool amount r) eqn:E1; destruct (Qle_bool claimed r) eqn:E2;
        try rewrite Qle_bool_iff in *;
        try rewrite <- not_true_iff_false, Qle_bool_iff in *; lra. }
    cbn [fst snd ResourceZone.with_remainingResources
         ResourceZone.remainingResources].
    rewrite !sub_Num.
    assert (Hrest : (Qred (r - gathered) == r - gathered)%Q) by apply Qred_correct.
    destruct (Num (Qred (r - gathered)) <=? Num (inject_Z 0))%js eqn:Ezero.
    + apply leb_Num in Ezero. change (inject_Z 0) with 0%Q in Ezero.
      cbn [ResourceZone.with_workersAssigned ResourceZone.with_isExhausted
           ResourceZone.remainingResources ResourceZone.isExhausted
           ResourceZone.workersAssigned ResourceZone.gatheringRate].
      split.
      { exists (Qred (r - gathered)), g. repeat split; auto. lra. }
      split; [ exact Hsame | ].
      split; [ unfold Number.equiv; reflexivity | ].
      split; [ apply leb_Num; lra | ].
      split; [ apply leb_Num; change (inject_Z 0) with 0%Q; lra | ].
      auto.
    + apply leb_Num_false in Ezero. change (inject_Z 0) with 0%Q in Ezero.
      cbn [ResourceZone.with_remainingResources
           ResourceZone.remainingResources ResourceZone.isExhausted
           ResourceZone.workersAssigned ResourceZone.gatheringRate].
      split.
      { exists (Qred (r - gathered)), g. repeat split; auto; try lra. }
      split; [ exact Hsame | ].
      split; [ unfold Number.equiv; reflexivity | ].
      split; [ apply leb_Num; lra | ].
      split; [ apply leb_Num; change (inject_Z 0) with 0%Q; lra | ].
      intros H. apply leb_Num in H. change (inject_Z 0) with 0%Q in H. lra.
Qed.
Lemma assign_zone_ok workerId zone :
  zone_ok zone -> ResourceZone.isExhausted zone = false ->
  zone_ok (ResourceZone.with_workersAssigned
             (ResourceZone.workersAssigned zone ++ [workerId]) zone).
Proof.
  intros (r & g & Hr & Hg & Hr0 & Hg0 & Hex & Hempty) Hne.
  exists r, g. cbn. repeat split; auto.
  intros E. congruence.
Qed.

Lemma remove_zone_ok workerId zone :
  zone_ok zone ->
  zone_ok (ResourceZone.with_workersAssigned
             (filter (fun id => negb (String.eqb id workerId))
                     (ResourceZone.workersAssigned zone)) zone).
Proof.
  intros (r & g & Hr & Hg & Hr0 & Hg0 & Hex & Hempty).
  exists r, g. cbn. repeat split; auto.
  intros E. rewrite (Hex E). reflexivity.
Qed.

Lemma values_ok_set zoneId zone (m : JSMap.t ResourceZone.t) :
  Forall zone_ok (JSMap.values m) -> zone_ok zone ->
  Forall zone_ok (JSMap.values (JSMap.set zoneId zone m)).
Proof.
  rewrite !Forall_forall. intros H Hz w Hw.
  apply In_values_set in Hw. destruct Hw as [-> | Hw]; auto.
Qed.

(** Every zone of a reachable manager satisfies [zone_ok]; in particular
    its remaining amount is never negative. *)
Lemma reachable_zones_ok tm :
  reachable tm ->
  Forall zone_ok (JSMap.values (TerrainManager.resourceZones tm)).
Proof.
  induction 1 as [ tm Hgen | w z tm Hr IH | w z tm Hr IH | z d tm Hr IH Hd ].
  - rewrite Forall_forall in *. intros zone Hin.
    unfold JSMap.values in Hin. apply in_map_iff in Hin.
    destruct Hin as [e [<- He]].
    destruct (Hgen e He) as (k & i & p & rnd & H0 & H1 & -> & _).
    apply newZone_ok; exact H0.
  - unfold TerrainManager.assignWorkerToZone.
    destruct (JSMap.get z (TerrainManager.resourceZones tm)) as [zone | ] eqn:Eget;
      [ | exact IH ].
    destruct (negb (ResourceZone.isExhausted zone)
              && (List.length (ResourceZone.workersAssigned zone) <? 5)%nat) eqn:E;
      [ | exact IH ].
    cbn. apply values_ok_set; [ exact IH | ].
    apply andb_true_iff in E. destruct E as [E _].
    apply negb_true_iff in E.
    apply assign_zone_ok; [ | exact E ].
    rewrite Forall_forall in IH. apply IH. eapply get_In_values; exact Eget.
  - unfold TerrainManager.removeWorkerFromZone.
    destruct (JSMap.get z (TerrainManager.resourceZones tm)) as [zone | ] eqn:Eget;
      [ | exact IH ].
    cbn. apply values_ok_set; [ exact IH | ].
    apply remove_zone_ok.
    rewrite Forall_forall in IH. apply IH. eapply get_In_values; exact Eget.
  - unfold TerrainManager.gatherResources.
    destruct (JSMap.get z (TerrainManager.resourceZones tm)) as [zone | ] eqn:Eget;
      [ | exact IH ].
    destruct (TerrainManager.gatherFrom zone (Num d)) as [gathered zone'] eqn:Eg.
    cbn. apply values_ok_set; [ exact IH | ].
    assert (Hz : zone_ok zone).
    { rewrite Forall_forall in IH. apply IH. eapply get_In_values; exact Eget. }
    pose proof (gatherFrom_spec Hz Hd) as Hspec. cbv zeta in Hspec.
    rewrite Eg in Hspec. apply Hspec.
Qed.

(** C3.  In a reachable manager, for a tick of [deltaTime] milliseconds
    (finite, not negative) and with [dt] its length in seconds,
    [gatherResources] returns [min (gatheringRate * workerCount * dt,
    remaining)], lowers the remaining amount of the zone by exactly that,
    which neither raises it nor makes it negative, and a zone whose
    remaining amount is zero afterwards is exhausted and has no workers. *)
Theorem gatherResources_extracts tm zoneId zone (deltaTime : Q) :
  reachable tm ->
  JSMap.get zoneId (TerrainManager.resourceZones tm) = Some zone ->
  (0 <= deltaTime)%Q ->
  let result := TerrainManager.gatherResources zoneId (Num deltaTime) tm in
  let gathered := fst result in
  let dt := (Num deltaTime / num 1000)%js in
  exists zone',
    JSMap.get zoneId (TerrainManager.resourceZones (snd result)) = Some zone'
    /\ (gathered
        == Number.min
             (ResourceZone.gatheringRate zone
              * Number.of_nat (List.length (ResourceZone.workersAssigned zone))
              * dt)
             (ResourceZone.remainingResources zone))%js
    /\ (ResourceZone.remainingResources zone'
        == ResourceZone.remainingResources zone - gathered)%js
    /\ (ResourceZone.remainingResources zone'
        <=? ResourceZone.remainingResources zone)%js = true
    /\ (num 0 <=? ResourceZone.remainingResources zone')%js = true
    /\ ((ResourceZone.remainingResources zone' <=? num 0)%js = true ->
        ResourceZone.isExhausted zone' = true
        /\ ResourceZone.workersAssigned zone' = []).
Proof.
  intros Hreach Hget Hd.
  assert (Hz : zone_ok zone).
  { pose proof (reachable_zones_ok Hreach) as H. rewrite Forall_forall in H.
    apply H. eapply get_In_values; exact Hget. }
  pose proof (gatherFrom_spec Hz Hd) as Hspec. cbv zeta in Hspec.
  cbv zeta. unfold TerrainManager.gatherResources. rewrite Hget.
  destruct (TerrainManager.gatherFrom zone (Num deltaTime)) as [gathered zone'].
  cbn [fst snd] in *.
  exists zone'. split; [ cbn; apply get_set_same | ].
  apply Hspec.
Qed.
Lemma freshField_reachable : reachable Sample.freshField.
Proof.
  apply reach_new. repeat constructor.
  exists ResourceZone.oil, 0%nat, (Sample.at_ 10 10), 0%Q.
  repeat split; try reflexivity. discriminate.
Defined.

Lemma gatherResources_extracts_witness :
  reachable Sample.staffedField
  /\ let result := TerrainManager.gatherResources "oil_0" (num 16) Sample.staffedField in
     exists zone',
       JSMap.get "oil_0" (TerrainManager.resourceZones (snd result)) = Some zone'
       /\ (fst result
           == Number.min (num 50 * Number.of_nat 1 * (num 16 / num 1000))
                         (num 5000))%js
       /\ (ResourceZone.remainingResources zone' == num 5000 - fst result)%js
       /\ (ResourceZone.remainingResources zone' <=? num 5000)%js = true
       /\ (num 0 <=? ResourceZone.remainingResources zone')%js = true
       /\ ((ResourceZone.remainingResources zone' <=? num 0)%js = true ->
           ResourceZone.isExhausted zone' = true
           /\ ResourceZone.workersAssigned zone' = []).
Proof.
  assert (Hreach : reachable Sample.staffedField)
    by (apply reach_assign, freshField_reachable).
  split; [ exact Hreach | ].
  assert (Hd : (0 <= 16)%Q) by discriminate.
  exact (gatherResources_extracts "oil_0" Hreach eq_refl Hd).
Defined.

(** [executeGatherCommand] registers a unit that stands in the zone only
    when it is not registered yet. *)
Lemma executeGatherCommand_registered clock unit zoneId zone u s :
  nth_error (IntelligentUnitController.units s) unit = Some u ->
  find (fun z => String.eqb (ResourceZone.id z) zoneId)
       (TerrainManager.getResourceZones
          (IntelligentUnitController.terrainManager
             (IntelligentUnitController.self s))) = Some zone ->
  ResourceZone.isExhausted zone = false ->
  (getDistance (Unit.position u) (ResourceZone.position zone)
   <=? ResourceZone.radius zone)%js = true ->
  In (Unit.id u) (ResourceZone.workersAssigned zone) ->
  IntelligentUnitController.executeGatherCommand clock unit (Some zoneId) s
  = Some (tt, s).
Proof.
  intros Hu Hfind Hex Hd Hin.
  unfold IntelligentUnitController.executeGatherCommand,
    IntelligentUnitController.bind, IntelligentUnitController.deref,
    IntelligentUnitController.get_self.
  rewrite (nth_error_nth _ _ _ Hu), Hfind, Hex, Hd.
  assert (E : existsb (String.eqb (Unit.id u)) (ResourceZone.workersAssigned zone) = true).
  { apply existsb_exists. exists (Unit.id u). split; [ exact Hin | apply String.eqb_refl ]. }
  rewrite E. reflexivity.
Qed.

(** C5, as the code has it.  [assignWorkerToZone] lets a worker join only
    a zone that is not exhausted and has fewer than 5 workers, and then
    appends the worker's id to the list whether or not it is there already;
    a refused call changes nothing.  Registering again is a no-op on the
    path of the gather command: for a unit that stands in the zone and is
    registered, [executeGatherCommand] leaves the whole state as it is. *)
Theorem assignWorkerToZone_joins workerId zoneId tm :
  let result := TerrainManager.assignWorkerToZone workerId zoneId tm in
  (fst result = true ->
   exists zone,
     JSMap.get zoneId (TerrainManager.resourceZones tm) = Some zone
     /\ ResourceZone.isExhausted zone = false
     /\ (List.length (ResourceZone.workersAssigned zone) < 5)%nat
     /\ workersOf zoneId (snd result)
        = ResourceZone.workersAssigned zone ++ [workerId])
  /\ (fst result = false -> snd result = tm)
  /\ (forall clock unit u zone s,
         IntelligentUnitController.terrainManager
           (IntelligentUnitController.self s) = tm ->
         nth_error (IntelligentUnitController.units s) unit = Some u ->
         Unit.id u = workerId ->
         find (fun z => String.eqb (ResourceZone.id z) zoneId)
              (TerrainManager.getResourceZones tm) = Some zone ->
         ResourceZone.isExhausted zone = false ->
         (getDistance (Unit.position u) (ResourceZone.position zone)
          <=? ResourceZone.radius zone)%js = true ->
         In workerId (ResourceZone.workersAssigned zone) ->
         IntelligentUnitController.executeGatherCommand clock unit (Some zoneId) s
         = Some (tt, s)).
Proof.
  cbv zeta. unfold TerrainManager.assignWorkerToZone.
  split; [ | split ].
  - destruct (JSMap.get zoneId (TerrainManager.resourceZones tm)) as [zone | ] eqn:Eget;
      [ | discriminate ].
    destruct (negb (ResourceZone.isExhausted zone)
              && (List.length (ResourceZone.workersAssigned zone) <? 5)%nat) eqn:E;
      [ | discriminate ].
    intros _. exists zone.
    apply andb_true_iff in E. destruct E as [E1 E2].
    apply negb_true_iff in E1. apply Nat.ltb_lt in E2.
    repeat split; auto.
    unfold workersOf. cbn. rewrite get_set_same. reflexivity.
  - destruct (JSMap.get zoneId (TerrainManager.resourceZones tm)) as [zone | ];
      [ | reflexivity ].
    destruct (negb (ResourceZone.isExhausted zone)
              && (List.length (ResourceZone.workersAssigned zone) <? 5)%nat);
      [ discriminate | reflexivity ].
  - intros clock unit u zone s Htm Hu Hid Hfind Hex Hd Hin.
    subst tm workerId.
    eapply executeGatherCommand_registered; eassumption.
Qed.

Lemma assignWorkerToZone_joins_witness :
  let result := TerrainManager.assignWorkerToZone "w2" "oil_0" Sample.staffedField in
  (fst result = true
   /\ exists zone,
        JSMap.get "oil_0" (TerrainManager.resourceZones Sample.staffedField) = Some zone
        /\ ResourceZone.isExhausted zone = false
        /\ (List.length (ResourceZone.workersAssigned zone) < 5)%nat
        /\ workersOf "oil_0" (snd result)
           = ResourceZone.workersAssigned zone ++ ["w2"%string])
  /\ In "w1"%string (workersOf "oil_0" Sample.staffedField)
  /\ IntelligentUnitController.executeGatherCommand (Sample.ticking 0) 0
       (Some "oil_0"%string) Sample.gatherWorld
     = Some (tt, Sample.gatherWorld).
Proof.
  cbv zeta. split; [ split; [ reflexivity | ] | split; [ left; reflexivity | ] ].
  - exact (proj1 (assignWorkerToZone_joins "w2" "oil_0" Sample.staffedField) eq_refl).
  - refine (proj2 (proj2 (assignWorkerToZone_joins "w1" "oil_0" Sample.staffedField))
              (Sample.ticking 0) 0%nat (Sample.soldier "w1" (Sample.at_ 10 10))
              (ResourceZone.with_workersAssigned ["w1"%string]
                 (TerrainManager.newZone ResourceZone.oil 0 (Sample.at_ 10 10) (num 0)))
              Sample.gatherWorld eq_refl eq_refl eq_refl eq_refl eq_refl _ _).
    + vm_compute. reflexivity.
    + left. reflexivity.
Defined.

(** C5 as stated fails: a second call for a registered worker adds its id
    a second time. *)
Lemma assignWorkerToZone_not_idempotent :
  In "w1"%string (workersOf "oil_0" Sample.staffedField)
  /\ workersOf "oil_0"
       (snd (TerrainManager.assignWorkerToZone "w1" "oil_0" Sample.staffedField))
     = ["w1"; "w1"]%string
  /\ workersOf "oil_0"
       (snd (TerrainManager.assignWorkerToZone "w1" "oil_0" Sample.staffedField))
     <> workersOf "oil_0" Sample.staffedField.
Proof.
  split; [ left; reflexivity | ].
  split; [ reflexivity | ].
  vm_compute. discriminate.
Qed.
(* ================================================================== *)
(** * The fallback of the path finder *)
(* ================================================================== *)


(** C2 on a blocked corridor: the tile between start and goal is a
    mountain, the open set runs empty after the start node, and the path
    returned is the goal alone, not the pair of start and goal. *)
Theorem findPath_fallback_is_goal_alone :
  TerrainManager.findPath Sample.walledCorridor (Sample.at_ 0 0) (Sample.at_ 2 0)
    [] []
  = Some [Sample.at_ 2 0]
  /\ TerrainManager.findPath Sample.walledCorridor (Sample.at_ 0 0)
       (Sample.at_ 2 0) [] []
     <> Some [Sample.at_ 0 0; Sample.at_ 2 0].
Proof. split; [ reflexivity | discriminate ]. Qed.

(* ================================================================== *)
(** * The command table *)
(* ================================================================== *)

(** What [issueCommand] does: the command is stored under its own id, and
    the entries under other keys, those of the same unit among them,
    remain. *)
Lemma issueCommand_stores_by_command_id command s :
  exists s',
    IntelligentUnitController.issueCommand command s = Some (tt, s')
    /\ JSMap.get (UnitCommand.id command)
         (IntelligentUnitController.activeCommands
            (IntelligentUnitController.self s')) = Some command
    /\ forall k,
         k <> UnitCommand.id command ->
         JSMap.get k
           (IntelligentUnitController.activeCommands
              (IntelligentUnitController.self s'))
         = JSMap.get k
             (IntelligentUnitController.activeCommands
                (IntelligentUnitController.self s)).
Proof.
  eexists. split; [ reflexivity | ]. cbn. split.
  - apply get_set_same.
  - intros k Hk. apply get_set_other. congruence.
Qed.

(** What [executeMoveCommand] does for a unit less than 1 away from the
    target: it deletes the key that is the id of the unit, and nothing
    else changes. *)
Lemma executeMoveCommand_at_goal unit u target buildings s :
  nth_error (IntelligentUnitController.units s) unit = Some u ->
  (getDistance (Unit.position u) target <? num 1)%js = true ->
  IntelligentUnitController.executeMoveCommand unit target buildings s
  = Some
      (tt,
       IntelligentUnitController.mkState
         (IntelligentUnitController.with_activeCommands
            (JSMap.delete (Unit.id u)
               (IntelligentUnitController.activeCommands
                  (IntelligentUnitController.self s)))
            (IntelligentUnitController.self s))
         (IntelligentUnitController.units s)
         (IntelligentUnitController.reads s)).
Proof.
  intros Hu Hnear.
  unfold IntelligentUnitController.executeMoveCommand,
    IntelligentUnitController.bind, IntelligentUnitController.deref.
  rewrite (nth_error_nth _ _ _ Hu), Hnear. reflexivity.
Qed.

(** C1 on two orders for one unit: [moveUnit] twice, a millisecond apart,
    for unit [u1].  The table is keyed by the command ids, which differ,
    and holds both commands for the unit afterwards. *)
Theorem issueCommand_keeps_both_commands :
  let clock := Sample.ticking 1000 in
  let s0 :=
    IntelligentUnitController.mkState (Sample.controller [])
      [Sample.soldier "u1" (Sample.at_ 0 0)] 0 in
  exists s1 s2,
    IntelligentUnitController.moveUnit clock "u1" (Sample.at_ 3 0) (num 5) s0
    = Some (tt, s1)
    /\ IntelligentUnitController.moveUnit clock "u1" (Sample.at_ 0 3) (num 5) s1
       = Some (tt, s2)
    /\ map UnitCommand.id (commandsFor "u1" (IntelligentUnitController.self s1))
       = ["move_u1_1000"%string]
    /\ map UnitCommand.id (commandsFor "u1" (IntelligentUnitController.self s2))
       = ["move_u1_1000"; "move_u1_1002"]%string
    /\ map UnitCommand.target
         (commandsFor "u1" (IntelligentUnitController.self s2))
       = [UnitCommand.AtPosition (Sample.at_ 3 0);
          UnitCommand.AtPosition (Sample.at_ 0 3)].
Proof.
  cbv zeta. eexists. eexists.
  split; [ vm_compute; reflexivity | ].
  split; [ vm_compute; reflexivity | ].
  repeat split; reflexivity.
Qed.
(* ================================================================== *)
(** * Formations *)
(* ================================================================== *)

Lemma finite_is_Num (a : number) :
  Number.is_finite a = true -> exists q, a = Num q.
Proof. destruct a; try discriminate. eauto. Qed.

Lemma finite_mul (a b : number) :
  Number.is_finite a = true -> Number.is_finite b = true ->
  Number.is_finite (a * b)%js = true.
Proof. destruct a, b; try discriminate; reflexivity. Qed.

Lemma finite_add (a b : number) :
  Number.is_finite a = true -> Number.is_finite b = true ->
  Number.is_finite (a + b)%js = true.
Proof. destruct a, b; try discriminate; reflexivity. Qed.

Lemma finite_sub (a b : number) :
  Number.is_finite a = true -> Number.is_finite b = true ->
  Number.is_finite (a - b)%js = true.
Proof. destruct a, b; try discriminate; reflexivity. Qed.

Lemma finite_div (a : number) (b : Q) :
  Number.is_finite a = true -> ~ (b == 0)%Q ->
  Number.is_finite (a / Num b)%js = true.
Proof.
  destruct a; try discriminate. intros _ Hb. rewrite div_Num by exact Hb.
  reflexivity.
Qed.

Lemma finite_max (a b : number) :
  Number.is_finite a = true -> Number.is_finite b = true ->
  Number.is_finite (Number.max a b) = true.
Proof.
  destruct a, b; try discriminate. intros _ _.
  unfold Number.max; simpl. destruct (q ?= q0)%Q; reflexivity.
Qed.

Lemma finite_floor (a : number) :
  Number.is_finite a = true -> Number.is_finite (Number.floor a) = true.
Proof. destruct a; try discriminate; reflexivity. Qed.

Lemma inject_Z_nonzero (z : Z) : z <> 0%Z -> ~ (inject_Z z == 0)%Q.
Proof.
  intros Hz E. unfold Qeq, inject_Z in E. simpl in E. lia.
Qed.

Lemma pred_nonzero (n : nat) :
  (2 <= n)%nat -> ~ (Qred (inject_Z (Z.of_nat n) - inject_Z 1) == 0)%Q.
Proof.
  intros Hn E. rewrite Qred_correct in E.
  unfold Qeq, Qminus, Qplus, Qopp, inject_Z in E. simpl in E. lia.
Qed.

Section FormationFacts.

Variable Math_cos Math_sin : number -> number.
Variable Math_PI : number.

Hypothesis cos_finite : forall q, Number.is_finite (Math_cos (Num q)) = true.
Hypothesis sin_finite : forall q, Number.is_finite (Math_sin (Num q)) = true.
Hypothesis cos_NaN : Math_cos NaN = NaN.
Hypothesis PI_finite : Number.is_finite Math_PI = true.

Let calculateFormation :=
  IntelligentUnitController.calculateFormation Math_cos Math_sin Math_PI.

Lemma trig_finite (a : number) :
  Number.is_finite a = true ->
  Number.is_finite (Math_cos a) = true /\ Number.is_finite (Math_sin a) = true.
Proof.
  intros H. destruct (finite_is_Num _ H) as [q ->]. auto.
Qed.

Lemma single_defender_formation :
  calculateFormation 1 CombatGroup.defend
  = [Pos NaN (Math_sin NaN * num 2)%js].
Proof.
  unfold calculateFormation, IntelligentUnitController.calculateFormation.
  cbn [seq map].
  change (Number.of_nat 0 / (Number.of_nat 1 - num 1))%js with NaN.
  change (Number.max (num 2) (Number.of_nat 1 / num 2)%js) with (num 2).
  cbn [Number.mul Number.sub]. rewrite cos_NaN. reflexivity.
Qed.

Lemma formation_finite unitCount role :
  ~ (role = CombatGroup.defend /\ unitCount = 1%nat) ->
  Forall finitePosition (calculateFormation unitCount role).
Proof.
  intros Hnot. apply Forall_forall. intros p Hp.
  unfold calculateFormation, IntelligentUnitController.calculateFormation in Hp.
  destruct role; apply in_map_iff in Hp; destruct Hp as [i [<- Hi]];
    apply in_seq in Hi; split; cbn [x y].
  - reflexivity.
  - reflexivity.
  - (* defend, at least two units *)
    assert (Hn : (2 <= unitCount)%nat).
    { destruct unitCount as [ | [ | n ] ]; [ lia | | lia ].
      exfalso. apply Hnot. split; reflexivity. }
    apply finite_mul.
    + apply trig_finite. apply finite_sub.
      * apply finite_mul; [ | exact PI_finite ].
        rewrite !of_nat_is_Num, num_is_Num, sub_Num. apply finite_div; [ reflexivity | ].
        apply pred_nonzero. exact Hn.
      * rewrite num_is_Num. apply finite_div; [ exact PI_finite | discriminate ].
    + apply finite_max; [ reflexivity | ].
      rewrite num_is_Num. apply finite_div; [ reflexivity | discriminate ].
  - assert (Hn : (2 <= unitCount)%nat).
    { destruct unitCount as [ | [ | n ] ]; [ lia | | lia ].
      exfalso. apply Hnot. split; reflexivity. }
    apply finite_mul.
    + apply trig_finite. apply finite_sub.
      * apply finite_mul; [ | exact PI_finite ].
        rewrite !of_nat_is_Num, num_is_Num, sub_Num. apply finite_div; [ reflexivity | ].
        apply pred_nonzero. exact Hn.
      * rewrite num_is_Num. apply finite_div; [ exact PI_finite | discriminate ].
    + apply finite_max; [ reflexivity | ].
      rewrite num_is_Num. apply finite_div; [ reflexivity | discriminate ].
  - (* scout *)
    apply finite_mul; [ | reflexivity ].
    apply trig_finite. apply finite_mul; [ | exact PI_finite ].
    apply finite_mul; [ | reflexivity ].
    rewrite (of_nat_is_Num unitCount). apply finite_div; [ reflexivity | ].
    apply inject_Z_nonzero. lia.
  - apply finite_mul; [ | reflexivity ].
    apply trig_finite. apply finite_mul; [ | exact PI_finite ].
    apply finite_mul; [ | reflexivity ].
    rewrite (of_nat_is_Num unitCount). apply finite_div; [ reflexivity | ].
    apply inject_Z_nonzero. lia.
  - reflexivity.
  - apply finite_mul; [ | reflexivity ]. apply finite_floor.
    rewrite num_is_Num. apply finite_div; [ reflexivity | discriminate ].
Qed.

(** C10.  [createCombatGroup] stores the formation that
    [calculateFormation] computes from the number of members and the role.
    For one member and the role defend the angle is [0 / 0 * PI - PI / 2],
    which is [NaN], and the x offset of the only slot is [NaN].  For every
    other role and number of members all offsets are finite. *)
Theorem single_defender_offset_is_NaN :
  (forall clock unitIds role target suffix s,
      exists groupId group s',
        IntelligentUnitController.createCombatGroup clock Math_cos Math_sin
          Math_PI unitIds role target suffix s = Some (groupId, s')
        /\ JSMap.get groupId
             (IntelligentUnitController.combatGroups
                (IntelligentUnitController.self s')) = Some group
        /\ CombatGroup.formation group
           = calculateFormation (List.length unitIds) role)
  /\ (exists p,
         calculateFormation 1 CombatGroup.defend = [p]
         /\ Number.is_nan (x p) = true /\ ~ finitePosition p)
  /\ (forall unitCount role,
         ~ (role = CombatGroup.defend /\ unitCount = 1%nat) ->
         Forall finitePosition (calculateFormation unitCount role)).
Proof.
  split; [ | split ].
  - intros. do 3 eexists.
    unfold IntelligentUnitController.createCombatGroup,
      IntelligentUnitController.bind, IntelligentUnitController.Date_now,
      IntelligentUnitController.modify_self, IntelligentUnitController.ret.
    cbn [IntelligentUnitController.self IntelligentUnitController.combatGroups
         IntelligentUnitController.with_combatGroups].
    split; [ reflexivity | ].
    split; [ apply get_set_same | reflexivity ].
  - eexists. split; [ apply single_defender_formation | ].
    split; [ reflexivity | ].
    intros [H _]. discriminate H.
  - exact formation_finite.
Qed.

End FormationFacts.

Lemma single_defender_offset_is_NaN_witness :
  exists p,
    IntelligentUnitController.calculateFormation Sample.cosine Sample.sine
      Sample.pi 1 CombatGroup.defend = [p]
    /\ Number.is_nan (x p) = true /\ ~ finitePosition p.
Proof.
  exact (proj1 (proj2
           (single_defender_offset_is_NaN Sample.cosine Sample.sine Sample.pi
              (fun _ => eq_refl) (fun _ => eq_refl) eq_refl eq_refl))).
Defined.
(* ================================================================== *)
(** * The search of the path finder *)
(* ================================================================== *)

Lemma equiv_refl (a : number) : (a == a)%js.
Proof. destruct a; simpl; auto. reflexivity. Qed.

Lemma equiv_sym (a b : number) : (a == b)%js -> (b == a)%js.
Proof. destruct a, b; simpl; auto. intros H; symmetry; exact H. Qed.

Lemma equiv_trans (a b c : number) : (a == b)%js -> (b == c)%js -> (a == c)%js.
Proof.
  destruct a, b, c; simpl; auto; try contradiction.
  intros H1 H2. rewrite H1. exact H2.
Qed.

Lemma same_spec (a b : number) : Number.same a b = true <-> (a == b)%js.
Proof.
  destruct a, b; unfold Number.same, Number.eqb; simpl;
    try (split; [ discriminate | contradiction ]);
    try (split; [ intros _; exact I | reflexivity ]).
  rewrite Qeq_alt. destruct (q ?= q0)%Q; split; congruence.
Qed.

Lemma eqb_equiv (a b : number) : (a =? b)%js = true -> (a == b)%js.
Proof.
  intros H. apply same_spec. unfold Number.same. destruct a, b; auto.
Qed.

Lemma equiv_eqb (a b : number) :
  Number.is_finite b = true -> (a == b)%js -> (a =? b)%js = true.
Proof.
  intros Hb H. apply same_spec in H. unfold Number.same in H.
  destruct a, b; auto; discriminate.
Qed.

Lemma samePos_refl p : samePos p p.
Proof. split; apply equiv_refl. Qed.

Lemma samePos_sym p q : samePos p q -> samePos q p.
Proof. intros [H1 H2]; split; apply equiv_sym; assumption. Qed.

Lemma samePos_trans p q r : samePos p q -> samePos q r -> samePos p r.
Proof. intros [H1 H2] [H3 H4]; split; eapply equiv_trans; eassumption. Qed.

Lemma sameKey_spec p q : TerrainManager.sameKey p q = true <-> samePos p q.
Proof.
  unfold TerrainManager.sameKey, samePos.
  rewrite andb_true_iff, !same_spec. reflexivity.
Qed.

Lemma closed_has_spec closedSet p :
  TerrainManager.closed_has closedSet p = true
  <-> exists c, In c closedSet /\ samePos p c.
Proof.
  unfold TerrainManager.closed_has. rewrite existsb_exists.
  split; intros [c [H1 H2]]; exists c; (split; [ exact H1 | ]);
    apply sameKey_spec; exact H2.
Qed.

Lemma closed_has_samePos closedSet p q :
  samePos p q ->
  TerrainManager.closed_has closedSet p = TerrainManager.closed_has closedSet q.
Proof.
  intros H. apply eq_true_iff_eq. rewrite !closed_has_spec.
  split; intros [c [H1 H2]]; exists c; (split; [ exact H1 | ]).
  - eapply samePos_trans; [ apply samePos_sym; exact H | exact H2 ].
  - eapply samePos_trans; eassumption.
Qed.

Lemma closed_has_add closedSet p q :
  TerrainManager.closed_has (TerrainManager.closed_add closedSet p) q
  = TerrainManager.closed_has closedSet q || TerrainManager.sameKey q p.
Proof.
  unfold TerrainManager.closed_add.
  destruct (TerrainManager.closed_has closedSet p) eqn:E.
  - destruct (TerrainManager.sameKey q p) eqn:E'.
    + apply sameKey_spec in E'. rewrite (closed_has_samePos closedSet E'), E.
      reflexivity.
    + rewrite orb_false_r. reflexivity.
  - unfold TerrainManager.closed_has. rewrite existsb_app. simpl.
    rewrite orb_false_r. reflexivity.
Qed.

(** ** The measure *)

Lemma filter_length_le {A : Type} (f g : A -> bool) (l : list A) :
  (forall a, f a = true -> g a = true) ->
  (List.length (filter f l) <= List.length (filter g l))%nat.
Proof.
  intros H. induction l as [ | a l IH ]; simpl; [ lia | ].
  destruct (f a) eqn:E.
  - rewrite (H a E). simpl. lia.
  - destruct (g a); simpl; lia.
Qed.

Lemma filter_length_lt {A : Type} (f g : A -> bool) (l : list A) (t : A) :
  (forall a, f a = true -> g a = true) ->
  In t l -> g t = true -> f t = false ->
  (List.length (filter f l) < List.length (filter g l))%nat.
Proof.
  intros H. induction l as [ | a l IH ]; simpl; [ contradiction | ].
  intros [-> | Hin] Hg Hf.
  - rewrite Hg, Hf. simpl. pose proof (filter_length_le f g l H). lia.
  - specialize (IH Hin Hg Hf). destruct (f a) eqn:E.
    + rewrite (H a E). simpl. lia.
    + destruct (g a); simpl; lia.
Qed.

Lemma filter_length_le_all {A : Type} (f : A -> bool) (l : list A) :
  (List.length (filter f l) <= List.length l)%nat.
Proof.
  induction l as [ | a l IH ]; simpl; [ lia | ].
  destruct (f a); simpl; lia.
Qed.

Lemma unclosed_add_le tm closedSet p :
  (List.length (unclosed tm (TerrainManager.closed_add closedSet p))
   <= List.length (unclosed tm closedSet))%nat.
Proof.
  apply filter_length_le. intros a. rewrite closed_has_add.
  destruct (TerrainManager.closed_has closedSet a); simpl; [ discriminate | auto ].
Qed.

Lemma unclosed_add_lt tm closedSet p :
  isTile tm p -> TerrainManager.closed_has closedSet p = false ->
  (List.length (unclosed tm (TerrainManager.closed_add closedSet p))
   < List.length (unclosed tm closedSet))%nat.
Proof.
  intros [t [Hin Hsame]] Hfresh.
  apply filter_length_lt with (t := t).
  - intros a. rewrite closed_has_add.
    destruct (TerrainManager.closed_has closedSet a); simpl; [ discriminate | auto ].
  - exact Hin.
  - rewrite (closed_has_samePos closedSet Hsame), Hfresh. reflexivity.
  - rewrite closed_has_add.
    apply sameKey_spec in Hsame. rewrite Hsame, orb_true_r. reflexivity.
Qed.

Lemma rowPositions_length r c row :
  List.length (rowPositions r c row) = List.length row.
Proof.
  revert c. induction row as [ | t row IH ]; intros c; simpl; [ | rewrite IH ];
    reflexivity.
Qed.

Lemma gridPositions_length r rows :
  List.length (gridPositions r rows) = List.length (List.concat rows).
Proof.
  revert r. induction rows as [ | row rows IH ]; intros r; simpl; [ reflexivity | ].
  rewrite !length_app, rowPositions_length, IH. reflexivity.
Qed.

Lemma unclosed_le_tiles tm closedSet :
  (List.length (unclosed tm closedSet)
   <= List.length (List.concat (TerrainManager.terrain tm)))%nat.
Proof.
  unfold unclosed, tilePositions.
  rewrite <- (gridPositions_length 0). apply filter_length_le_all.
Qed.
(** ** The pieces of one iteration *)

Lemma lowest_nth rest :
  forall i currentNode currentIndex n j,
    TerrainManager.lowest i rest currentNode currentIndex = (n, j) ->
    (n = currentNode /\ j = currentIndex)
    \/ exists k, nth_error rest k = Some n /\ j = (i + k)%nat.
Proof.
  induction rest as [ | m rest IH ]; intros i cur idx n j; simpl.
  - intros [= <- <-]. left; auto.
  - destruct (PathNode.fCost m <? PathNode.fCost cur)%js; intros H;
      apply IH in H; destruct H as [[-> ->] | [k [Hk ->]]].
    + right. exists 0%nat. split; [ reflexivity | lia ].
    + right. exists (S k). split; [ exact Hk | lia ].
    + left; auto.
    + right. exists (S k). split; [ exact Hk | lia ].
Qed.

Lemma lowest_in_open first rest n j :
  TerrainManager.lowest 1 rest first 0 = (n, j) ->
  nth_error (first :: rest) j = Some n.
Proof.
  intros H. apply lowest_nth in H. destruct H as [[-> ->] | [k [Hk ->]]].
  - reflexivity.
  - exact Hk.
Qed.

Lemma splice1_nth {A : Type} (l : list A) :
  forall i a, nth_error l i = Some a ->
    exists l1 l2, l = l1 ++ a :: l2 /\ TerrainManager.splice1 i l = l1 ++ l2.
Proof.
  induction l as [ | b l IH ]; intros [ | i ] a; simpl; try discriminate.
  - intros [= ->]. exists [], l. split; reflexivity.
  - intros H. destruct (IH i a H) as (l1 & l2 & -> & ->).
    exists (b :: l1), l2. split; reflexivity.
Qed.

Lemma index_of_spec (n : number) (k : nat) :
  index_of n = Some k -> (Number.of_nat k == n)%js.
Proof.
  destruct n as [ | | | q ]; simpl; try discriminate.
  destruct (Qeq_bool q (inject_Z (Qfloor q)) && (0 <=? Qfloor q)%Z) eqn:E;
    [ | discriminate ].
  intros [= <-]. apply andb_true_iff in E. destruct E as [E1 E2].
  apply Qeq_bool_eq in E1. apply Z.leb_le in E2.
  rewrite Z2Nat.id by exact E2. symmetry. exact E1.
Qed.

Lemma rowPositions_In r row :
  forall c0 c t, nth_error row c = Some t ->
    In (Pos (Number.of_nat (c0 + c)) (Number.of_nat r)) (rowPositions r c0 row).
Proof.
  induction row as [ | t' row IH ]; intros c0 [ | c ] t; simpl; try discriminate.
  - intros _. left. rewrite Nat.add_0_r. reflexivity.
  - intros H. right. replace (c0 + S c)%nat with (S c0 + c)%nat by lia.
    eapply IH. exact H.
Qed.

Lemma gridPositions_In rows :
  forall r0 r row c t,
    nth_error rows r = Some row -> nth_error row c = Some t ->
    In (Pos (Number.of_nat c) (Number.of_nat (r0 + r))) (gridPositions r0 rows).
Proof.
  induction rows as [ | row' rows IH ]; intros r0 [ | r ] row c t; simpl;
    try discriminate.
  - intros [= ->] H. apply in_or_app. left. rewrite Nat.add_0_r.
    apply (rowPositions_In r0 row 0 c H).
  - intros H1 H2. apply in_or_app. right.
    replace (r0 + S r)%nat with (S r0 + r)%nat by lia.
    eapply IH; eassumption.
Qed.

Lemma tile_at_isTile tm p t :
  TerrainManager.tile_at tm p = Some t -> isTile tm p.
Proof.
  unfold TerrainManager.tile_at.
  destruct (index_of (y p)) as [ r | ] eqn:Er; [ | discriminate ].
  destruct (nth_error (TerrainManager.terrain tm) r) as [ row | ] eqn:Erow;
    [ | discriminate ].
  destruct (index_of (x p)) as [ c | ] eqn:Ec; [ | discriminate ].
  intros Ht.
  exists (Pos (Number.of_nat c) (Number.of_nat r)). split.
  - apply (gridPositions_In (TerrainManager.terrain tm) 0 r c Erow Ht).
  - split; simpl; apply index_of_spec; assumption.
Qed.

Lemma isPassable_isTile tm p units buildings :
  TerrainManager.isPassable tm p units buildings = true -> isTile tm p.
Proof.
  unfold TerrainManager.isPassable.
  destruct (TerrainManager.tile_at tm p) as [ t | ] eqn:E; [ | discriminate ].
  intros _. eapply tile_at_isTile; exact E.
Qed.

Lemma isTile_finite tm p :
  isTile tm p -> Number.is_finite (x p) = true /\ Number.is_finite (y p) = true.
Proof.
  intros [t [Hin [Hx Hy]]].
  assert (Ht : exists c r, t = Pos (Number.of_nat c) (Number.of_nat r)).
  { unfold tilePositions in Hin. revert Hin.
    generalize 0%nat at 1. induction (TerrainManager.terrain tm) as [ | row rows IH ];
      intros r0; simpl; [ contradiction | ].
    rewrite in_app_iff. intros [H | H]; [ | eapply IH; exact H ].
    clear IH. revert H. generalize 0%nat.
    induction row as [ | t' row IH ]; intros c0; simpl; [ contradiction | ].
    intros [<- | H]; [ eauto | eapply IH; exact H ]. }
  destruct Ht as (c & r & ->). simpl in Hx, Hy.
  destruct (x p), (y p); simpl in *; try contradiction; auto.
Qed.

Lemma relax_positions neighbor gCost currentNode openSet openSet' :
  TerrainManager.relax neighbor gCost currentNode openSet = Some openSet' ->
  map PathNode.position openSet' = map PathNode.position openSet.
Proof.
  revert openSet'. induction openSet as [ | n r IH ]; intros openSet'; simpl;
    [ discriminate | ].
  destruct (TerrainManager.samePosition (PathNode.position n) neighbor).
  - intros [= <-]. destruct (gCost <? PathNode.gCost n)%js; reflexivity.
  - destruct (TerrainManager.relax neighbor gCost currentNode r) as [ r' | ];
      [ | discriminate ].
    intros [= <-]. simpl. rewrite (IH r' eq_refl). reflexivity.
Qed.

Lemma relax_None neighbor gCost currentNode openSet :
  TerrainManager.relax neighbor gCost currentNode openSet = None ->
  forall n, In n openSet ->
    TerrainManager.samePosition (PathNode.position n) neighbor = false.
Proof.
  induction openSet as [ | m r IH ]; simpl; [ contradiction | ].
  destruct (TerrainManager.samePosition (PathNode.position m) neighbor) eqn:E;
    [ discriminate | ].
  destruct (TerrainManager.relax neighbor gCost currentNode r); [ discriminate | ].
  intros _ n [<- | Hin]; auto.
Qed.

Lemma samePosition_of_samePos p q :
  Number.is_finite (x q) = true -> Number.is_finite (y q) = true ->
  samePos p q -> TerrainManager.samePosition p q = true.
Proof.
  intros Hx Hy [H1 H2]. unfold TerrainManager.samePosition.
  rewrite (equiv_eqb _ _ Hx H1), (equiv_eqb _ _ Hy H2). reflexivity.
Qed.

Lemma ForallOrdPairs_app_one {A : Type} (R : A -> A -> Prop) (l : list A) (a : A) :
  ForallOrdPairs R l -> (forall b, In b l -> R b a) ->
  ForallOrdPairs R (l ++ [a]).
Proof.
  induction 1 as [ | b l Hb Hl IH ]; intros Ha; simpl.
  - constructor; [ constructor | constructor ].
  - constructor.
    + apply Forall_app. split; [ exact Hb | ].
      constructor; [ apply Ha; left; reflexivity | constructor ].
    + apply IH. intros c Hc. apply Ha. right. exact Hc.
Qed.

Lemma ForallOrdPairs_remove {A : Type} (R : A -> A -> Prop) (l1 l2 : list A) (a : A) :
  ForallOrdPairs R (l1 ++ a :: l2) -> ForallOrdPairs R (l1 ++ l2).
Proof.
  induction l1 as [ | b l1 IH ]; simpl; intros H; inversion H; subst.
  - assumption.
  - constructor.
    + rewrite Forall_app in *. destruct H2 as [H2 H2']. split; [ exact H2 | ].
      inversion H2'; assumption.
    + apply IH. assumption.
Qed.

Lemma ForallOrdPairs_middle {A : Type} (R : A -> A -> Prop) (l1 l2 : list A) (a : A) :
  (forall u v, R u v -> R v u) ->
  ForallOrdPairs R (l1 ++ a :: l2) ->
  forall b, In b (l1 ++ l2) -> R b a.
Proof.
  intros Hsym. induction l1 as [ | c l1 IH ]; simpl; intros H b Hb;
    inversion H; subst.
  - apply Hsym. rewrite Forall_forall in H2. apply H2. exact Hb.
  - destruct Hb as [<- | Hb].
    + rewrite Forall_forall in H2. apply H2. apply in_or_app. right. left.
      reflexivity.
    + apply IH; assumption.
Qed.
(** ** Termination of the search *)

Lemma visit_inv tm end_ units buildings closedSet currentNode openSet neighbor :
  search_inv tm openSet closedSet ->
  search_inv tm
    (TerrainManager.visit tm end_ units buildings closedSet currentNode openSet
       neighbor)
    closedSet.
Proof.
  intros [Ht Hf Hd]. unfold TerrainManager.visit.
  destruct (TerrainManager.closed_has closedSet neighbor
            || negb (TerrainManager.isPassable tm neighbor units buildings)) eqn:E;
    [ constructor; assumption | ].
  apply orb_false_iff in E. destruct E as [Efresh Epass].
  apply negb_false_iff in Epass.
  pose proof (isPassable_isTile _ _ _ _ Epass) as Htile.
  destruct (TerrainManager.relax neighbor _ currentNode openSet) as [ openSet' | ] eqn:Er.
  - apply relax_positions in Er.
    constructor; rewrite Er; assumption.
  - pose proof (relax_None _ _ _ _ Er) as Hnone.
    constructor; rewrite map_app; simpl.
    + apply Forall_app. split; [ exact Ht | repeat constructor; exact Htile ].
    + apply Forall_app. split; [ exact Hf | repeat constructor; exact Efresh ].
    + apply ForallOrdPairs_app_one; [ exact Hd | ].
      intros p Hp Hsame. apply in_map_iff in Hp. destruct Hp as [n [<- Hn]].
      specialize (Hnone n Hn).
      destruct (isTile_finite Htile) as [Hx Hy].
      rewrite (samePosition_of_samePos Hx Hy Hsame) in Hnone. discriminate.
Qed.

Lemma fold_visit_inv tm end_ units buildings closedSet currentNode neighbors :
  forall openSet,
    search_inv tm openSet closedSet ->
    search_inv tm
      (fold_left
         (TerrainManager.visit tm end_ units buildings closedSet currentNode)
         neighbors openSet)
      closedSet.
Proof.
  induction neighbors as [ | nb neighbors IH ]; intros openSet H; simpl;
    [ exact H | ].
  apply IH. apply visit_inv. exact H.
Qed.

(** Taking the current node out of the open set and closing its position
    keeps the invariant and closes one more tile. *)
Lemma close_current_inv tm openSet closedSet l1 l2 currentNode :
  search_inv tm openSet closedSet ->
  openSet = l1 ++ currentNode :: l2 ->
  search_inv tm (l1 ++ l2)
    (TerrainManager.closed_add closedSet (PathNode.position currentNode))
  /\ (List.length
        (unclosed tm
           (TerrainManager.closed_add closedSet (PathNode.position currentNode)))
      < List.length (unclosed tm closedSet))%nat.
Proof.
  intros [Ht Hf Hd] ->.
  rewrite map_app in Ht, Hf, Hd. simpl in Ht, Hf, Hd.
  assert (Hcur : isTile tm (PathNode.position currentNode)
                 /\ TerrainManager.closed_has closedSet
                      (PathNode.position currentNode) = false).
  { apply Forall_app in Ht. destruct Ht as [_ Ht]. inversion Ht; subst.
    apply Forall_app in Hf. destruct Hf as [_ Hf]. inversion Hf; subst. auto. }
  destruct Hcur as [Htile Hfresh].
  split; [ | apply unclosed_add_lt; assumption ].
  constructor; rewrite map_app.
  - apply Forall_app in Ht. destruct Ht as [Ht1 Ht2]. inversion Ht2; subst.
    apply Forall_app. auto.
  - pose proof (@ForallOrdPairs_middle _ (fun p q => ~ samePos p q)
                  (map PathNode.position l1) (map PathNode.position l2) _
                  (fun u v H H' => H (samePos_sym H')) Hd) as Hmid.
    apply Forall_forall. intros p Hp.
    rewrite closed_has_add.
    assert (Hold : TerrainManager.closed_has closedSet p = false).
    { rewrite Forall_forall in Hf. apply Hf.
      apply in_app_iff in Hp. apply in_app_iff. simpl. tauto. }
    rewrite Hold. simpl.
    destruct (TerrainManager.sameKey p (PathNode.position currentNode)) eqn:E;
      [ | reflexivity ].
    apply sameKey_spec in E. exfalso. exact (Hmid p Hp E).
  - eapply ForallOrdPairs_remove. exact Hd.
Qed.

Lemma search_terminates tm end_ units buildings :
  forall fuel openSet closedSet,
    search_inv tm openSet closedSet ->
    (List.length (unclosed tm closedSet) <= fuel)%nat ->
    exists path,
      TerrainManager.search fuel tm end_ units buildings openSet closedSet
      = Some path.
Proof.
  induction fuel as [ | fuel IH ]; intros openSet closedSet Hinv Hfuel.
  - destruct openSet as [ | first rest ]; [ eexists; reflexivity | ].
    exfalso.
    destruct (@close_current_inv tm (first :: rest) closedSet [] rest first Hinv eq_refl)
      as [_ Hlt].
    lia.
  - destruct openSet as [ | first rest ]; [ eexists; reflexivity | ].
    cbn [TerrainManager.search].
    destruct (TerrainManager.lowest 1 rest first 0) as [currentNode currentIndex] eqn:El.
    destruct (getDistance (PathNode.position currentNode) end_ <? num 1)%js;
      [ eexists; reflexivity | ].
    apply lowest_in_open in El.
    destruct (splice1_nth _ _ El) as (l1 & l2 & Hopen & ->).
    destruct (@close_current_inv tm _ closedSet l1 l2 currentNode Hinv Hopen)
      as [Hinv' Hlt].
    apply IH.
    + apply fold_visit_inv. exact Hinv'.
    + lia.
Qed.

(** [findPath] always returns: the search never runs out of fuel. *)
Lemma findPath_total tm start end_ units buildings :
  exists path, TerrainManager.findPath tm start end_ units buildings = Some path.
Proof.
  unfold TerrainManager.findPath, TerrainManager.search_fuel.
  cbn [TerrainManager.search TerrainManager.lowest TerrainManager.splice1].
  destruct (getDistance (PathNode.position (TerrainManager.startNode start end_)) end_
            <? num 1)%js; [ eexists; reflexivity | ].
  apply search_terminates.
  - apply fold_visit_inv. constructor; constructor.
  - apply unclosed_le_tiles.
Qed.
(* ================================================================== *)
(** * The effect of controller methods *)
(* ================================================================== *)

Import IntelligentUnitController.

Lemma table_ops_trans fresh m1 m2 m3 w1 w2 :
  table_ops fresh m1 m2 w1 -> table_ops fresh m2 m3 w2 ->
  table_ops fresh m1 m3 (w1 + w2).
Proof.
  intros H1 H2. induction H2 as [ m | k m m' w H IH | c m m' w Hc H IH ].
  - rewrite Nat.add_0_r. exact H1.
  - apply ops_delete. apply IH. exact H1.
  - rewrite Nat.add_assoc. apply ops_set; [ exact Hc | ]. apply IH. exact H1.
Qed.

Section Effects.

Variable clock : nat -> Z.
Variable r0 : nat.

Lemma effect_ret {A : Type} (a : A) (Q : A -> Prop) :
  Q a -> effect clock r0 0 Q (ret a).
Proof.
  intros Ha s Hs. exists a, s, 0%nat. repeat split; auto. constructor.
Qed.

Lemma effect_bind {A B : Type} w1 w2 (Q : A -> Prop) (Q' : B -> Prop)
    (m : M A) (k : A -> M B) :
  effect clock r0 w1 Q m ->
  (forall a, Q a -> effect clock r0 w2 Q' (k a)) ->
  effect clock r0 (w1 + w2) Q' (bind m k).
Proof.
  intros Hm Hk s Hs.
  destruct (Hm s Hs) as (a & s1 & u1 & E1 & Ha & Hr1 & Ht1 & Hu1 & Hops1).
  destruct (Hk a Ha s1 ltac:(lia)) as (b & s2 & u2 & E2 & Hb & Hr2 & Ht2 & Hu2 & Hops2).
  exists b, s2, (u1 + u2)%nat. unfold bind. rewrite E1.
  repeat split; auto; try lia; try congruence.
  eapply table_ops_trans; eassumption.
Qed.

Lemma effect_weaken {A : Type} w w' (Q Q' : A -> Prop) (m : M A) :
  (w <= w')%nat -> (forall a, Q a -> Q' a) ->
  effect clock r0 w Q m -> effect clock r0 w' Q' m.
Proof.
  intros Hw HQ Hm s Hs.
  destruct (Hm s Hs) as (a & s1 & u1 & E1 & Ha & Hr1 & Ht1 & Hu1 & Hops1).
  exists a, s1, u1. repeat split; auto. lia.
Qed.

Lemma effect_deref i : effect clock r0 0 (fun _ => True) (deref i).
Proof.
  intros s Hs. do 3 eexists. split; [ reflexivity | ].
  repeat split; auto. constructor.
Qed.

Lemma effect_get_self : effect clock r0 0 (fun _ => True) get_self.
Proof.
  intros s Hs. do 3 eexists. split; [ reflexivity | ].
  repeat split; auto. constructor.
Qed.

Lemma effect_get_units : effect clock r0 0 (fun _ => True) get_units.
Proof.
  intros s Hs. do 3 eexists. split; [ reflexivity | ].
  repeat split; auto. constructor.
Qed.

Lemma effect_modify_unit i f : effect clock r0 0 (fun _ => True) (modify_unit i f).
Proof.
  intros s Hs. do 3 eexists. split; [ reflexivity | ].
  repeat split; auto. constructor.
Qed.

(** A write to a field other than the command table and the threat map. *)
Lemma effect_modify_other f :
  (forall c, activeCommands (f c) = activeCommands c) ->
  (forall c, threatMap (f c) = threatMap c) ->
  effect clock r0 0 (fun _ => True) (modify_self f).
Proof.
  intros Hc Ht s Hs. do 3 eexists. split; [ reflexivity | ].
  cbn [self reads]. rewrite Hc, Ht. repeat split; auto. constructor.
Qed.

Lemma effect_lift_option {A : Type} (o : option A) :
  o <> None -> effect clock r0 0 (fun _ => True) (lift_option o).
Proof.
  intros Ho s Hs. destruct o as [ a | ]; [ | contradiction ].
  do 3 eexists. split; [ reflexivity | ].
  repeat split; auto. constructor.
Qed.

Lemma effect_deleteCommand k : effect clock r0 0 (fun _ => True) (deleteCommand k).
Proof.
  intros s Hs. do 3 eexists. split; [ reflexivity | ].
  cbn [self reads threatMap activeCommands with_activeCommands].
  repeat split; auto. apply ops_delete. constructor.
Qed.

Lemma effect_issueCommand command :
  createdSince clock r0 command ->
  effect clock r0 (commandWeight command) (fun _ => True) (issueCommand command).
Proof.
  intros Hc s Hs. do 3 eexists. split; [ reflexivity | ].
  cbn [self reads threatMap activeCommands with_activeCommands].
  repeat split; auto.
  change (commandWeight command) with (0 + commandWeight command)%nat.
  apply ops_set; [ exact Hc | constructor ].
Qed.

Lemma effect_Date_now :
  effect clock r0 0 (fun t => exists r, (r0 <= r)%nat /\ t = clock r)
    (Date_now clock).
Proof.
  intros s Hs. do 3 eexists. split; [ reflexivity | ].
  cbn [self reads]. repeat split; eauto. constructor.
Qed.

Lemma effect_when (b : bool) w (m : M void) :
  effect clock r0 w (fun _ => True) m ->
  effect clock r0 w (fun _ => True) (when b m).
Proof.
  intros H. destruct b; [ exact H | ].
  apply (@effect_weaken _ 0 w (fun _ => True) (fun _ => True));
    [ lia | auto | apply effect_ret; exact I ].
Qed.

Lemma effect_makeCommand prefix unitId type target priority issuedBy :
  effect clock r0 0
    (fun command =>
       createdSince clock r0 command /\ UnitCommand.type command = type)
    (makeCommand clock prefix unitId type target priority issuedBy).
Proof.
  unfold makeCommand.
  change 0%nat with (0 + (0 + 0))%nat.
  eapply effect_bind; [ apply effect_Date_now | ]. intros t1 _.
  eapply effect_bind; [ apply effect_Date_now | ]. intros t2 [r [Hr ->]].
  apply effect_ret. split; [ exists r; auto | reflexivity ].
Qed.

End Effects.
Section CommandEffects.

Variable clock : nat -> Z.
Variable r0 : nat.

Lemma effect_bind0 {A B : Type} w (Q : A -> Prop) (Q' : B -> Prop)
    (m : M A) (k : A -> M B) :
  effect clock r0 0 Q m ->
  (forall a, Q a -> effect clock r0 w Q' (k a)) ->
  effect clock r0 w Q' (bind m k).
Proof. intros Hm Hk. change w with (0 + w)%nat. eapply effect_bind; eassumption. Qed.

Ltac eff_prim :=
  first
    [ apply effect_deref
    | apply effect_get_self
    | apply effect_get_units
    | apply effect_modify_unit
    | apply effect_deleteCommand
    | apply effect_Date_now
    | apply effect_ret; exact I
    | apply effect_modify_other; intros; reflexivity ].

Ltac eff_seq := eapply effect_bind0; [ eff_prim | intros ].

Lemma effect_executeMoveCommand unit target buildings :
  effect clock r0 0 (fun _ => True) (executeMoveCommand unit target buildings).
Proof.
  unfold executeMoveCommand.
  eff_seq.
  destruct (getDistance (Unit.position a) target <? num 1)%js; [ eff_prim | ].
  eff_seq. eff_seq.
  apply effect_bind0 with (Q := fun _ : list Position => True).
  - destruct (JSMap.get (Unit.id a) (unitPaths a0)) as [ [ | p r ] | ];
      try eff_prim;
      (eapply effect_bind0;
       [ apply effect_lift_option;
         destruct (findPath_total (terrainManager a0) (Unit.position a) target
                     a1 buildings) as [path ->];
         discriminate
       | intros; eff_seq; eff_prim ]).
  - intros path _.
    destruct path as [ | p0 [ | nextPoint rest ] ]; try eff_prim.
    match goal with
    | |- context [ if ?b then _ else _ ] => destruct b
    end; [ | eff_prim ].
    eff_seq. apply effect_when. eff_prim.
Qed.

Lemma effect_performAttack attacker target :
  effect clock r0 0 (fun _ => True) (performAttack attacker target).
Proof.
  unfold performAttack. eff_seq. eff_seq. eff_seq.
  apply effect_when. eff_prim.
Qed.

Lemma effect_issueMoveTo unitId target priority :
  effect clock r0 1 (fun _ => True) (issueMoveTo clock unitId target priority).
Proof.
  unfold issueMoveTo.
  eapply effect_bind0; [ apply effect_makeCommand | ].
  intros command [Hc Ht].
  replace 1%nat with (commandWeight command)
    by (unfold commandWeight; rewrite Ht; reflexivity).
  apply effect_issueCommand. exact Hc.
Qed.

Lemma effect_issueAttackOn prefix unitId targetId priority :
  effect clock r0 2 (fun _ => True)
    (issueAttackOn clock prefix unitId targetId priority).
Proof.
  unfold issueAttackOn.
  eapply effect_bind0; [ apply effect_makeCommand | ].
  intros command [Hc Ht].
  replace 2%nat with (commandWeight command)
    by (unfold commandWeight; rewrite Ht; reflexivity).
  apply effect_issueCommand. exact Hc.
Qed.

Lemma effect_up {A : Type} w w' (m : M A) :
  (w <= w')%nat ->
  effect clock r0 w (fun _ => True) m -> effect clock r0 w' (fun _ => True) m.
Proof. intros Hw. apply effect_weaken; auto. Qed.

Lemma effect_executeAttackCommand unit targetId :
  effect clock r0 1 (fun _ => True) (executeAttackCommand clock unit targetId).
Proof.
  unfold executeAttackCommand. eff_seq. eff_seq.
  match goal with
  | |- context [ match ?o with Some _ => _ | None => _ end ] => destruct o
  end; [ | apply (@effect_up _ 0); [ lia | eff_prim ] ].
  eff_seq.
  match goal with
  | |- context [ if ?b then _ else _ ] => destruct b
  end.
  - apply (@effect_up _ 0); [ lia | apply effect_performAttack ].
  - apply effect_issueMoveTo.
Qed.

Lemma effect_executeGatherCommand unit zoneId :
  effect clock r0 1 (fun _ => True) (executeGatherCommand clock unit zoneId).
Proof.
  unfold executeGatherCommand. eff_seq. eff_seq.
  match goal with
  | |- context [ match ?o with Some _ => _ | None => _ end ] => destruct o
  end; destruct zoneId;
    try (apply (@effect_up _ 0); [ lia | eff_prim ]).
  destruct (ResourceZone.isExhausted _);
    [ apply (@effect_up _ 0); [ lia | eff_prim ] | ].
  match goal with
  | |- context [ if ?b then _ else _ ] => destruct b
  end.
  - apply (@effect_up _ 0); [ lia | ]. apply effect_when. eff_prim.
  - apply effect_issueMoveTo.
Qed.

Lemma effect_executePatrolCommand unit patrolPoint buildings :
  effect clock r0 0 (fun _ => True)
    (executePatrolCommand unit patrolPoint buildings).
Proof.
  unfold executePatrolCommand. eff_seq. apply effect_executeMoveCommand.
Qed.

Lemma effect_executeGuardCommand unit targetId :
  effect clock r0 3 (fun _ => True) (executeGuardCommand clock unit targetId).
Proof.
  unfold executeGuardCommand. eff_seq. eff_seq.
  match goal with
  | |- context [ match ?o with Some _ => _ | None => _ end ] => destruct o
  end; [ | apply (@effect_up _ 0); [ lia | eff_prim ] ].
  eff_seq.
  change 3%nat with (1 + 2)%nat.
  eapply effect_bind; [ apply effect_when; apply effect_issueMoveTo | ].
  intros _ _. eff_seq.
  match goal with
  | |- context [ match ?l with [] => _ | _ :: _ => _ end ] => destruct l
  end; [ apply (@effect_up _ 0); [ lia | eff_prim ] | ].
  eapply effect_bind0; [ apply effect_makeCommand | ].
  intros command [Hc Ht].
  replace 2%nat with (commandWeight command)
    by (unfold commandWeight; rewrite Ht; reflexivity).
  apply effect_issueCommand. exact Hc.
Qed.

(** Executing a command leaves room for its own iteration in its weight. *)
Lemma effect_executeCommand unit command buildings :
  effect clock r0 (commandWeight command - 1) (fun _ => True)
    (executeCommand clock unit command buildings).
Proof.
  unfold executeCommand, commandWeight.
  destruct (UnitCommand.type command); cbn [Nat.sub].
  - apply effect_executeMoveCommand.
  - apply effect_executeAttackCommand.
  - apply effect_executeGatherCommand.
  - apply effect_executePatrolCommand.
  - apply effect_executeGuardCommand.
  - eff_prim.
Qed.

End CommandEffects.
(* ================================================================== *)
(** * Processing the command table *)
(* ================================================================== *)

Lemma weight_app l1 l2 : weight (l1 ++ l2) = (weight l1 + weight l2)%nat.
Proof. unfold weight. rewrite map_app, list_sum_app. reflexivity. Qed.

Lemma weight_remove k l : (weight (JSMap.remove k l) <= weight l)%nat.
Proof.
  unfold weight. induction l as [ | e l IH ]; simpl; [ lia | ].
  destruct (negb (String.eqb k (fst e))); simpl; lia.
Qed.

Lemma weight_replace k command l :
  (weight (JSMap.replace k command l) <= weight l + commandWeight command)%nat.
Proof.
  unfold weight. induction l as [ | [k' c'] l IH ]; simpl; [ lia | ].
  destruct (String.eqb k k'); simpl in *; lia.
Qed.

Lemma commandWeight_pos command : (1 <= commandWeight command)%nat.
Proof. unfold commandWeight. destruct (UnitCommand.type command); lia. Qed.

Lemma table_ops_weight fresh m m' w :
  table_ops fresh m m' w ->
  (weight (JSMap.pending m') <= weight (JSMap.pending m) + w)%nat.
Proof.
  induction 1 as [ m | k m m' w H IH | c m m' w Hc H IH ].
  - lia.
  - simpl. pose proof (weight_remove k (JSMap.pending m')). lia.
  - unfold JSMap.set.
    destruct (JSMap.mem (UnitCommand.id c) (JSMap.yielded m')); simpl; [ lia | ].
    destruct (JSMap.mem (UnitCommand.id c) (JSMap.pending m')); simpl.
    + pose proof (weight_replace (UnitCommand.id c) c (JSMap.pending m')). lia.
    + rewrite weight_app. unfold weight at 2. simpl. lia.
Qed.

Lemma table_ops_kept fresh good commandsToRemove m m' w :
  (forall command, fresh command -> good command) ->
  table_ops fresh m m' w ->
  kept good commandsToRemove m -> kept good commandsToRemove m'.
Proof.
  intros Hfresh. induction 1 as [ m | k m m' w H IH | c m m' w Hc H IH ];
    intros Hkept.
  - exact Hkept.
  - specialize (IH Hkept). intros k' c' Hin. simpl in Hin.
    apply In_remove in Hin. apply IH. apply Hin.
  - specialize (IH Hkept). intros k' c' Hin. unfold JSMap.set in Hin.
    destruct (JSMap.mem (UnitCommand.id c) (JSMap.yielded m')); simpl in Hin.
    + apply In_replace in Hin. destruct Hin as [[= -> ->] | Hin].
      * left. apply Hfresh. exact Hc.
      * apply IH. exact Hin.
    + destruct (JSMap.mem (UnitCommand.id c) (JSMap.pending m')); simpl in Hin;
        apply IH; exact Hin.
Qed.

Section ProcessCommands.

Variable clock : nat -> Z.

(** The loop ends with nothing pending; what it has yielded and not listed
    for removal is [good], for any property [good] of the commands that are
    created during the loop and of those that pass the test of age. *)
Lemma processLoop_spec (good : UnitCommand.t -> Prop) t r0 buildings :
  (forall command, createdSince clock r0 command -> good command) ->
  (forall command,
      (t - UnitCommand.createdAt command >? 60000)%Z = false -> good command) ->
  forall fuel s commandsToRemove,
    (r0 <= reads s)%nat ->
    (weight (JSMap.pending (activeCommands (self s))) <= fuel)%nat ->
    kept good commandsToRemove (activeCommands (self s)) ->
    exists commandsToRemove' s',
      processLoop clock fuel t buildings commandsToRemove s
      = Some (commandsToRemove', s')
      /\ JSMap.pending (activeCommands (self s')) = []
      /\ kept good commandsToRemove' (activeCommands (self s'))
      /\ threatMap (self s') = threatMap (self s)
      /\ (reads s <= reads s')%nat.
Proof.
  intros Hfresh Hyoung.
  induction fuel as [ | fuel IH ]; intros s rm Hr Hw Hkept.
  - destruct (JSMap.pending (activeCommands (self s))) as [ | [k c] rest ] eqn:Ep.
    + exists rm, s. cbn. unfold JSMap.next. rewrite Ep. auto.
    + exfalso. unfold weight in Hw. simpl in Hw.
      pose proof (commandWeight_pos c). lia.
  - cbn [processLoop]. unfold JSMap.next.
    destruct (JSMap.pending (activeCommands (self s))) as [ | [k c] rest ] eqn:Ep.
    + exists rm, s. auto.
    + set (s1 := mkState
                   (with_activeCommands
                      (JSMap.mk (JSMap.yielded (activeCommands (self s)) ++ [(k, c)])
                                rest)
                      (self s))
                   (units s) (reads s)).
      assert (Hw1 : (weight rest + commandWeight c <= S fuel)%nat).
      { unfold weight in *. simpl in Hw. lia. }
      pose proof (commandWeight_pos c) as Hpos.
      assert (Hkept1 : forall rm',
                 (good c \/ In k rm') ->
                 (forall k', In k' rm -> In k' rm') ->
                 kept good rm' (activeCommands (self s1))).
      { intros rm' Hk Hsub k' c' Hin. cbn in Hin. apply in_app_iff in Hin.
        destruct Hin as [Hin | [[= <- <-] | []]]; [ | exact Hk ].
        destruct (Hkept k' c' Hin); auto. }
      destruct (findUnit (UnitCommand.unitId c) (units s1)) as [ unit | ].
      * (* the command is executed *)
        unfold bind.
        destruct (@effect_executeCommand clock r0 unit c buildings s1 Hr)
          as (a & s2 & w' & E & _ & Hr2 & Ht2 & Hw2 & Hops).
        rewrite E.
        set (rm' := if (t - UnitCommand.createdAt c >? 60000)%Z
                    then rm ++ [k] else rm).
        destruct (IH s2 rm') as (rm'' & s' & E' & Hp' & Ha' & Ht' & Hr').
        -- unfold s1 in Hr2. cbn [reads] in Hr2. lia.
        -- pose proof (table_ops_weight Hops) as H.
           unfold s1 in H.
           cbn [self activeCommands with_activeCommands JSMap.pending] in H. lia.
        -- eapply table_ops_kept; [ exact Hfresh | exact Hops | ].
           apply Hkept1; unfold rm'.
           ++ destruct (t - UnitCommand.createdAt c >? 60000)%Z eqn:Eold.
              ** right. apply in_or_app. right. left. reflexivity.
              ** left. apply Hyoung. exact Eold.
           ++ intros k' Hk'. destruct (t - UnitCommand.createdAt c >? 60000)%Z;
                [ apply in_or_app; left | ]; exact Hk'.
        -- exists rm'', s'. repeat split; auto.
           ++ rewrite Ht', Ht2. reflexivity.
           ++ unfold s1 in Hr2. cbn [reads] in Hr2. lia.
      * (* its unit is gone *)
        destruct (IH s1 (rm ++ [k])) as (rm'' & s' & E' & Hp' & Ha' & Ht' & Hr').
        -- exact Hr.
        -- unfold s1.
           cbn [self activeCommands with_activeCommands JSMap.pending]. lia.
        -- apply Hkept1.
           ++ right. apply in_or_app. right. left. reflexivity.
           ++ intros k' Hk'. apply in_or_app. left. exact Hk'.
        -- exists rm'', s'. repeat split; auto.
Qed.

Lemma forEach_deleteCommand commandsToRemove :
  forall s,
    exists s',
      forEach commandsToRemove deleteCommand s = Some (tt, s')
      /\ threatMap (self s') = threatMap (self s)
      /\ reads s' = reads s
      /\ (forall e, In e (JSMap.entries (activeCommands (self s'))) ->
            In e (JSMap.entries (activeCommands (self s)))
            /\ ~ In (fst e) commandsToRemove).
Proof.
  induction commandsToRemove as [ | k rm IH ]; intros s.
  - exists s. repeat split; auto.
  - cbn [forEach]. unfold bind, deleteCommand at 1, modify_self.
    match goal with
    | |- context [ forEach rm deleteCommand ?s1 ] =>
        destruct (IH s1) as (s' & E & Ht & Hr & Hin)
    end.
    exists s'. rewrite E. repeat split; auto.
    + apply Hin in H. destruct H as [H _]. cbn in H.
      apply In_entries_delete in H. apply H.
    + intros [Hk | Hk].
      * apply Hin in H. destruct H as [H _]. cbn in H.
        apply In_entries_delete in H. destruct H as [_ H]. congruence.
      * apply Hin in H. destruct H as [_ H]. contradiction.
Qed.

Lemma processCommands_good (good : UnitCommand.t -> Prop) buildings s :
  (forall command,
      createdSince clock (S (reads s)) command -> good command) ->
  (forall command,
      (clock (reads s) - UnitCommand.createdAt command >? 60000)%Z = false ->
      good command) ->
  exists s',
    processCommands clock buildings s = Some (tt, s')
    /\ threatMap (self s') = threatMap (self s)
    /\ (reads s <= reads s')%nat
    /\ forall k command,
         In (k, command) (JSMap.entries (activeCommands (self s'))) ->
         good command.
Proof.
  intros Hfresh Hyoung.
  unfold processCommands, bind, Date_now, modify_self, get_self.
  cbn [self units reads activeCommands with_activeCommands].
  set (t := clock (reads s)).
  set (s0 := mkState (with_activeCommands (JSMap.rewind (activeCommands (self s)))
                        (self s))
                     (units s) (S (reads s))).
  destruct (@processLoop_spec good t (S (reads s)) buildings Hfresh Hyoung
              (weight (JSMap.entries (JSMap.rewind (activeCommands (self s)))))
              s0 [])
    as (rm & s1 & E & Hp & Hkept & Ht & Hr).
  - unfold s0. cbn [reads]. lia.
  - unfold s0. cbn [self activeCommands with_activeCommands].
    unfold JSMap.rewind, JSMap.entries. cbn [JSMap.yielded JSMap.pending app]. lia.
  - intros k c Hin. unfold s0 in Hin.
    cbn [self activeCommands with_activeCommands JSMap.rewind JSMap.yielded] in Hin.
    contradiction.
  - rewrite E.
    destruct (forEach_deleteCommand rm s1) as (s' & E' & Ht' & Hr' & Hin).
    exists s'. rewrite E'. split; [ reflexivity | ].
    split; [ rewrite Ht', Ht; reflexivity | ].
    split; [ unfold s0 in Hr; cbn [reads] in Hr; lia | ].
    intros k c Hkc. apply Hin in Hkc. destruct Hkc as [Hkc Hnot].
    unfold JSMap.entries in Hkc. rewrite Hp, app_nil_r in Hkc.
    destruct (Hkept k c Hkc) as [H | H]; [ exact H | contradiction ].
Qed.

(** [processCommands] always returns and does not touch the threat map. *)
Lemma processCommands_total buildings s :
  exists s',
    processCommands clock buildings s = Some (tt, s')
    /\ threatMap (self s') = threatMap (self s)
    /\ (reads s <= reads s')%nat.
Proof.
  destruct (@processCommands_good (fun _ => True) buildings s) as (s' & E & Ht & Hr & _);
    auto.
  exists s'. auto.
Qed.

End ProcessCommands.

(** C7.  With a clock that does not run backwards, [processCommands]
    returns, and no command that is left in the table afterwards was
    created more than 60000 ms before the time [t] that the step read on
    entry, whatever its kind and whether or not it was completed. *)
Theorem processCommands_expires clock buildings s :
  monotone clock ->
  exists s',
    processCommands clock buildings s = Some (tt, s')
    /\ forall k command,
         In (k, command) (JSMap.entries (activeCommands (self s'))) ->
         (clock (reads s) - UnitCommand.createdAt command <= 60000)%Z.
Proof.
  intros Hmono.
  destruct (@processCommands_good clock (young (clock (reads s))) buildings s)
    as (s' & E & _ & _ & H).
  - intros command [r [Hr Hc]]. unfold young. rewrite Hc.
    pose proof (Hmono (reads s) r ltac:(lia)). lia.
  - intros command Hc. unfold young.
    rewrite Z.gtb_ltb in Hc. apply Z.ltb_ge in Hc. exact Hc.
  - exists s'. split; [ exact E | exact H ].
Qed.

Lemma ticking_monotone start : monotone (Sample.ticking start).
Proof. intros n m H. unfold Sample.ticking. lia. Defined.

Lemma processCommands_expires_witness :
  exists s',
    processCommands (Sample.ticking 100000) [] Sample.staleWorld = Some (tt, s')
    /\ forall k command,
         In (k, command) (JSMap.entries (activeCommands (self s'))) ->
         (Sample.ticking 100000 (reads Sample.staleWorld)
          - UnitCommand.createdAt command <= 60000)%Z.
Proof.
  exact (processCommands_expires [] Sample.staleWorld (ticking_monotone 100000)).
Defined.

(** On [Sample.staleWorld] the command of time 0 is dropped and the recent
    one stays. *)
Example processCommands_drops_stale :
  option_map
    (fun r => JSMap.keys (activeCommands (self (snd r))))
    (processCommands (Sample.ticking 100000) [] Sample.staleWorld)
  = Some ["move_u2_99000"%string].
Proof. vm_compute. reflexivity. Qed.

(** C4 on a unit that stands on its target.  The move command of unit
    [u1], stored under its id [move_u1_1000], has the position of the unit
    as target.  [executeMoveCommand] deletes the key [u1], which is not in
    the table, and the command is still active after the step.  Had the
    command been stored under the key [u1], the same step would have
    removed it. *)
Theorem move_command_at_goal_stays :
  getDistance (Unit.position (Sample.soldier "u1" (Sample.at_ 2 2)))
              (Sample.at_ 2 2) = num 0
  /\ option_map
       (fun r => JSMap.keys (activeCommands (self (snd r))))
       (processCommands (Sample.ticking 2000) []
          (Sample.arrivedWorld "move_u1_1000"))
     = Some ["move_u1_1000"%string]
  /\ option_map
       (fun r => JSMap.keys (activeCommands (self (snd r))))
       (processCommands (Sample.ticking 2000) [] (Sample.arrivedWorld "u1"))
     = Some [].
Proof. repeat split; vm_compute; reflexivity. Qed.
(* ================================================================== *)
(** * Threat assessment *)
(* ================================================================== *)

Section JSMapDelete.

Variable V : Type.
Implicit Types (m : JSMap.t V) (l : list (string * V)) (k : string) (v : V).

Lemma lookup_remove_same k l : JSMap.lookup k (JSMap.remove k l) = None.
Proof.
  induction l as [ | [k' v'] l IH ]; simpl; [ reflexivity | ].
  destruct (String.eqb k k') eqn:E; simpl; [ exact IH | ].
  rewrite E. exact IH.
Qed.

Lemma lookup_remove_None k k' l :
  JSMap.lookup k l = None -> JSMap.lookup k (JSMap.remove k' l) = None.
Proof.
  induction l as [ | [k0 v0] l IH ]; simpl; [ reflexivity | ].
  destruct (String.eqb k k0) eqn:E; [ discriminate | ].
  intros H. destruct (String.eqb k' k0); simpl; [ auto | ].
  rewrite E. auto.
Qed.

Lemma lookup_app_None k l1 l2 :
  JSMap.lookup k (l1 ++ l2) = None
  <-> JSMap.lookup k l1 = None /\ JSMap.lookup k l2 = None.
Proof.
  rewrite lookup_app. destruct (JSMap.lookup k l1); split;
    try discriminate; intuition (discriminate || auto).
Qed.

Lemma get_delete_same k m : JSMap.get k (JSMap.delete k m) = None.
Proof.
  unfold JSMap.get, JSMap.delete, JSMap.entries; simpl.
  apply lookup_app_None. split; apply lookup_remove_same.
Qed.

Lemma get_delete_None k k' m :
  JSMap.get k m = None -> JSMap.get k (JSMap.delete k' m) = None.
Proof.
  unfold JSMap.get, JSMap.delete, JSMap.entries; simpl.
  rewrite !lookup_app_None. intros [H1 H2].
  split; apply lookup_remove_None; assumption.
Qed.

Lemma In_lookup k v l : In (k, v) l -> exists v', JSMap.lookup k l = Some v'.
Proof.
  induction l as [ | [k0 v0] l IH ]; simpl; [ contradiction | ].
  intros [[= -> ->] | H].
  - rewrite String.eqb_refl. eauto.
  - destruct (String.eqb k k0); eauto.
Qed.

End JSMapDelete.

Section Pruning.

Variable old : ThreatAssessment.t -> bool.

Let prune (m : JSMap.t ThreatAssessment.t) (e : string * ThreatAssessment.t) :=
  if old (snd e) then JSMap.delete (fst e) m else m.

Lemma prune_entries l :
  forall m e, In e (JSMap.entries (fold_left prune l m)) -> In e (JSMap.entries m).
Proof.
  induction l as [ | a l IH ]; intros m e; simpl; [ auto | ].
  intros H. apply IH in H. unfold prune in H.
  destruct (old (snd a)); [ | exact H ].
  apply In_entries_delete in H. apply H.
Qed.

Lemma prune_get_None l :
  forall m k, JSMap.get k m = None -> JSMap.get k (fold_left prune l m) = None.
Proof.
  induction l as [ | a l IH ]; intros m k H; simpl; [ exact H | ].
  apply IH. unfold prune. destruct (old (snd a)); [ | exact H ].
  apply get_delete_None. exact H.
Qed.

Lemma prune_deletes l :
  forall m k v, In (k, v) l -> old v = true ->
    JSMap.get k (fold_left prune l m) = None.
Proof.
  induction l as [ | a l IH ]; intros m k v; simpl; [ contradiction | ].
  intros [-> | Hin] Hold.
  - apply prune_get_None. unfold prune. simpl. rewrite Hold.
    apply get_delete_same.
  - eapply IH; eassumption.
Qed.

(** After the pruning loop no [old] entry is left. *)
Lemma prune_all m k v :
  In (k, v) (JSMap.entries (fold_left prune (JSMap.entries m) m)) ->
  old v = false.
Proof.
  intros H. destruct (old v) eqn:E; [ | reflexivity ].
  exfalso.
  pose proof (@prune_entries _ _ _ H) as Hin.
  pose proof (@prune_deletes (JSMap.entries m) m k v Hin E) as Hnone.
  destruct (@In_lookup _ _ _ _ H) as [v' Hv']. unfold JSMap.get in Hnone.
  congruence.
Qed.

End Pruning.
Section ThreatRefresh.

Variable clock : nat -> Z.

Lemma refresh_spec currentTime enemyUnits :
  forall s,
    exists s',
      forEach enemyUnits
        (fun enemy =>
           modify_self (fun c =>
             with_threatMap
               (JSMap.set (Unit.id enemy)
                  (ThreatAssessment.mk (Unit.id enemy) (Unit.position enemy)
                     (calculateThreatLevel enemy) (Unit.type enemy)
                     currentTime false)
                  (threatMap c)) c)) s
      = Some (tt, s')
      /\ reads s' = reads s
      /\ (forall k e,
            In (k, e) (JSMap.entries (threatMap (self s'))) ->
            In (k, e) (JSMap.entries (threatMap (self s)))
            \/ ThreatAssessment.lastSeen e = currentTime)
      /\ (forall k,
            JSMap.get k (threatMap (self s)) = None ->
            ~ In k (map Unit.id enemyUnits) ->
            JSMap.get k (threatMap (self s')) = None).
Proof.
  induction enemyUnits as [ | enemy enemies IH ]; intros s.
  - exists s. cbn. auto.
  - cbn [forEach]. unfold bind, modify_self at 1.
    match goal with
    | |- context [ forEach enemies _ ?s1 ] =>
        destruct (IH s1) as (s' & E & Hr & Hin & Hget)
    end.
    exists s'. rewrite E. split; [ reflexivity | ].
    split; [ exact Hr | ].
    split.
    + intros k e H. apply Hin in H. destruct H as [H | H]; [ | auto ].
      cbn [self threatMap with_threatMap] in H.
      apply In_entries_set in H. destruct H as [[= -> ->] | H]; auto.
    + intros k Hk Hnot. apply Hget.
      * cbn [self threatMap with_threatMap].
        rewrite get_set_other; [ exact Hk | ].
        intros Hk'. apply Hnot. left. exact Hk'.
      * intros H. apply Hnot. right. exact H.
Qed.

Lemma updateThreatAssessment_spec enemyUnits s :
  exists s',
    updateThreatAssessment clock enemyUnits s = Some (tt, s')
    /\ reads s' = S (reads s)
    /\ (forall k e,
          In (k, e) (JSMap.entries (threatMap (self s'))) ->
          recent (clock (reads s)) e)
    /\ (forall k e,
          JSMap.get k (threatMap (self s)) = Some e ->
          ~ recent (clock (reads s)) e ->
          ~ In k (map Unit.id enemyUnits) ->
          JSMap.get k (threatMap (self s')) = None).
Proof.
  unfold updateThreatAssessment, bind, Date_now.
  set (t := clock (reads s)).
  unfold modify_self at 1.
  cbn [self units reads threatMap with_threatMap].
  set (old := fun e : ThreatAssessment.t => (t - ThreatAssessment.lastSeen e >? 30000)%Z).
  match goal with
  | |- context [ forEach enemyUnits _ ?s1 ] =>
      destruct (refresh_spec t enemyUnits s1) as (s' & E & Hr & Hin & Hget)
  end.
  exists s'. rewrite E. split; [ reflexivity | ].
  split; [ rewrite Hr; reflexivity | ].
  cbn [self threatMap with_threatMap] in Hin, Hget.
  split.
  - intros k e H. apply Hin in H. unfold recent. destruct H as [H | H].
    + apply (@prune_all old) in H. unfold old in H.
      rewrite Z.gtb_ltb in H. apply Z.ltb_ge in H. exact H.
    + rewrite H. lia.
  - intros k e Hk Hold Hnot. apply Hget; [ | exact Hnot ].
    apply (@prune_deletes old) with (v := e).
    + apply lookup_In. exact Hk.
    + unfold old. unfold recent in Hold. apply Z.gtb_lt. lia.
Qed.

(** ** Nothing else writes the threat map *)

Lemma keeps_of_effect {A : Type} w (Q : A -> Prop) (m : M A) :
  effect clock 0 w Q m -> keeps_threats m.
Proof.
  intros H s. destruct (H s ltac:(lia)) as (a & s' & w' & E & _ & _ & Ht & _).
  exists a, s'. auto.
Qed.

Lemma keeps_ret {A : Type} (a : A) : keeps_threats (ret a).
Proof. intros s. exists a, s. auto. Qed.

Lemma keeps_bind {A B : Type} (m : M A) (k : A -> M B) :
  keeps_threats m -> (forall a, keeps_threats (k a)) ->
  keeps_threats (bind m k).
Proof.
  intros Hm Hk s. destruct (Hm s) as (a & s1 & E1 & H1).
  destruct (Hk a s1) as (b & s2 & E2 & H2).
  exists b, s2. unfold bind. rewrite E1. split; [ exact E2 | congruence ].
Qed.

Lemma keeps_forEach {A : Type} (l : list A) (body : A -> M void) :
  (forall a, keeps_threats (body a)) -> keeps_threats (forEach l body).
Proof.
  intros H. induction l as [ | a l IH ]; simpl.
  - apply keeps_ret.
  - apply keeps_bind; auto.
Qed.

Lemma keeps_forEachIndexed {A : Type} (l : list A) (body : A -> nat -> M void) :
  (forall a i, keeps_threats (body a i)) ->
  forall index, keeps_threats (forEachIndexed index l body).
Proof.
  intros H. induction l as [ | a l IH ]; intros index; simpl.
  - apply keeps_ret.
  - apply keeps_bind; auto.
Qed.

Lemma keeps_modify_groups f :
  (forall c, threatMap (f c) = threatMap c) -> keeps_threats (modify_self f).
Proof.
  intros H s. do 2 eexists. split; [ reflexivity | ]. cbn. apply H.
Qed.

Lemma keeps_issueCommand command : keeps_threats (issueCommand command).
Proof. apply keeps_modify_groups. reflexivity. Qed.

Lemma keeps_issueAttackOn prefix unitId targetId priority :
  keeps_threats (issueAttackOn clock prefix unitId targetId priority).
Proof. eapply keeps_of_effect. apply effect_issueAttackOn. Qed.

Lemma keeps_makeCommand prefix unitId type target priority issuedBy :
  keeps_threats (makeCommand clock prefix unitId type target priority issuedBy).
Proof. eapply keeps_of_effect. apply effect_makeCommand. Qed.

Lemma keeps_get_units : keeps_threats get_units.
Proof. intros s. do 2 eexists. split; reflexivity. Qed.

Lemma keeps_get_self : keeps_threats get_self.
Proof. intros s. do 2 eexists. split; reflexivity. Qed.

Lemma keeps_deref i : keeps_threats (deref i).
Proof. intros s. do 2 eexists. split; reflexivity. Qed.

Lemma keeps_when (b : bool) (m : M void) :
  keeps_threats m -> keeps_threats (when b m).
Proof. destruct b; [ auto | intros _; apply keeps_ret ]. Qed.

Lemma keeps_updateAttackGroup group enemyUnits :
  keeps_threats (updateAttackGroup clock group enemyUnits).
Proof.
  unfold updateAttackGroup.
  destruct (CombatGroup.target group); [ | apply keeps_ret ].
  apply keeps_bind; [ apply keeps_get_units | intros us ].
  destruct enemyUnits; [ apply keeps_ret | ].
  apply keeps_forEach. intros unit. apply keeps_issueAttackOn.
Qed.

Lemma keeps_updateDefenseGroup group enemyUnits :
  keeps_threats (updateDefenseGroup clock group enemyUnits).
Proof.
  unfold updateDefenseGroup.
  destruct (CombatGroup.target group); [ | apply keeps_ret ].
  apply keeps_bind; [ apply keeps_get_units | intros us ].
  apply keeps_bind.
  - apply keeps_forEachIndexed. intros unit index.
    destruct (nth_error (CombatGroup.formation group) index); [ | apply keeps_ret ].
    apply keeps_when.
    apply keeps_bind; [ apply keeps_makeCommand | intros; apply keeps_issueCommand ].
  - intros _.
    match goal with
    | |- context [ match ?l with [] => _ | _ :: _ => _ end ] => destruct l
    end; [ apply keeps_ret | ].
    apply keeps_forEach. intros unit. apply keeps_issueAttackOn.
Qed.

Lemma keeps_updateScoutGroup group :
  keeps_threats (updateScoutGroup clock group).
Proof.
  unfold updateScoutGroup.
  apply keeps_bind; [ apply keeps_get_units | intros us ].
  apply keeps_forEachIndexed. intros unit index.
  destruct (nth_error (CombatGroup.formation group) index); [ | apply keeps_ret ].
  apply keeps_bind; [ apply keeps_makeCommand | intros; apply keeps_issueCommand ].
Qed.

Lemma keeps_updateRaidGroup group enemyUnits :
  keeps_threats (updateRaidGroup clock group enemyUnits).
Proof.
  unfold updateRaidGroup.
  apply keeps_bind; [ apply keeps_get_units | intros us ].
  match goal with
  | |- context [ match ?l with [] => _ | _ :: _ => _ end ] => destruct l
  end; [ apply keeps_ret | ].
  apply keeps_forEach. intros unit. apply keeps_issueAttackOn.
Qed.

Lemma keeps_updateCombatGroups enemyUnits :
  keeps_threats (updateCombatGroups clock enemyUnits).
Proof.
  unfold updateCombatGroups.
  apply keeps_bind; [ apply keeps_get_self | intros c ].
  apply keeps_forEach. intros e.
  apply keeps_bind; [ apply keeps_get_units | intros us ].
  apply keeps_bind; [ apply keeps_modify_groups; reflexivity | intros _ ].
  match goal with
  | |- context [ match ?l with [] => _ | _ :: _ => _ end ] => destruct l
  end; [ apply keeps_modify_groups; reflexivity | ].
  destruct (CombatGroup.role _).
  - apply keeps_updateAttackGroup.
  - apply keeps_updateDefenseGroup.
  - apply keeps_updateScoutGroup.
  - apply keeps_updateRaidGroup.
Qed.

Lemma keeps_executeUnitBehaviors : keeps_threats (executeUnitBehaviors clock).
Proof.
  unfold executeUnitBehaviors.
  apply keeps_bind; [ apply keeps_get_units | intros us ].
  apply keeps_forEach. intros i.
  apply keeps_bind; [ apply keeps_deref | intros unit ].
  apply keeps_bind; [ apply keeps_get_self | intros c ].
  destruct (JSMap.has (Unit.id unit) (activeCommands c)); [ apply keeps_ret | ].
  match goal with
  | |- context [ match ?l with [] => _ | _ :: _ => _ end ] => destruct l
  end; [ apply keeps_ret | ].
  apply keeps_issueAttackOn.
Qed.

End ThreatRefresh.
(** C8.  [update] returns.  Its first step, [updateThreatAssessment], reads
    the time [t]; the three steps that follow leave the threat map as the
    first one made it, so that map is the one the behaviours of this update
    read and the one [getThreatMap] returns afterwards.  All its entries
    were sighted at most 30 s before [t]; an entry that was older and whose
    enemy is not in the snapshot is gone, key and value. *)
Theorem update_prunes_threats clock buildings enemyUnits _deltaTime s :
  let t := clock (reads s) in
  exists s1 s2 s3 s',
    updateThreatAssessment clock enemyUnits s = Some (tt, s1)
    /\ processCommands clock buildings s1 = Some (tt, s2)
    /\ updateCombatGroups clock enemyUnits s2 = Some (tt, s3)
    /\ executeUnitBehaviors clock s3 = Some (tt, s')
    /\ update clock buildings enemyUnits _deltaTime s = Some (tt, s')
    /\ threatMap (self s2) = threatMap (self s1)
    /\ threatMap (self s3) = threatMap (self s1)
    /\ threatMap (self s') = threatMap (self s1)
    /\ Forall (recent t) (getThreatMap (self s1))
    /\ Forall (recent t) (getThreatMap (self s'))
    /\ (forall k e,
          JSMap.get k (threatMap (self s)) = Some e ->
          (t - ThreatAssessment.lastSeen e > 30000)%Z ->
          ~ In k (map Unit.id enemyUnits) ->
          JSMap.get k (threatMap (self s')) = None
          /\ ~ In e (getThreatMap (self s'))).
Proof.
  intros t.
  destruct (updateThreatAssessment_spec clock enemyUnits s)
    as (s1 & E1 & _ & Hrecent & Hgone).
  destruct (processCommands_total clock buildings s1) as (s2 & E2 & Ht2 & _).
  destruct (keeps_updateCombatGroups clock enemyUnits s2) as ([] & s3 & E3 & Ht3).
  destruct (keeps_executeUnitBehaviors clock s3) as ([] & s' & E4 & Ht4).
  assert (Hall : Forall (recent t) (getThreatMap (self s1))).
  { apply Forall_forall. intros e He. unfold getThreatMap, JSMap.values in He.
    apply in_map_iff in He. destruct He as [[k e'] [<- He]].
    eapply Hrecent. exact He. }
  assert (Hsame : threatMap (self s') = threatMap (self s1)) by congruence.
  exists s1, s2, s3, s'.
  split; [ exact E1 | ]. split; [ exact E2 | ]. split; [ exact E3 | ].
  split; [ exact E4 | ].
  split; [ unfold update, bind; rewrite E1, E2, E3; exact E4 | ].
  split; [ exact Ht2 | ]. split; [ congruence | ]. split; [ exact Hsame | ].
  split; [ exact Hall | ].
  split; [ unfold getThreatMap in *; rewrite Hsame; exact Hall | ].
  intros k e Hk Hold Hnot. split.
  - rewrite Hsame. apply (Hgone k e Hk); [ | exact Hnot ].
    unfold recent. fold t. lia.
  - intros Hin. unfold getThreatMap in Hin, Hall. rewrite Hsame in Hin.
    rewrite Forall_forall in Hall. specialize (Hall e Hin).
    unfold recent in Hall. lia.
Qed.

Lemma update_prunes_threats_witness :
  JSMap.get "e1" (threatMap (self Sample.hauntedWorld))
  = Some (ThreatAssessment.mk "e1" (Sample.at_ 1 1) (frac 3 10) infantry 0 false)
  /\ exists s',
       update (Sample.ticking 50000) [] [Sample.soldier "e2" (Sample.at_ 4 4)]
         (num 16) Sample.hauntedWorld = Some (tt, s')
       /\ JSMap.get "e1" (threatMap (self s')) = None
       /\ Forall (recent 50000) (getThreatMap (self s')).
Proof.
  split; [ reflexivity | ].
  destruct (update_prunes_threats (Sample.ticking 50000) []
              [Sample.soldier "e2" (Sample.at_ 4 4)] (num 16) Sample.hauntedWorld)
    as (s1 & s2 & s3 & s' & _ & _ & _ & _ & E & _ & _ & _ & _ & Hall & Hgone).
  exists s'. split; [ exact E | ]. split; [ | exact Hall ].
  refine (proj1 (Hgone "e1"%string _ eq_refl _ _)).
  - reflexivity.
  - simpl. intros [H | []]. discriminate H.
Defined.
(* ================================================================== *)
(** * The paths of the path finder *)
(* ================================================================== *)

(** Induction on the [parent] links of a node. *)
Lemma PathNode_parent_ind (P : PathNode -> Prop) :
  (forall p g h f, P (Node p g h f None)) ->
  (forall p g h f parent, P parent -> P (Node p g h f (Some parent))) ->
  forall n, P n.
Proof.
  intros Hroot Hstep.
  fix IH 1. intros [p g h f [parent | ]].
  - apply Hstep. apply IH.
  - apply Hroot.
Qed.

Lemma reconstructPath_from_app n :
  forall path,
    TerrainManager.reconstructPath_from n path
    = TerrainManager.reconstructPath n ++ path.
Proof.
  unfold TerrainManager.reconstructPath.
  induction n as [ p g h f | p g h f parent IH ] using PathNode_parent_ind;
    intros path; simpl.
  - reflexivity.
  - rewrite IH, (IH [p]), <- app_assoc. reflexivity.
Qed.

Lemma reconstructPath_step p g h f parent :
  TerrainManager.reconstructPath (Node p g h f (Some parent))
  = TerrainManager.reconstructPath parent ++ [p].
Proof.
  unfold TerrainManager.reconstructPath at 1. simpl.
  apply reconstructPath_from_app.
Qed.

Lemma reconstructPath_last n :
  last (TerrainManager.reconstructPath n) (PathNode.position n)
  = PathNode.position n.
Proof.
  destruct n as [p g h f [parent | ]].
  - rewrite reconstructPath_step. apply last_last.
  - reflexivity.
Qed.

Lemma reconstructPath_nonempty n : TerrainManager.reconstructPath n <> [].
Proof.
  destruct n as [p g h f [parent | ]].
  - rewrite reconstructPath_step. intros H. apply app_eq_nil in H.
    destruct H; discriminate.
  - discriminate.
Qed.

Lemma stepwise_app_one path p q :
  stepwise path -> last path p = p -> path <> [] ->
  adjacent p q -> stepwise (path ++ [q]).
Proof.
  induction path as [ | a path IH ]; [ congruence | ].
  intros Hs Hl _ Hadj. destruct path as [ | b path ].
  - simpl in Hl. subst a. simpl. auto.
  - destruct Hs as [Hab Hs]. split; [ exact Hab | ].
    apply IH; auto. discriminate.
Qed.

Lemma last_indep {A : Type} (l : list A) (d d' : A) :
  l <> [] -> last l d = last l d'.
Proof.
  induction l as [ | a l IH ]; [ congruence | ].
  intros _. destruct l as [ | b l ]; [ reflexivity | ].
  apply IH. discriminate.
Qed.

Lemma chain_path start n :
  chain start n ->
  hd_error (TerrainManager.reconstructPath n) = Some start
  /\ stepwise (TerrainManager.reconstructPath n).
Proof.
  induction 1 as [ g h f | p g h f parent Hc [IH1 IH2] Hadj ].
  - split; [ reflexivity | exact I ].
  - rewrite reconstructPath_step. split.
    + destruct (TerrainManager.reconstructPath parent); [ discriminate | exact IH1 ].
    + apply stepwise_app_one with (p := PathNode.position parent); auto.
      * apply reconstructPath_last.
      * apply reconstructPath_nonempty.
Qed.

Lemma getNeighbors_adjacent tm p q :
  In q (TerrainManager.getNeighbors tm p) -> adjacent p q.
Proof.
  unfold TerrainManager.getNeighbors. rewrite in_flat_map.
  intros [dy [Hdy H]]. rewrite in_flat_map in H. destruct H as [dx [Hdx H]].
  destruct ((dx =? 0)%Z && (dy =? 0)%Z); [ contradiction | ].
  match type of H with
  | In _ (if ?b then _ else _) => destruct b
  end; [ | contradiction ].
  destruct H as [<- | []].
  exists dx, dy. simpl in Hdx, Hdy. simpl.
  repeat split; try apply equiv_refl; lia.
Qed.

Lemma adjacent_equiv p q q' :
  adjacent p q -> samePos q' q -> adjacent p q'.
Proof.
  intros (dx & dy & Hdx & Hdy & Hx & Hy) [Hx' Hy'].
  exists dx, dy. repeat split; try lia; eapply equiv_trans; eassumption.
Qed.

Lemma samePosition_samePos p q :
  TerrainManager.samePosition p q = true -> samePos p q.
Proof.
  unfold TerrainManager.samePosition. rewrite andb_true_iff.
  intros [H1 H2]. split; apply eqb_equiv; assumption.
Qed.

Lemma relax_chain start neighbor gCost currentNode openSet openSet' :
  chain start currentNode ->
  adjacent (PathNode.position currentNode) neighbor ->
  Forall (chain start) openSet ->
  TerrainManager.relax neighbor gCost currentNode openSet = Some openSet' ->
  Forall (chain start) openSet'.
Proof.
  intros Hcur Hadj. revert openSet'.
  induction openSet as [ | n r IH ]; intros openSet' Hall; simpl; [ discriminate | ].
  inversion Hall as [ | ? ? Hn Hr ]; subst.
  destruct (TerrainManager.samePosition (PathNode.position n) neighbor) eqn:E.
  - intros [= <-]. destruct (gCost <? PathNode.gCost n)%js; [ | exact Hall ].
    constructor; [ | exact Hr ].
    apply chain_step; [ exact Hcur | ].
    eapply adjacent_equiv; [ exact Hadj | ].
    apply samePosition_samePos. exact E.
  - destruct (TerrainManager.relax neighbor gCost currentNode r) as [ r' | ];
      [ | discriminate ].
    intros [= <-]. constructor; [ exact Hn | ]. apply IH; auto.
Qed.

Lemma visit_chain start tm end_ units buildings closedSet currentNode openSet neighbor :
  chain start currentNode ->
  adjacent (PathNode.position currentNode) neighbor ->
  Forall (chain start) openSet ->
  Forall (chain start)
    (TerrainManager.visit tm end_ units buildings closedSet currentNode openSet
       neighbor).
Proof.
  intros Hcur Hadj Hall. unfold TerrainManager.visit.
  destruct (TerrainManager.closed_has closedSet neighbor
            || negb (TerrainManager.isPassable tm neighbor units buildings));
    [ exact Hall | ].
  destruct (TerrainManager.relax neighbor _ currentNode openSet) as [ openSet' | ] eqn:Er.
  - eapply relax_chain; eassumption.
  - apply Forall_app. split; [ exact Hall | ].
    constructor; [ | constructor ].
    apply chain_step; assumption.
Qed.

Lemma fold_visit_chain start tm end_ units buildings closedSet currentNode neighbors :
  chain start currentNode ->
  Forall (adjacent (PathNode.position currentNode)) neighbors ->
  forall openSet,
    Forall (chain start) openSet ->
    Forall (chain start)
      (fold_left
         (TerrainManager.visit tm end_ units buildings closedSet currentNode)
         neighbors openSet).
Proof.
  intros Hcur. induction neighbors as [ | nb neighbors IH ]; intros Hadj openSet H;
    simpl; [ exact H | ].
  inversion Hadj; subst. apply IH; [ assumption | ].
  apply visit_chain; assumption.
Qed.

Lemma Forall_remove_middle {A : Type} (P : A -> Prop) (l1 l2 : list A) (a : A) :
  Forall P (l1 ++ a :: l2) -> P a /\ Forall P (l1 ++ l2).
Proof.
  rewrite !Forall_app. intros [H1 H2]. inversion H2; subst. auto.
Qed.

(** Whatever the map and the obstacles, a path that [findPath] returns is
    the goal alone or leads from the start, neighbour by neighbour, to a
    position less than 1 away from the goal. *)
Lemma search_result start tm end_ units buildings :
  forall fuel openSet closedSet path,
    Forall (chain start) openSet ->
    TerrainManager.search fuel tm end_ units buildings openSet closedSet
    = Some path ->
    path = [end_]
    \/ exists n,
         chain start n
         /\ (getDistance (PathNode.position n) end_ <? num 1)%js = true
         /\ path = TerrainManager.reconstructPath n.
Proof.
  induction fuel as [ | fuel IH ]; intros openSet closedSet path Hall;
    destruct openSet as [ | first rest ]; cbn [TerrainManager.search];
    try (intros [= <-]; left; reflexivity); try discriminate.
  destruct (TerrainManager.lowest 1 rest first 0) as [currentNode currentIndex] eqn:El.
  apply lowest_in_open in El.
  destruct (splice1_nth _ _ El) as (l1 & l2 & Hopen & ->).
  rewrite Hopen in Hall. apply Forall_remove_middle in Hall.
  destruct Hall as [Hcur Hall].
  destruct (getDistance (PathNode.position currentNode) end_ <? num 1)%js eqn:Enear.
  - intros [= <-]. right. exists currentNode. auto.
  - apply IH. apply fold_visit_chain; auto.
    apply Forall_forall. intros q Hq. eapply getNeighbors_adjacent. exact Hq.
Qed.
(** ** Distances below 1 *)

Lemma Qsqrt_lt_1 (s : Q) : (0 <= s)%Q -> ((Number.Qsqrt s < 1)%Q <-> (s < 1)%Q).
Proof.
  intros Hs. unfold Number.Qsqrt. rewrite Qred_correct.
  destruct s as [n d]. unfold Qle in Hs. simpl in Hs.
  unfold Qlt. cbn [Qnum Qden].
  change (4 ^ Number.sqrt_bits)%Z with (2 ^ 64 * 2 ^ 64)%Z.
  change (2 ^ Number.sqrt_bits)%Z with (2 ^ 64)%Z.
  set (B := (2 ^ 64)%Z).
  assert (HB : (0 < B)%Z) by reflexivity.
  rewrite Z2Pos.id by nia.
  rewrite !Z.mul_1_r, !Z.mul_1_l.
  assert (Hn : (0 <= n)%Z) by lia.
  rewrite <- (Z.sqrt_lt_square (n * Z.pos d * (B * B)) (Z.pos d * B)) by nia.
  split; intros H; nia.
Qed.
Lemma Qsquare_nonneg (a : Q) : (0 <= a * a)%Q.
Proof. nra. Qed.

Lemma getDistance_Num px py qx qy :
  getDistance (Pos (Num px) (Num py)) (Pos (Num qx) (Num qy))
  = Num (Number.Qsqrt
           (Qred (Qred (Qred (px - qx) * Qred (px - qx))
                  + Qred (Qred (py - qy) * Qred (py - qy))))).
Proof.
  unfold getDistance, Number.pow2. cbn [x y].
  rewrite !sub_Num, !mul_Num, add_Num. unfold Number.sqrt.
  match goal with
  | |- (if Qle_bool 0 ?s then _ else _) = _ =>
      assert (Hs : (0 <= s)%Q)
  end.
  { rewrite !Qred_correct.
    pose proof (Qsquare_nonneg (px - qx)). pose proof (Qsquare_nonneg (py - qy)).
    lra. }
  apply Qle_bool_iff in Hs. rewrite Hs. reflexivity.
Qed.

Lemma square_distance_eq px py qx qy :
  (Qred (Qred (Qred (px - qx) * Qred (px - qx))
         + Qred (Qred (py - qy) * Qred (py - qy)))
   == (px - qx) * (px - qx) + (py - qy) * (py - qy))%Q.
Proof. rewrite !Qred_correct. reflexivity. Qed.

Lemma near_intro px py qx qy :
  ((px - qx) * (px - qx) + (py - qy) * (py - qy) < 1)%Q ->
  (getDistance (Pos (Num px) (Num py)) (Pos (Num qx) (Num qy)) <? num 1)%js = true.
Proof.
  intros H. rewrite getDistance_Num. apply ltb_Num.
  change (inject_Z 1) with 1%Q. apply Qsqrt_lt_1.
  - rewrite square_distance_eq.
    pose proof (Qsquare_nonneg (px - qx)). pose proof (Qsquare_nonneg (py - qy)).
    lra.
  - rewrite square_distance_eq. exact H.
Qed.

Lemma near_elim p q :
  (getDistance p q <? num 1)%js = true ->
  exists px py qx qy,
    p = Pos (Num px) (Num py) /\ q = Pos (Num qx) (Num qy)
    /\ ((px - qx) * (px - qx) + (py - qy) * (py - qy) < 1)%Q.
Proof.
  destruct p as [[ | | | px] [ | | | py]], q as [[ | | | qx] [ | | | qy]];
    try (unfold getDistance, Number.pow2; cbn; discriminate).
  rewrite getDistance_Num. intros H. apply ltb_Num in H.
  change (inject_Z 1) with 1%Q in H.
  pose proof (square_distance_eq px py qx qy) as Heq.
  assert (Hs : (0 <= (px - qx) * (px - qx) + (py - qy) * (py - qy))%Q).
  { pose proof (Qsquare_nonneg (px - qx)). pose proof (Qsquare_nonneg (py - qy)).
    lra. }
  assert (Hs' : (0 <= Qred
                        (Qred (Qred (px - qx) * Qred (px - qx))
                         + Qred (Qred (py - qy) * Qred (py - qy))))%Q) by lra.
  apply (proj1 (Qsqrt_lt_1 Hs')) in H.
  exists px, py, qx, qy. split; [ reflexivity | ]. split; [ reflexivity | ]. lra.
Qed.
(** ** The span of a path *)

Lemma adjacent_coordinate (a b : number) (d : Z) (q : Q) :
  (b == a + num d)%js -> b = Num q ->
  exists p, a = Num p /\ (q == p + inject_Z d)%Q.
Proof.
  intros H ->. destruct a as [ | | | p ]; simpl in H; try contradiction.
  exists p. split; [ reflexivity | ]. rewrite Qred_correct in H. exact H.
Qed.

(** A node on finite coordinates was reached from a start on finite
    coordinates, with a waypoint for every unit of distance on each axis. *)
Lemma chain_span start n :
  chain start n ->
  forall bx by_,
    PathNode.position n = Pos (Num bx) (Num by_) ->
    exists ax ay,
      start = Pos (Num ax) (Num ay)
      /\ let steps :=
           (inject_Z (Z.of_nat (List.length (TerrainManager.reconstructPath n))) - 1)%Q
         in
         (- steps <= bx - ax <= steps)%Q /\ (- steps <= by_ - ay <= steps)%Q.
Proof.
  induction 1 as [ g h f | p g h f parent Hc IH Hadj ]; intros bx by_ Hp.
  - simpl in Hp. subst start. exists bx, by_.
    split; [ reflexivity | ]. cbv zeta.
    change (inject_Z (Z.of_nat (List.length
              (TerrainManager.reconstructPath (Node (Pos (Num bx) (Num by_)) g h f None)))))
      with 1%Q.
    split; split; lra.
  - simpl in Hp. subst p.
    destruct Hadj as (dx & dy & Hdx & Hdy & Hx & Hy). cbn [x y] in Hx, Hy.
    destruct (adjacent_coordinate _ _ Hx eq_refl) as (px & Epx & Hpx).
    destruct (adjacent_coordinate _ _ Hy eq_refl) as (py & Epy & Hpy).
    destruct (IH px py) as (ax & ay & -> & Hsx & Hsy).
    { destruct (PathNode.position parent) as [u v]. simpl in *. congruence. }
    exists ax, ay. split; [ reflexivity | ].
    rewrite reconstructPath_step, length_app. cbn [List.length].
    cbv zeta in *.
    rewrite Nat2Z.inj_add, inject_Z_plus.
    change (inject_Z (Z.of_nat 1)) with 1%Q.
    assert (Hdxq : (-1 <= inject_Z dx <= 1)%Q).
    { change (-1)%Q with (inject_Z (-1)). change 1%Q with (inject_Z 1).
      rewrite <- !Zle_Qle. lia. }
    assert (Hdyq : (-1 <= inject_Z dy <= 1)%Q).
    { change (-1)%Q with (inject_Z (-1)). change 1%Q with (inject_Z 1).
      rewrite <- !Zle_Qle. lia. }
    split; split; lra.
Qed.
(* ================================================================== *)
(** * The search on a map without obstacles *)
(* ================================================================== *)

Lemma index_of_equiv (n : number) (k : nat) :
  (n == Number.of_nat k)%js -> index_of n = Some k.
Proof.
  destruct n as [ | | | q ]; simpl; try contradiction.
  intros H.
  assert (Hf : Qfloor q = Z.of_nat k) by (rewrite H; apply Qfloor_Z).
  rewrite Hf.
  assert (E : Qeq_bool q (inject_Z (Z.of_nat k)) = true)
    by (apply Qeq_bool_iff; exact H).
  rewrite E. simpl.
  destruct (0 <=? Z.of_nat k)%Z eqn:E0.
  - rewrite Nat2Z.id. reflexivity.
  - apply Z.leb_gt in E0. lia.
Qed.

Section OpenTerrain.

Variable tm : TerrainManager.t.
Variable w h : nat.
Hypothesis Hopen : openTerrain tm w h.

Lemma open_tile_at c r p :
  (c < w)%nat -> (r < h)%nat -> samePos p (tileAt c r) ->
  exists t, TerrainManager.tile_at tm p = Some t
            /\ TerrainTile.isPassable t = true.
Proof.
  intros Hc Hr [Hx Hy]. simpl in Hx, Hy.
  destruct Hopen as [Hrows Hcols Hpass _ _].
  unfold TerrainManager.tile_at.
  rewrite (index_of_equiv _ _ Hy), (index_of_equiv _ _ Hx).
  destruct (nth_error (TerrainManager.terrain tm) r) as [ row | ] eqn:Erow.
  - assert (Hin : In row (TerrainManager.terrain tm))
      by (eapply nth_error_In; exact Erow).
    rewrite Forall_forall in Hcols, Hpass.
    specialize (Hcols row Hin). specialize (Hpass row Hin).
    destruct (nth_error row c) as [ t | ] eqn:Et.
    + exists t. split; [ reflexivity | ].
      rewrite Forall_forall in Hpass. apply Hpass.
      eapply nth_error_In; exact Et.
    + apply nth_error_None in Et. lia.
  - apply nth_error_None in Erow. lia.
Qed.

Lemma open_isPassable c r p :
  (c < w)%nat -> (r < h)%nat -> samePos p (tileAt c r) ->
  TerrainManager.isPassable tm p [] [] = true.
Proof.
  intros Hc Hr Hp. destruct (open_tile_at Hc Hr Hp) as (t & Et & Ht).
  unfold TerrainManager.isPassable. rewrite Et, Ht. reflexivity.
Qed.

Lemma open_isTile c r : (c < w)%nat -> (r < h)%nat -> isTile tm (tileAt c r).
Proof.
  intros Hc Hr.
  destruct (open_tile_at Hc Hr (samePos_refl (tileAt c r))) as (t & Et & _).
  eapply tile_at_isTile. exact Et.
Qed.

(** On an open map a tile position is the position of a tile in range. *)
Lemma isTile_in_range p :
  isTile tm p -> exists c r, (c < w)%nat /\ (r < h)%nat /\ samePos p (tileAt c r).
Proof.
  intros [t [Hin Hsame]].
  assert (Ht : exists c r, (c < w)%nat /\ (r < h)%nat /\ t = tileAt c r).
  { destruct Hopen as [Hrows Hcols _ _ _].
    unfold tilePositions in Hin. revert Hin.
    assert (Hgen : forall r0 rows,
               Forall (fun row => List.length row = w) rows ->
               In t (gridPositions r0 rows) ->
               exists c r, (c < w)%nat /\ (r0 <= r < r0 + List.length rows)%nat
                           /\ t = tileAt c r).
    { intros r0 rows. revert r0.
      induction rows as [ | row rows IH ]; intros r0 Hall; simpl; [ contradiction | ].
      inversion Hall as [ | ? ? Hrow Hrest ]; subst.
      rewrite in_app_iff. intros [H | H].
      - assert (Hrowgen : forall c0 l,
                   In t (rowPositions r0 c0 l) ->
                   exists c, (c0 <= c < c0 + List.length l)%nat /\ t = tileAt c r0).
        { intros c0 l. revert c0.
          induction l as [ | t' l IHl ]; intros c0; simpl; [ contradiction | ].
          intros [<- | H'].
          - exists c0. split; [ lia | reflexivity ].
          - destruct (IHl _ H') as (c & Hc & ->). exists c. split; [ lia | reflexivity ]. }
        destruct (Hrowgen 0%nat row H) as (c & Hc & ->).
        exists c, r0. repeat split; lia.
      - destruct (IH (S r0) Hrest H) as (c & r & Hc & Hr & ->).
        exists c, r. repeat split; lia. }
    intros Hin. destruct (Hgen 0%nat _ Hcols Hin) as (c & r & Hc & Hr & ->).
    exists c, r. repeat split; lia. }
  destruct Ht as (c & r & Hc & Hr & ->).
  exists c, r. repeat split; auto; apply samePos_sym; exact Hsame.
Qed.

(** The neighbours computed for a tile include every tile that touches it. *)
Lemma open_getNeighbors c r c' r' p :
  (c < w)%nat -> (r < h)%nat -> (c' < w)%nat -> (r' < h)%nat ->
  touching c r c' r' -> (c, r) <> (c', r') ->
  samePos p (tileAt c r) ->
  exists q, In q (TerrainManager.getNeighbors tm p) /\ samePos q (tileAt c' r').
Proof.
  intros Hc Hr Hc' Hr' (T1 & T2 & T3 & T4) Hne [Hx Hy].
  destruct p as [[ | | | px] [ | | | py]]; simpl in Hx, Hy; try contradiction.
  set (dx := (Z.of_nat c' - Z.of_nat c)%Z).
  set (dy := (Z.of_nat r' - Z.of_nat r)%Z).
  assert (Hdx : In dx [-1; 0; 1]%Z) by (unfold dx; simpl; lia).
  assert (Hdy : In dy [-1; 0; 1]%Z) by (unfold dy; simpl; lia).
  assert (Hnx : (Qred (px + inject_Z dx) == inject_Z (Z.of_nat c'))%Q).
  { rewrite Qred_correct, Hx, <- inject_Z_plus. unfold dx.
    replace (Z.of_nat c + (Z.of_nat c' - Z.of_nat c))%Z with (Z.of_nat c') by lia.
    reflexivity. }
  assert (Hny : (Qred (py + inject_Z dy) == inject_Z (Z.of_nat r'))%Q).
  { rewrite Qred_correct, Hy, <- inject_Z_plus. unfold dy.
    replace (Z.of_nat r + (Z.of_nat r' - Z.of_nat r))%Z with (Z.of_nat r') by lia.
    reflexivity. }
  exists (Pos (Num (Qred (px + inject_Z dx))) (Num (Qred (py + inject_Z dy)))).
  split; [ | split; simpl; assumption ].
  unfold TerrainManager.getNeighbors. apply in_flat_map.
  exists dy. split; [ exact Hdy | ]. apply in_flat_map.
  exists dx. split; [ exact Hdx | ].
  assert (Enz : (dx =? 0)%Z && (dy =? 0)%Z = false).
  { apply andb_false_iff.
    destruct (Z.eqb_spec dx 0) as [E1 | E1]; [ | auto ].
    destruct (Z.eqb_spec dy 0) as [E2 | E2]; [ | auto ].
    exfalso. apply Hne. unfold dx, dy in *. f_equal; lia. }
  rewrite Enz. cbn [x y]. rewrite !num_is_Num, !add_Num.
  destruct Hopen as [_ _ _ Hw Hh]. rewrite Hw, Hh, !of_nat_is_Num.
  unfold Number.geb.
  assert (B1 : (Num (inject_Z 0) <=? Num (Qred (px + inject_Z dx)))%js = true).
  { apply leb_Num. rewrite Hnx, <- Zle_Qle. lia. }
  assert (B2 : (Num (Qred (px + inject_Z dx)) <? Num (inject_Z (Z.of_nat w)))%js = true).
  { apply ltb_Num. rewrite Hnx, <- Zlt_Qlt. lia. }
  assert (B3 : (Num (inject_Z 0) <=? Num (Qred (py + inject_Z dy)))%js = true).
  { apply leb_Num. rewrite Hny, <- Zle_Qle. lia. }
  assert (B4 : (Num (Qred (py + inject_Z dy)) <? Num (inject_Z (Z.of_nat h)))%js = true).
  { apply ltb_Num. rewrite Hny, <- Zlt_Qlt. lia. }
  rewrite B1, B2, B3, B4. left. reflexivity.
Qed.

End OpenTerrain.
(** ** What the loop over the neighbours covers *)

Lemma relax_found neighbor gCost currentNode openSet openSet' :
  TerrainManager.relax neighbor gCost currentNode openSet = Some openSet' ->
  exists q, In q (map PathNode.position openSet)
            /\ TerrainManager.samePosition q neighbor = true.
Proof.
  revert openSet'. induction openSet as [ | n r IH ]; intros openSet'; simpl;
    [ discriminate | ].
  destruct (TerrainManager.samePosition (PathNode.position n) neighbor) eqn:E.
  - intros _. exists (PathNode.position n). auto.
  - destruct (TerrainManager.relax neighbor gCost currentNode r) as [ r' | ];
      [ | discriminate ].
    intros _. destruct (IH r' eq_refl) as (q & Hq & Hs). exists q. auto.
Qed.

Lemma visit_positions tm end_ units buildings closedSet currentNode openSet neighbor :
  incl (map PathNode.position openSet)
       (map PathNode.position
          (TerrainManager.visit tm end_ units buildings closedSet currentNode
             openSet neighbor)).
Proof.
  unfold TerrainManager.visit.
  destruct (TerrainManager.closed_has closedSet neighbor
            || negb (TerrainManager.isPassable tm neighbor units buildings));
    [ apply incl_refl | ].
  destruct (TerrainManager.relax neighbor _ currentNode openSet) as [ openSet' | ] eqn:Er.
  - rewrite (relax_positions _ _ _ _ Er). apply incl_refl.
  - rewrite map_app. apply incl_appl. apply incl_refl.
Qed.

Lemma fold_visit_positions tm end_ units buildings closedSet currentNode neighbors :
  forall openSet,
    incl (map PathNode.position openSet)
         (map PathNode.position
            (fold_left
               (TerrainManager.visit tm end_ units buildings closedSet currentNode)
               neighbors openSet)).
Proof.
  induction neighbors as [ | nb neighbors IH ]; intros openSet; simpl;
    [ apply incl_refl | ].
  eapply incl_tran; [ apply visit_positions | apply IH ].
Qed.

Lemma covered_openAt openSet closedSet p :
  covered openSet closedSet p
  <-> TerrainManager.closed_has closedSet p = true \/ openAt openSet p.
Proof.
  unfold covered, openAt. split; intros [H | H]; auto; right.
  - destruct H as (n & Hn & Hs). exists (PathNode.position n).
    split; [ apply in_map; exact Hn | exact Hs ].
  - destruct H as (q & Hq & Hs). apply in_map_iff in Hq.
    destruct Hq as (n & <- & Hn). exists n. auto.
Qed.

Lemma visit_covers tm end_ units buildings closedSet currentNode openSet neighbor :
  TerrainManager.isPassable tm neighbor units buildings = true ->
  Number.is_finite (x neighbor) = true -> Number.is_finite (y neighbor) = true ->
  covered
    (TerrainManager.visit tm end_ units buildings closedSet currentNode openSet
       neighbor)
    closedSet neighbor.
Proof.
  intros Hpass Hx Hy. apply covered_openAt. unfold TerrainManager.visit.
  destruct (TerrainManager.closed_has closedSet neighbor) eqn:Ec; [ left; reflexivity | ].
  rewrite Hpass. cbn [negb orb]. right.
  destruct (TerrainManager.relax neighbor _ currentNode openSet) as [ openSet' | ] eqn:Er.
  - destruct (relax_found _ _ _ _ Er) as (q & Hq & Hs).
    exists q. rewrite (relax_positions _ _ _ _ Er).
    split; [ exact Hq | apply samePosition_samePos; exact Hs ].
  - exists neighbor. rewrite map_app. split; [ | apply samePos_refl ].
    apply in_or_app. right. left. reflexivity.
Qed.

Lemma covered_more openSet openSet' closedSet p :
  incl (map PathNode.position openSet) (map PathNode.position openSet') ->
  covered openSet closedSet p -> covered openSet' closedSet p.
Proof.
  intros Hincl. rewrite !covered_openAt. intros [H | (q & Hq & Hs)]; auto.
  right. exists q. auto.
Qed.

Lemma fold_visit_covers tm end_ units buildings closedSet currentNode neighbors :
  forall openSet neighbor,
    In neighbor neighbors ->
    TerrainManager.isPassable tm neighbor units buildings = true ->
    Number.is_finite (x neighbor) = true -> Number.is_finite (y neighbor) = true ->
    covered
      (fold_left
         (TerrainManager.visit tm end_ units buildings closedSet currentNode)
         neighbors openSet)
      closedSet neighbor.
Proof.
  induction neighbors as [ | nb neighbors IH ]; intros openSet neighbor; simpl;
    [ contradiction | ].
  intros [-> | Hin] Hpass Hx Hy.
  - eapply covered_more; [ apply fold_visit_positions | ].
    apply visit_covers; assumption.
  - apply IH; assumption.
Qed.

Lemma covered_samePos openSet closedSet p q :
  samePos p q -> covered openSet closedSet p -> covered openSet closedSet q.
Proof.
  intros Hpq. rewrite !covered_openAt. intros [H | (u & Hu & Hs)].
  - left. rewrite <- (closed_has_samePos closedSet Hpq). exact H.
  - right. exists u. split; [ exact Hu | eapply samePos_trans; eassumption ].
Qed.

(** What was covered stays covered when the current node is closed and its
    neighbours are visited. *)
Lemma covered_step tm end_ units buildings closedSet currentNode l1 l2 neighbors p :
  covered (l1 ++ currentNode :: l2) closedSet p ->
  covered
    (fold_left
       (TerrainManager.visit tm end_ units buildings
          (TerrainManager.closed_add closedSet (PathNode.position currentNode))
          currentNode)
       neighbors (l1 ++ l2))
    (TerrainManager.closed_add closedSet (PathNode.position currentNode)) p.
Proof.
  intros [H | (n & Hn & Hs)].
  - left. rewrite closed_has_add, H. reflexivity.
  - apply in_app_iff in Hn. simpl in Hn.
    assert (Hcases : n = currentNode \/ In n (l1 ++ l2)).
    { rewrite in_app_iff. destruct Hn as [H | [H | H]]; auto. }
    destruct Hcases as [-> | Hin].
    + left. rewrite closed_has_add.
      apply samePos_sym in Hs. apply sameKey_spec in Hs. rewrite Hs.
      apply orb_true_r.
    + eapply covered_more; [ apply fold_visit_positions | ].
      right. exists n. auto.
Qed.
Lemma near_samePos p p' q :
  samePos p p' ->
  (getDistance p q <? num 1)%js = true -> (getDistance p' q <? num 1)%js = true.
Proof.
  intros [Hx Hy] H.
  destruct (near_elim _ _ H) as (px & py & qx & qy & -> & -> & Hlt).
  simpl in Hx, Hy.
  destruct p' as [[ | | | px'] [ | | | py']]; simpl in Hx, Hy; try contradiction.
  apply near_intro. rewrite <- Hx, <- Hy. exact Hlt.
Qed.

Section Frontier.

Variable tm : TerrainManager.t.
Variable w h : nat.
Hypothesis Hopen : openTerrain tm w h.
Variable start end_ : Position.

Lemma frontier_step openSet closedSet l1 l2 currentNode :
  frontier_inv w h start end_ openSet closedSet ->
  openSet = l1 ++ currentNode :: l2 ->
  isTile tm (PathNode.position currentNode) ->
  (getDistance (PathNode.position currentNode) end_ <? num 1)%js = false ->
  frontier_inv w h start end_
    (fold_left
       (TerrainManager.visit tm end_ [] []
          (TerrainManager.closed_add closedSet (PathNode.position currentNode))
          currentNode)
       (TerrainManager.getNeighbors tm (PathNode.position currentNode))
       (l1 ++ l2))
    (TerrainManager.closed_add closedSet (PathNode.position currentNode)).
Proof.
  intros [Hfar Hclosed Hstart] -> Htile Hnear.
  constructor.
  - unfold TerrainManager.closed_add.
    destruct (TerrainManager.closed_has closedSet (PathNode.position currentNode));
      [ exact Hfar | ].
    apply Forall_app. split; [ exact Hfar | ].
    constructor; [ exact Hnear | constructor ].
  - intros c r c' r' Hc Hr Hc' Hr' Htouch Hin.
    rewrite closed_has_add in Hin. apply orb_true_iff in Hin.
    destruct Hin as [Hin | Hin].
    + apply covered_step. apply (Hclosed c r c' r'); assumption.
    + apply sameKey_spec in Hin.
      destruct (Nat.eq_dec c c') as [-> | Hcc]; [ destruct (Nat.eq_dec r r') as [-> | Hrr] | ].
      * left. rewrite closed_has_add.
        apply sameKey_spec in Hin. rewrite Hin. apply orb_true_r.
      * destruct (@open_getNeighbors tm w h Hopen c' r c' r'
                    (PathNode.position currentNode))
          as (q & Hq & Hs); auto.
        { intros [= E]. contradiction. }
        { apply samePos_sym. exact Hin. }
        apply (covered_samePos Hs).
        apply fold_visit_covers.
        -- exact Hq.
        -- eapply open_isPassable; eassumption.
        -- destruct Hs as [Hx _]. simpl in Hx. destruct (x q); try contradiction; reflexivity.
        -- destruct Hs as [_ Hy]. simpl in Hy. destruct (y q); try contradiction; reflexivity.
      * destruct (@open_getNeighbors tm w h Hopen c r c' r'
                    (PathNode.position currentNode))
          as (q & Hq & Hs); auto.
        { intros [= E]. contradiction. }
        { apply samePos_sym. exact Hin. }
        apply (covered_samePos Hs).
        apply fold_visit_covers.
        -- exact Hq.
        -- eapply open_isPassable; eassumption.
        -- destruct Hs as [Hx _]. simpl in Hx. destruct (x q); try contradiction; reflexivity.
        -- destruct Hs as [_ Hy]. simpl in Hy. destruct (y q); try contradiction; reflexivity.
  - apply covered_step. exact Hstart.
Qed.

(** With an empty open set every tile is closed. *)
Lemma frontier_all_closed closedSet sc sr :
  frontier_inv w h start end_ [] closedSet ->
  (sc < w)%nat -> (sr < h)%nat -> samePos start (tileAt sc sr) ->
  forall c r, (c < w)%nat -> (r < h)%nat ->
    TerrainManager.closed_has closedSet (tileAt c r) = true.
Proof.
  intros [Hfar Hclosed Hstart] Hsc Hsr Hs.
  assert (Hempty : forall p, covered [] closedSet p ->
                     TerrainManager.closed_has closedSet p = true).
  { intros p [H | (n & [] & _)]. exact H. }
  assert (Hbase : TerrainManager.closed_has closedSet (tileAt sc sr) = true).
  { rewrite <- (closed_has_samePos closedSet Hs). apply Hempty. exact Hstart. }
  assert (Hgen : forall n c r,
             (c < w)%nat -> (r < h)%nat ->
             ((c - sc) + (sc - c) + (r - sr) + (sr - r) <= n)%nat ->
             TerrainManager.closed_has closedSet (tileAt c r) = true).
  { induction n as [ | n IH ]; intros c r Hc Hr Hd.
    - assert (c = sc) by lia. assert (r = sr) by lia. subst. exact Hbase.
    - destruct (Nat.eq_dec c sc) as [-> | Hcs].
      + destruct (Nat.eq_dec r sr) as [-> | Hrs]; [ exact Hbase | ].
        destruct (Nat.lt_ge_cases sr r) as [Hlt | Hge].
        * apply Hempty. apply (Hclosed sc (r - 1)%nat sc r); try lia.
          -- unfold touching. lia.
          -- apply IH; lia.
        * apply Hempty. apply (Hclosed sc (r + 1)%nat sc r); try lia.
          -- unfold touching. lia.
          -- apply IH; lia.
      + destruct (Nat.lt_ge_cases sc c) as [Hlt | Hge].
        * apply Hempty. apply (Hclosed (c - 1)%nat r c r); try lia.
          -- unfold touching. lia.
          -- apply IH; lia.
        * apply Hempty. apply (Hclosed (c + 1)%nat r c r); try lia.
          -- unfold touching. lia.
          -- apply IH; lia. }
  intros c r Hc Hr. eapply Hgen; eauto.
Qed.

Lemma frontier_not_empty closedSet sc sr gc gr :
  frontier_inv w h start end_ [] closedSet ->
  (sc < w)%nat -> (sr < h)%nat -> samePos start (tileAt sc sr) ->
  (gc < w)%nat -> (gr < h)%nat ->
  (getDistance (tileAt gc gr) end_ <? num 1)%js = true ->
  False.
Proof.
  intros Hinv Hsc Hsr Hs Hgc Hgr Hnear.
  pose proof (frontier_all_closed Hinv Hsc Hsr Hs Hgc Hgr) as Hg.
  apply closed_has_spec in Hg. destruct Hg as (cl & Hcl & Hsame).
  pose proof (near_samePos end_ Hsame Hnear) as Hnear'.
  destruct Hinv as [Hfar _ _]. rewrite Forall_forall in Hfar.
  rewrite (Hfar cl Hcl) in Hnear'. discriminate.
Qed.

Lemma search_reaches_goal sc sr gc gr :
  (sc < w)%nat -> (sr < h)%nat -> samePos start (tileAt sc sr) ->
  (gc < w)%nat -> (gr < h)%nat ->
  (getDistance (tileAt gc gr) end_ <? num 1)%js = true ->
  forall fuel openSet closedSet,
    search_inv tm openSet closedSet ->
    Forall (chain start) openSet ->
    frontier_inv w h start end_ openSet closedSet ->
    (List.length (unclosed tm closedSet) <= fuel)%nat ->
    exists n,
      TerrainManager.search fuel tm end_ [] [] openSet closedSet
      = Some (TerrainManager.reconstructPath n)
      /\ chain start n
      /\ (getDistance (PathNode.position n) end_ <? num 1)%js = true.
Proof.
  intros Hsc Hsr Hs Hgc Hgr Hgoal.
  induction fuel as [ | fuel IH ]; intros openSet closedSet Hinv Hchain Hfront Hfuel;
    (destruct openSet as [ | first rest ];
     [ exfalso; apply (@frontier_not_empty closedSet sc sr gc gr); assumption | ]).
  - exfalso.
    destruct (@close_current_inv tm (first :: rest) closedSet [] rest first Hinv eq_refl)
      as [_ Hlt].
    lia.
  - cbn [TerrainManager.search].
    destruct (TerrainManager.lowest 1 rest first 0) as [currentNode currentIndex] eqn:El.
    apply lowest_in_open in El.
    destruct (splice1_nth _ _ El) as (l1 & l2 & Hopen' & ->).
    assert (Hcur : chain start currentNode /\ Forall (chain start) (l1 ++ l2)).
    { rewrite Hopen' in Hchain. apply Forall_remove_middle in Hchain. exact Hchain. }
    destruct Hcur as [Hcur Hrest].
    assert (Htile : isTile tm (PathNode.position currentNode)).
    { destruct Hinv as [Ht _ _]. rewrite Hopen', map_app in Ht.
      apply Forall_app in Ht. destruct Ht as [_ Ht]. inversion Ht; auto. }
    destruct (getDistance (PathNode.position currentNode) end_ <? num 1)%js eqn:Enear.
    + exists currentNode. auto.
    + destruct (@close_current_inv tm _ closedSet l1 l2 currentNode Hinv Hopen')
        as [Hinv' Hlt].
      apply IH.
      * apply fold_visit_inv. exact Hinv'.
      * apply fold_visit_chain; auto.
        apply Forall_forall. intros q Hq. eapply getNeighbors_adjacent. exact Hq.
      * eapply frontier_step; eassumption.
      * lia.
Qed.

End Frontier.
Lemma nearest_tile (n : nat) (e : Q) :
  (0 <= e <= inject_Z (Z.of_nat n) - 1)%Q ->
  exists g, (g < n)%nat /\ (- (1 # 2) <= inject_Z (Z.of_nat g) - e <= 1 # 2)%Q.
Proof.
  intros [H0 Hn].
  pose proof (Qfloor_le (e + (1 # 2))) as Hle.
  pose proof (Qlt_floor (e + (1 # 2))) as Hlt.
  set (f := Qfloor (e + (1 # 2))) in *.
  rewrite inject_Z_plus in Hlt. change (inject_Z 1) with 1%Q in Hlt.
  assert (Hf0 : (0 <= f)%Z).
  { assert (H : (inject_Z (-1) < inject_Z f)%Q)
      by (change (inject_Z (-1)) with (-1)%Q; lra).
    rewrite <- Zlt_Qlt in H. lia. }
  assert (Hfn : (f < Z.of_nat n)%Z).
  { rewrite Zlt_Qlt. lra. }
  exists (Z.to_nat f). split; [ lia | ].
  rewrite Z2Nat.id by exact Hf0. split; lra.
Qed.

Lemma square_below_one (a b : Q) : (a * a + b * b < 1)%Q -> (-1 < a < 1)%Q.
Proof. intros H. pose proof (Qsquare_nonneg b). split; nra. Qed.

Lemma half_squares (a b : Q) :
  (- (1 # 2) <= a <= 1 # 2)%Q -> (- (1 # 2) <= b <= 1 # 2)%Q ->
  (a * a + b * b < 1)%Q.
Proof. intros Ha Hb. nra. Qed.

(** ** The search on a map of grass *)

Lemma Qred_inject_Z (z : Z) : Qred (inject_Z z) = inject_Z z.
Proof.
  unfold Qred, inject_Z.
  pose proof (Z.ggcd_gcd z 1) as Hg.
  pose proof (Z.ggcd_correct_divisors z 1) as Hd.
  destruct (Z.ggcd z 1) as [g [aa bb]]. cbn [fst] in Hg.
  rewrite Z.gcd_1_r in Hg. subst g. destruct Hd as [Ha Hb].
  rewrite Z.mul_1_l in Ha, Hb. subst aa bb. reflexivity.
Qed.

Lemma Qred_whole (q : Q) (z : Z) : (q == inject_Z z)%Q -> Qred q = inject_Z z.
Proof.
  intros H. rewrite <- (Qred_inject_Z z). apply Qred_complete. exact H.
Qed.

Lemma Qsqrt_whole (d : Z) :
  (Number.Qsqrt (inject_Z d) == inject_Z (root d) / inject_Z (2 ^ Number.sqrt_bits))%Q.
Proof.
  unfold Number.Qsqrt, root. rewrite Qred_correct. cbn [Qnum Qden inject_Z].
  rewrite Z.mul_1_r. change (Z.pos 1 * 2 ^ Number.sqrt_bits)%Z with (2 ^ 64)%Z.
  change (2 ^ Number.sqrt_bits)%Z with (2 ^ 64)%Z.
  rewrite Qmake_Qdiv. reflexivity.
Qed.

Lemma getDistance_tiles p q c r gc gr :
  samePos p (tileAt c r) -> samePos q (tileAt gc gr) ->
  exists d,
    getDistance p q = Num d
    /\ (d == inject_Z (root (gap c r gc gr)) / inject_Z (2 ^ Number.sqrt_bits))%Q.
Proof.
  intros [Hpx Hpy] [Hqx Hqy].
  destruct p as [[ | | | px] [ | | | py]]; simpl in Hpx, Hpy; try contradiction.
  destruct q as [[ | | | qx] [ | | | qy]]; simpl in Hqx, Hqy; try contradiction.
  rewrite getDistance_Num. eexists. split; [ reflexivity | ].
  rewrite (@Qred_whole _ (gap c r gc gr)); [ apply Qsqrt_whole | ].
  rewrite !Qred_correct, Hpx, Hpy, Hqx, Hqy. unfold gap.
  rewrite inject_Z_plus, !inject_Z_mult.
  unfold Z.sub. rewrite !inject_Z_plus, !inject_Z_opp. ring.
Qed.

Lemma root_nonneg d : (0 <= root d)%Z.
Proof. apply Z.sqrt_nonneg. Qed.

(** One step towards the goal shortens the computed distance by 1 at
    least. *)
Lemma root_step (u v u' v' : Z) :
  (0 <= u)%Z -> (0 <= v)%Z -> (0 < u \/ 0 < v)%Z ->
  u' = (if (0 <? u)%Z then u - 1 else u)%Z ->
  v' = (if (0 <? v)%Z then v - 1 else v)%Z ->
  (root (u' * u' + v' * v') + 2 ^ Number.sqrt_bits <= root (u * u + v * v))%Z.
Proof.
  intros Hu Hv Hpos -> ->. unfold root.
  change (4 ^ Number.sqrt_bits)%Z with (2 ^ 64 * 2 ^ 64)%Z.
  change (2 ^ Number.sqrt_bits)%Z with (2 ^ 64)%Z.
  set (N := (2 ^ 64)%Z). assert (HN : (0 < N)%Z) by reflexivity.
  set (u' := (if (0 <? u)%Z then u - 1 else u)%Z).
  set (v' := (if (0 <? v)%Z then v - 1 else v)%Z).
  set (D' := (u' * u' + v' * v')%Z).
  set (X := Z.sqrt (D' * (N * N))).
  assert (HD' : (0 <= D')%Z) by (unfold D'; nia).
  assert (HX : (0 <= X)%Z) by apply Z.sqrt_nonneg.
  assert (HX2 : (X * X <= D' * (N * N))%Z).
  { apply (Z.sqrt_spec (D' * (N * N))). nia. }
  apply Z.sqrt_le_square; [ nia | lia | ].
  (* (X + N)^2 <= D N^2 follows from 2 X <= (D - D' - 1) N *)
  assert (Hgain : (0 <= u * u + v * v - D' - 1)%Z).
  { unfold D', u', v'.
    destruct (Z.ltb_spec 0 u), (Z.ltb_spec 0 v); nia. }
  set (G := (u * u + v * v - D' - 1)%Z) in *.
  assert (H2X : (2 * X <= G * N)%Z).
  { apply Z.square_le_simpl_nonneg; [ nia | ].
    assert (H4 : (4 * D' <= G * G)%Z).
    { unfold G, D', u', v'.
      destruct (Z.ltb_spec 0 u), (Z.ltb_spec 0 v); nia. }
    nia. }
  nia.
Qed.

Lemma lowest_least rest :
  forall i currentNode currentIndex n j,
    TerrainManager.lowest i rest currentNode currentIndex = (n, j) ->
    Forall (fun m => exists f, PathNode.fCost m = Num f) (currentNode :: rest) ->
    exists fn,
      PathNode.fCost n = Num fn
      /\ forall m fm,
           In m (currentNode :: rest) -> PathNode.fCost m = Num fm -> (fn <= fm)%Q.
Proof.
  induction rest as [ | m0 rest IH ]; intros i cur idx n j; cbn [TerrainManager.lowest].
  - intros [= <- <-] Hall. inversion Hall as [ | ? ? [f Hf] _ ]; subst.
    exists f. split; [ exact Hf | ].
    intros m fm [<- | []] Hm. rewrite Hf in Hm. injection Hm as <-. lra.
  - intros H Hall.
    inversion Hall as [ | ? ? [fc Hfc] Hrest ]; subst.
    inversion Hrest as [ | ? ? [f0 Hf0] Hrest' ]; subst.
    rewrite Hf0, Hfc in H.
    destruct (Num f0 <? Num fc)%js eqn:E.
    + apply ltb_Num in E.
      destruct (IH _ _ _ _ _ H) as (fn & Hfn & Hmin).
      { constructor; [ eauto | exact Hrest' ]. }
      exists fn. split; [ exact Hfn | ].
      intros m fm [<- | [<- | Hin]] Hm.
      * rewrite Hfc in Hm. injection Hm as <-.
        pose proof (Hmin m0 f0 (or_introl eq_refl) Hf0). lra.
      * eapply Hmin; [ left; reflexivity | exact Hm ].
      * eapply Hmin; [ right; exact Hin | exact Hm ].
    + assert (Hge : (fc <= f0)%Q).
      { destruct (Qlt_le_dec f0 fc) as [Hlt | Hle]; [ | exact Hle ].
        apply ltb_Num in Hlt. congruence. }
      destruct (IH _ _ _ _ _ H) as (fn & Hfn & Hmin).
      { constructor; [ eauto | exact Hrest' ]. }
      exists fn. split; [ exact Hfn | ].
      intros m fm [<- | [<- | Hin]] Hm.
      * eapply Hmin; [ left; reflexivity | exact Hm ].
      * rewrite Hf0 in Hm. injection Hm as <-.
        pose proof (Hmin cur fc (or_introl eq_refl) Hfc). lra.
      * eapply Hmin; [ right; exact Hin | exact Hm ].
Qed.

Lemma priced_fCost end_ n : priced end_ n -> exists f, PathNode.fCost n = Num f.
Proof. intros (g & hc & _ & _ & _ & _ & Hf). eauto. Qed.

Lemma toward_lt c g w : (c < w)%nat -> (g < w)%nat -> (toward c g < w)%nat.
Proof.
  unfold toward. intros Hc Hg.
  destruct (Nat.ltb_spec c g); [ lia | ]. destruct (Nat.ltb_spec g c); lia.
Qed.

Lemma toward_touching c r gc gr :
  touching c r (toward c gc) (toward r gr).
Proof.
  unfold touching, toward.
  destruct (Nat.ltb_spec c gc), (Nat.ltb_spec gc c), (Nat.ltb_spec r gr),
    (Nat.ltb_spec gr r); lia.
Qed.

Lemma toward_moves c r gc gr :
  (c, r) <> (gc, gr) -> (c, r) <> (toward c gc, toward r gr).
Proof.
  unfold toward. intros Hne [= E1 E2]. apply Hne.
  destruct (Nat.ltb_spec c gc); [ lia | ]. destruct (Nat.ltb_spec gc c); [ lia | ].
  destruct (Nat.ltb_spec r gr); [ lia | ]. destruct (Nat.ltb_spec gr r); [ lia | ].
  f_equal; lia.
Qed.

Lemma toward_remaining c r gc gr :
  (c, r) <> (gc, gr) ->
  S (remaining (toward c gc) (toward r gr) gc gr) = remaining c r gc gr.
Proof.
  unfold remaining, toward. intros Hne.
  assert (c <> gc \/ r <> gr).
  { destruct (Nat.eq_dec c gc) as [-> | ]; [ | auto ].
    destruct (Nat.eq_dec r gr) as [-> | ]; [ | auto ]. congruence. }
  destruct (Nat.ltb_spec c gc), (Nat.ltb_spec gc c), (Nat.ltb_spec r gr),
    (Nat.ltb_spec gr r); lia.
Qed.

Lemma toward_abs c g :
  Z.abs (Z.of_nat (toward c g) - Z.of_nat g)
  = (if (0 <? Z.abs (Z.of_nat c - Z.of_nat g))%Z
     then Z.abs (Z.of_nat c - Z.of_nat g) - 1
     else Z.abs (Z.of_nat c - Z.of_nat g))%Z.
Proof.
  unfold toward.
  destruct (Z.ltb_spec 0 (Z.abs (Z.of_nat c - Z.of_nat g)));
    destruct (Nat.ltb_spec c g); try lia;
    destruct (Nat.ltb_spec g c); lia.
Qed.

Lemma toward_root c r gc gr :
  (c, r) <> (gc, gr) ->
  (root (gap (toward c gc) (toward r gr) gc gr) + 2 ^ Number.sqrt_bits
   <= root (gap c r gc gr))%Z.
Proof.
  intros Hne.
  assert (Hcase : c <> gc \/ r <> gr).
  { destruct (Nat.eq_dec c gc) as [-> | ]; [ | auto ].
    destruct (Nat.eq_dec r gr) as [-> | ]; [ | auto ]. congruence. }
  unfold gap.
  rewrite <- (Z.abs_square (Z.of_nat (toward c gc) - Z.of_nat gc)).
  rewrite <- (Z.abs_square (Z.of_nat (toward r gr) - Z.of_nat gr)).
  rewrite <- (Z.abs_square (Z.of_nat c - Z.of_nat gc)).
  rewrite <- (Z.abs_square (Z.of_nat r - Z.of_nat gr)).
  apply root_step; try apply toward_abs; lia.
Qed.

Section Guided.

Variable tm : TerrainManager.t.
Variable w h : nat.
Hypothesis Hopen : openTerrain tm w h.
Hypothesis Hplain : plainTerrain tm.
Variable end_ : Position.
Variable gc gr : nat.
Hypothesis Hgc : (gc < w)%nat.
Hypothesis Hgr : (gr < h)%nat.
Hypothesis Hend : samePos end_ (tileAt gc gr).

Lemma plain_cost c r p :
  (c < w)%nat -> (r < h)%nat -> samePos p (tileAt c r) ->
  TerrainManager.getMovementCost tm p = num 1.
Proof.
  intros Hc Hr Hp.
  destruct (open_tile_at Hopen Hc Hr Hp) as (t & Et & _).
  unfold TerrainManager.getMovementCost. rewrite Et.
  unfold TerrainManager.tile_at in Et.
  destruct (index_of (y p)) as [ j | ]; [ | discriminate ].
  destruct (nth_error (TerrainManager.terrain tm) j) as [ row | ] eqn:Erow;
    [ | discriminate ].
  destruct (index_of (x p)) as [ i | ]; [ | discriminate ].
  unfold plainTerrain in Hplain. rewrite Forall_forall in Hplain.
  pose proof (Hplain row (nth_error_In _ _ Erow)) as Hrow.
  rewrite Forall_forall in Hrow. apply Hrow. eapply nth_error_In. exact Et.
Qed.

(** The distance of a tile from the goal. *)
Lemma distance_to_goal c r p :
  samePos p (tileAt c r) ->
  exists d,
    getDistance p end_ = Num d
    /\ (d == inject_Z (root (gap c r gc gr)) / inject_Z (2 ^ Number.sqrt_bits))%Q.
Proof. intros Hp. apply getDistance_tiles; assumption. Qed.

Lemma relax_priced neighbor (g' : Q) currentNode openSet openSet' :
  (g' == inject_Z (Z.of_nat (S (depth currentNode))))%Q ->
  Forall (priced end_) openSet ->
  TerrainManager.relax neighbor (Num g') currentNode openSet = Some openSet' ->
  Forall (priced end_) openSet'.
Proof.
  intros Hg'. revert openSet'.
  induction openSet as [ | n r IH ]; intros openSet' Hall; cbn [TerrainManager.relax];
    [ discriminate | ].
  inversion Hall as [ | ? ? Hn Hr ]; subst.
  destruct (TerrainManager.samePosition (PathNode.position n) neighbor).
  - intros [= <-]. destruct (Num g' <? PathNode.gCost n)%js; [ | exact Hall ].
    constructor; [ | exact Hr ].
    destruct Hn as (g & hc & Eg & Hg & Eh & Ed & Ef).
    exists g', hc. cbn [PathNode.gCost PathNode.hCost PathNode.fCost
                        PathNode.position depth].
    rewrite Eh. repeat split; first [ assumption | reflexivity ].
  - destruct (TerrainManager.relax neighbor (Num g') currentNode r) as [ r' | ];
      [ | discriminate ].
    intros [= <-]. constructor; [ exact Hn | ]. apply IH; auto.
Qed.

Lemma relax_within bound neighbor (g' : Q) currentNode openSet openSet' :
  Forall (priced end_) openSet ->
  TerrainManager.relax neighbor (Num g') currentNode openSet = Some openSet' ->
  forall n,
    In n openSet -> within bound n ->
    exists n',
      In n' openSet' /\ PathNode.position n' = PathNode.position n
      /\ within bound n'.
Proof.
  revert openSet'.
  induction openSet as [ | m r IH ]; intros openSet' Hall; cbn [TerrainManager.relax];
    [ discriminate | ].
  inversion Hall as [ | ? ? Hm Hr ]; subst.
  destruct (TerrainManager.samePosition (PathNode.position m) neighbor).
  - intros [= <-] n Hin Hn.
    destruct (Num g' <? PathNode.gCost m)%js eqn:E;
      [ | exists n; auto ].
    destruct Hin as [<- | Hin]; [ | exists n; split; [ right; exact Hin | auto ] ].
    eexists. split; [ left; reflexivity | ]. split; [ reflexivity | ].
    destruct Hm as (g & hc & Eg & Hg & Eh & Ed & Ef).
    destruct Hn as (f & Ef' & Hf). rewrite Ef in Ef'. injection Ef' as <-.
    rewrite Eg in E. apply ltb_Num in E.
    exists (Qred (g' + hc)). cbn [PathNode.fCost]. rewrite Eh.
    split; [ reflexivity | ]. rewrite Qred_correct in *. lra.
  - destruct (TerrainManager.relax neighbor (Num g') currentNode r) as [ r' | ] eqn:Er;
      [ | discriminate ].
    intros [= <-] n [<- | Hin] Hn.
    + exists m. split; [ left; reflexivity | auto ].
    + destruct (IH r' Hr eq_refl n Hin Hn) as (n' & Hin' & Hp & Hw).
      exists n'. split; [ right; exact Hin' | auto ].
Qed.

(** The open node that a visit leaves on the neighbour it visits. *)
Lemma relax_reaches neighbor (g' : Q) currentNode openSet openSet' c r :
  samePos neighbor (tileAt c r) ->
  Forall (priced end_) openSet ->
  TerrainManager.relax neighbor (Num g') currentNode openSet = Some openSet' ->
  exists n' f d,
    In n' openSet' /\ samePos (PathNode.position n') neighbor
    /\ PathNode.fCost n' = Num f
    /\ getDistance neighbor end_ = Num d
    /\ (f <= g' + d)%Q.
Proof.
  intros Hnb. revert openSet'.
  induction openSet as [ | m rest IH ]; intros openSet' Hall; cbn [TerrainManager.relax];
    [ discriminate | ].
  inversion Hall as [ | ? ? Hm Hr ]; subst.
  destruct (TerrainManager.samePosition (PathNode.position m) neighbor) eqn:Es.
  - apply samePosition_samePos in Es.
    destruct Hm as (g & hc & Eg & Hg & Eh & Ed & Ef).
    destruct (distance_to_goal Hnb) as (d & Edn & Hd).
    destruct (@distance_to_goal c r (PathNode.position m)) as (d' & Edm & Hd').
    { eapply samePos_trans; eassumption. }
    rewrite Ed in Edm. injection Edm as <-.
    intros [= <-]. rewrite Eg.
    destruct (Num g' <? Num g)%js eqn:E.
    + eexists _, (Qred (g' + hc)), d. split; [ left; reflexivity | ].
      cbn [PathNode.position PathNode.fCost]. rewrite Eh.
      split; [ exact Es | ]. split; [ reflexivity | ]. split; [ exact Edn | ].
      rewrite Qred_correct, Hd, Hd'. lra.
    + exists m, (Qred (g + hc)), d. split; [ left; reflexivity | ].
      split; [ exact Es | ]. split; [ exact Ef | ]. split; [ exact Edn | ].
      assert (Hge : (g <= g')%Q).
      { destruct (Qlt_le_dec g' g) as [Hlt | Hle]; [ | exact Hle ].
        apply ltb_Num in Hlt. congruence. }
      rewrite Qred_correct, Hd, Hd'. lra.
  - destruct (TerrainManager.relax neighbor (Num g') currentNode rest) as [ r' | ] eqn:Er;
      [ | discriminate ].
    intros [= <-].
    destruct (IH r' Hr eq_refl) as (n' & f & d & Hin & Hrest).
    exists n', f, d. split; [ right; exact Hin | exact Hrest ].
Qed.

Section Visit.

Variable closedSet : list Position.
Variable currentNode : PathNode.
Hypothesis Hcur : priced end_ currentNode.

(** The [gCost] that a visit computes for a neighbour that is a tile. *)
Lemma visit_gCost neighbor :
  TerrainManager.isPassable tm neighbor [] [] = true ->
  exists (g' : Q) c r,
    (c < w)%nat /\ (r < h)%nat /\ samePos neighbor (tileAt c r)
    /\ (PathNode.gCost currentNode + TerrainManager.getMovementCost tm neighbor)%js
       = Num g'
    /\ (g' == inject_Z (Z.of_nat (S (depth currentNode))))%Q.
Proof.
  intros Hpass.
  destruct (isTile_in_range Hopen (isPassable_isTile _ _ _ _ Hpass))
    as (c & r & Hc & Hr & Hs).
  destruct Hcur as (g & hc & Eg & Hg & _).
  rewrite Eg, (plain_cost Hc Hr Hs), num_is_Num, add_Num.
  exists (Qred (g + inject_Z 1)), c, r.
  split; [ exact Hc | ]. split; [ exact Hr | ]. split; [ exact Hs | ].
  split; [ reflexivity | ].
  rewrite Qred_correct, Hg, Nat2Z.inj_succ, <- Z.add_1_r, inject_Z_plus.
  reflexivity.
Qed.

Lemma visit_priced openSet neighbor :
  Forall (priced end_) openSet ->
  Forall (priced end_)
    (TerrainManager.visit tm end_ [] [] closedSet currentNode openSet neighbor).
Proof.
  intros Hall. unfold TerrainManager.visit.
  destruct (TerrainManager.closed_has closedSet neighbor); [ exact Hall | ].
  destruct (TerrainManager.isPassable tm neighbor [] []) eqn:Hpass; [ | exact Hall ].
  cbn [negb orb]. cbv zeta.
  destruct (@visit_gCost _ Hpass) as (g' & c & r & Hc & Hr & Hs & -> & Hg').
  destruct (TerrainManager.relax neighbor (Num g') currentNode openSet)
    as [ openSet' | ] eqn:Er.
  - eapply relax_priced; eassumption.
  - apply Forall_app. split; [ exact Hall | ].
    constructor; [ | constructor ].
    destruct (distance_to_goal Hs) as (d & Ed & _).
    exists g', d. cbn [PathNode.gCost PathNode.hCost PathNode.fCost
                       PathNode.position depth].
    rewrite Ed. repeat split; first [ assumption | reflexivity ].
Qed.

Lemma visit_within bound openSet neighbor :
  Forall (priced end_) openSet ->
  forall n,
    In n openSet -> within bound n ->
    exists n',
      In n' (TerrainManager.visit tm end_ [] [] closedSet currentNode openSet neighbor)
      /\ PathNode.position n' = PathNode.position n /\ within bound n'.
Proof.
  intros Hall n Hin Hn. unfold TerrainManager.visit.
  destruct (TerrainManager.closed_has closedSet neighbor); [ exists n; auto | ].
  destruct (TerrainManager.isPassable tm neighbor [] []) eqn:Hpass;
    [ | exists n; auto ].
  cbn [negb orb]. cbv zeta.
  destruct (@visit_gCost _ Hpass) as (g' & c & r & Hc & Hr & Hs & -> & Hg').
  destruct (TerrainManager.relax neighbor (Num g') currentNode openSet)
    as [ openSet' | ] eqn:Er.
  - eapply relax_within; eassumption.
  - exists n. split; [ apply in_or_app; left; exact Hin | auto ].
Qed.

Lemma fold_visit_priced neighbors :
  forall openSet,
    Forall (priced end_) openSet ->
    Forall (priced end_)
      (fold_left (TerrainManager.visit tm end_ [] [] closedSet currentNode)
         neighbors openSet).
Proof.
  induction neighbors as [ | nb neighbors IH ]; intros openSet H; cbn [fold_left];
    [ exact H | ].
  apply IH. apply visit_priced. exact H.
Qed.

Lemma fold_visit_within bound neighbors :
  forall openSet,
    Forall (priced end_) openSet ->
    forall n,
      In n openSet -> within bound n ->
      exists n',
        In n'
          (fold_left (TerrainManager.visit tm end_ [] [] closedSet currentNode)
             neighbors openSet)
        /\ PathNode.position n' = PathNode.position n /\ within bound n'.
Proof.
  induction neighbors as [ | nb neighbors IH ]; intros openSet Hall n Hin Hn;
    cbn [fold_left]; [ exists n; auto | ].
  destruct (visit_within nb Hall Hin Hn) as (n1 & Hin1 & Hp1 & Hw1).
  destruct (IH _ (visit_priced nb Hall) n1 Hin1 Hw1) as (n2 & Hin2 & Hp2 & Hw2).
  exists n2. split; [ exact Hin2 | ]. split; [ congruence | exact Hw2 ].
Qed.

(** A neighbour that is visited is closed, or has an open node whose
    [fCost] is at most what the route through the current node gives. *)
Lemma visit_reaches openSet neighbor :
  Forall (priced end_) openSet ->
  TerrainManager.isPassable tm neighbor [] [] = true ->
  TerrainManager.closed_has closedSet neighbor = true
  \/ exists n' f d,
       In n' (TerrainManager.visit tm end_ [] [] closedSet currentNode openSet neighbor)
       /\ samePos (PathNode.position n') neighbor
       /\ PathNode.fCost n' = Num f
       /\ getDistance neighbor end_ = Num d
       /\ (f <= inject_Z (Z.of_nat (S (depth currentNode))) + d)%Q.
Proof.
  intros Hall Hpass. unfold TerrainManager.visit.
  destruct (TerrainManager.closed_has closedSet neighbor); [ left; reflexivity | ].
  right. rewrite Hpass. cbn [negb orb]. cbv zeta.
  destruct (@visit_gCost _ Hpass) as (g' & c & r & Hc & Hr & Hs & -> & Hg').
  destruct (TerrainManager.relax neighbor (Num g') currentNode openSet)
    as [ openSet' | ] eqn:Er.
  - destruct (relax_reaches _ _ Hs Hall Er) as (n' & f & d & Hin & Hp & Ef & Ed & Hf).
    exists n', f, d. split; [ exact Hin | ]. split; [ exact Hp | ].
    split; [ exact Ef | ]. split; [ exact Ed | ]. lra.
  - destruct (distance_to_goal Hs) as (d & Ed & _).
    eexists _, (Qred (g' + d)), d.
    split; [ apply in_or_app; right; left; reflexivity | ].
    cbn [PathNode.position PathNode.fCost]. rewrite Ed.
    split; [ apply samePos_refl | ]. split; [ reflexivity | ].
    split; [ reflexivity | ]. rewrite Qred_correct, Hg'. lra.
Qed.

End Visit.

Lemma promising_samePos bound openSet closedSet p q :
  samePos p q ->
  promising bound openSet closedSet p -> promising bound openSet closedSet q.
Proof.
  intros Hpq [H | (n & Hn & Hs & Hw)].
  - left. rewrite <- (closed_has_samePos closedSet Hpq). exact H.
  - right. exists n. split; [ exact Hn | ].
    split; [ eapply samePos_trans; eassumption | exact Hw ].
Qed.

Lemma goal_near p : samePos p (tileAt gc gr) -> (getDistance p end_ <? num 1)%js = true.
Proof.
  intros [Hx Hy]. destruct Hend as [Hex Hey].
  destruct p as [[ | | | px] [ | | | py]]; simpl in Hx, Hy; try contradiction.
  destruct end_ as [[ | | | ex] [ | | | ey]]; simpl in Hex, Hey; try contradiction.
  apply near_intro. rewrite Hx, Hy, Hex, Hey. lra.
Qed.

(** While no closed position is within reach of the goal, some open node
    is within the bound. *)
Lemma guided_within bound start sc sr openSet closedSet :
  (sc < w)%nat -> (sr < h)%nat -> samePos start (tileAt sc sr) ->
  guided_inv w h gc gr bound start openSet closedSet ->
  Forall (fun c => (getDistance c end_ <? num 1)%js = false) closedSet ->
  exists n, In n openSet /\ within bound n.
Proof.
  intros Hsc Hsr Hs [Hstart Hnext] Hfar.
  assert (Hgen : forall k c r,
             (c < w)%nat -> (r < h)%nat -> (remaining c r gc gr <= k)%nat ->
             promising bound openSet closedSet (tileAt c r) ->
             exists n, In n openSet /\ within bound n).
  { induction k as [ | k IH ]; intros c r Hc Hr Hk [Hclosed | (n & Hn & _ & Hw)];
      try (exists n; auto; fail).
    - exfalso. assert (c = gc /\ r = gr) as [-> ->] by (unfold remaining in Hk; lia).
      apply closed_has_spec in Hclosed. destruct Hclosed as (cl & Hcl & Hsame).
      rewrite Forall_forall in Hfar.
      pose proof (Hfar cl Hcl) as Hf.
      rewrite (goal_near (samePos_sym Hsame)) in Hf. discriminate.
    - assert (Hne : (c, r) <> (gc, gr)).
      { intros [= -> ->].
        apply closed_has_spec in Hclosed. destruct Hclosed as (cl & Hcl & Hsame).
        rewrite Forall_forall in Hfar.
        pose proof (Hfar cl Hcl) as Hf.
        rewrite (goal_near (samePos_sym Hsame)) in Hf. discriminate. }
      apply (IH (toward c gc) (toward r gr)).
      + apply toward_lt; assumption.
      + apply toward_lt; assumption.
      + pose proof (toward_remaining Hne). lia.
      + apply Hnext; assumption. }
  apply (Hgen (remaining sc sr gc gr) sc sr Hsc Hsr (Nat.le_refl _)).
  eapply promising_samePos; eassumption.
Qed.

Lemma promising_step bound closedSet currentNode l1 l2 p :
  priced end_ currentNode ->
  Forall (priced end_) (l1 ++ l2) ->
  promising bound (l1 ++ currentNode :: l2) closedSet p ->
  promising bound
    (fold_left
       (TerrainManager.visit tm end_ [] []
          (TerrainManager.closed_add closedSet (PathNode.position currentNode))
          currentNode)
       (TerrainManager.getNeighbors tm (PathNode.position currentNode))
       (l1 ++ l2))
    (TerrainManager.closed_add closedSet (PathNode.position currentNode)) p.
Proof.
  intros Hcur Hall [H | (n & Hn & Hs & Hw)].
  - left. rewrite closed_has_add, H. reflexivity.
  - apply in_app_iff in Hn. simpl in Hn.
    assert (Hcases : n = currentNode \/ In n (l1 ++ l2)).
    { rewrite in_app_iff. destruct Hn as [H | [H | H]]; auto. }
    destruct Hcases as [-> | Hin].
    + left. rewrite closed_has_add.
      apply samePos_sym in Hs. apply sameKey_spec in Hs. rewrite Hs.
      apply orb_true_r.
    + right.
      destruct (@fold_visit_within
                  (TerrainManager.closed_add closedSet (PathNode.position currentNode))
                  currentNode Hcur bound
                  (TerrainManager.getNeighbors tm (PathNode.position currentNode))
                  (l1 ++ l2) Hall n Hin Hw)
        as (n' & Hin' & Hp' & Hw').
      exists n'. split; [ exact Hin' | ]. split; [ rewrite Hp'; exact Hs | exact Hw' ].
Qed.

Lemma root_quotient (a b : Z) :
  (a + 2 ^ Number.sqrt_bits <= b)%Z ->
  (inject_Z a / inject_Z (2 ^ Number.sqrt_bits) + 1
   <= inject_Z b / inject_Z (2 ^ Number.sqrt_bits))%Q.
Proof.
  intros H. rewrite Zle_Qle, inject_Z_plus in H.
  set (N := inject_Z (2 ^ Number.sqrt_bits)) in *.
  assert (HN : (0 < N)%Q) by reflexivity.
  apply Qle_shift_div_l; [ exact HN | ].
  assert (E : ((inject_Z a / N + 1) * N == inject_Z a + N)%Q) by (field; lra).
  rewrite E. exact H.
Qed.

Lemma guided_step bound start openSet closedSet l1 l2 currentNode :
  guided_inv w h gc gr bound start openSet closedSet ->
  openSet = l1 ++ currentNode :: l2 ->
  priced end_ currentNode ->
  Forall (priced end_) (l1 ++ l2) ->
  within bound currentNode ->
  guided_inv w h gc gr bound start
    (fold_left
       (TerrainManager.visit tm end_ [] []
          (TerrainManager.closed_add closedSet (PathNode.position currentNode))
          currentNode)
       (TerrainManager.getNeighbors tm (PathNode.position currentNode))
       (l1 ++ l2))
    (TerrainManager.closed_add closedSet (PathNode.position currentNode)).
Proof.
  intros [Hstart Hnext] -> Hcur Hall Hwithin.
  constructor.
  - apply promising_step; assumption.
  - intros c r Hc Hr Hne Hin.
    rewrite closed_has_add in Hin. apply orb_true_iff in Hin.
    destruct Hin as [Hin | Hin].
    + apply promising_step; try assumption. apply Hnext; assumption.
    + apply sameKey_spec in Hin. apply samePos_sym in Hin.
      set (c' := toward c gc). set (r' := toward r gr).
      assert (Hc' : (c' < w)%nat) by (apply toward_lt; assumption).
      assert (Hr' : (r' < h)%nat) by (apply toward_lt; assumption).
      destruct (@open_getNeighbors tm w h Hopen c r c' r'
                  (PathNode.position currentNode) Hc Hr Hc' Hr'
                  (toward_touching c r gc gr) (toward_moves Hne) Hin)
        as (q & Hq & Hsq).
      apply (promising_samePos Hsq).
      destruct (in_split _ _ Hq) as (pre & post & Esplit).
      rewrite Esplit, fold_left_app. cbn [fold_left].
      set (closedSet1 :=
             TerrainManager.closed_add closedSet (PathNode.position currentNode)).
      set (visit_ := TerrainManager.visit tm end_ [] [] closedSet1 currentNode).
      set (open1 := fold_left visit_ pre (l1 ++ l2)).
      assert (Hall1 : Forall (priced end_) open1)
        by (apply fold_visit_priced; assumption).
      assert (Hpass : TerrainManager.isPassable tm q [] [] = true)
        by (eapply open_isPassable; eassumption).
      destruct (@visit_reaches closedSet1 currentNode Hcur open1 q Hall1 Hpass)
        as [Hclosed | (n' & f & d & Hin' & Hp' & Ef & Ed & Hf)];
        [ left; exact Hclosed | ].
      right.
      assert (Hw' : within bound n').
      { exists f. split; [ exact Ef | ].
        destruct Hcur as (g & hc & Eg & Hg & Eh & Edc & Efc).
        destruct Hwithin as (fc & Efc' & Hfc).
        rewrite Efc in Efc'. injection Efc' as <-.
        destruct (distance_to_goal Hin) as (dc & Edc' & Hdc).
        rewrite Edc in Edc'. injection Edc' as <-.
        destruct (distance_to_goal Hsq) as (dq & Edq & Hdq).
        rewrite Ed in Edq. injection Edq as <-.
        pose proof (@root_quotient _ _ (toward_root Hne)) as Hroot.
        fold c' r' in Hroot.
        rewrite Qred_correct in Hfc.
        rewrite Nat2Z.inj_succ, <- Z.add_1_r, inject_Z_plus in Hf.
        change (inject_Z 1) with 1%Q in Hf.
        rewrite Hdq in Hf. rewrite Hdc, Hg in Hfc. lra. }
      destruct (@fold_visit_within closedSet1 currentNode Hcur bound post
                  (visit_ open1 q) (visit_priced closedSet1 Hcur q Hall1)
                  n' Hin' Hw')
        as (n'' & Hin'' & Hp'' & Hw'').
      exists n''. split; [ exact Hin'' | ].
      split; [ rewrite Hp''; exact Hp' | exact Hw'' ].
Qed.

Lemma search_direct bound start sc sr :
  (sc < w)%nat -> (sr < h)%nat -> samePos start (tileAt sc sr) ->
  forall fuel openSet closedSet,
    search_inv tm openSet closedSet ->
    Forall (chain start) openSet ->
    frontier_inv w h start end_ openSet closedSet ->
    Forall (priced end_) openSet ->
    guided_inv w h gc gr bound start openSet closedSet ->
    (List.length (unclosed tm closedSet) <= fuel)%nat ->
    exists n,
      TerrainManager.search fuel tm end_ [] [] openSet closedSet
      = Some (TerrainManager.reconstructPath n)
      /\ chain start n
      /\ (getDistance (PathNode.position n) end_ <? num 1)%js = true
      /\ isTile tm (PathNode.position n)
      /\ priced end_ n /\ within bound n.
Proof.
  intros Hsc Hsr Hs.
  assert (Hgoal : (getDistance (tileAt gc gr) end_ <? num 1)%js = true)
    by (apply goal_near; apply samePos_refl).
  induction fuel as [ | fuel IH ];
    intros openSet closedSet Hinv Hchain Hfront Hpriced Hguided Hfuel;
    (destruct openSet as [ | first rest ];
     [ exfalso;
       apply (@frontier_not_empty w h start end_ closedSet sc sr gc gr);
       assumption | ]).
  - exfalso.
    destruct (@close_current_inv tm (first :: rest) closedSet [] rest first Hinv eq_refl)
      as [_ Hlt].
    lia.
  - cbn [TerrainManager.search].
    destruct (TerrainManager.lowest 1 rest first 0) as [currentNode currentIndex] eqn:El.
    assert (Hcheap : within bound currentNode).
    { destruct (guided_within Hsc Hsr Hs Hguided (frontier_far Hfront))
        as (n & Hn & f & Ef & Hf).
      destruct (@lowest_least rest 1%nat first 0%nat currentNode currentIndex El)
        as (fn & Efn & Hmin).
      { eapply Forall_impl; [ | exact Hpriced ]. intros m. apply priced_fCost. }
      exists fn. split; [ exact Efn | ].
      pose proof (Hmin n f Hn Ef). lra. }
    apply lowest_in_open in El.
    destruct (splice1_nth _ _ El) as (l1 & l2 & Hopen' & ->).
    assert (Hcur : chain start currentNode /\ Forall (chain start) (l1 ++ l2)).
    { rewrite Hopen' in Hchain. apply Forall_remove_middle in Hchain. exact Hchain. }
    destruct Hcur as [Hcur Hrest].
    assert (Hpr : priced end_ currentNode /\ Forall (priced end_) (l1 ++ l2)).
    { rewrite Hopen' in Hpriced. apply Forall_remove_middle in Hpriced. exact Hpriced. }
    destruct Hpr as [Hpcur Hprest].
    assert (Htile : isTile tm (PathNode.position currentNode)).
    { destruct Hinv as [Ht _ _]. rewrite Hopen', map_app in Ht.
      apply Forall_app in Ht. destruct Ht as [_ Ht]. inversion Ht; auto. }
    destruct (getDistance (PathNode.position currentNode) end_ <? num 1)%js eqn:Enear.
    + exists currentNode. split; [ reflexivity | ]. split; [ exact Hcur | ].
      split; [ exact Enear | ]. split; [ exact Htile | ].
      split; [ exact Hpcur | exact Hcheap ].
    + destruct (@close_current_inv tm _ closedSet l1 l2 currentNode Hinv Hopen')
        as [Hinv' Hlt].
      apply IH.
      * apply fold_visit_inv. exact Hinv'.
      * apply fold_visit_chain; auto.
        apply Forall_forall. intros q Hq. eapply getNeighbors_adjacent. exact Hq.
      * eapply frontier_step; eassumption.
      * apply fold_visit_priced; assumption.
      * eapply guided_step; eassumption.
      * lia.
Qed.

End Guided.

Lemma reconstructPath_length n :
  List.length (TerrainManager.reconstructPath n) = S (depth n).
Proof.
  induction n as [ p g h f | p g h f parent IH ] using PathNode_parent_ind.
  - reflexivity.
  - rewrite reconstructPath_step, length_app, IH. cbn [depth List.length]. lia.
Qed.

Lemma root_le (d m : Z) :
  (0 <= m)%Z -> (d <= m * m)%Z ->
  (root d <= m * 2 ^ Number.sqrt_bits)%Z.
Proof.
  intros Hm Hd. unfold root.
  change (4 ^ Number.sqrt_bits)%Z with (2 ^ 64 * 2 ^ 64)%Z.
  change (2 ^ Number.sqrt_bits)%Z with (2 ^ 64)%Z.
  set (N := (2 ^ 64)%Z). assert (HN : (0 < N)%Z) by reflexivity.
  rewrite <- (Z.sqrt_square (m * N)) by nia.
  apply Z.sqrt_le_mono. nia.
Qed.

(** Two tiles less than 1 apart are one tile. *)
Lemma near_tiles p q c r gc gr :
  samePos p (tileAt c r) -> samePos q (tileAt gc gr) ->
  (getDistance p q <? num 1)%js = true -> samePos p q.
Proof.
  intros Hp Hq Hnear.
  destruct (near_elim _ _ Hnear) as (px & py & qx & qy & -> & -> & Hlt).
  destruct Hp as [Hpx Hpy]. destruct Hq as [Hqx Hqy]. simpl in *.
  rewrite Hpx, Hpy, Hqx, Hqy in Hlt.
  assert (Hz : (gap c r gc gr < 1)%Z).
  { rewrite Zlt_Qlt. unfold gap.
    rewrite inject_Z_plus, !inject_Z_mult. unfold Z.sub.
    rewrite !inject_Z_plus, !inject_Z_opp. change (inject_Z 1) with 1%Q. lra. }
  unfold gap in Hz.
  pose proof (Z.square_nonneg (Z.of_nat c - Z.of_nat gc)) as Hc2.
  pose proof (Z.square_nonneg (Z.of_nat r - Z.of_nat gr)) as Hr2.
  assert (Ec : Z.of_nat c = Z.of_nat gc).
  { assert (H0 : ((Z.of_nat c - Z.of_nat gc) * (Z.of_nat c - Z.of_nat gc) = 0)%Z)
      by lia.
    apply Z.mul_eq_0 in H0. lia. }
  assert (Er : Z.of_nat r = Z.of_nat gr).
  { assert (H0 : ((Z.of_nat r - Z.of_nat gr) * (Z.of_nat r - Z.of_nat gr) = 0)%Z)
      by lia.
    apply Z.mul_eq_0 in H0. lia. }
  split; simpl; rewrite ?Hpx, ?Hpy, ?Hqx, ?Hqy, ?Ec, ?Er; reflexivity.
Qed.

(** C6, as the code has it.  On a map of [w] by [h] passable tiles, with
    no units and no buildings in the way, from a start that is a tile to a
    goal on or between the tiles, [findPath] returns a path that begins
    with the start, proceeds from neighbour to neighbour, ends less than 1
    away from the goal and has more waypoints than [max (|dx|, |dy|)].
    When every tile costs 1 to enter and the goal is a tile, the path ends
    on the goal and has [|dx| + |dy| + 1] waypoints at most. *)
Theorem findPath_on_open_map tm w h start (ex ey : Q) :
  openTerrain tm w h ->
  isTile tm start ->
  (0 <= ex <= inject_Z (Z.of_nat w) - 1)%Q ->
  (0 <= ey <= inject_Z (Z.of_nat h) - 1)%Q ->
  let end_ := Pos (Num ex) (Num ey) in
  exists path ax ay,
    TerrainManager.findPath tm start end_ [] [] = Some path
    /\ start = Pos (Num ax) (Num ay)
    /\ hd_error path = Some start
    /\ (getDistance (last path start) end_ <? num 1)%js = true
    /\ stepwise path
    /\ (Qabs (ex - ax) < inject_Z (Z.of_nat (List.length path)))%Q
    /\ (Qabs (ey - ay) < inject_Z (Z.of_nat (List.length path)))%Q
    /\ (plainTerrain tm -> isTile tm end_ ->
        samePos (last path start) end_
        /\ (inject_Z (Z.of_nat (List.length path))
            <= Qabs (ex - ax) + Qabs (ey - ay) + 1)%Q).
Proof.
  intros Hopen Hstart Hex Hey end_.
  destruct (isTile_in_range Hopen Hstart) as (sc & sr & Hsc & Hsr & Hs).
  destruct (nearest_tile _ Hex) as (gc & Hgc & Hgx).
  destruct (nearest_tile _ Hey) as (gr & Hgr & Hgy).
  assert (Hgoal : (getDistance (tileAt gc gr) end_ <? num 1)%js = true).
  { unfold tileAt, end_. rewrite !of_nat_is_Num. apply near_intro.
    apply half_squares; assumption. }
  assert (Hinv0 : search_inv tm [TerrainManager.startNode start end_] []).
  { constructor; simpl.
    + constructor; [ exact Hstart | constructor ].
    + constructor; [ reflexivity | constructor ].
    + constructor; [ constructor | constructor ]. }
  assert (Hchain0 : Forall (chain start) [TerrainManager.startNode start end_]).
  { constructor; [ | constructor ]. apply chain_root. }
  assert (Hfront0 : frontier_inv w h start end_
                      [TerrainManager.startNode start end_] []).
  { constructor.
    + constructor.
    + intros c r c' r' _ _ _ _ _ H. discriminate H.
    + right. exists (TerrainManager.startNode start end_).
      split; [ left; reflexivity | apply samePos_refl ]. }
  assert (Hfuel0 : (List.length (unclosed tm []) <= TerrainManager.search_fuel tm)%nat).
  { unfold TerrainManager.search_fuel.
    pose proof (unclosed_le_tiles tm []). lia. }
  destruct (@search_reaches_goal tm w h Hopen start end_ sc sr gc gr
              Hsc Hsr Hs Hgc Hgr Hgoal
              (TerrainManager.search_fuel tm)
              [TerrainManager.startNode start end_] []
              Hinv0 Hchain0 Hfront0 Hfuel0)
    as (n & E & Hchain & Hnear).
  destruct (near_elim _ _ Hnear) as (bx & by_ & qx & qy & Hn & Hq & Hlt).
  unfold end_ in Hq. injection Hq as <- <-.
  destruct (chain_span Hchain Hn) as (ax & ay & Ha & Hsx & Hsy).
  cbv zeta in Hsx, Hsy.
  destruct (chain_path Hchain) as [Hhd Hstep].
  exists (TerrainManager.reconstructPath n), ax, ay.
  split; [ exact E | ]. split; [ exact Ha | ]. split; [ exact Hhd | ].
  split.
  { rewrite (@last_indep _ _ start (PathNode.position n)
               (@reconstructPath_nonempty n)).
    rewrite reconstructPath_last. exact Hnear. }
  split; [ exact Hstep | ].
  pose proof (square_below_one Hlt) as Hbx.
  assert (Hlt' : ((by_ - ey) * (by_ - ey) + (bx - ex) * (bx - ex) < 1)%Q) by lra.
  pose proof (square_below_one Hlt') as Hby.
  split; [ apply Qabs_Qlt_condition; split; lra | ].
  split; [ apply Qabs_Qlt_condition; split; lra | ].
  (* the map of grass and the goal on a tile *)
  intros Hplain Hgoal_tile.
  destruct (isTile_in_range Hopen Hgoal_tile) as (tc & tr & Htc & Htr & Hend).
  destruct (@getDistance_tiles start end_ sc sr tc tr Hs Hend) as (d0 & Ed0 & Hd0).
  destruct (@search_direct tm w h Hopen Hplain end_ tc tr Htc Htr Hend
              d0 start sc sr Hsc Hsr Hs
              (TerrainManager.search_fuel tm)
              [TerrainManager.startNode start end_] []
              Hinv0 Hchain0 Hfront0)
    as (n' & E' & _ & Hnear' & Htile' & Hpriced' & Hwithin'); [ | | exact Hfuel0 | ].
  { constructor; [ | constructor ].
    exists (inject_Z 0), d0. unfold TerrainManager.startNode.
    cbn [PathNode.gCost PathNode.hCost PathNode.fCost PathNode.position depth].
    rewrite Ed0. repeat split; reflexivity. }
  { constructor.
    - right. exists (TerrainManager.startNode start end_).
      split; [ left; reflexivity | ]. split; [ apply samePos_refl | ].
      exists (Qred (inject_Z 0 + d0)). unfold TerrainManager.startNode.
      cbn [PathNode.fCost]. rewrite Ed0. split; [ reflexivity | ].
      rewrite Qred_correct. change (inject_Z 0) with 0%Q. lra.
    - intros c r _ _ _ H. discriminate H. }
  unfold TerrainManager.findPath in E. rewrite E in E'.
  injection E' as E'. rewrite E'.
  destruct (isTile_in_range Hopen Htile') as (nc & nr & Hnc & Hnr & Hnpos).
  split.
  { rewrite (@last_indep _ _ start (PathNode.position n')
               (@reconstructPath_nonempty n')).
    rewrite reconstructPath_last.
    eapply near_tiles; eassumption. }
  rewrite reconstructPath_length.
  destruct Hpriced' as (g & hc & Eg & Hg & Eh & Ed & Ef).
  destruct Hwithin' as (f & Ef' & Hf). rewrite Ef in Ef'. injection Ef' as <-.
  rewrite Qred_correct in Hf.
  assert (Hhc : (0 <= hc)%Q).
  { destruct (@getDistance_tiles (PathNode.position n') end_ nc nr tc tr Hnpos Hend)
      as (d & Ed' & Hd).
    rewrite Ed in Ed'. injection Ed' as <-. rewrite Hd.
    apply Qle_shift_div_l; [ reflexivity | ].
    rewrite Qmult_0_l. change 0%Q with (inject_Z 0). rewrite <- Zle_Qle.
    apply root_nonneg. }
  set (M := (Z.abs (Z.of_nat sc - Z.of_nat tc)
             + Z.abs (Z.of_nat sr - Z.of_nat tr))%Z).
  assert (Hroot : (root (gap sc sr tc tr) <= M * 2 ^ Number.sqrt_bits)%Z).
  { apply root_le; [ unfold M; lia | ]. unfold gap, M.
    rewrite <- (Z.abs_square (Z.of_nat sc - Z.of_nat tc)).
    rewrite <- (Z.abs_square (Z.of_nat sr - Z.of_nat tr)).
    nia. }
  assert (Hd0M : (d0 <= inject_Z M)%Q).
  { rewrite Hd0. apply Qle_shift_div_r; [ reflexivity | ].
    rewrite <- inject_Z_mult, <- Zle_Qle. exact Hroot. }
  assert (HM : (inject_Z M == Qabs (ex - ax) + Qabs (ey - ay))%Q).
  { destruct Hs as [Hsx' Hsy']. destruct Hend as [Hex' Hey'].
    rewrite Ha in Hsx', Hsy'. unfold end_ in Hex', Hey'. simpl in Hsx', Hsy', Hex', Hey'.
    rewrite Hsx', Hsy', Hex', Hey'. unfold M.
    rewrite inject_Z_plus.
    assert (Habs : forall a b : Z,
               (Qabs (inject_Z a - inject_Z b) == inject_Z (Z.abs (b - a)))%Q).
    { intros a b. unfold Qminus. rewrite <- inject_Z_opp, <- inject_Z_plus.
      unfold Qabs, inject_Z. f_equiv. lia. }
    rewrite !Habs. reflexivity. }
  rewrite Nat2Z.inj_succ, <- Z.add_1_r, inject_Z_plus.
  change (inject_Z 1) with 1%Q. rewrite <- HM. lra.
Qed.

Lemma openGrid_4_1_open : openTerrain (Sample.openGrid 4 1) 4 1.
Proof. constructor; try reflexivity; repeat constructor. Defined.

Lemma openGrid_4_1_plain : plainTerrain (Sample.openGrid 4 1).
Proof. repeat constructor. Defined.

Lemma findPath_on_open_map_witness :
  exists path ax ay,
    TerrainManager.findPath (Sample.openGrid 4 1) (Sample.at_ 0 0)
      (Pos (Num 3) (Num 0)) [] [] = Some path
    /\ Sample.at_ 0 0 = Pos (Num ax) (Num ay)
    /\ hd_error path = Some (Sample.at_ 0 0)
    /\ (getDistance (last path (Sample.at_ 0 0)) (Pos (Num 3) (Num 0)) <? num 1)%js
       = true
    /\ stepwise path
    /\ (Qabs (3 - ax) < inject_Z (Z.of_nat (List.length path)))%Q
    /\ (Qabs (0 - ay) < inject_Z (Z.of_nat (List.length path)))%Q
    /\ samePos (last path (Sample.at_ 0 0)) (Pos (Num 3) (Num 0))
    /\ (inject_Z (Z.of_nat (List.length path)) <= Qabs (3 - ax) + Qabs (0 - ay) + 1)%Q.
Proof.
  destruct (@findPath_on_open_map (Sample.openGrid 4 1) 4 1 (Sample.at_ 0 0) 3 0
              openGrid_4_1_open)
    as (path & ax & ay & E & Ha & Hhd & Hnear & Hstep & Hx & Hy & Hplain).
  - exists (Sample.at_ 0 0). split; [ left; reflexivity | apply samePos_refl ].
  - split; vm_compute; discriminate.
  - split; vm_compute; discriminate.
  - exists path, ax, ay.
    do 7 (split; [ assumption | ]).
    apply Hplain; [ exact openGrid_4_1_plain | ].
    exists (Sample.at_ 3 0). split; [ | apply samePos_refl ].
    right. right. right. left. reflexivity.
Defined.

(** C6 as stated fails on a straight line, on a start between tiles and on
    a map of tiles that differ in cost.  On the open 4 by 1 map the path
    from (0,0) to (3,0) has 4 waypoints, more than [|dx| + |dy| = 3].  On
    the open 5 by 5 map the search from (1/2, 1/2) finds no tile to step on,
    and the path returned is the goal alone, whose first point is not the
    start.  On a map of grass, forest and road, all passable, the path from
    (0,0) to (3,0) follows the road and has 6 waypoints, more than
    [|dx| + |dy| + 1 = 4]. *)
Lemma findPath_open_map_counterexample :
  let a := Sample.at_ 0 0 in
  let b := Sample.at_ 3 0 in
  let path := [Sample.at_ 0 0; Sample.at_ 1 0; Sample.at_ 2 0; Sample.at_ 3 0] in
  let detour :=
    [Sample.at_ 0 0; Sample.at_ 0 1; Sample.at_ 1 2; Sample.at_ 2 2;
     Sample.at_ 3 1; Sample.at_ 3 0] in
  TerrainManager.findPath (Sample.openGrid 4 1) a b [] [] = Some path
  /\ ~ (inject_Z (Z.of_nat (List.length path)) <= Qabs (3 - 0) + Qabs (0 - 0))%Q
  /\ TerrainManager.findPath (Sample.openGrid 5 5) (Pos (frac 1 2) (frac 1 2))
       (Sample.at_ 3 3) [] []
     = Some [Sample.at_ 3 3]
  /\ hd_error [Sample.at_ 3 3] <> Some (Pos (frac 1 2) (frac 1 2))
  /\ openTerrain Sample.roadsAndForest 4 3
  /\ TerrainManager.findPath Sample.roadsAndForest a b [] [] = Some detour
  /\ ~ (inject_Z (Z.of_nat (List.length detour))
        <= Qabs (3 - 0) + Qabs (0 - 0) + 1)%Q.
Proof.
  cbv zeta. split; [ vm_compute; reflexivity | ].
  split; [ vm_compute; intros H; apply H; reflexivity | ].
  split; [ vm_compute; reflexivity | ].
  split; [ discriminate | ].
  split; [ constructor; try reflexivity; repeat constructor | ].
  split; [ vm_compute; reflexivity | ].
  vm_compute. intros H. apply H. reflexivity.
Qed.
(* ================================================================== *)
(** * Further properties of the terrain manager *)
(* ================================================================== *)

(** ** Neighbours *)

Lemma geb_Num (a b : Q) : (Num a >=? Num b)%js = true <-> (b <= a)%Q.
Proof. unfold Number.geb. apply leb_Num. Qed.

Lemma add_finite_l (a b : number) q : (a + b)%js = Num q -> exists qa, a = Num qa.
Proof. destruct a, b; simpl; try discriminate. eauto. Qed.

Lemma ltb_finite_l (a b : number) :
  (num 0 <=? a)%js = true -> (a <? b)%js = true -> exists q, a = Num q.
Proof.
  destruct a as [ | | | q ]; unfold Number.leb, Number.ltb; simpl;
    try discriminate; destruct b; simpl; try discriminate; eauto.
Qed.

Lemma getNeighbors_length tm p :
  (List.length (TerrainManager.getNeighbors tm p) <= 8)%nat.
Proof.
  unfold TerrainManager.getNeighbors. cbn [flat_map app].
  rewrite !length_app.
  repeat match goal with
  | |- context [ (?a =? ?b)%Z ] =>
      let v := eval vm_compute in (a =? b)%Z in change (a =? b)%Z with v
  end.
  cbn [andb].
  repeat match goal with
  | |- context [ List.length (if ?b then _ else _) ] => destruct b
  end; cbn [List.length]; lia.
Qed.

(** X1.  [getNeighbors] returns at most eight positions; each of them lies
    inside the bounds of the map, is one step away from [position] in each
    direction at most, and is not [position] itself. *)
Theorem getNeighbors_within_map tm p :
  (List.length (TerrainManager.getNeighbors tm p) <= 8)%nat
  /\ forall q, In q (TerrainManager.getNeighbors tm p) ->
       (num 0 <=? x q)%js = true
       /\ (x q <? TerrainManager.mapSize_width tm)%js = true
       /\ (num 0 <=? y q)%js = true
       /\ (y q <? TerrainManager.mapSize_height tm)%js = true
       /\ adjacent p q
       /\ TerrainManager.sameKey q p = false.
Proof.
  split; [ apply getNeighbors_length | ].
  intros q Hq. pose proof (getNeighbors_adjacent _ _ _ Hq) as Hadj.
  unfold TerrainManager.getNeighbors in Hq. rewrite in_flat_map in Hq.
  destruct Hq as [dy [Hdy H]]. rewrite in_flat_map in H. destruct H as [dx [Hdx H]].
  destruct ((dx =? 0)%Z && (dy =? 0)%Z) eqn:Ez; [ contradiction | ].
  match type of H with
  | In _ (if ?b then _ else _) => destruct b eqn:Eb
  end; [ | contradiction ].
  destruct H as [<- | []]. cbn [x y].
  apply andb_true_iff in Eb. destruct Eb as [Eb E4].
  apply andb_true_iff in Eb. destruct Eb as [Eb E3].
  apply andb_true_iff in Eb. destruct Eb as [E1 E2].
  unfold Number.geb in E1, E3.
  do 4 (split; [ assumption | ]).
  split; [ exact Hadj | ].
  destruct (ltb_finite_l _ _ E1 E2) as [qx Hqx].
  destruct (ltb_finite_l _ _ E3 E4) as [qy Hqy].
  destruct (add_finite_l _ _ Hqx) as [px Hpx].
  destruct (add_finite_l _ _ Hqy) as [py Hpy].
  unfold TerrainManager.sameKey. cbn [x y]. rewrite Hpx, Hpy, !num_is_Num, !add_Num.
  apply andb_false_iff.
  assert (Hd : dx <> 0%Z \/ dy <> 0%Z).
  { apply andb_false_iff in Ez. destruct Ez as [Ez | Ez]; apply Z.eqb_neq in Ez; auto. }
  destruct Hd as [Hd | Hd]; [ left | right ];
    apply not_true_iff_false; rewrite same_spec; unfold Number.equiv;
    rewrite Qred_correct; intros E;
    apply Hd; apply inject_Z_injective; change (inject_Z 0) with 0%Q; lra.
Qed.

Lemma getNeighbors_within_map_witness :
  In (Sample.at_ 1 1)
     (TerrainManager.getNeighbors (Sample.openGrid 2 2) (Sample.at_ 0 0))
  /\ (x (Sample.at_ 1 1)
      <? TerrainManager.mapSize_width (Sample.openGrid 2 2))%js = true
  /\ (y (Sample.at_ 1 1)
      <? TerrainManager.mapSize_height (Sample.openGrid 2 2))%js = true
  /\ adjacent (Sample.at_ 0 0) (Sample.at_ 1 1)
  /\ TerrainManager.sameKey (Sample.at_ 1 1) (Sample.at_ 0 0) = false.
Proof.
  assert (Hin : In (Sample.at_ 1 1)
                  (TerrainManager.getNeighbors (Sample.openGrid 2 2)
                     (Sample.at_ 0 0)))
    by (vm_compute; auto).
  split; [ exact Hin | ].
  destruct (proj2 (getNeighbors_within_map (Sample.openGrid 2 2) (Sample.at_ 0 0))
              (Sample.at_ 1 1) Hin) as (_ & Hx & _ & Hy & Hadj & Hkey).
  repeat split; assumption.
Defined.

(** ** Paths among obstacles *)

Section Cleared.

Variable tm : TerrainManager.t.
Variable units : list Unit.t.
Variable buildings : list Building.t.

Let passable (p : Position) : Prop :=
  TerrainManager.isPassable tm p units buildings = true.

(** An open node that the search has created itself. *)
Let entered (n : PathNode) : Prop :=
  cleared tm units buildings n /\ passable (PathNode.position n).

Lemma cleared_path n :
  cleared tm units buildings n ->
  Forall passable (tl (TerrainManager.reconstructPath n)).
Proof.
  induction 1 as [ p g h f | p g h f parent Hc IH Hp ].
  - constructor.
  - rewrite reconstructPath_step.
    pose proof (reconstructPath_nonempty parent) as Hne.
    destruct (TerrainManager.reconstructPath parent) as [ | a l ]; [ congruence | ].
    cbn [tl app] in *. apply Forall_app. split; [ exact IH | ].
    constructor; [ exact Hp | constructor ].
Qed.

Lemma relax_entered neighbor gCost currentNode openSet openSet' :
  cleared tm units buildings currentNode ->
  Forall entered openSet ->
  TerrainManager.relax neighbor gCost currentNode openSet = Some openSet' ->
  Forall entered openSet'.
Proof.
  intros Hcur. revert openSet'.
  induction openSet as [ | n r IH ]; intros openSet' Hall; simpl; [ discriminate | ].
  inversion Hall as [ | ? ? Hn Hr ]; subst.
  destruct (TerrainManager.samePosition (PathNode.position n) neighbor).
  - intros [= <-]. destruct (gCost <? PathNode.gCost n)%js; [ | exact Hall ].
    constructor; [ | exact Hr ].
    destruct Hn as [_ Hp]. split; [ | exact Hp ].
    apply cleared_step; assumption.
  - destruct (TerrainManager.relax neighbor gCost currentNode r) as [ r' | ];
      [ | discriminate ].
    intros [= <-]. constructor; [ exact Hn | ]. apply IH; auto.
Qed.

Lemma visit_entered end_ closedSet currentNode openSet neighbor :
  cleared tm units buildings currentNode ->
  Forall entered openSet ->
  Forall entered
    (TerrainManager.visit tm end_ units buildings closedSet currentNode openSet
       neighbor).
Proof.
  intros Hcur Hall. unfold TerrainManager.visit.
  destruct (TerrainManager.closed_has closedSet neighbor
            || negb (TerrainManager.isPassable tm neighbor units buildings)) eqn:E;
    [ exact Hall | ].
  apply orb_false_iff in E. destruct E as [_ E]. apply negb_false_iff in E.
  destruct (TerrainManager.relax neighbor _ currentNode openSet) as [ openSet' | ] eqn:Er.
  - eapply relax_entered; eassumption.
  - apply Forall_app. split; [ exact Hall | ].
    constructor; [ | constructor ].
    split; [ apply cleared_step; assumption | exact E ].
Qed.

Lemma fold_visit_entered end_ closedSet currentNode neighbors :
  cleared tm units buildings currentNode ->
  forall openSet,
    Forall entered openSet ->
    Forall entered
      (fold_left
         (TerrainManager.visit tm end_ units buildings closedSet currentNode)
         neighbors openSet).
Proof.
  intros Hcur. induction neighbors as [ | nb neighbors IH ]; intros openSet H;
    simpl; [ exact H | ].
  apply IH. apply visit_entered; assumption.
Qed.

Lemma search_cleared end_ :
  forall fuel openSet closedSet path,
    Forall entered openSet ->
    TerrainManager.search fuel tm end_ units buildings openSet closedSet
    = Some path ->
    Forall passable (tl path).
Proof.
  induction fuel as [ | fuel IH ]; intros openSet closedSet path Hall;
    destruct openSet as [ | first rest ]; cbn [TerrainManager.search];
    try (intros [= <-]; constructor); try discriminate.
  destruct (TerrainManager.lowest 1 rest first 0) as [currentNode currentIndex] eqn:El.
  apply lowest_in_open in El.
  destruct (splice1_nth _ _ El) as (l1 & l2 & Hopen & ->).
  rewrite Hopen in Hall. apply Forall_remove_middle in Hall.
  destruct Hall as [[Hcur _] Hall].
  destruct (getDistance (PathNode.position currentNode) end_ <? num 1)%js.
  - intros [= <-]. apply cleared_path. exact Hcur.
  - apply IH. apply fold_visit_entered; assumption.
Qed.

Lemma findPath_cleared start end_ path :
  TerrainManager.findPath tm start end_ units buildings = Some path ->
  Forall passable (tl path).
Proof.
  unfold TerrainManager.findPath, TerrainManager.search_fuel.
  cbn [TerrainManager.search TerrainManager.lowest TerrainManager.splice1].
  destruct (getDistance (PathNode.position (TerrainManager.startNode start end_)) end_
            <? num 1)%js.
  - intros [= <-]. constructor.
  - apply search_cleared. apply fold_visit_entered; [ | constructor ].
    apply cleared_root.
Qed.

End Cleared.

(** X2.  [findPath] always returns.  What it returns is the goal alone, or
    a path that starts at [start] and goes from neighbour to neighbour; and
    every waypoint after the first is a position that [isPassable] accepts:
    a passable tile of the map with no building within 2.5 and no unit
    within 0.8 of it. *)
Theorem findPath_avoids_obstacles tm start end_ units buildings :
  exists path,
    TerrainManager.findPath tm start end_ units buildings = Some path
    /\ (path = [end_] \/ hd_error path = Some start /\ stepwise path)
    /\ Forall (fun p => TerrainManager.isPassable tm p units buildings = true)
              (tl path).
Proof.
  destruct (findPath_total tm start end_ units buildings) as [path E].
  exists path. split; [ exact E | ]. split.
  - unfold TerrainManager.findPath in E.
    apply (@search_result start) in E; [ | repeat constructor ].
    destruct E as [E | (n & Hc & _ & ->)]; [ left; exact E | right ].
    apply chain_path. exact Hc.
  - eapply findPath_cleared. exact E.
Qed.









(* ================================================================== *)
(** * Further properties of the resource zones *)
(* ================================================================== *)

Lemma filter_absent (workerId : string) (l : list string) :
  ~ In workerId l ->
  filter (fun id => negb (String.eqb id workerId)) l = l.
Proof.
  induction l as [ | a l IH ]; simpl; [ reflexivity | ].
  intros H. destruct (String.eqb a workerId) eqn:E.
  - apply String.eqb_eq in E. exfalso. apply H. left. exact E.
  - simpl. rewrite IH; [ reflexivity | ]. intros H'. apply H. right. exact H'.
Qed.

Lemma workersOf_set zoneId zone tm :
  workersOf zoneId
    (TerrainManager.with_resourceZones
       (JSMap.set zoneId zone (TerrainManager.resourceZones tm)) tm)
  = ResourceZone.workersAssigned zone.
Proof. unfold workersOf. cbn. rewrite get_set_same. reflexivity. Qed.

Lemma workersOf_removeWorkerFromZone workerId zoneId tm :
  workersOf zoneId (TerrainManager.removeWorkerFromZone workerId zoneId tm)
  = filter (fun id => negb (String.eqb id workerId)) (workersOf zoneId tm).
Proof.
  unfold TerrainManager.removeWorkerFromZone, workersOf at 2.
  destruct (JSMap.get zoneId (TerrainManager.resourceZones tm)) as [zone | ] eqn:Eget.
  - rewrite workersOf_set. reflexivity.
  - unfold workersOf. rewrite Eget. reflexivity.
Qed.

(** X4.  [removeWorkerFromZone] removes every occurrence of the worker from
    the list of the zone and keeps the other workers in their order; the
    other zones are not touched, and an unknown zone id changes nothing. *)
Theorem removeWorkerFromZone_removes workerId zoneId tm :
  let tm' := TerrainManager.removeWorkerFromZone workerId zoneId tm in
  workersOf zoneId tm'
  = filter (fun id => negb (String.eqb id workerId)) (workersOf zoneId tm)
  /\ ~ In workerId (workersOf zoneId tm')
  /\ (forall w, w <> workerId ->
        (In w (workersOf zoneId tm') <-> In w (workersOf zoneId tm)))
  /\ (forall z, z <> zoneId ->
        JSMap.get z (TerrainManager.resourceZones tm')
        = JSMap.get z (TerrainManager.resourceZones tm))
  /\ (JSMap.get zoneId (TerrainManager.resourceZones tm) = None -> tm' = tm).
Proof.
  cbv zeta.
  rewrite workersOf_removeWorkerFromZone.
  split; [ reflexivity | ].
  split; [ | split; [ | split ] ].
  - rewrite filter_In. intros [_ H]. rewrite String.eqb_refl in H. discriminate.
  - intros w Hw. rewrite filter_In. split; [ tauto | ].
    intros H. split; [ exact H | ].
    apply negb_true_iff. apply String.eqb_neq. exact Hw.
  - intros z Hz. unfold TerrainManager.removeWorkerFromZone.
    destruct (JSMap.get zoneId (TerrainManager.resourceZones tm)); [ | reflexivity ].
    cbn. apply get_set_other. congruence.
  - intros H. unfold TerrainManager.removeWorkerFromZone. rewrite H. reflexivity.
Qed.

(** X5.  Assigning a worker that is not registered with the zone and then
    removing it gives back the list of workers there was, whether or not
    the assignment was accepted. *)
Theorem assign_then_remove_restores workerId zoneId tm :
  ~ In workerId (workersOf zoneId tm) ->
  workersOf zoneId
    (TerrainManager.removeWorkerFromZone workerId zoneId
       (snd (TerrainManager.assignWorkerToZone workerId zoneId tm)))
  = workersOf zoneId tm.
Proof.
  intros Hnot. rewrite workersOf_removeWorkerFromZone.
  unfold TerrainManager.assignWorkerToZone, workersOf in *.
  destruct (JSMap.get zoneId (TerrainManager.resourceZones tm)) as [zone | ] eqn:Eget.
  - destruct (negb (ResourceZone.isExhausted zone)
              && (List.length (ResourceZone.workersAssigned zone) <? 5)%nat).
    + cbn. rewrite get_set_same. cbn.
      rewrite filter_app, filter_absent by exact Hnot.
      cbn. rewrite String.eqb_refl. cbn. apply app_nil_r.
    + cbn. rewrite Eget. apply filter_absent. exact Hnot.
  - cbn. rewrite Eget. reflexivity.
Qed.

Lemma assign_then_remove_restores_witness :
  workersOf "oil_0"
    (TerrainManager.removeWorkerFromZone "w2" "oil_0"
       (snd (TerrainManager.assignWorkerToZone "w2" "oil_0" Sample.staffedField)))
  = workersOf "oil_0" Sample.staffedField.
Proof.
  apply assign_then_remove_restores.
  vm_compute. intros [H | []]. discriminate H.
Defined.

(** ** What the zone operations keep *)

(** What [gatherFrom] leaves alone, whatever the tick. *)
Lemma gatherFrom_shape zone deltaTime :
  let zone' := snd (TerrainManager.gatherFrom zone deltaTime) in
  ResourceZone.totalResources zone' = ResourceZone.totalResources zone
  /\ (ResourceZone.workersAssigned zone' = ResourceZone.workersAssigned zone
      \/ ResourceZone.workersAssigned zone' = [])
  /\ (ResourceZone.isExhausted zone = true ->
      TerrainManager.gatherFrom zone deltaTime = (num 0, zone))
  /\ (ResourceZone.isExhausted zone' = true ->
      ResourceZone.isExhausted zone = true
      \/ (ResourceZone.remainingResources zone' <=? num 0)%js = true).
Proof.
  cbv zeta. unfold TerrainManager.gatherFrom.
  destruct (ResourceZone.isExhausted zone) eqn:Eex; cbn [orb fst snd].
  - auto.
  - destruct (List.length (ResourceZone.workersAssigned zone) =? 0)%nat;
      cbn [fst snd]; [ repeat split; auto; intros; congruence | ].
    match goal with
    | |- context [ if ?b then _ else _ ] => destruct b eqn:E
    end; cbn; repeat split; auto; try (intros; congruence).
Qed.

Lemma newZone_bounded resourceType i position (rnd : Q) :
  (0 <= rnd)%Q -> (rnd < 1)%Q ->
  bounded_zone (TerrainManager.newZone resourceType i position (Num rnd)).
Proof.
  intros H0 H1. split; [ cbn; lia | ].
  exists (Qred (inject_Z 5000 + Qred (rnd * inject_Z 3000))),
         (Qred (inject_Z 5000 + Qred (rnd * inject_Z 3000))).
  assert (H5 : (5000 <= Qred (inject_Z 5000 + Qred (rnd * inject_Z 3000)))%Q
               /\ (Qred (inject_Z 5000 + Qred (rnd * inject_Z 3000)) <= 8000)%Q).
  { rewrite !Qred_correct. change (inject_Z 5000) with 5000%Q.
    change (inject_Z 3000) with 3000%Q.
    assert (0 <= rnd * 3000)%Q by (apply Qmult_le_0_compat; lra).
    split; lra. }
  destruct H5 as [H5 H8].
  unfold TerrainManager.newZone; cbn.
  repeat split; try reflexivity; try lra; discriminate.
Qed.

Lemma gatherFrom_bounded zone (deltaTime : Q) :
  zone_ok zone -> bounded_zone zone -> (0 <= deltaTime)%Q ->
  bounded_zone (snd (TerrainManager.gatherFrom zone (Num deltaTime))).
Proof.
  intros Hok [Hlen (r & t & Hr & Ht & Hr0 & Hrt & Ht5 & Ht8 & Hex)] Hd.
  pose proof (gatherFrom_spec Hok Hd) as Hspec. cbv zeta in Hspec.
  destruct Hspec as ((r' & g' & Hr' & _ & Hr'0 & _ & Hex' & _) & _ & _ & Hle & _ & Hzero).
  pose proof (gatherFrom_shape zone (Num deltaTime)) as Hshape. cbv zeta in Hshape.
  destruct Hshape as (Htot & Hw & Hsame & Hbecame).
  set (zone' := snd (TerrainManager.gatherFrom zone (Num deltaTime))) in *.
  split.
  - destruct Hw as [-> | ->]; [ exact Hlen | cbn; lia ].
  - exists r', t. rewrite Hr, Hr' in Hle. apply leb_Num in Hle.
    split; [ exact Hr' | ]. split; [ congruence | ].
    split; [ exact Hr'0 | ]. split; [ lra | ].
    split; [ exact Ht5 | ]. split; [ exact Ht8 | ].
    intros E. split; [ | apply Hex'; exact E ].
    destruct (Hbecame E) as [E0 | E0].
    + assert (Hz : zone' = zone) by (unfold zone'; rewrite (Hsame E0); reflexivity).
      rewrite Hz, Hr in Hr'. injection Hr' as <-. apply Hex. exact E0.
    + rewrite Hr' in E0. apply leb_Num in E0. change (inject_Z 0) with 0%Q in E0.
      lra.
Qed.

Lemma bounded_with_workers zone (workers : list string) :
  bounded_zone zone ->
  (List.length workers <= 5)%nat ->
  (ResourceZone.isExhausted zone = true -> workers = []) ->
  bounded_zone (ResourceZone.with_workersAssigned workers zone).
Proof.
  intros [_ (r & t & Hr & Ht & H0 & Hrt & H5 & H8 & Hex)] Hlen Hw.
  split; [ exact Hlen | ].
  exists r, t. cbn.
  split; [ exact Hr | ]. split; [ exact Ht | ].
  split; [ exact H0 | ]. split; [ exact Hrt | ].
  split; [ exact H5 | ]. split; [ exact H8 | ].
  intros E. split; [ apply Hex; exact E | apply Hw; exact E ].
Qed.

Lemma values_bounded_set zoneId zone (m : JSMap.t ResourceZone.t) :
  Forall bounded_zone (JSMap.values m) -> bounded_zone zone ->
  Forall bounded_zone (JSMap.values (JSMap.set zoneId zone m)).
Proof.
  rewrite !Forall_forall. intros H Hz w Hw.
  apply In_values_set in Hw. destruct Hw as [-> | Hw]; auto.
Qed.

Lemma reachable_zones_bounded tm :
  reachable tm ->
  Forall bounded_zone (JSMap.values (TerrainManager.resourceZones tm)).
Proof.
  induction 1 as [ tm Hgen | w z tm Hr IH | w z tm Hr IH | z d tm Hr IH Hd ].
  - rewrite Forall_forall in *. intros zone Hin.
    unfold JSMap.values in Hin. apply in_map_iff in Hin.
    destruct Hin as [e [<- He]].
    destruct (Hgen e He) as (k & i & p & rnd & H0 & H1 & -> & _).
    apply newZone_bounded; assumption.
  - unfold TerrainManager.assignWorkerToZone.
    destruct (JSMap.get z (TerrainManager.resourceZones tm)) as [zone | ] eqn:Eget;
      [ | exact IH ].
    destruct (negb (ResourceZone.isExhausted zone)
              && (List.length (ResourceZone.workersAssigned zone) <? 5)%nat) eqn:E;
      [ | exact IH ].
    cbn. apply values_bounded_set; [ exact IH | ].
    apply andb_true_iff in E. destruct E as [E1 E2].
    apply negb_true_iff in E1. apply Nat.ltb_lt in E2.
    assert (Hz : bounded_zone zone).
    { rewrite Forall_forall in IH. apply IH. eapply get_In_values; exact Eget. }
    apply bounded_with_workers; [ exact Hz | | congruence ].
    rewrite length_app. cbn. lia.
  - unfold TerrainManager.removeWorkerFromZone.
    destruct (JSMap.get z (TerrainManager.resourceZones tm)) as [zone | ] eqn:Eget;
      [ | exact IH ].
    cbn. apply values_bounded_set; [ exact IH | ].
    assert (Hz : bounded_zone zone).
    { rewrite Forall_forall in IH. apply IH. eapply get_In_values; exact Eget. }
    apply bounded_with_workers; [ exact Hz | | ].
    + pose proof (filter_length_le_all (fun id => negb (String.eqb id w))
                    (ResourceZone.workersAssigned zone)).
      destruct Hz as [Hlen _]. lia.
    + intros E. destruct Hz as [_ (r & t & _ & _ & _ & _ & _ & _ & Hex)].
      rewrite (proj2 (Hex E)). reflexivity.
  - unfold TerrainManager.gatherResources.
    destruct (JSMap.get z (TerrainManager.resourceZones tm)) as [zone | ] eqn:Eget;
      [ | exact IH ].
    pose proof (@gatherFrom_bounded zone d) as Hb.
    destruct (TerrainManager.gatherFrom zone (Num d)) as [gathered zone'] eqn:Eg.
    cbn. apply values_bounded_set; [ exact IH | ].
    apply Hb; [ | | exact Hd ].
    + pose proof (reachable_zones_ok Hr) as Hok. rewrite Forall_forall in Hok.
      apply Hok. eapply get_In_values; exact Eget.
    + rewrite Forall_forall in IH. apply IH. eapply get_In_values; exact Eget.
Qed.

(** X6.  In a reachable manager every zone has at most five workers, an
    amount left between zero and its total, a total of at least 5000 and
    at most 8000, and, when it is exhausted, nothing left and no
    workers. *)
Theorem zones_stay_within_bounds tm zone :
  reachable tm ->
  In zone (TerrainManager.getResourceZones tm) ->
  (List.length (ResourceZone.workersAssigned zone) <= 5)%nat
  /\ (num 0 <=? ResourceZone.remainingResources zone)%js = true
  /\ (ResourceZone.remainingResources zone
      <=? ResourceZone.totalResources zone)%js = true
  /\ (num 5000 <=? ResourceZone.totalResources zone)%js = true
  /\ (ResourceZone.totalResources zone <=? num 8000)%js = true
  /\ (ResourceZone.isExhausted zone = true ->
      (ResourceZone.remainingResources zone == num 0)%js
      /\ ResourceZone.workersAssigned zone = []).
Proof.
  intros Hreach Hin.
  pose proof (reachable_zones_bounded Hreach) as H. rewrite Forall_forall in H.
  destruct (H zone Hin) as [Hlen (r & t & -> & -> & H0 & Hrt & H5 & H8 & Hex)].
  split; [ exact Hlen | ].
  rewrite !num_is_Num.
  split; [ apply leb_Num; exact H0 | ].
  split; [ apply leb_Num; exact Hrt | ].
  split; [ apply leb_Num; exact H5 | ].
  split; [ apply leb_Num; exact H8 | ].
  intros E. destruct (Hex E) as [Hz Hw]. split; [ exact Hz | exact Hw ].
Qed.

Lemma zones_stay_within_bounds_witness :
  let zone :=
    ResourceZone.with_workersAssigned ["w1"%string]
      (TerrainManager.newZone ResourceZone.oil 0 (Sample.at_ 10 10) (num 0)) in
  (List.length (ResourceZone.workersAssigned zone) <= 5)%nat
  /\ (num 0 <=? ResourceZone.remainingResources zone)%js = true
  /\ (ResourceZone.remainingResources zone
      <=? ResourceZone.totalResources zone)%js = true
  /\ (num 5000 <=? ResourceZone.totalResources zone)%js = true
  /\ (ResourceZone.totalResources zone <=? num 8000)%js = true
  /\ (ResourceZone.isExhausted zone = true ->
      (ResourceZone.remainingResources zone == num 0)%js
      /\ ResourceZone.workersAssigned zone = []).
Proof.
  cbv zeta.
  apply (@zones_stay_within_bounds Sample.staffedField).
  - apply reach_assign, freshField_reachable.
  - left. reflexivity.
Defined.

(** ** Exhaustion *)

Lemma after_exhausted op tm zoneId zone :
  JSMap.get zoneId (TerrainManager.resourceZones tm) = Some zone ->
  ResourceZone.isExhausted zone = true ->
  exists zone',
    JSMap.get zoneId (TerrainManager.resourceZones (after op tm)) = Some zone'
    /\ ResourceZone.isExhausted zone' = true
    /\ ResourceZone.remainingResources zone' = ResourceZone.remainingResources zone
    /\ yieldOf zoneId op tm = num 0.
Proof.
  intros Hget Hex.
  destruct op as [ w z | w z | z dt ]; cbn [after yieldOf].
  - unfold TerrainManager.assignWorkerToZone.
    destruct (String.eqb z zoneId) eqn:Ez.
    + apply String.eqb_eq in Ez. subst z. rewrite Hget, Hex. cbn. eauto.
    + apply String.eqb_neq in Ez.
      destruct (JSMap.get z (TerrainManager.resourceZones tm)) as [other | ];
        [ | cbn; eauto ].
      destruct (negb (ResourceZone.isExhausted other)
                && (List.length (ResourceZone.workersAssigned other) <? 5)%nat);
        cbn; [ | eauto ].
      rewrite get_set_other by exact Ez. eauto.
  - unfold TerrainManager.removeWorkerFromZone.
    destruct (String.eqb z zoneId) eqn:Ez.
    + apply String.eqb_eq in Ez. subst z. rewrite Hget. cbn.
      rewrite get_set_same. eexists. repeat split; eauto.
    + apply String.eqb_neq in Ez.
      destruct (JSMap.get z (TerrainManager.resourceZones tm)) as [other | ];
        [ | eauto ].
      cbn. rewrite get_set_other by exact Ez. eauto.
  - unfold TerrainManager.gatherResources.
    destruct (String.eqb z zoneId) eqn:Ez.
    + apply String.eqb_eq in Ez. subst z. rewrite Hget.
      unfold TerrainManager.gatherFrom. rewrite Hex. cbn.
      rewrite get_set_same. eauto.
    + apply String.eqb_neq in Ez.
      destruct (JSMap.get z (TerrainManager.resourceZones tm)) as [other | ];
        [ | cbn; eauto ].
      destruct (TerrainManager.gatherFrom other dt) as [gathered other'].
      cbn. rewrite get_set_other by exact Ez. eauto.
Qed.

(** X7.  Exhaustion is final.  Whatever calls are made on the manager, a
    zone that is exhausted stays exhausted and keeps the amount it has;
    none of the calls extracts anything from it, it refuses every worker
    and a further extraction returns 0. *)
Theorem exhausted_zone_stays_exhausted ops tm zoneId zone :
  JSMap.get zoneId (TerrainManager.resourceZones tm) = Some zone ->
  ResourceZone.isExhausted zone = true ->
  let tm' := snd (harvest zoneId ops tm) in
  fst (harvest zoneId ops tm) = num 0
  /\ (exists zone',
        JSMap.get zoneId (TerrainManager.resourceZones tm') = Some zone'
        /\ ResourceZone.isExhausted zone' = true
        /\ ResourceZone.remainingResources zone'
           = ResourceZone.remainingResources zone)
  /\ (forall workerId,
        TerrainManager.assignWorkerToZone workerId zoneId tm' = (false, tm'))
  /\ (forall deltaTime,
        fst (TerrainManager.gatherResources zoneId deltaTime tm') = num 0).
Proof.
  cbv zeta. revert tm zone.
  induction ops as [ | op ops IH ]; intros tm zone Hget Hex.
  - cbn [harvest fst snd]. split; [ reflexivity | ]. split; [ eauto | ]. split.
    + intros w. unfold TerrainManager.assignWorkerToZone. rewrite Hget, Hex.
      reflexivity.
    + intros dt. unfold TerrainManager.gatherResources, TerrainManager.gatherFrom.
      rewrite Hget, Hex. reflexivity.
  - destruct (@after_exhausted op tm zoneId zone Hget Hex) as (zone1 & Hget1 & Hex1 & Hrem & Hy).
    specialize (IH (after op tm) zone1 Hget1 Hex1).
    cbn [harvest]. destruct (harvest zoneId ops (after op tm)) as [total tm'].
    cbn [fst snd] in *. destruct IH as (Ht & (zone' & Hz) & Ha & Hg).
    split; [ rewrite Hy, Ht; reflexivity | ].
    split; [ | split; assumption ].
    exists zone'. rewrite <- Hrem. exact Hz.
Qed.

Lemma exhausted_zone_stays_exhausted_witness :
  let ops := [Assign "w2" "oil_0"; Gather "oil_0" (num 16); Remove "w2" "oil_0"] in
  let tm' := snd (harvest "oil_0" ops Sample.drainedField) in
  fst (harvest "oil_0" ops Sample.drainedField) = num 0
  /\ (exists zone',
        JSMap.get "oil_0" (TerrainManager.resourceZones tm') = Some zone'
        /\ ResourceZone.isExhausted zone' = true
        /\ ResourceZone.remainingResources zone'
           = ResourceZone.remainingResources Sample.drainedZone)
  /\ (forall workerId,
        TerrainManager.assignWorkerToZone workerId "oil_0" tm' = (false, tm'))
  /\ (forall deltaTime,
        fst (TerrainManager.gatherResources "oil_0" deltaTime tm') = num 0).
Proof.
  exact (@exhausted_zone_stays_exhausted
           [Assign "w2" "oil_0"; Gather "oil_0" (num 16); Remove "w2" "oil_0"]
           Sample.drainedField "oil_0" Sample.drainedZone eq_refl eq_refl).
Defined.

(** ** The stock of a zone *)

Lemma after_reachable op tm : reachable tm -> timed op -> reachable (after op tm).
Proof.
  intros Hr Ht. destruct op as [ w z | w z | z dt ]; cbn [after].
  - apply reach_assign. exact Hr.
  - apply reach_remove. exact Hr.
  - destruct Ht as (d & -> & Hd). apply reach_gather; assumption.
Qed.

Lemma reachable_zone_ok tm zoneId zone :
  reachable tm ->
  JSMap.get zoneId (TerrainManager.resourceZones tm) = Some zone ->
  zone_ok zone.
Proof.
  intros Hr Hget. pose proof (reachable_zones_ok Hr) as H.
  rewrite Forall_forall in H. apply H. eapply get_In_values. exact Hget.
Qed.

(** One call: what it extracts from the zone is what the zone loses. *)
Lemma after_conserves op tm zoneId zone :
  reachable tm -> timed op ->
  JSMap.get zoneId (TerrainManager.resourceZones tm) = Some zone ->
  exists zone' (g r r' : Q),
    JSMap.get zoneId (TerrainManager.resourceZones (after op tm)) = Some zone'
    /\ yieldOf zoneId op tm = Num g
    /\ ResourceZone.remainingResources zone = Num r
    /\ ResourceZone.remainingResources zone' = Num r'
    /\ (0 <= g)%Q /\ (0 <= r')%Q /\ (g + r' == r)%Q.
Proof.
  intros Hreach Ht Hget.
  pose proof (@reachable_zone_ok tm zoneId zone Hreach Hget) as Hok.
  destruct (Hok) as (r & rate & Hr & _ & Hr0 & _).
  assert (Hsame : forall zone',
             ResourceZone.remainingResources zone' = Num r ->
             JSMap.get zoneId (TerrainManager.resourceZones (after op tm))
             = Some zone' ->
             yieldOf zoneId op tm = num 0 ->
             exists zone' (g r0 r' : Q),
               JSMap.get zoneId (TerrainManager.resourceZones (after op tm))
               = Some zone'
               /\ yieldOf zoneId op tm = Num g
               /\ Num r = Num r0
               /\ ResourceZone.remainingResources zone' = Num r'
               /\ (0 <= g)%Q /\ (0 <= r')%Q /\ (g + r' == r0)%Q).
  { intros zone' Hr' Hg Hy. exists zone', 0%Q, r, r.
    repeat split; auto; try lra. }
  rewrite Hr.
  destruct op as [ w z | w z | z dt ]; cbn [after yieldOf] in *.
  - apply (Hsame (if String.eqb z zoneId
                  then match TerrainManager.assignWorkerToZone w z tm with
                       | (true, _) =>
                           ResourceZone.with_workersAssigned
                             (ResourceZone.workersAssigned zone ++ [w]) zone
                       | _ => zone
                       end
                  else zone)); [ | | reflexivity ].
    + destruct (String.eqb z zoneId); [ | exact Hr ].
      destruct (TerrainManager.assignWorkerToZone w z tm) as [[ | ] ?]; exact Hr.
    + unfold TerrainManager.assignWorkerToZone.
      destruct (String.eqb z zoneId) eqn:Ez.
      * apply String.eqb_eq in Ez. subst z. rewrite Hget.
        destruct (negb (ResourceZone.isExhausted zone)
                  && (List.length (ResourceZone.workersAssigned zone) <? 5)%nat);
          cbn; [ apply get_set_same | exact Hget ].
      * apply String.eqb_neq in Ez.
        destruct (JSMap.get z (TerrainManager.resourceZones tm)) as [other | ];
          [ | exact Hget ].
        destruct (negb (ResourceZone.isExhausted other)
                  && (List.length (ResourceZone.workersAssigned other) <? 5)%nat);
          cbn; [ | exact Hget ].
        rewrite get_set_other by exact Ez. exact Hget.
  - apply (Hsame (if String.eqb z zoneId
                  then ResourceZone.with_workersAssigned
                         (filter (fun id => negb (String.eqb id w))
                                 (ResourceZone.workersAssigned zone)) zone
                  else zone)); [ | | reflexivity ].
    + destruct (String.eqb z zoneId); exact Hr.
    + unfold TerrainManager.removeWorkerFromZone.
      destruct (String.eqb z zoneId) eqn:Ez.
      * apply String.eqb_eq in Ez. subst z. rewrite Hget. cbn. apply get_set_same.
      * apply String.eqb_neq in Ez.
        destruct (JSMap.get z (TerrainManager.resourceZones tm)) as [other | ];
          [ | exact Hget ].
        cbn. rewrite get_set_other by exact Ez. exact Hget.
  - destruct Ht as (d & -> & Hd).
    unfold TerrainManager.gatherResources in *.
    destruct (String.eqb z zoneId) eqn:Ez.
    + apply String.eqb_eq in Ez. subst z. rewrite Hget.
      pose proof (gatherFrom_spec Hok Hd) as Hspec. cbv zeta in Hspec.
      destruct (TerrainManager.gatherFrom zone (Num d)) as [gathered zone'].
      cbn [fst snd] in *.
      destruct Hspec as ((r' & g' & Hr' & _ & Hr'0 & _) & _ & Hdiff & Hle & _).
      rewrite Hr, Hr' in Hdiff, Hle. apply leb_Num in Hle.
      destruct gathered as [ | | | g ]; try contradiction.
      rewrite sub_Num in Hdiff. unfold Number.equiv in Hdiff.
      rewrite Qred_correct in Hdiff.
      exists zone', g, r, r'. cbn. rewrite get_set_same.
      repeat split; auto; lra.
    + apply String.eqb_neq in Ez.
      apply (Hsame zone); [ exact Hr | | reflexivity ].
      destruct (JSMap.get z (TerrainManager.resourceZones tm)) as [other | ];
        [ | exact Hget ].
      destruct (TerrainManager.gatherFrom other (Num d)) as [gathered other'].
      cbn. rewrite get_set_other by exact Ez. exact Hget.
Qed.

(** X8.  The stock of a zone never grows.  Over any sequence of calls on a
    reachable manager, with ticks of finite, non-negative length, the
    amount left in a zone in the end is not negative and does not exceed
    the amount it held before, and no single call extracts a negative
    amount or more than the zone held before the sequence. *)
Theorem zone_stock_never_grows ops tm zoneId zone :
  reachable tm -> Forall timed ops ->
  JSMap.get zoneId (TerrainManager.resourceZones tm) = Some zone ->
  let result := yields zoneId ops tm in
  exists zone',
    JSMap.get zoneId (TerrainManager.resourceZones (snd result)) = Some zone'
    /\ (num 0 <=? ResourceZone.remainingResources zone')%js = true
    /\ (ResourceZone.remainingResources zone'
        <=? ResourceZone.remainingResources zone)%js = true
    /\ Forall
         (fun amount =>
            (num 0 <=? amount)%js = true
            /\ (amount <=? ResourceZone.remainingResources zone)%js = true)
         (fst result).
Proof.
  cbv zeta. intros Hreach Hops. revert tm zone Hreach.
  induction Hops as [ | op ops Hop Hops IH ]; intros tm zone Hreach Hget.
  - cbn [yields fst snd]. exists zone.
    destruct (@reachable_zone_ok tm zoneId zone Hreach Hget)
      as (r & rate & Hr & _ & Hr0 & _).
    rewrite Hr, num_is_Num. split; [ exact Hget | ].
    split; [ apply leb_Num; exact Hr0 | ].
    split; [ apply leb_Num; lra | constructor ].
  - destruct (@after_conserves op tm zoneId zone Hreach Hop Hget)
      as (zone1 & g & r & r1 & Hget1 & Hy & Hr & Hr1 & Hg0 & Hr10 & Hsum).
    destruct (IH (after op tm) zone1 (@after_reachable op tm Hreach Hop) Hget1)
      as (zone' & Hget' & H0 & Hle & Hall).
    cbn [yields]. destruct (yields zoneId ops (after op tm)) as [amounts tm'].
    cbn [fst snd] in *. exists zone'. split; [ exact Hget' | ].
    split; [ exact H0 | ].
    rewrite Hr. rewrite Hr1 in Hle, Hall.
    destruct (ResourceZone.remainingResources zone') as [ | | | r' ];
      try discriminate.
    apply leb_Num in Hle.
    split; [ apply leb_Num; lra | ].
    constructor.
    + rewrite Hy, num_is_Num. change (inject_Z 0) with 0%Q.
      split; apply leb_Num; lra.
    + eapply Forall_impl; [ | exact Hall ].
      intros amount [Ha0 Ha1]. split; [ exact Ha0 | ].
      destruct amount as [ | | | a ]; try discriminate.
      apply leb_Num in Ha1. apply leb_Num. lra.
Qed.

Lemma zone_stock_never_grows_witness :
  let ops := [Gather "oil_0" (num 16); Assign "w2" "oil_0"; Gather "oil_0" (num 16)] in
  let result := yields "oil_0" ops Sample.staffedField in
  exists zone',
    JSMap.get "oil_0" (TerrainManager.resourceZones (snd result)) = Some zone'
    /\ (num 0 <=? ResourceZone.remainingResources zone')%js = true
    /\ (ResourceZone.remainingResources zone' <=? num 5000)%js = true
    /\ Forall
         (fun amount =>
            (num 0 <=? amount)%js = true /\ (amount <=? num 5000)%js = true)
         (fst result).
Proof.
  refine (@zone_stock_never_grows
            [Gather "oil_0" (num 16); Assign "w2" "oil_0"; Gather "oil_0" (num 16)]
            Sample.staffedField "oil_0"
            (ResourceZone.with_workersAssigned ["w1"%string]
               (TerrainManager.newZone ResourceZone.oil 0 (Sample.at_ 10 10) (num 0)))
            _ _ eq_refl).
  - apply reach_assign, freshField_reachable.
  - repeat constructor; exists 16%Q; (split; [ reflexivity | discriminate ]).
Defined.

(* ================================================================== *)
(** * Further properties of the unit controller *)
(* ================================================================== *)

(** ** Distances *)

Lemma Qsqrt_nonneg (s : Q) : (0 <= Number.Qsqrt s)%Q.
Proof.
  unfold Number.Qsqrt. rewrite Qred_correct. unfold Qle. cbn [Qnum Qden].
  rewrite Z.mul_1_r. cbn [Z.mul]. apply Z.sqrt_nonneg.
Qed.

Lemma Qsqrt_zero (s : Q) : (s == 0)%Q -> (Number.Qsqrt s == 0)%Q.
Proof.
  intros H. unfold Number.Qsqrt. rewrite Qred_correct.
  assert (Hn : Qnum s = 0%Z).
  { unfold Qeq in H. cbn [Qnum Qden] in H. lia. }
  rewrite Hn. reflexivity.
Qed.

(** A distance is [NaN], infinite, or a number that is not negative. *)
Lemma getDistance_cases p q :
  getDistance p q = NaN \/ getDistance p q = PosInf
  \/ exists d, getDistance p q = Num d /\ (0 <= d)%Q.
Proof.
  unfold getDistance.
  destruct (pow2 (x p - x q) + pow2 (y p - y q))%js as [ | | | s ]; cbn; auto.
  destruct (Qle_bool 0 s); auto.
  right. right. eexists. split; [ reflexivity | apply Qsqrt_nonneg ].
Qed.

(** The distance of a position from itself is zero, or [NaN] when a
    coordinate is not finite. *)
Lemma getDistance_self p :
  getDistance p p = NaN \/ exists d, getDistance p p = Num d /\ (d == 0)%Q.
Proof.
  destruct p as [[ | | | px] [ | | | py]];
    try (left; reflexivity).
  right. rewrite getDistance_Num. eexists. split; [ reflexivity | ].
  apply Qsqrt_zero. rewrite square_distance_eq. ring.
Qed.

Lemma nothing_nearer_than_self p q :
  (getDistance p q <? getDistance p p)%js = false.
Proof.
  destruct (getDistance_self p) as [-> | (z & -> & Hz)].
  - destruct (getDistance p q); reflexivity.
  - destruct (getDistance_cases p q) as [-> | [-> | (d & -> & Hd)]];
      try reflexivity.
    apply not_true_iff_false. rewrite ltb_Num. lra.
Qed.

(** ** Patrols *)

(** X9.  A patrol never turns back.  [executePatrolCommand] compares the
    distance to the patrol point with the distance of the unit from its own
    position, which is never the larger one, so it behaves as
    [executeMoveCommand] towards the patrol point in every state. *)
Theorem executePatrolCommand_is_a_move unit patrolPoint buildings s :
  executePatrolCommand unit patrolPoint buildings s
  = executeMoveCommand unit patrolPoint buildings s.
Proof.
  unfold executePatrolCommand, bind, deref at 1.
  rewrite nothing_nearer_than_self. reflexivity.
Qed.

(** ** Attacks *)

Lemma nth_error_update_nth {A : Type} (f : A -> A) (l : list A) :
  forall i j,
    nth_error (update_nth i f l) j
    = if (i =? j)%nat then option_map f (nth_error l j) else nth_error l j.
Proof.
  induction l as [ | a l IH ]; intros [ | i ] [ | j ]; simpl; try reflexivity.
  - destruct (i =? j)%nat; reflexivity.
  - apply IH.
Qed.

(** X10.  [performAttack] takes from the target the damage of the attacker,
    but no more than the health it has: a health that is finite and not
    negative stays so, and is zero when the damage reaches it.  No other
    unit changes.  When the target is left with no health the entry of the
    command table under the attacker's unit id is deleted; otherwise the
    controller is not touched. *)
Theorem performAttack_clamps_damage attacker target a g (h d : Q) s :
  nth_error (units s) attacker = Some a ->
  nth_error (units s) target = Some g ->
  Unit.health g = Num h -> Unit.damage a = Num d ->
  (0 <= h)%Q ->
  exists s' (h' : Q),
    performAttack attacker target s = Some (tt, s')
    /\ nth_error (units s') target = Some (Unit.with_health (Num h') g)
    /\ (forall i, i <> target -> nth_error (units s') i = nth_error (units s) i)
    /\ (0 <= h')%Q
    /\ ((d <= h)%Q -> (h' == h - d)%Q)
    /\ ((h <= d)%Q -> (h' == 0)%Q)
    /\ ((0 < h')%Q -> self s' = self s)
    /\ ((h' == 0)%Q ->
        self s'
        = with_activeCommands
            (JSMap.delete (Unit.id a) (activeCommands (self s))) (self s)).
Proof.
  intros Ha Hg Hh Hd H0.
  unfold performAttack, bind, deref, modify_unit, when.
  rewrite (nth_error_nth _ _ _ Ha), (nth_error_nth _ _ _ Hg), Hh, Hd.
  rewrite min_Num, sub_Num.
  set (h' := Qred (h - (if Qle_bool d h then d else h))).
  assert (Hh' : (h' == h - (if Qle_bool d h then d else h))%Q)
    by apply Qred_correct.
  assert (Hunits :
    forall rest,
      nth_error (units (mkState rest (update_nth target (Unit.with_health (Num h'))
                                        (units s)) (reads s))) target
      = Some (Unit.with_health (Num h') g)
      /\ forall i, i <> target ->
           nth_error (units (mkState rest
                               (update_nth target (Unit.with_health (Num h'))
                                  (units s)) (reads s))) i
           = nth_error (units s) i).
  { intros rest. cbn [units]. split.
    - rewrite nth_error_update_nth, Nat.eqb_refl, Hg. reflexivity.
    - intros i Hi. rewrite nth_error_update_nth.
      destruct (target =? i)%nat eqn:E; [ | reflexivity ].
      apply Nat.eqb_eq in E. congruence. }
  destruct (Qle_bool d h) eqn:Edh.
  - apply Qle_bool_iff in Edh.
    destruct (Num h' <=? num 0)%js eqn:Ez.
    + apply leb_Num in Ez. change (inject_Z 0) with 0%Q in Ez.
      eexists _, h'. split; [ reflexivity | ].
      destruct (Hunits (with_activeCommands
                          (JSMap.delete (Unit.id a) (activeCommands (self s)))
                          (self s))) as [H1 H2].
      split; [ exact H1 | ]. split; [ exact H2 | ].
      split; [ lra | ]. split; [ intros _; lra | ]. split; [ intros _; lra | ].
      split; [ intros H; lra | reflexivity ].
    + apply leb_Num_false in Ez. change (inject_Z 0) with 0%Q in Ez.
      eexists _, h'. split; [ reflexivity | ].
      destruct (Hunits (self s)) as [H1 H2].
      split; [ exact H1 | ]. split; [ exact H2 | ].
      split; [ lra | ]. split; [ intros _; lra | ]. split; [ intros H; lra | ].
      split; [ reflexivity | intros H; lra ].
  - apply not_true_iff_false in Edh. rewrite Qle_bool_iff in Edh.
    assert (Ez : (Num h' <=? num 0)%js = true).
    { apply leb_Num. change (inject_Z 0) with 0%Q. lra. }
    rewrite Ez.
    eexists _, h'. split; [ reflexivity | ].
    destruct (Hunits (with_activeCommands
                        (JSMap.delete (Unit.id a) (activeCommands (self s)))
                        (self s))) as [H1 H2].
    split; [ exact H1 | ]. split; [ exact H2 | ].
    split; [ lra | ]. split; [ intros H; lra | ]. split; [ intros _; lra | ].
    split; [ intros H; lra | reflexivity ].
Qed.

Lemma performAttack_clamps_damage_witness :
  exists s' (h' : Q),
    performAttack 0 1 Sample.staleWorld = Some (tt, s')
    /\ nth_error (units s') 1
       = Some (Unit.with_health (Num h') (Sample.soldier "u2" (Sample.at_ 4 0)))
    /\ (forall i, i <> 1%nat ->
          nth_error (units s') i = nth_error (units Sample.staleWorld) i)
    /\ (0 <= h')%Q
    /\ ((10 <= 100)%Q -> (h' == 100 - 10)%Q)
    /\ ((100 <= 10)%Q -> (h' == 0)%Q)
    /\ ((0 < h')%Q -> self s' = self Sample.staleWorld)
    /\ ((h' == 0)%Q ->
        self s'
        = with_activeCommands
            (JSMap.delete "u1" (activeCommands (self Sample.staleWorld)))
            (self Sample.staleWorld)).
Proof.
  refine (@performAttack_clamps_damage 0 1
            (Sample.soldier "u1" (Sample.at_ 0 0))
            (Sample.soldier "u2" (Sample.at_ 4 0)) 100 10 Sample.staleWorld
            eq_refl eq_refl eq_refl eq_refl _).
  discriminate.
Defined.

(** ** Threat levels *)

(** X11.  The threat level that the controller assigns to an enemy with a
    positive maximal health and a health between zero and that maximum is a
    number between 0 and 1, and it is 0 exactly when the enemy has no
    health left. *)
Theorem calculateThreatLevel_bounds enemy (h m : Q) :
  Unit.health enemy = Num h -> Unit.maxHealth enemy = Num m ->
  (0 <= h)%Q -> (h <= m)%Q -> (0 < m)%Q ->
  exists t,
    calculateThreatLevel enemy = Num t
    /\ (0 <= t)%Q /\ (t <= 1)%Q
    /\ ((t == 0)%Q <-> (h == 0)%Q).
Proof.
  intros Hh Hm H0 Hhm Hm0. unfold calculateThreatLevel. rewrite Hh, Hm.
  rewrite div_Num by lra.
  assert (Hr : (0 <= h / m)%Q /\ (h / m <= 1)%Q /\ ((h / m == 0)%Q <-> (h == 0)%Q)).
  { split; [ apply Qle_shift_div_l; lra | ].
    split; [ apply Qle_shift_div_r; lra | ].
    split; intros E.
    - assert (Hx : (h == h / m * m)%Q) by (field; lra). rewrite Hx, E. ring.
    - rewrite E. field. lra. }
  destruct Hr as (Hr0 & Hr1 & Hrz).
  assert (Hbase : forall b : Q,
             (0 < b)%Q -> (b <= 1)%Q ->
             exists t, (Num (Qred b) * Num (Qred (h / m)))%js = Num t
                       /\ (0 <= t)%Q /\ (t <= 1)%Q
                       /\ ((t == 0)%Q <-> (h == 0)%Q)).
  { intros b Hb0 Hb1. rewrite mul_Num. eexists. split; [ reflexivity | ].
    rewrite !Qred_correct.
    split; [ nra | ]. split; [ nra | ].
    rewrite <- Hrz. split; intros E; nra. }
  destruct (Unit.type enemy); unfold frac; try (apply Hbase; lra).
  rewrite num_is_Num. change (inject_Z 1) with (Qred 1). apply Hbase; lra.
Qed.

Lemma calculateThreatLevel_bounds_witness :
  exists t,
    calculateThreatLevel (Sample.soldier "e1" (Sample.at_ 1 1)) = Num t
    /\ (0 <= t)%Q /\ (t <= 1)%Q
    /\ ((t == 0)%Q <-> (100 == 0)%Q).
Proof.
  refine (@calculateThreatLevel_bounds (Sample.soldier "e1" (Sample.at_ 1 1))
            100 100 eq_refl eq_refl _ _ _).
  - discriminate.
  - discriminate.
  - reflexivity.
Defined.

(** ** Sightings *)

Section Sightings.

Variable currentTime : Z.

(** The entry that the refresh writes for an enemy. *)
Let sighting (enemy : Unit.t) : ThreatAssessment.t :=
  ThreatAssessment.mk (Unit.id enemy) (Unit.position enemy)
    (calculateThreatLevel enemy) (Unit.type enemy) currentTime false.

Let record (enemy : Unit.t) : M void :=
  modify_self (fun c =>
    with_threatMap (JSMap.set (Unit.id enemy) (sighting enemy) (threatMap c)) c).

(** After the refresh each enemy id has the entry of the last unit that
    bears it. *)
Lemma refresh_records enemyUnits :
  forall s,
    exists s',
      forEach enemyUnits record s = Some (tt, s')
      /\ (forall k, ~ In k (map Unit.id enemyUnits) ->
            JSMap.get k (threatMap (self s')) = JSMap.get k (threatMap (self s)))
      /\ (forall enemy, In enemy enemyUnits ->
            exists before e after,
              enemyUnits = before ++ e :: after
              /\ Unit.id e = Unit.id enemy
              /\ ~ In (Unit.id enemy) (map Unit.id after)
              /\ JSMap.get (Unit.id enemy) (threatMap (self s'))
                 = Some (sighting e)).
Proof.
  induction enemyUnits as [ | a enemies IH ]; intros s.
  - exists s. split; [ reflexivity | ]. split; [ reflexivity | contradiction ].
  - cbn [forEach]. unfold bind, record at 1, modify_self.
    match goal with
    | |- context [ forEach enemies record ?s1 ] =>
        destruct (IH s1) as (s' & E & Hkeep & Hrec)
    end.
    exists s'. rewrite E. split; [ reflexivity | ]. split.
    + intros k Hk. rewrite Hkeep by (intros H; apply Hk; right; exact H).
      cbn [self threatMap with_threatMap].
      apply get_set_other. intros H. apply Hk. left. exact H.
    + assert (Hlater : forall enemy, In enemy enemies ->
                exists before e after,
                  a :: enemies = before ++ e :: after
                  /\ Unit.id e = Unit.id enemy
                  /\ ~ In (Unit.id enemy) (map Unit.id after)
                  /\ JSMap.get (Unit.id enemy) (threatMap (self s'))
                     = Some (sighting e)).
      { intros enemy Hin.
        destruct (Hrec enemy Hin) as (before & e & after & -> & Hid & Hlast & Hget).
        exists (a :: before), e, after. split; [ reflexivity | ].
        split; [ exact Hid | ]. split; assumption. }
      intros enemy [<- | Hin]; [ | apply Hlater; exact Hin ].
      destruct (in_dec string_dec (Unit.id a) (map Unit.id enemies)) as [Hdup | Hnew].
      * apply in_map_iff in Hdup. destruct Hdup as (e0 & Hid0 & He0).
        destruct (Hlater e0 He0) as (before & e & after & Esplit & Hid & Hlast & Hget).
        exists before, e, after. rewrite <- Hid0.
        split; [ exact Esplit | ]. split; [ exact Hid | ]. split; assumption.
      * exists [], a, enemies. split; [ reflexivity | ]. split; [ reflexivity | ].
        split; [ exact Hnew | ].
        rewrite Hkeep by exact Hnew.
        cbn [self threatMap with_threatMap]. apply get_set_same.
Qed.

End Sightings.

(** X12.  After [updateThreatAssessment] every enemy of the snapshot has an
    entry in the threat map under its id, marked as seen at the time the
    step read and as not engaged.  The entry describes the last unit of the
    snapshot that bears this id, the unit [e] that no unit of this id comes
    after: its position, its type and its threat level. *)
Theorem updateThreatAssessment_records_enemies clock enemyUnits enemy s :
  In enemy enemyUnits ->
  exists s' threat before e after,
    updateThreatAssessment clock enemyUnits s = Some (tt, s')
    /\ JSMap.get (Unit.id enemy) (threatMap (self s')) = Some threat
    /\ In threat (getThreatMap (self s'))
    /\ ThreatAssessment.enemyUnitId threat = Unit.id enemy
    /\ ThreatAssessment.lastSeen threat = clock (reads s)
    /\ ThreatAssessment.isEngaged threat = false
    /\ enemyUnits = before ++ e :: after
    /\ Unit.id e = Unit.id enemy
    /\ ~ In (Unit.id enemy) (map Unit.id after)
    /\ ThreatAssessment.position threat = Unit.position e
    /\ ThreatAssessment.unitType threat = Unit.type e
    /\ ThreatAssessment.threatLevel threat = calculateThreatLevel e.
Proof.
  intros Hin. unfold updateThreatAssessment, bind, Date_now.
  unfold modify_self at 1.
  match goal with
  | |- context [ forEach enemyUnits _ ?s1 ] =>
      destruct (refresh_records (clock (reads s)) enemyUnits s1)
        as (s' & E & _ & Hrec)
  end.
  destruct (Hrec enemy Hin) as (before & e & after & Esplit & Hid & Hlast & Hget).
  eexists s', _, before, e, after. split; [ exact E | ].
  split; [ exact Hget | ].
  split; [ unfold getThreatMap; eapply get_In_values; exact Hget | ].
  cbn [ThreatAssessment.enemyUnitId ThreatAssessment.lastSeen
       ThreatAssessment.isEngaged ThreatAssessment.position
       ThreatAssessment.unitType ThreatAssessment.threatLevel].
  split; [ exact Hid | ]. split; [ reflexivity | ]. split; [ reflexivity | ].
  split; [ exact Esplit | ]. split; [ exact Hid | ]. split; [ exact Hlast | ].
  split; [ reflexivity | ]. split; reflexivity.
Qed.

Lemma updateThreatAssessment_records_enemies_witness :
  let first := Sample.soldier "e1" (Sample.at_ 3 3) in
  let second := Sample.soldier "e1" (Sample.at_ 5 5) in
  exists s' threat before e after,
    updateThreatAssessment (Sample.ticking 40000) [first; second]
      Sample.hauntedWorld
    = Some (tt, s')
    /\ JSMap.get "e1" (threatMap (self s')) = Some threat
    /\ In threat (getThreatMap (self s'))
    /\ ThreatAssessment.enemyUnitId threat = "e1"%string
    /\ ThreatAssessment.lastSeen threat = 40000%Z
    /\ ThreatAssessment.isEngaged threat = false
    /\ [first; second] = before ++ e :: after
    /\ Unit.id e = "e1"%string
    /\ ~ In "e1"%string (map Unit.id after)
    /\ ThreatAssessment.position threat = Unit.position e
    /\ ThreatAssessment.unitType threat = Unit.type e
    /\ ThreatAssessment.threatLevel threat = calculateThreatLevel e.
Proof.
  cbv zeta.
  refine (@updateThreatAssessment_records_enemies (Sample.ticking 40000)
            [Sample.soldier "e1" (Sample.at_ 3 3);
             Sample.soldier "e1" (Sample.at_ 5 5)]
            (Sample.soldier "e1" (Sample.at_ 3 3)) Sample.hauntedWorld _).
  left. reflexivity.
Defined.

(** ** Formations *)

Lemma nth_error_map_seq {A : Type} (f : nat -> A) (n i : nat) :
  nth_error (map f (seq 0 n)) i = if (i <? n)%nat then Some (f i) else None.
Proof.
  rewrite nth_error_map.
  destruct (i <? n)%nat eqn:E.
  - apply Nat.ltb_lt in E. rewrite nth_error_nth' with (d := 0%nat)
      by (rewrite length_seq; exact E).
    rewrite seq_nth by exact E. reflexivity.
  - apply Nat.ltb_ge in E.
    assert (H : nth_error (seq 0 n) i = None)
      by (apply nth_error_None; rewrite length_seq; exact E).
    rewrite H. reflexivity.
Qed.

Lemma eqb_Num (a b : Q) : (Num a =? Num b)%js = true <-> (a == b)%Q.
Proof.
  unfold Number.eqb; simpl. rewrite Qeq_alt.
  destruct (a ?= b)%Q; split; congruence.
Qed.

Lemma inject_nat_eq (i j : nat) :
  (inject_Z (Z.of_nat i) == inject_Z (Z.of_nat j))%Q -> i = j.
Proof. intros H. apply Nat2Z.inj. apply inject_Z_injective. exact H. Qed.

Section Slots.

Variable Math_cos Math_sin : number -> number.
Variable Math_PI : number.

Lemma attack_slots_differ i j :
  i <> j ->
  TerrainManager.samePosition
    (Pos (Number.of_nat i * num 2)%js (num 0))
    (Pos (Number.of_nat j * num 2)%js (num 0))
  = false.
Proof.
  intros Hij. unfold TerrainManager.samePosition. cbn [x y].
  apply andb_false_iff. left. apply not_true_iff_false.
  rewrite !of_nat_is_Num, num_is_Num, !mul_Num, eqb_Num, !Qred_correct.
  intros H. apply Hij. apply inject_nat_eq.
  change (inject_Z 2) with 2%Q in H. lra.
Qed.

Lemma raid_row (i : nat) :
  Number.floor (Number.of_nat i / num 2)%js = Number.of_nat (i / 2).
Proof.
  rewrite of_nat_is_Num, num_is_Num, div_Num by discriminate.
  unfold Number.floor, Number.of_nat, Number.of_Z. f_equal. f_equal.
  rewrite Qred_correct, <- Zdiv_Qdiv.
  change 2%Z with (Z.of_nat 2). rewrite <- Nat2Z.inj_div. reflexivity.
Qed.

Lemma raid_slots_differ i j :
  i <> j ->
  TerrainManager.samePosition
    (Pos (Number.of_nat (i mod 2) * frac 3 2)%js
         (Number.floor (Number.of_nat i / num 2) * frac 3 2)%js)
    (Pos (Number.of_nat (j mod 2) * frac 3 2)%js
         (Number.floor (Number.of_nat j / num 2) * frac 3 2)%js)
  = false.
Proof.
  intros Hij. unfold TerrainManager.samePosition. cbn [x y].
  rewrite !raid_row.
  destruct ((Number.of_nat (i mod 2) * frac 3 2 =? Number.of_nat (j mod 2) * frac 3 2)%js)
    eqn:Ex; [ | reflexivity ].
  cbn [andb]. apply not_true_iff_false. intros Ey.
  unfold frac in Ex, Ey.
  rewrite !of_nat_is_Num, !mul_Num, eqb_Num, !Qred_correct in Ex, Ey.
  assert (Hx : (i mod 2 = j mod 2)%nat).
  { apply inject_nat_eq. revert Ex.
    generalize (inject_Z (Z.of_nat (i mod 2))), (inject_Z (Z.of_nat (j mod 2))).
    intros a b Ex. lra. }
  assert (Hy : (i / 2 = j / 2)%nat).
  { apply inject_nat_eq. revert Ey.
    generalize (inject_Z (Z.of_nat (i / 2))), (inject_Z (Z.of_nat (j / 2))).
    intros a b Ey. lra. }
  apply Hij.
  rewrite (Nat.div_mod_eq i 2), (Nat.div_mod_eq j 2), Hx, Hy. reflexivity.
Qed.

Lemma raid_slot_finite i :
  finitePosition
    (Pos (Number.of_nat (i mod 2) * frac 3 2)%js
         (Number.floor (Number.of_nat i / num 2) * frac 3 2)%js).
Proof.
  split; [ reflexivity | ].
  change (Number.is_finite (Number.floor (Number.of_nat i / num 2) * frac 3 2)%js
          = true).
  rewrite raid_row. reflexivity.
Qed.

(** X13.  The line formation of an attack group and the block formation
    of a raid group give every unit a slot of its own: the formation has
    as many slots as there are units, all on finite coordinates, and no
    two of them coincide. *)
Theorem line_and_raid_formations_are_spread unitCount role i j p q :
  role = CombatGroup.attack \/ role = CombatGroup.raid ->
  nth_error (calculateFormation Math_cos Math_sin Math_PI unitCount role) i
  = Some p ->
  nth_error (calculateFormation Math_cos Math_sin Math_PI unitCount role) j
  = Some q ->
  i <> j ->
  TerrainManager.samePosition p q = false
  /\ finitePosition p
  /\ List.length (calculateFormation Math_cos Math_sin Math_PI unitCount role)
     = unitCount.
Proof.
  intros Hrole Hp Hq Hij. unfold calculateFormation in *.
  destruct Hrole as [-> | ->];
    rewrite nth_error_map_seq in Hp, Hq;
    destruct (i <? unitCount)%nat; try discriminate;
    destruct (j <? unitCount)%nat; try discriminate;
    injection Hp as <-; injection Hq as <-;
    rewrite length_map, length_seq.
  - split; [ apply attack_slots_differ; exact Hij | ].
    split; [ split; reflexivity | reflexivity ].
  - split; [ apply raid_slots_differ; exact Hij | ].
    split; [ apply raid_slot_finite | reflexivity ].
Qed.

End Slots.

Lemma line_and_raid_formations_are_spread_witness :
  TerrainManager.samePosition (Pos (frac 3 2) (num 0)) (Pos (num 0) (frac 3 2))
  = false
  /\ finitePosition (Pos (frac 3 2) (num 0))
  /\ List.length
       (calculateFormation Sample.cosine Sample.sine Sample.pi 3 CombatGroup.raid)
     = 3%nat.
Proof.
  apply (@line_and_raid_formations_are_spread Sample.cosine Sample.sine Sample.pi
           3 CombatGroup.raid 1 2).
  - right. reflexivity.
  - vm_compute. reflexivity.
  - vm_compute. reflexivity.
  - discriminate.
Defined.

(** ** Combat groups *)

(** X14.  [createCombatGroup] returns the id under which the new group can
    be looked up and is listed by [getCombatGroups].  The group has the
    unit ids, the role and the target given, the first unit as its leader
    (none for an empty group) and one formation slot for each unit.  Groups
    under other ids, the units, the command table and the threat map are
    left as they were. *)
Theorem createCombatGroup_registers clock Math_cos Math_sin Math_PI
    unitIds role target suffix s :
  exists groupId group s',
    createCombatGroup clock Math_cos Math_sin Math_PI unitIds role target suffix s
    = Some (groupId, s')
    /\ JSMap.get groupId (combatGroups (self s')) = Some group
    /\ In group (getCombatGroups (self s'))
    /\ CombatGroup.id group = groupId
    /\ CombatGroup.unitIds group = unitIds
    /\ CombatGroup.role group = role
    /\ CombatGroup.target group = target
    /\ CombatGroup.leader group = hd_error unitIds
    /\ List.length (CombatGroup.formation group) = List.length unitIds
    /\ (forall k, k <> groupId ->
          JSMap.get k (combatGroups (self s'))
          = JSMap.get k (combatGroups (self s)))
    /\ units s' = units s
    /\ activeCommands (self s') = activeCommands (self s)
    /\ threatMap (self s') = threatMap (self s).
Proof.
  unfold createCombatGroup, bind, Date_now, modify_self, ret.
  eexists _, _, _. split; [ reflexivity | ].
  cbn [self units combatGroups with_combatGroups activeCommands threatMap].
  split; [ apply get_set_same | ].
  split; [ unfold getCombatGroups; eapply get_In_values; apply get_set_same | ].
  cbn [CombatGroup.id CombatGroup.unitIds CombatGroup.role CombatGroup.target
       CombatGroup.leader CombatGroup.formation].
  do 5 (split; [ reflexivity | ]).
  split.
  - unfold calculateFormation. destruct role; rewrite length_map, length_seq;
      reflexivity.
  - split; [ | repeat split; reflexivity ].
    intros k Hk. apply get_set_other. congruence.
Qed.

(** ** Paths that lead nowhere *)

(** X15.  A path of one waypoint is never left.  When [findPath] returns
    a single waypoint for a unit that has no path yet and is not within 1
    of its target (the fallback of the path finder is such a path),
    [executeMoveCommand] stores that path and moves nothing.  From then on
    the stored path is reused: the command changes nothing any more,
    whatever the buildings are by then. *)
Theorem executeMoveCommand_stalls_on_single_waypoint
    unit u target buildings waypoint s :
  nth_error (units s) unit = Some u ->
  (getDistance (Unit.position u) target <? num 1)%js = false ->
  TerrainManager.findPath (terrainManager (self s)) (Unit.position u) target
    (units s) buildings
  = Some [waypoint] ->
  JSMap.get (Unit.id u) (unitPaths (self s)) = None ->
  exists s',
    executeMoveCommand unit target buildings s = Some (tt, s')
    /\ units s' = units s
    /\ activeCommands (self s') = activeCommands (self s)
    /\ JSMap.get (Unit.id u) (unitPaths (self s')) = Some [waypoint]
    /\ forall buildings',
         executeMoveCommand unit target buildings' s' = Some (tt, s').
Proof.
  intros Hu Hfar Hpath Hnone.
  unfold executeMoveCommand, bind, deref, get_self, get_units, lift_option,
    modify_self, ret.
  rewrite (nth_error_nth _ _ _ Hu), Hfar, Hnone, Hpath.
  eexists. split; [ reflexivity | ].
  cbn [self units activeCommands unitPaths with_unitPaths].
  split; [ reflexivity | ]. split; [ reflexivity | ].
  split; [ apply get_set_same | ].
  intros buildings'.
  unfold executeMoveCommand, bind, deref, get_self, get_units, lift_option,
    modify_self, ret.
  cbn [self units].
  rewrite (nth_error_nth _ _ _ Hu), Hfar.
  cbn [self units unitPaths with_unitPaths].
  rewrite get_set_same. reflexivity.
Qed.

Lemma executeMoveCommand_stalls_on_single_waypoint_witness :
  exists s',
    executeMoveCommand 0 (Sample.at_ 2 0) [] Sample.blockedWorld = Some (tt, s')
    /\ units s' = units Sample.blockedWorld
    /\ activeCommands (self s') = activeCommands (self Sample.blockedWorld)
    /\ JSMap.get "u1" (unitPaths (self s')) = Some [Sample.at_ 2 0]
    /\ forall buildings',
         executeMoveCommand 0 (Sample.at_ 2 0) buildings' s' = Some (tt, s').
Proof.
  refine (@executeMoveCommand_stalls_on_single_waypoint 0
            (Sample.soldier "u1" (Sample.at_ 0 0)) (Sample.at_ 2 0) []
            (Sample.at_ 2 0) Sample.blockedWorld eq_refl _ _ eq_refl).
  - vm_compute. reflexivity.
  - vm_compute. reflexivity.
Defined.

(** ** Keeping the groups up to date *)

Section GroupUpdates.

Variable clock : nat -> Z.

Lemma orders_ret {A : Type} (a : A) : orders_only (ret a).
Proof. intros s. exists a, s. auto. Qed.

Lemma orders_bind {A B : Type} (m : M A) (k : A -> M B) :
  orders_only m -> (forall a, orders_only (k a)) -> orders_only (bind m k).
Proof.
  intros Hm Hk s. destruct (Hm s) as (a & s1 & E1 & Hu1 & Hg1).
  destruct (Hk a s1) as (b & s2 & E2 & Hu2 & Hg2).
  exists b, s2. unfold bind. rewrite E1.
  split; [ exact E2 | split; congruence ].
Qed.

Lemma orders_forEach {A : Type} (l : list A) (body : A -> M void) :
  (forall a, orders_only (body a)) -> orders_only (forEach l body).
Proof.
  intros H. induction l as [ | a l IH ]; simpl.
  - apply orders_ret.
  - apply orders_bind; auto.
Qed.

Lemma orders_forEachIndexed {A : Type} (l : list A) (body : A -> nat -> M void) :
  (forall a i, orders_only (body a i)) ->
  forall index, orders_only (forEachIndexed index l body).
Proof.
  intros H. induction l as [ | a l IH ]; intros index; simpl.
  - apply orders_ret.
  - apply orders_bind; auto.
Qed.

Lemma orders_get_units : orders_only get_units.
Proof. intros s. do 2 eexists. repeat split. Qed.

Lemma orders_Date_now : orders_only (Date_now clock).
Proof. intros s. do 2 eexists. repeat split. Qed.

Lemma orders_issueCommand command : orders_only (issueCommand command).
Proof. intros s. do 2 eexists. repeat split. Qed.

Lemma orders_makeCommand prefix unitId type target priority issuedBy :
  orders_only (makeCommand clock prefix unitId type target priority issuedBy).
Proof.
  unfold makeCommand.
  apply orders_bind; [ apply orders_Date_now | intros t1 ].
  apply orders_bind; [ apply orders_Date_now | intros t2 ].
  apply orders_ret.
Qed.

Lemma orders_issueAttackOn prefix unitId targetId priority :
  orders_only (issueAttackOn clock prefix unitId targetId priority).
Proof.
  unfold issueAttackOn.
  apply orders_bind; [ apply orders_makeCommand | intros command ].
  apply orders_issueCommand.
Qed.

Lemma orders_when (b : bool) (m : M void) :
  orders_only m -> orders_only (when b m).
Proof. destruct b; [ auto | intros _; apply orders_ret ]. Qed.

Lemma orders_updateAttackGroup group enemyUnits :
  orders_only (updateAttackGroup clock group enemyUnits).
Proof.
  unfold updateAttackGroup.
  destruct (CombatGroup.target group); [ | apply orders_ret ].
  apply orders_bind; [ apply orders_get_units | intros us ].
  destruct enemyUnits; [ apply orders_ret | ].
  apply orders_forEach. intros unit. apply orders_issueAttackOn.
Qed.

Lemma orders_updateDefenseGroup group enemyUnits :
  orders_only (updateDefenseGroup clock group enemyUnits).
Proof.
  unfold updateDefenseGroup.
  destruct (CombatGroup.target group); [ | apply orders_ret ].
  apply orders_bind; [ apply orders_get_units | intros us ].
  apply orders_bind.
  - apply orders_forEachIndexed. intros unit index.
    destruct (nth_error (CombatGroup.formation group) index); [ | apply orders_ret ].
    apply orders_when.
    apply orders_bind; [ apply orders_makeCommand | intros; apply orders_issueCommand ].
  - intros _.
    match goal with
    | |- context [ match ?l with [] => _ | _ :: _ => _ end ] => destruct l
    end; [ apply orders_ret | ].
    apply orders_forEach. intros unit. apply orders_issueAttackOn.
Qed.

Lemma orders_updateScoutGroup group :
  orders_only (updateScoutGroup clock group).
Proof.
  unfold updateScoutGroup.
  apply orders_bind; [ apply orders_get_units | intros us ].
  apply orders_forEachIndexed. intros unit index.
  destruct (nth_error (CombatGroup.formation group) index); [ | apply orders_ret ].
  apply orders_bind; [ apply orders_makeCommand | intros; apply orders_issueCommand ].
Qed.

Lemma orders_updateRaidGroup group enemyUnits :
  orders_only (updateRaidGroup clock group enemyUnits).
Proof.
  unfold updateRaidGroup.
  apply orders_bind; [ apply orders_get_units | intros us ].
  match goal with
  | |- context [ match ?l with [] => _ | _ :: _ => _ end ] => destruct l
  end; [ apply orders_ret | ].
  apply orders_forEach. intros unit. apply orders_issueAttackOn.
Qed.

Lemma lookup_remove_other {V : Type} (k k' : string) (l : list (string * V)) :
  k <> k' -> JSMap.lookup k' (JSMap.remove k l) = JSMap.lookup k' l.
Proof.
  intros Hne. induction l as [ | [k0 v0] l IH ]; simpl; [ reflexivity | ].
  destruct (String.eqb k k0) eqn:E; simpl.
  - apply String.eqb_eq in E. subst k0.
    destruct (String.eqb k' k) eqn:E'; [ | exact IH ].
    apply String.eqb_eq in E'. congruence.
  - destruct (String.eqb k' k0); [ reflexivity | exact IH ].
Qed.

Lemma get_delete_other {V : Type} (k k' : string) (m : JSMap.t V) :
  k <> k' -> JSMap.get k' (JSMap.delete k m) = JSMap.get k' m.
Proof.
  intros Hne. unfold JSMap.get, JSMap.delete, JSMap.entries; simpl.
  rewrite !lookup_app, !lookup_remove_other by exact Hne. reflexivity.
Qed.

(** The body of the loop of [updateCombatGroups] on one entry. *)
Let visitGroup (enemyUnits : list Unit.t) (e : string * CombatGroup.t) : M void :=
  let groupId := fst e in
  us <- get_units ;;
  let group :=
    CombatGroup.with_unitIds
      (filter
         (fun unitId => existsb (fun unit => String.eqb (Unit.id unit) unitId) us)
         (CombatGroup.unitIds (snd e)))
      (snd e) in
  modify_self (fun c =>
    with_combatGroups (JSMap.set groupId group (combatGroups c)) c) ;;
  match CombatGroup.unitIds group with
  | [] =>
      modify_self (fun c =>
        with_combatGroups (JSMap.delete groupId (combatGroups c)) c)
  | _ =>
      match CombatGroup.role group with
      | CombatGroup.attack => updateAttackGroup clock group enemyUnits
      | CombatGroup.defend => updateDefenseGroup clock group enemyUnits
      | CombatGroup.scout => updateScoutGroup clock group
      | CombatGroup.raid => updateRaidGroup clock group enemyUnits
      end
  end.

Lemma filter_alive_manned us (ids : list string) group :
  filter (fun unitId => existsb (fun unit => String.eqb (Unit.id unit) unitId) us) ids
  <> [] ->
  manned us
    (CombatGroup.with_unitIds
       (filter
          (fun unitId => existsb (fun unit => String.eqb (Unit.id unit) unitId) us)
          ids)
       group).
Proof.
  intros Hne. split; [ exact Hne | ].
  cbn [CombatGroup.unitIds CombatGroup.with_unitIds].
  intros unitId Hin. apply filter_In in Hin. destruct Hin as [_ Hin].
  apply existsb_exists in Hin. destruct Hin as (unit & Hu & E).
  apply String.eqb_eq in E. eauto.
Qed.

Lemma visitGroup_spec enemyUnits e s :
  exists s',
    visitGroup enemyUnits e s = Some (tt, s')
    /\ units s' = units s
    /\ (forall k, k <> fst e ->
          JSMap.get k (combatGroups (self s'))
          = JSMap.get k (combatGroups (self s)))
    /\ (forall group,
          JSMap.get (fst e) (combatGroups (self s')) = Some group ->
          manned (units s) group).
Proof.
  unfold visitGroup. cbv zeta. unfold bind at 1, get_units at 1.
  unfold bind at 1, modify_self at 1.
  set (alive := fun unitId =>
                  existsb (fun unit => String.eqb (Unit.id unit) unitId) (units s)).
  set (group := CombatGroup.with_unitIds
                  (filter alive (CombatGroup.unitIds (snd e))) (snd e)).
  set (s1 := mkState _ (units s) (reads s)).
  assert (Hs1 : JSMap.get (fst e) (combatGroups (self s1)) = Some group)
    by (unfold s1; cbn; apply get_set_same).
  assert (Hother : forall k, k <> fst e ->
             JSMap.get k (combatGroups (self s1))
             = JSMap.get k (combatGroups (self s))).
  { intros k Hk. unfold s1. cbn. apply get_set_other. congruence. }
  destruct (CombatGroup.unitIds group) as [ | first rest ] eqn:Eids.
  - eexists. split; [ reflexivity | ]. cbn [units self combatGroups with_combatGroups].
    split; [ reflexivity | ]. split.
    + intros k Hk. rewrite get_delete_other by congruence. apply Hother. exact Hk.
    + intros g Hg. rewrite get_delete_same in Hg. discriminate.
  - assert (Hrun : orders_only
                     match CombatGroup.role group with
                     | CombatGroup.attack => updateAttackGroup clock group enemyUnits
                     | CombatGroup.defend => updateDefenseGroup clock group enemyUnits
                     | CombatGroup.scout => updateScoutGroup clock group
                     | CombatGroup.raid => updateRaidGroup clock group enemyUnits
                     end).
    { destruct (CombatGroup.role group).
      - apply orders_updateAttackGroup.
      - apply orders_updateDefenseGroup.
      - apply orders_updateScoutGroup.
      - apply orders_updateRaidGroup. }
    destruct (Hrun s1) as ([] & s' & E & Hu & Hg).
    exists s'. split; [ exact E | ].
    split; [ rewrite Hu; reflexivity | ].
    rewrite Hg. split; [ exact Hother | ].
    intros g Hget. rewrite Hs1 in Hget. injection Hget as <-.
    apply filter_alive_manned. fold alive.
    unfold group in Eids. cbn in Eids. rewrite Eids. discriminate.
Qed.

Lemma forEach_visitGroup enemyUnits entries :
  forall s,
    exists s',
      forEach entries (visitGroup enemyUnits) s = Some (tt, s')
      /\ units s' = units s
      /\ (forall k, ~ In k (map fst entries) ->
            JSMap.get k (combatGroups (self s'))
            = JSMap.get k (combatGroups (self s)))
      /\ (forall k group,
            In k (map fst entries) ->
            JSMap.get k (combatGroups (self s')) = Some group ->
            manned (units s) group).
Proof.
  induction entries as [ | e entries IH ]; intros s.
  - exists s. repeat split; auto. contradiction.
  - cbn [forEach]. unfold bind.
    destruct (visitGroup_spec enemyUnits e s) as (s1 & E1 & Hu1 & Hother1 & Hk1).
    rewrite E1.
    destruct (IH s1) as (s' & E & Hu & Hother & Hk).
    exists s'. split; [ exact E | ]. split; [ congruence | ]. split.
    + intros k Hnot. rewrite Hother by (intros H; apply Hnot; right; exact H).
      apply Hother1. intros H. apply Hnot. left. symmetry. exact H.
    + intros k group Hin Hget.
      destruct (in_dec string_dec k (map fst entries)) as [Hlater | Hnot].
      * rewrite <- Hu1. eapply Hk; eassumption.
      * destruct Hin as [<- | Hin]; [ | contradiction ].
        rewrite Hother in Hget by exact Hnot. apply Hk1. exact Hget.
Qed.

End GroupUpdates.

(** X16.  [updateCombatGroups] returns and leaves the units alone.
    Afterwards every group that can be looked up has at least one member,
    all its members are units of the array, and it is a group that was
    there before: groups are thinned out or removed, never added. *)
Theorem updateCombatGroups_drops_the_dead clock enemyUnits s :
  exists s',
    updateCombatGroups clock enemyUnits s = Some (tt, s')
    /\ units s' = units s
    /\ forall groupId group,
         JSMap.get groupId (combatGroups (self s')) = Some group ->
         CombatGroup.unitIds group <> []
         /\ (forall unitId,
               In unitId (CombatGroup.unitIds group) ->
               exists unit, In unit (units s) /\ Unit.id unit = unitId)
         /\ JSMap.get groupId (combatGroups (self s)) <> None.
Proof.
  unfold updateCombatGroups, bind at 1, get_self.
  destruct (forEach_visitGroup clock enemyUnits
              (JSMap.entries (combatGroups (self s))) s)
    as (s' & E & Hu & Hother & Hk).
  exists s'. split; [ exact E | ]. split; [ exact Hu | ].
  intros groupId group Hget.
  destruct (in_dec string_dec groupId
              (map fst (JSMap.entries (combatGroups (self s))))) as [Hin | Hnot].
  - destruct (Hk groupId group Hin Hget) as [Hne Hall].
    split; [ exact Hne | ]. split; [ exact Hall | ].
    apply in_map_iff in Hin. destruct Hin as ([k g] & <- & He).
    destruct (In_lookup _ _ _ He) as [g' Hg']. unfold JSMap.get. cbn [fst].
    congruence.
  - exfalso. rewrite Hother in Hget by exact Hnot.
    apply Hnot. apply lookup_In in Hget.
    change groupId with (fst (groupId, group)). apply in_map. exact Hget.
Qed.

(* ================================================================== *)
(** * Further properties of the strategic planner *)
(* ================================================================== *)

(** ** The threat to the base *)

Lemma getUnitThreatValue_positive unitType :
  exists v, AdvancedAI.getUnitThreatValue unitType = Num v /\ (0 < v)%Q.
Proof.
  destruct unitType; unfold AdvancedAI.getUnitThreatValue, frac;
    eexists; (split; [ reflexivity | rewrite Qred_correct; reflexivity ]).
Qed.

(** One enemy adds an amount to the threat that is not negative. *)
Lemma threat_step_nonneg commandCenter (a : Q) enemy :
  (0 <= a)%Q ->
  exists a',
    (if (getDistance (Building.position commandCenter) (Unit.position enemy)
         <? num 15)%js
     then
       (Num a
        + (num 1
           - getDistance (Building.position commandCenter) (Unit.position enemy)
             / num 15)
          * AdvancedAI.getUnitThreatValue (Unit.type enemy))%js
     else Num a)
    = Num a'
    /\ (0 <= a')%Q.
Proof.
  intros Ha.
  destruct (getDistance_cases (Building.position commandCenter) (Unit.position enemy))
    as [-> | [-> | (d & -> & Hd)]]; try (exists a; split; [ reflexivity | exact Ha ]).
  destruct (Num d <? num 15)%js eqn:E; [ | exists a; split; [ reflexivity | exact Ha ] ].
  rewrite num_is_Num in E. apply ltb_Num in E. change (inject_Z 15) with 15%Q in E.
  destruct (getUnitThreatValue_positive (Unit.type enemy)) as (v & -> & Hv).
  rewrite !num_is_Num, div_Num by discriminate.
  rewrite sub_Num, mul_Num, add_Num.
  eexists. split; [ reflexivity | ].
  rewrite !Qred_correct. change (inject_Z 1) with 1%Q.
  change (inject_Z 15) with 15%Q.
  assert (0 <= 1 - d / 15)%Q.
  { assert (d / 15 <= 1)%Q by (apply Qle_shift_div_r; lra). lra. }
  assert (0 <= (1 - d / 15) * v)%Q by (apply Qmult_le_0_compat; lra).
  lra.
Qed.

(** X17.  The threat level of the planner is normalised whatever the
    positions are: [calculateThreatLevel] returns a number between 0 and 1,
    and 0 when the player has no command centre or no enemy is in
    sight. *)
Theorem calculateThreatLevel_is_normalised myBuildings enemyUnits :
  exists t,
    AdvancedAI.calculateThreatLevel myBuildings enemyUnits = Num t
    /\ (0 <= t)%Q /\ (t <= 1)%Q
    /\ (find (fun b => match Building.type b with
                       | command_center => true
                       | _ => false
                       end) myBuildings = None ->
        (t == 0)%Q)
    /\ (enemyUnits = [] -> (t == 0)%Q).
Proof.
  unfold AdvancedAI.calculateThreatLevel.
  destruct (List.length myBuildings =? 0)%nat eqn:Elen.
  { exists 0%Q. repeat split; intros; try reflexivity; try lra; discriminate. }
  destruct (find _ myBuildings) as [commandCenter | ];
    [ | exists 0%Q; repeat split; intros; try reflexivity; try lra; discriminate ].
  assert (Hfold : forall enemies (a : Q),
             (0 <= a)%Q ->
             exists a',
               fold_left
                 (fun threatLevel enemy =>
                    if (getDistance (Building.position commandCenter)
                          (Unit.position enemy) <? num 15)%js
                    then
                      (threatLevel
                       + (num 1
                          - getDistance (Building.position commandCenter)
                              (Unit.position enemy) / num 15)
                         * AdvancedAI.getUnitThreatValue (Unit.type enemy))%js
                    else threatLevel)
                 enemies (Num a)
               = Num a'
               /\ (0 <= a')%Q /\ (enemies = [] -> (a' == a)%Q)).
  { induction enemies as [ | enemy enemies IH ]; intros a Ha; cbn [fold_left].
    - exists a. repeat split; auto; intros; reflexivity.
    - destruct (@threat_step_nonneg commandCenter a enemy Ha) as (a1 & E1 & Ha1).
      rewrite E1.
      destruct (IH a1 Ha1) as (a' & E & Ha' & _).
      exists a'. repeat split; auto; intros; discriminate. }
  destruct (Hfold enemyUnits 0%Q ltac:(lra)) as (a & E & Ha & Hnil).
  cbv zeta. change (num 0) with (Num 0). rewrite E.
  rewrite !num_is_Num, div_Num by discriminate. rewrite min_Num.
  change (inject_Z 5) with 5%Q. change (inject_Z 1) with 1%Q.
  eexists. split; [ reflexivity | ].
  assert (H5 : (Qred (a / 5) == a / 5)%Q) by apply Qred_correct.
  assert (Hq : (0 <= a / 5)%Q) by (apply Qle_shift_div_l; lra).
  destruct (Qle_bool (Qred (a / 5)) 1) eqn:Ele.
  - apply Qle_bool_iff in Ele. split; [ lra | ]. split; [ lra | ].
    split; [ discriminate | ].
    intros Hn. rewrite H5, (Hnil Hn). reflexivity.
  - split; [ lra | ]. split; [ lra | ]. split; [ discriminate | ].
    intros Hn. exfalso.
    apply not_true_iff_false in Ele. apply Ele. apply Qle_bool_iff.
    rewrite H5, (Hnil Hn). discriminate.
Qed.

(** ** Construction *)

Lemma geb_trans (a b c : number) :
  (a <=? b)%js = true -> (a >=? c)%js = true -> (b >=? c)%js = true.
Proof.
  unfold Number.geb.
  destruct a as [ | | | qa ], b as [ | | | qb ], c as [ | | | qc ];
    try (intros; reflexivity); try discriminate.
  rewrite !leb_Num. intros; lra.
Qed.

(** X18.  A building can be afforded only if it has an entry in the table
    of costs, which five of the nine building types have, and the stock
    covers the oil, the steel and the energy of that entry.  A stock that
    is at least as large in these three resources affords it as well;
    money plays no part. *)
Theorem canAffordBuilding_needs_a_price buildingType resources :
  AdvancedAI.canAffordBuilding buildingType resources = true ->
  (exists oil steel energy,
      AdvancedAI.costs buildingType = Some (oil, steel, energy)
      /\ (oil <=? Resources.oil resources)%js = true
      /\ (steel <=? Resources.steel resources)%js = true
      /\ (energy <=? Resources.energy resources)%js = true)
  /\ In buildingType
        [command_center; power_plant; barracks; vehicle_factory; defense_turret]
  /\ forall richer,
       (Resources.oil resources <=? Resources.oil richer)%js = true ->
       (Resources.steel resources <=? Resources.steel richer)%js = true ->
       (Resources.energy resources <=? Resources.energy richer)%js = true ->
       AdvancedAI.canAffordBuilding buildingType richer = true.
Proof.
  unfold AdvancedAI.canAffordBuilding.
  destruct (AdvancedAI.costs buildingType) as [[[oil steel] energy] | ] eqn:Ec;
    [ | discriminate ].
  intros H. apply andb_true_iff in H. destruct H as [H H3].
  apply andb_true_iff in H. destruct H as [H1 H2].
  split; [ exists oil, steel, energy; repeat split; assumption | ].
  split.
  - destruct buildingType; try discriminate; simpl; auto 10.
  - intros richer R1 R2 R3.
    rewrite (geb_trans _ _ _ R1 H1), (geb_trans _ _ _ R2 H2),
      (geb_trans _ _ _ R3 H3).
    reflexivity.
Qed.

Lemma pushWhen_app {A : Type} (b : bool) (items queue : list A) :
  exists added,
    AdvancedAI.pushWhen b items queue = queue ++ added
    /\ (added = [] \/ added = items).
Proof.
  destruct b; [ exists items | exists [] ]; cbn; split; auto.
  symmetry. apply app_nil_r.
Qed.

(** X19.  [updateBuildingQueue] only appends to the building queue, six
    entries at most, and changes nothing else.  What it appends are power
    plants, barracks, vehicle factories and turrets; each of them has a
    cost, and a stock of 300 oil, 250 steel and 150 energy affords it.  No
    vehicle factory is queued for five units or fewer. *)
Theorem updateBuildingQueue_appends myBuildings totalUnits s :
  exists added,
    AdvancedAI.updateBuildingQueue myBuildings totalUnits s
    = AdvancedAI.with_buildingQueue
        (AdvancedAI.buildingQueue (AdvancedAI.economicPlan s) ++ added) s
    /\ (List.length added <= 6)%nat
    /\ (forall buildingType,
          In buildingType added ->
          In buildingType [power_plant; barracks; vehicle_factory; defense_turret]
          /\ forall resources,
               (num 300 <=? Resources.oil resources)%js = true ->
               (num 250 <=? Resources.steel resources)%js = true ->
               (num 150 <=? Resources.energy resources)%js = true ->
               AdvancedAI.canAffordBuilding buildingType resources = true)
    /\ ((totalUnits <= 5)%nat -> ~ In vehicle_factory added).
Proof.
  unfold AdvancedAI.updateBuildingQueue. cbv zeta.
  set (cp := AdvancedAI.countBuildings
               (fun t => match t with power_plant => true | _ => false end)
               myBuildings).
  set (cb := AdvancedAI.countBuildings
               (fun t => match t with barracks => true | _ => false end)
               myBuildings).
  set (cv := AdvancedAI.countBuildings
               (fun t => match t with vehicle_factory => true | _ => false end)
               myBuildings).
  set (cd := AdvancedAI.countBuildings
               (fun t => match t with defense_turret => true | _ => false end)
               myBuildings).
  set (q := AdvancedAI.buildingQueue (AdvancedAI.economicPlan s)).
  assert (Hprice : forall buildingType,
             In buildingType [power_plant; barracks; vehicle_factory; defense_turret] ->
             forall resources,
               (num 300 <=? Resources.oil resources)%js = true ->
               (num 250 <=? Resources.steel resources)%js = true ->
               (num 150 <=? Resources.energy resources)%js = true ->
               AdvancedAI.canAffordBuilding buildingType resources = true).
  { intros t Ht r R1 R2 R3. unfold AdvancedAI.canAffordBuilding.
    assert (G : forall (a : number) (c lo : Z),
               (Num (inject_Z c) <=? a)%js = true -> (lo <=? c)%Z = true ->
               (a >=? num lo)%js = true).
    { intros a c lo H Hlo. apply Z.leb_le in Hlo. unfold Number.geb.
      destruct a as [ | | | qa ]; try discriminate; try reflexivity.
      rewrite num_is_Num. apply leb_Num in H. apply leb_Num.
      rewrite Zle_Qle in Hlo. lra. }
    rewrite !num_is_Num in R1, R2, R3.
    destruct Ht as [<- | [<- | [<- | [<- | []]]]]; cbn [AdvancedAI.costs];
      erewrite (G (Resources.oil r) 300%Z); try eassumption; try reflexivity;
      erewrite (G (Resources.steel r) 250%Z); try eassumption; try reflexivity;
      erewrite (G (Resources.energy r) 150%Z); try eassumption; reflexivity. }
  destruct (cp <? 2)%nat, (cb <? 2)%nat, (cv <? 1)%nat, (cd <? 3)%nat,
    (5 <? totalUnits)%nat eqn:E5, (10 <? totalUnits)%nat eqn:E10,
    (cb <? 3)%nat, (cv <? 2)%nat;
    cbn [AdvancedAI.pushWhen andb];
    rewrite <- ?app_assoc; cbn [app];
    try (apply Nat.ltb_ge in E5; apply Nat.ltb_lt in E10; lia);
    (eexists; split; [ try reflexivity; rewrite app_nil_r; reflexivity | ];
     split; [ cbn; lia | ];
     split;
     [ intros t Ht;
       assert (Hin : In t [power_plant; barracks; vehicle_factory; defense_turret])
         by (cbn in Ht; cbn; intuition auto);
       split; [ exact Hin | apply Hprice; exact Hin ]
     | intros H5; try (apply Nat.ltb_lt in E5; lia);
       cbn; intuition discriminate ]).
Qed.

Lemma canAffordBuilding_needs_a_price_witness :
  let resources := Resources.mk (num 200) (num 150) (num 100) (num 0) in
  (exists oil steel energy,
      AdvancedAI.costs barracks = Some (oil, steel, energy)
      /\ (oil <=? Resources.oil resources)%js = true
      /\ (steel <=? Resources.steel resources)%js = true
      /\ (energy <=? Resources.energy resources)%js = true)
  /\ In barracks
        [command_center; power_plant; barracks; vehicle_factory; defense_turret]
  /\ forall richer,
       (Resources.oil resources <=? Resources.oil richer)%js = true ->
       (Resources.steel resources <=? Resources.steel richer)%js = true ->
       (Resources.energy resources <=? Resources.energy richer)%js = true ->
       AdvancedAI.canAffordBuilding barracks richer = true.
Proof.
  exact (@canAffordBuilding_needs_a_price barracks
           (Resources.mk (num 200) (num 150) (num 100) (num 0)) eq_refl).
Defined.

(** ** Production *)

(** X20.  [updateUnitProductionQueue] only appends to the production
    queue: between three and seven units, never an engineer, the last two
    being an infantry and a tank; nothing else changes.  So the queue
    outgrows its consumer: replenished after its head was taken off, it is
    at least two entries longer than it was before. *)
Theorem updateUnitProductionQueue_grows currentMilitaryCount enemyCount s :
  exists added,
    AdvancedAI.updateUnitProductionQueue currentMilitaryCount enemyCount s
    = AdvancedAI.with_unitProductionQueue
        (AdvancedAI.unitProductionQueue (AdvancedAI.militaryPlan s) ++ added) s
    /\ (3 <= List.length added <= 7)%nat
    /\ (exists before, added = before ++ [infantry; tank])
    /\ ~ In engineer added
    /\ (List.length
          (AdvancedAI.unitProductionQueue
             (AdvancedAI.militaryPlan
                (AdvancedAI.updateUnitProductionQueue currentMilitaryCount
                   enemyCount
                   (AdvancedAI.with_unitProductionQueue
                      (tl (AdvancedAI.unitProductionQueue
                             (AdvancedAI.militaryPlan s))) s))))
        >= List.length
             (AdvancedAI.unitProductionQueue (AdvancedAI.militaryPlan s)) + 2)%nat.
Proof.
  unfold AdvancedAI.updateUnitProductionQueue. cbv zeta.
  cbn [AdvancedAI.unitProductionQueue AdvancedAI.militaryPlan
       AdvancedAI.with_unitProductionQueue].
  set (q := AdvancedAI.unitProductionQueue (AdvancedAI.militaryPlan s)).
  assert (Htl : (List.length q <= S (List.length (tl q)))%nat)
    by (destruct q; cbn; lia).
  destruct (currentMilitaryCount <? 3)%nat eqn:E3,
    (3 <=? currentMilitaryCount)%nat eqn:E3', (5 <? enemyCount)%nat,
    (8 <? currentMilitaryCount)%nat eqn:E8;
    try (apply Nat.ltb_lt in E3; apply Nat.leb_le in E3'; lia);
    try (apply Nat.ltb_ge in E3; apply Nat.leb_gt in E3'; lia);
    try (apply Nat.ltb_lt in E3; apply Nat.ltb_lt in E8; lia);
    cbn [AdvancedAI.pushWhen];
    rewrite <- ?app_assoc; cbn [app];
    (eexists; split; [ reflexivity | ];
     split; [ cbn; lia | ];
     split;
     [ match goal with
       | |- exists before, ?l = _ =>
           exists (removelast (removelast l)); reflexivity
       end
     | split;
       [ cbn; intuition discriminate
       | rewrite !length_app; cbn [List.length]; lia ] ]).
Qed.

(** ** Targets *)

Lemma getDistance_finite p q :
  finitePosition p -> finitePosition q -> exists d, getDistance p q = Num d.
Proof.
  destruct p as [[ | | | px] [ | | | py]], q as [[ | | | qx] [ | | | qy]];
    intros [H1 H2] [H3 H4]; try discriminate.
  rewrite getDistance_Num. eauto.
Qed.

(** The scan for the closest of a list: the result is in the list and none
    is closer to [here], when all distances are numbers. *)
Lemma closest_scan {A : Type} (position_of : A -> Position) (here : Position)
    (rest : list A) :
  forall first,
    (forall v, In v (first :: rest) ->
       exists d, getDistance here (position_of v) = Num d) ->
    let closest :=
      fold_left
        (fun closest v =>
           if (getDistance here (position_of v)
               <? getDistance here (position_of closest))%js
           then v else closest)
        rest first in
    In closest (first :: rest)
    /\ forall v, In v (first :: rest) ->
         (getDistance here (position_of closest)
          <=? getDistance here (position_of v))%js = true.
Proof.
  induction rest as [ | a rest IH ]; intros first Hnum; cbv zeta; cbn [fold_left].
  - split; [ left; reflexivity | ].
    intros v [<- | []]. destruct (Hnum first (or_introl eq_refl)) as [d ->].
    apply leb_Num. lra.
  - destruct (Hnum first (or_introl eq_refl)) as [df Hdf].
    destruct (Hnum a (or_intror (or_introl eq_refl))) as [da Hda].
    rewrite Hdf, Hda.
    destruct (Num da <? Num df)%js eqn:E.
    + apply ltb_Num in E.
      destruct (IH a) as [Hin Hmin].
      { intros v Hv. apply Hnum. right. exact Hv. }
      cbv zeta in Hin, Hmin.
      set (c := fold_left _ rest a) in *.
      split; [ right; exact Hin | ].
      intros v [<- | Hv]; [ | apply Hmin; exact Hv ].
      specialize (Hmin a (or_introl eq_refl)). rewrite Hda in Hmin.
      rewrite Hdf.
      destruct (Hnum c (or_intror Hin)) as [dc Hdc]. rewrite Hdc in *.
      apply leb_Num in Hmin. apply leb_Num. lra.
    + apply not_true_iff_false in E. rewrite ltb_Num in E.
      destruct (IH first) as [Hin Hmin].
      { intros v [<- | Hv]; apply Hnum; [ left; reflexivity | right; right; exact Hv ]. }
      cbv zeta in Hin, Hmin.
      set (c := fold_left _ rest first) in *.
      split; [ destruct Hin as [Hin | Hin]; [ left; exact Hin | right; right; exact Hin ] | ].
      intros v [<- | [<- | Hv]].
      * apply Hmin. left. reflexivity.
      * specialize (Hmin first (or_introl eq_refl)). rewrite Hdf in Hmin.
        rewrite Hda.
        assert (Hc : In c (first :: a :: rest))
          by (destruct Hin as [Hin | Hin]; [ left; exact Hin | right; right; exact Hin ]).
        destruct (Hnum c Hc) as [dc Hdc]. rewrite Hdc in *.
        apply leb_Num in Hmin. apply leb_Num. lra.
      * apply Hmin. right. exact Hv.
Qed.

(** X21.  On finite positions [findClosestUnit] and [findClosestBuilding]
    return nothing exactly for an empty list, and otherwise an element of
    the list from which no element of the list is closer to [position]. *)
Theorem findClosest_is_closest position units buildings :
  finitePosition position ->
  Forall (fun unit => finitePosition (Unit.position unit)) units ->
  Forall (fun building => finitePosition (Building.position building)) buildings ->
  match AdvancedAI.findClosestUnit position units with
  | None => units = []
  | Some closest =>
      In closest units
      /\ forall unit, In unit units ->
           (getDistance position (Unit.position closest)
            <=? getDistance position (Unit.position unit))%js = true
  end
  /\ match AdvancedAI.findClosestBuilding position buildings with
     | None => buildings = []
     | Some closest =>
         In closest buildings
         /\ forall building, In building buildings ->
              (getDistance position (Building.position closest)
               <=? getDistance position (Building.position building))%js = true
     end.
Proof.
  intros Hp Hunits Hbuildings. split.
  - unfold AdvancedAI.findClosestUnit.
    destruct units as [ | first rest ]; [ reflexivity | ].
    apply (@closest_scan Unit.t Unit.position position rest first).
    intros v Hv. apply getDistance_finite; [ exact Hp | ].
    rewrite Forall_forall in Hunits. apply Hunits. exact Hv.
  - unfold AdvancedAI.findClosestBuilding.
    destruct buildings as [ | first rest ]; [ reflexivity | ].
    apply (@closest_scan Building.t Building.position position rest first).
    intros v Hv. apply getDistance_finite; [ exact Hp | ].
    rewrite Forall_forall in Hbuildings. apply Hbuildings. exact Hv.
Qed.

Lemma findClosest_is_closest_witness :
  let here := Sample.at_ 0 0 in
  let units := [Sample.soldier "u1" (Sample.at_ 4 0); Sample.soldier "u2" (Sample.at_ 1 1)] in
  match AdvancedAI.findClosestUnit here units with
  | None => units = []
  | Some closest =>
      In closest units
      /\ forall unit, In unit units ->
           (getDistance here (Unit.position closest)
            <=? getDistance here (Unit.position unit))%js = true
  end
  /\ match AdvancedAI.findClosestBuilding here [] with
     | None => @nil Building.t = []
     | Some closest =>
         In closest []
         /\ forall building, In building [] ->
              (getDistance here (Building.position closest)
               <=? getDistance here (Building.position building))%js = true
     end.
Proof.
  cbv zeta.
  apply (@findClosest_is_closest (Sample.at_ 0 0)
           [Sample.soldier "u1" (Sample.at_ 4 0); Sample.soldier "u2" (Sample.at_ 1 1)]
           []).
  - split; reflexivity.
  - repeat constructor.
  - constructor.
Defined.

(** The sum that [reduce] builds over coordinates between [lo] and [hi]. *)
Lemma sum_between (coordinate : Unit.t -> number) (lo hi : Q) (l : list Unit.t) :
  Forall (fun u => exists q, coordinate u = Num q /\ (lo <= q)%Q /\ (q <= hi)%Q) l ->
  forall a : Q,
    exists s,
      fold_left (fun sum unit => sum + coordinate unit)%js l (Num a) = Num s
      /\ (a + inject_Z (Z.of_nat (List.length l)) * lo <= s)%Q
      /\ (s <= a + inject_Z (Z.of_nat (List.length l)) * hi)%Q.
Proof.
  induction 1 as [ | u l (q & Hq & Hlo & Hhi) _ IH ]; intros a.
  - exists a. cbn [fold_left List.length].
    change (inject_Z (Z.of_nat 0)) with 0%Q.
    split; [ reflexivity | ]. split; lra.
  - cbn [fold_left]. rewrite Hq, add_Num.
    destruct (IH (Qred (a + q))) as (s & E & H1 & H2).
    exists s. split; [ exact E | ].
    rewrite Qred_correct in H1, H2.
    cbn [List.length]. rewrite Nat2Z.inj_succ, <- Z.add_1_r, inject_Z_plus.
    change (inject_Z 1) with 1%Q.
    split; lra.
Qed.

Lemma round_between (avg : Q) (lo hi : Z) :
  (inject_Z lo <= avg)%Q -> (avg <= inject_Z hi)%Q ->
  (lo <= Qfloor (avg + (1 # 2)) <= hi)%Z.
Proof.
  intros Hlo Hhi. split.
  - rewrite <- (Qfloor_Z lo). apply Qfloor_resp_le. lra.
  - destruct (Z_le_gt_dec (Qfloor (avg + (1 # 2))) hi) as [H | H]; [ exact H | ].
    exfalso. assert (H' : (hi + 1 <= Qfloor (avg + (1 # 2)))%Z) by lia.
    rewrite Zle_Qle in H'. rewrite inject_Z_plus in H'.
    change (inject_Z 1) with 1%Q in H'.
    pose proof (Qfloor_le (avg + (1 # 2))). lra.
Qed.

Lemma average_between (coordinate : Unit.t -> number) (lo hi : Z)
    (first : Unit.t) (rest : list Unit.t) :
  Forall (fun u => exists q, coordinate u = Num q
                             /\ (inject_Z lo <= q)%Q /\ (q <= inject_Z hi)%Q)
         (first :: rest) ->
  exists c : Z,
    Number.round
      (fold_left (fun sum unit => sum + coordinate unit)%js (first :: rest) (num 0)
       / Number.of_nat (List.length (first :: rest)))%js
    = num c
    /\ (lo <= c <= hi)%Z.
Proof.
  intros Hall.
  destruct (@sum_between coordinate (inject_Z lo) (inject_Z hi) (first :: rest)
              Hall 0) as (s & E & H1 & H2).
  change (num 0) with (Num 0). rewrite E, of_nat_is_Num.
  set (n := inject_Z (Z.of_nat (List.length (first :: rest)))) in *.
  assert (Hn : (0 < n)%Q).
  { unfold n. change 0%Q with (inject_Z 0). rewrite <- Zlt_Qlt. cbn. lia. }
  rewrite div_Num by lra.
  unfold Number.round. eexists. split; [ reflexivity | ].
  assert (Hq : (Qred (s / n) == s / n)%Q) by apply Qred_correct.
  apply round_between.
  - rewrite Hq. apply Qle_shift_div_l; [ exact Hn | ]. lra.
  - rewrite Hq. apply Qle_shift_div_r; [ exact Hn | ]. lra.
Qed.

(** X22.  The centre of a force that is not empty lies on whole
    coordinates inside every box of whole bounds that holds all its
    units. *)
Theorem findEnemyCenter_within_the_enemy enemyUnits (west east north south : Z) :
  enemyUnits <> [] ->
  Forall (fun enemy =>
            exists px py,
              Unit.position enemy = Pos (Num px) (Num py)
              /\ (inject_Z west <= px)%Q /\ (px <= inject_Z east)%Q
              /\ (inject_Z north <= py)%Q /\ (py <= inject_Z south)%Q)
         enemyUnits ->
  exists cx cy : Z,
    AdvancedAI.findEnemyCenter enemyUnits = Pos (num cx) (num cy)
    /\ (west <= cx <= east)%Z /\ (north <= cy <= south)%Z.
Proof.
  intros Hne Hall. unfold AdvancedAI.findEnemyCenter.
  destruct enemyUnits as [ | first rest ]; [ congruence | ].
  cbn [List.length Nat.eqb]. cbv zeta.
  destruct (@average_between (fun u => x (Unit.position u)) west east first rest)
    as (cx & Ex & Hx).
  { eapply Forall_impl; [ | exact Hall ]. cbv beta.
    intros u (px & py & -> & H1 & H2 & _). exists px. auto. }
  destruct (@average_between (fun u => y (Unit.position u)) north south first rest)
    as (cy & Ey & Hy).
  { eapply Forall_impl; [ | exact Hall ]. cbv beta.
    intros u (px & py & -> & _ & _ & H3 & H4). exists py. auto. }
  exists cx, cy. cbn [List.length] in Ex, Ey. rewrite Ex, Ey.
  split; [ reflexivity | ]. split; assumption.
Qed.

Lemma findEnemyCenter_within_the_enemy_witness :
  exists cx cy : Z,
    AdvancedAI.findEnemyCenter
      [Sample.soldier "e1" (Sample.at_ 2 2); Sample.soldier "e2" (Sample.at_ 5 3)]
    = Pos (num cx) (num cy)
    /\ (2 <= cx <= 5)%Z /\ (2 <= cy <= 3)%Z.
Proof.
  apply findEnemyCenter_within_the_enemy.
  - discriminate.
  - constructor; [ | constructor; [ | constructor ] ].
    + exists 2%Q, 2%Q. split; [ reflexivity | ].
      repeat split; discriminate.
    + exists 5%Q, 3%Q. split; [ reflexivity | ].
      repeat split; discriminate.
Defined.

(** X23.  [findBestAttackTarget] returns the middle of the map, (25, 25),
    when there is no enemy, and otherwise the position of an enemy unit,
    which is a tank or a missile launcher whenever the enemy has one. *)
Theorem findBestAttackTarget_prefers_heavy_units enemyUnits :
  (enemyUnits = []
   /\ AdvancedAI.findBestAttackTarget enemyUnits = Pos (num 25) (num 25))
  \/ exists enemy,
       In enemy enemyUnits
       /\ AdvancedAI.findBestAttackTarget enemyUnits = Unit.position enemy
       /\ ((exists heavy,
              In heavy enemyUnits
              /\ (Unit.type heavy = tank \/ Unit.type heavy = missile_launcher)) ->
           Unit.type enemy = tank \/ Unit.type enemy = missile_launcher).
Proof.
  unfold AdvancedAI.findBestAttackTarget. cbv zeta.
  set (heavy := fun unit : Unit.t =>
                  match Unit.type unit with
                  | missile_launcher | tank => true
                  | _ => false
                  end).
  destruct (filter heavy enemyUnits) as [ | first others ] eqn:Ef.
  - destruct enemyUnits as [ | first rest ]; [ left; split; reflexivity | ].
    right. exists first. split; [ left; reflexivity | ]. split; [ reflexivity | ].
    intros (h & Hin & Hh). exfalso.
    assert (Hf : In h (filter heavy (first :: rest))).
    { apply filter_In. split; [ exact Hin | ].
      unfold heavy. destruct Hh as [-> | ->]; reflexivity. }
    rewrite Ef in Hf. contradiction.
  - right. exists first.
    assert (Hf : In first (filter heavy enemyUnits)) by (rewrite Ef; left; reflexivity).
    apply filter_In in Hf. destruct Hf as [Hin Hh].
    split; [ exact Hin | ]. split; [ reflexivity | ].
    intros _. unfold heavy in Hh.
    destruct (Unit.type first); try discriminate; auto.
Qed.

(* ================================================================== *)
(** * Further properties of the unit controller: commands and steps *)
(* ================================================================== *)

(** ** Commands of units that are gone *)

Lemma findIndex_from_spec wanted units :
  forall i0 i,
    findIndex_from i0 wanted units = Some i ->
    exists u, (i0 <= i)%nat /\ nth_error units (i - i0) = Some u /\ Unit.id u = wanted.
Proof.
  induction units as [ | u units IH ]; intros i0 i; simpl; [ discriminate | ].
  destruct (String.eqb (Unit.id u) wanted) eqn:E.
  - intros [= <-]. exists u. rewrite Nat.sub_diag. apply String.eqb_eq in E.
    repeat split; auto.
  - intros H. destruct (IH _ _ H) as (u' & Hle & Hnth & Hid).
    exists u'. split; [ lia | ]. split; [ | exact Hid ].
    replace (i - i0)%nat with (S (i - S i0)) by lia. exact Hnth.
Qed.

Lemma findUnit_spec wanted units i :
  findUnit wanted units = Some i ->
  exists u, nth_error units i = Some u /\ Unit.id u = wanted.
Proof.
  intros H. destruct (findIndex_from_spec _ _ _ H) as (u & _ & Hnth & Hid).
  rewrite Nat.sub_0_r in Hnth. eauto.
Qed.

Lemma map_update_nth {A B : Type} (g : A -> B) (f : A -> A) (l : list A) :
  (forall a, g (f a) = g a) ->
  forall i, map g (update_nth i f l) = map g l.
Proof.
  intros H. induction l as [ | a l IH ]; intros [ | i ]; simpl; try reflexivity.
  - rewrite H. reflexivity.
  - rewrite IH. reflexivity.
Qed.

Section Sends.

Variable clock : nat -> Z.
Variable ids : list string.

Lemma sends_ret {A : Type} (a : A) (Q : A -> Prop) : Q a -> sends ids Q (ret a).
Proof.
  intros Ha s a' s' [= <- <-] Hids. split; [ exact Ha | ].
  split; [ exact Hids | ]. exists 0%nat. constructor.
Qed.

Lemma sends_bind {A B : Type} (Q : A -> Prop) (Q' : B -> Prop)
    (m : M A) (k : A -> M B) :
  sends ids Q m -> (forall a, Q a -> sends ids Q' (k a)) ->
  sends ids Q' (bind m k).
Proof.
  intros Hm Hk s b s' E Hids. unfold bind in E.
  destruct (m s) as [[a s1] | ] eqn:E1; [ | discriminate ].
  destruct (Hm s a s1 E1 Hids) as (Ha & Hids1 & w1 & Hops1).
  destruct (Hk a Ha s1 b s' E Hids1) as (Hb & Hids' & w2 & Hops2).
  split; [ exact Hb | ]. split; [ exact Hids' | ].
  exists (w1 + w2)%nat. eapply table_ops_trans; eassumption.
Qed.

Lemma sends_weaken {A : Type} (Q Q' : A -> Prop) (m : M A) :
  (forall a, Q a -> Q' a) -> sends ids Q m -> sends ids Q' m.
Proof.
  intros HQ Hm s a s' E Hids. destruct (Hm s a s' E Hids) as (Ha & H).
  split; [ apply HQ; exact Ha | exact H ].
Qed.

(** A step that leaves the command table and the ids of the units. *)
Lemma sends_quiet {A : Type} (Q : A -> Prop) (m : M A) :
  (forall s a s',
      m s = Some (a, s') ->
      Q a /\ map Unit.id (units s') = map Unit.id (units s)
      /\ activeCommands (self s') = activeCommands (self s)) ->
  sends ids (fun a => Q a) m.
Proof.
  intros H s a s' E Hids. destruct (H s a s' E) as (Ha & Hu & Hc).
  split; [ exact Ha | ]. split; [ congruence | ].
  exists 0%nat. rewrite Hc. constructor.
Qed.

Lemma sends_deref i :
  sends ids (fun u => (i < List.length ids)%nat -> In (Unit.id u) ids) (deref i).
Proof.
  intros s a s' [= <- <-] Hids. split; [ | split; [ exact Hids | ] ].
  - intros Hi. rewrite <- Hids. apply in_map. apply nth_In.
    rewrite <- Hids, length_map in Hi. exact Hi.
  - exists 0%nat. constructor.
Qed.

Lemma sends_get_self : sends ids (fun _ => True) get_self.
Proof. apply sends_quiet. intros s a s' [= <- <-]. auto. Qed.

Lemma sends_get_units : sends ids (fun _ => True) get_units.
Proof. apply sends_quiet. intros s a s' [= <- <-]. auto. Qed.

Lemma sends_Date_now : sends ids (fun _ => True) (Date_now clock).
Proof. apply sends_quiet. intros s a s' [= <- <-]. auto. Qed.

Lemma sends_lift_option {A : Type} (o : option A) :
  sends ids (fun _ => True) (lift_option o).
Proof.
  apply sends_quiet. intros s a s' E. unfold lift_option in E.
  destruct o; [ | discriminate ]. injection E as <- <-. auto.
Qed.

Lemma sends_modify_unit i f :
  (forall u, Unit.id (f u) = Unit.id u) ->
  sends ids (fun _ => True) (modify_unit i f).
Proof.
  intros Hf. apply sends_quiet. intros s a s' [= <- <-]. cbn [units self].
  split; [ exact I | ]. split; [ apply map_update_nth; exact Hf | reflexivity ].
Qed.

Lemma sends_modify_other f :
  (forall c, activeCommands (f c) = activeCommands c) ->
  sends ids (fun _ => True) (modify_self f).
Proof.
  intros Hf. apply sends_quiet. intros s a s' [= <- <-]. cbn [units self].
  auto.
Qed.

Lemma sends_deleteCommand k : sends ids (fun _ => True) (deleteCommand k).
Proof.
  intros s a s' [= <- <-] Hids. split; [ exact I | ]. split; [ exact Hids | ].
  exists 0%nat. cbn [self activeCommands with_activeCommands].
  apply ops_delete. constructor.
Qed.

Lemma sends_issueCommand command :
  addressed ids command -> sends ids (fun _ => True) (issueCommand command).
Proof.
  intros Hc s a s' [= <- <-] Hids. split; [ exact I | ]. split; [ exact Hids | ].
  exists (0 + commandWeight command)%nat.
  cbn [self activeCommands with_activeCommands].
  apply ops_set; [ exact Hc | constructor ].
Qed.

Lemma sends_when (b : bool) (m : M void) :
  sends ids (fun _ => True) m -> sends ids (fun _ => True) (when b m).
Proof. destruct b; [ auto | intros _; apply sends_ret; exact I ]. Qed.

Lemma sends_makeCommand prefix unitId type target priority issuedBy :
  sends ids (fun command => UnitCommand.unitId command = unitId)
    (makeCommand clock prefix unitId type target priority issuedBy).
Proof.
  unfold makeCommand.
  eapply sends_bind; [ apply sends_Date_now | intros t1 _ ].
  eapply sends_bind; [ apply sends_Date_now | intros t2 _ ].
  apply sends_ret. reflexivity.
Qed.

Lemma sends_order prefix unitId type target priority issuedBy :
  In unitId ids ->
  sends ids (fun _ => True)
    (command <- makeCommand clock prefix unitId type target priority issuedBy ;;
     issueCommand command).
Proof.
  intros Hin. eapply sends_bind; [ apply sends_makeCommand | ].
  intros command Hc. apply sends_issueCommand. unfold addressed. congruence.
Qed.

Ltac quiet :=
  first
    [ apply sends_get_self
    | apply sends_get_units
    | apply sends_deleteCommand
    | apply sends_ret; exact I
    | apply sends_lift_option
    | apply sends_modify_unit; intros; reflexivity
    | apply sends_modify_other; intros; reflexivity ].

Ltac step := eapply sends_bind; [ quiet | intros ? _ ].

Lemma sends_executeMoveCommand unit target buildings :
  sends ids (fun _ => True) (executeMoveCommand unit target buildings).
Proof.
  unfold executeMoveCommand.
  eapply sends_bind; [ apply sends_deref | intros u _ ].
  destruct (getDistance (Unit.position u) target <? num 1)%js; [ quiet | ].
  step. step.
  apply sends_bind with (Q := fun _ : list Position => True).
  - destruct (JSMap.get (Unit.id u) (unitPaths a)) as [ [ | p r ] | ];
      try quiet; (step; step; quiet).
  - intros path _.
    destruct path as [ | p0 [ | nextPoint rest ] ]; try quiet.
    match goal with
    | |- context [ if ?b then _ else _ ] => destruct b
    end; [ | quiet ].
    step. apply sends_when. quiet.
Qed.

Lemma sends_performAttack attacker target :
  sends ids (fun _ => True) (performAttack attacker target).
Proof.
  unfold performAttack.
  eapply sends_bind; [ apply sends_deref | intros a _ ].
  eapply sends_bind; [ apply sends_deref | intros g _ ].
  step. apply sends_when. quiet.
Qed.

Lemma sends_executeAttackCommand unit targetId :
  (unit < List.length ids)%nat ->
  sends ids (fun _ => True) (executeAttackCommand clock unit targetId).
Proof.
  intros Hunit. unfold executeAttackCommand.
  eapply sends_bind; [ apply sends_deref | intros u Hu ]. step.
  match goal with
  | |- context [ match ?o with Some _ => _ | None => _ end ] => destruct o
  end; [ | quiet ].
  eapply sends_bind; [ apply sends_deref | intros g _ ].
  match goal with
  | |- context [ if ?b then _ else _ ] => destruct b
  end; [ apply sends_performAttack | ].
  apply sends_order. apply Hu. exact Hunit.
Qed.

Lemma sends_executeGatherCommand unit zoneId :
  (unit < List.length ids)%nat ->
  sends ids (fun _ => True) (executeGatherCommand clock unit zoneId).
Proof.
  intros Hunit. unfold executeGatherCommand.
  eapply sends_bind; [ apply sends_deref | intros u Hu ]. step.
  match goal with
  | |- context [ match ?o with Some _ => _ | None => _ end ] => destruct o
  end; destruct zoneId; try quiet.
  destruct (ResourceZone.isExhausted _); [ quiet | ].
  match goal with
  | |- context [ if ?b then _ else _ ] => destruct b
  end; [ apply sends_when; quiet | ].
  apply sends_order. apply Hu. exact Hunit.
Qed.

Lemma sends_executeGuardCommand unit targetId :
  (unit < List.length ids)%nat ->
  sends ids (fun _ => True) (executeGuardCommand clock unit targetId).
Proof.
  intros Hunit. unfold executeGuardCommand.
  eapply sends_bind; [ apply sends_deref | intros u Hu ]. step.
  match goal with
  | |- context [ match ?o with Some _ => _ | None => _ end ] => destruct o
  end; [ | quiet ].
  eapply sends_bind; [ apply sends_deref | intros g _ ].
  eapply sends_bind.
  { apply sends_when. apply sends_order. apply Hu. exact Hunit. }
  intros _ _. step.
  match goal with
  | |- context [ match ?l with [] => _ | _ :: _ => _ end ] => destruct l
  end; [ quiet | ].
  apply sends_order. apply Hu. exact Hunit.
Qed.

Lemma sends_executeCommand unit command buildings :
  (unit < List.length ids)%nat ->
  sends ids (fun _ => True) (executeCommand clock unit command buildings).
Proof.
  intros Hunit. unfold executeCommand.
  destruct (UnitCommand.type command).
  - apply sends_executeMoveCommand.
  - apply sends_executeAttackCommand. exact Hunit.
  - apply sends_executeGatherCommand. exact Hunit.
  - unfold executePatrolCommand.
    eapply sends_bind; [ apply sends_deref | intros u _ ].
    apply sends_executeMoveCommand.
  - apply sends_executeGuardCommand. exact Hunit.
  - quiet.
Qed.

Lemma kept_more good (rm rm' : list string) (m : JSMap.t UnitCommand.t) :
  (forall k, In k rm -> In k rm') -> kept good rm m -> kept good rm' m.
Proof.
  intros Hsub H k c Hin. destruct (H k c Hin) as [Hg | Hr]; auto.
Qed.

(** The loop keeps the ids of the units, and what it has yielded and not
    listed for removal is for one of them. *)
Lemma processLoop_addressed t buildings :
  forall fuel s commandsToRemove commandsToRemove' s',
    processLoop clock fuel t buildings commandsToRemove s
    = Some (commandsToRemove', s') ->
    map Unit.id (units s) = ids ->
    kept (addressed ids) commandsToRemove (activeCommands (self s)) ->
    map Unit.id (units s') = ids
    /\ JSMap.pending (activeCommands (self s')) = []
    /\ kept (addressed ids) commandsToRemove' (activeCommands (self s')).
Proof.
  induction fuel as [ | fuel IH ]; intros s rm rm' s' E Hids Hkept.
  - cbn [processLoop] in E.
    destruct (JSMap.next (activeCommands (self s))) as [[[k c] adv] | ] eqn:En;
      [ discriminate | ].
    injection E as <- <-. unfold JSMap.next in En.
    destruct (JSMap.pending (activeCommands (self s))); [ auto | discriminate ].
  - cbn [processLoop] in E.
    destruct (JSMap.next (activeCommands (self s))) as [[[k c] adv] | ] eqn:En.
    + unfold JSMap.next in En.
      destruct (JSMap.pending (activeCommands (self s))) as [ | e rest ] eqn:Ep;
        [ discriminate | ].
      injection En as -> <-.
      set (adv := JSMap.mk (JSMap.yielded (activeCommands (self s)) ++ [(k, c)]) rest)
        in *.
      set (s1 := mkState (with_activeCommands adv (self s)) (units s) (reads s)) in *.
      assert (Hids1 : map Unit.id (units s1) = ids) by exact Hids.
      change (units s1) with (units s) in E.
      destruct (findUnit (UnitCommand.unitId c) (units s)) as [ unit | ] eqn:Ef.
      * destruct (findUnit_spec _ _ Ef) as (u & Hnth & Hid).
        assert (Hunit : (unit < List.length ids)%nat).
        { rewrite <- Hids, length_map. apply nth_error_Some. congruence. }
        assert (Hc : addressed ids c).
        { unfold addressed. rewrite <- Hid, <- Hids. apply in_map.
          eapply nth_error_In. exact Hnth. }
        unfold bind in E.
        destruct (executeCommand clock unit c buildings s1) as [[[] s2] | ] eqn:Ex;
          [ | discriminate ].
        destruct (@sends_executeCommand unit c buildings Hunit s1 tt s2 Ex Hids1)
          as (_ & Hids2 & w & Hops).
        eapply IH; [ exact E | exact Hids2 | ].
        eapply table_ops_kept; [ | exact Hops | ]; [ auto | ].
        intros k' c' Hin. unfold s1 in Hin.
        cbn [self activeCommands with_activeCommands] in Hin.
        unfold adv in Hin. cbn [JSMap.yielded] in Hin.
        apply in_app_iff in Hin. destruct Hin as [Hin | [[= <- <-] | []]].
        -- destruct (Hkept k' c' Hin) as [Hg | Hr]; [ left; exact Hg | right ].
           destruct (t - UnitCommand.createdAt c >? 60000)%Z; [ | exact Hr ].
           apply in_or_app. left. exact Hr.
        -- left. exact Hc.
      * eapply IH; [ exact E | exact Hids1 | ].
        intros k' c' Hin. unfold s1 in Hin.
        cbn [self activeCommands with_activeCommands] in Hin.
        unfold adv in Hin. cbn [JSMap.yielded] in Hin.
        apply in_app_iff in Hin. destruct Hin as [Hin | [[= <- <-] | []]].
        -- destruct (Hkept k' c' Hin) as [Hg | Hr]; [ left; exact Hg | right ].
           apply in_or_app. left. exact Hr.
        -- right. apply in_or_app. right. left. reflexivity.
    + injection E as <- <-. unfold JSMap.next in En.
      destruct (JSMap.pending (activeCommands (self s))); [ auto | discriminate ].
Qed.

End Sends.

(** X24. [processCommands] returns, keeps the units' ids, and leaves in the
    command table only commands of units that are there: the commands of
    units that are gone are deleted, and the commands issued on the way are
    for units at hand. *)
Theorem processCommands_drops_orphans clock buildings s :
  exists s',
    processCommands clock buildings s = Some (tt, s')
    /\ map Unit.id (units s') = map Unit.id (units s)
    /\ forall k command,
         In (k, command) (JSMap.entries (activeCommands (self s'))) ->
         exists unit,
           In unit (units s') /\ Unit.id unit = UnitCommand.unitId command.
Proof.
  destruct (processCommands_total clock buildings s) as (s' & E & _).
  exists s'. split; [ exact E | ].
  unfold processCommands, bind, Date_now, modify_self, get_self in E.
  cbn [self units reads activeCommands with_activeCommands] in E.
  match type of E with
  | match processLoop _ ?fuel ?t _ _ ?s0 with _ => _ end = _ =>
      destruct (processLoop clock fuel t buildings [] s0) as [[rm s1] | ] eqn:El;
      [ | discriminate ];
      destruct (@processLoop_addressed clock (map Unit.id (units s)) t buildings
                  fuel s0 [] rm s1 El eq_refl) as (Hids & Hp & Hkept)
  end.
  { intros k c Hin. cbn in Hin. contradiction. }
  destruct (forEach_deleteCommand rm s1) as (s2 & E2 & _ & _ & Hin).
  rewrite E2 in E. injection E as <-.
  assert (Hunits : units s2 = units s1).
  { clear -E2. revert s1 E2. induction rm as [ | k rm IH ]; intros s1 E2.
    - injection E2 as <-. reflexivity.
    - cbn [forEach] in E2. unfold bind, deleteCommand at 1, modify_self in E2.
      apply IH in E2. exact E2. }
  rewrite Hunits. split; [ exact Hids | ].
  intros k c Hkc. apply Hin in Hkc. destruct Hkc as [Hkc Hnot].
  unfold JSMap.entries in Hkc. rewrite Hp, app_nil_r in Hkc.
  destruct (Hkept k c Hkc) as [Hg | Hr]; [ | contradiction ].
  unfold addressed in Hg. rewrite <- Hids in Hg.
  apply in_map_iff in Hg. destruct Hg as (u & Hid & Hu). eauto.
Qed.

(** ** A step along a path *)

Lemma Qsqrt_pos (s : Q) : (0 < s)%Q -> (0 < Number.Qsqrt s)%Q.
Proof.
  intros Hs. unfold Number.Qsqrt. rewrite Qred_correct.
  destruct s as [n d]. unfold Qlt in *. cbn [Qnum Qden] in *.
  rewrite Z.mul_1_r in *. cbn [Z.mul] in Hs |- *.
  apply Z.sqrt_pos.
  assert (0 < 4 ^ Number.sqrt_bits)%Z by reflexivity.
  nia.
Qed.

(** X25. A unit that is not yet at its target and has a stored path of at
    least two waypoints, the second away from where it stands, takes one
    step straight towards that second waypoint: its new position is its old
    one plus a multiple [t] of the vector to the waypoint, [t] being positive
    when its speed is.  No other unit moves and no command is touched. *)
Theorem executeMoveCommand_heads_for_next_waypoint
    unit u target buildings waypoint rest (ux uy nx ny v : Q) s :
  nth_error (units s) unit = Some u ->
  Unit.position u = Pos (Num ux) (Num uy) ->
  Unit.speed u = Num v ->
  (getDistance (Unit.position u) target <? num 1)%js = false ->
  JSMap.get (Unit.id u) (unitPaths (self s))
  = Some (waypoint :: Pos (Num nx) (Num ny) :: rest) ->
  ~ (nx == ux /\ ny == uy)%Q ->
  exists s',
    executeMoveCommand unit target buildings s = Some (tt, s')
    /\ (forall i, i <> unit -> nth_error (units s') i = nth_error (units s) i)
    /\ activeCommands (self s') = activeCommands (self s)
    /\ exists (x' y' t : Q),
         nth_error (units s') unit
         = Some (Unit.with_position (Pos (Num x') (Num y')) u)
         /\ (x' == ux + t * (nx - ux))%Q
         /\ (y' == uy + t * (ny - uy))%Q
         /\ ((0 <= v)%Q -> (0 <= t)%Q)
         /\ ((0 < v)%Q -> (0 < t)%Q).
Proof.
  intros Hu Hpos Hspeed Hfar Hpath Hapart.
  unfold executeMoveCommand, bind, deref, get_self, get_units, ret.
  rewrite (nth_error_nth _ _ _ Hu), Hfar, Hpath.
  rewrite Hpos, Hspeed. cbn [x y]. unfold frac. rewrite !sub_Num, !mul_Num, add_Num.
  set (dx := Qred (nx - ux)). set (dy := Qred (ny - uy)).
  set (sq := Qred (Qred (dx * dx) + Qred (dy * dy))).
  assert (Hdx : (dx == nx - ux)%Q) by apply Qred_correct.
  assert (Hdy : (dy == ny - uy)%Q) by apply Qred_correct.
  assert (Hsq : (sq == dx * dx + dy * dy)%Q)
    by (unfold sq; rewrite !Qred_correct; reflexivity).
  assert (Hsq0 : (0 <= sq)%Q).
  { rewrite Hsq. pose proof (Qsquare_nonneg dx). pose proof (Qsquare_nonneg dy).
    lra. }
  unfold Number.sqrt. apply Qle_bool_iff in Hsq0. rewrite Hsq0.
  set (len := Number.Qsqrt sq).
  assert (Elen : (0 < len)%Q).
  { apply Qsqrt_pos. rewrite Hsq, Hdx, Hdy.
    destruct (Qeq_dec nx ux) as [Ex | Ex].
    - destruct (Qeq_dec ny uy) as [Ey | Ey]; [ exfalso; auto | ].
      pose proof (Qsquare_nonneg (nx - ux)).
      assert (0 < (ny - uy) * (ny - uy))%Q by nra. lra.
    - pose proof (Qsquare_nonneg (ny - uy)).
      assert (0 < (nx - ux) * (nx - ux))%Q by nra. lra. }
  assert (Egt : (Num len >? num 0)%js = true).
  { unfold Number.gtb. rewrite num_is_Num. apply ltb_Num. exact Elen. }
  rewrite Egt.
  rewrite !div_Num by lra. rewrite !mul_Num, !add_Num.
  unfold modify_unit, when.
  set (x' := Qred (ux + Qred (Qred (dx / len) * Qred (v * Qred (16 # 1000))))).
  set (y' := Qred (uy + Qred (Qred (dy / len) * Qred (v * Qred (16 # 1000))))).
  assert (Hmoved :
    forall c,
      (forall i, i <> unit ->
         nth_error
           (units (mkState c (update_nth unit (Unit.with_position
                                                (Pos (Num x') (Num y')))
                                (units s)) (reads s))) i
         = nth_error (units s) i)
      /\ exists (x'' y'' t : Q),
           nth_error
             (units (mkState c (update_nth unit (Unit.with_position
                                                  (Pos (Num x') (Num y')))
                                  (units s)) (reads s))) unit
           = Some (Unit.with_position (Pos (Num x'') (Num y'')) u)
           /\ (x'' == ux + t * (nx - ux))%Q
           /\ (y'' == uy + t * (ny - uy))%Q
           /\ ((0 <= v)%Q -> (0 <= t)%Q)
           /\ ((0 < v)%Q -> (0 < t)%Q)).
  { intros c. cbn [units]. split.
    - intros i Hi. rewrite nth_error_update_nth.
      destruct (unit =? i)%nat eqn:E; [ | reflexivity ].
      apply Nat.eqb_eq in E. congruence.
    - exists x', y', (v * (16 # 1000) / len)%Q.
      split; [ rewrite nth_error_update_nth, Nat.eqb_refl, Hu; reflexivity | ].
      split; [ unfold x'; rewrite !Qred_correct, <- Hdx; field; lra | ].
      split; [ unfold y'; rewrite !Qred_correct, <- Hdy; field; lra | ].
      split; intros Hv.
      + apply Qle_shift_div_l; [ exact Elen | ]. lra.
      + apply Qlt_shift_div_l; [ exact Elen | ]. lra. }
  destruct (getDistance (Pos (Num x') (Num y')) (Pos (Num nx) (Num ny))
            <? Num (Qred (1 # 2)))%js.
  - eexists. split; [ reflexivity | ].
    destruct (Hmoved (with_unitPaths
                        (JSMap.set (Unit.id u)
                           (tl (waypoint :: Pos (Num nx) (Num ny) :: rest))
                           (unitPaths (self s)))
                        (self s))) as [Hothers Hself].
    split; [ exact Hothers | ]. split; [ reflexivity | exact Hself ].
  - eexists. split; [ reflexivity | ].
    destruct (Hmoved (self s)) as [Hothers Hself].
    split; [ exact Hothers | ]. split; [ reflexivity | exact Hself ].
Qed.

Lemma executeMoveCommand_heads_for_next_waypoint_witness :
  exists s',
    executeMoveCommand 0 (Sample.at_ 4 0) [] Sample.marchingWorld = Some (tt, s')
    /\ (forall i, i <> 0%nat ->
        nth_error (units s') i = nth_error (units Sample.marchingWorld) i)
    /\ activeCommands (self s') = activeCommands (self Sample.marchingWorld)
    /\ exists (x' y' t : Q),
         nth_error (units s') 0
         = Some (Unit.with_position (Pos (Num x') (Num y'))
                   (Sample.soldier "u1" (Sample.at_ 0 0)))
         /\ (x' == 0 + t * (4 - 0))%Q
         /\ (y' == 0 + t * (0 - 0))%Q
         /\ ((0 <= 2)%Q -> (0 <= t)%Q)
         /\ ((0 < 2)%Q -> (0 < t)%Q).
Proof.
  apply (@executeMoveCommand_heads_for_next_waypoint
           0%nat (Sample.soldier "u1" (Sample.at_ 0 0)) (Sample.at_ 4 0) []
           (Sample.at_ 0 0) [] 0 0 4 0 2 Sample.marchingWorld).
  - reflexivity.
  - reflexivity.
  - reflexivity.
  - vm_compute. reflexivity.
  - vm_compute. reflexivity.
  - intros [H _]. vm_compute in H. discriminate.
Defined.

(* ================================================================== *)
(** * Properties of the store actions *)
(* ================================================================== *)

(** ** Paying *)

Lemma paid_in_full (r c : number) (qc : Q) :
  c = Num qc -> (r >=? c)%js = true -> (num 0 <=? r - c)%js = true.
Proof.
  intros -> H. unfold Number.geb in H.
  destruct r as [ | | | qr ]; try discriminate; try reflexivity.
  apply leb_Num in H. rewrite sub_Num, num_is_Num. apply leb_Num.
  rewrite Qred_correct. change (inject_Z 0) with 0%Q. lra.
Qed.

Lemma find_charge_self cost s player :
  find (fun p => String.eqb (Player.id p) (GameStore.currentPlayerId s))
       (GameStore.players s) = Some player ->
  find (fun p => String.eqb (Player.id p) (GameStore.currentPlayerId s))
       (GameStore.charge cost s) = Some (GameStore.pay cost player).
Proof.
  unfold GameStore.charge.
  induction (GameStore.players s) as [ | p players IH ]; simpl; [ discriminate | ].
  destruct (String.eqb (Player.id p) (GameStore.currentPlayerId s)) eqn:E.
  - intros [= <-]. unfold GameStore.pay, Player.with_resources.
    cbn [Player.id]. rewrite E. reflexivity.
  - rewrite E. exact IH.
Qed.

Lemma find_charge_other cost s playerId :
  playerId <> GameStore.currentPlayerId s ->
  find (fun p => String.eqb (Player.id p) playerId) (GameStore.charge cost s)
  = find (fun p => String.eqb (Player.id p) playerId) (GameStore.players s).
Proof.
  intros Hne. unfold GameStore.charge.
  induction (GameStore.players s) as [ | p players IH ]; simpl; [ reflexivity | ].
  destruct (String.eqb (Player.id p) (GameStore.currentPlayerId s)) eqn:E.
  - unfold GameStore.pay, Player.with_resources. cbn [Player.id].
    apply String.eqb_eq in E.
    destruct (String.eqb (Player.id p) playerId) eqn:E'.
    + apply String.eqb_eq in E'. congruence.
    + exact IH.
  - destruct (String.eqb (Player.id p) playerId); [ reflexivity | exact IH ].
Qed.

(** Who can afford a price pays it without going into debt. *)
Lemma canAfford_pay cost s :
  (exists o, Resources.oil cost = Num o) ->
  (exists o, Resources.steel cost = Num o) ->
  (exists o, Resources.energy cost = Num o) ->
  (exists o, Resources.money cost = Num o) ->
  GameStore.canAfford (GameStore.currentPlayerId s) cost s = true ->
  exists player,
    find (fun p => String.eqb (Player.id p) (GameStore.currentPlayerId s))
         (GameStore.players s) = Some player
    /\ find (fun p => String.eqb (Player.id p) (GameStore.currentPlayerId s))
            (GameStore.charge cost s) = Some (GameStore.pay cost player)
    /\ (num 0 <=? Resources.oil (Player.resources (GameStore.pay cost player)))%js
       = true
    /\ (num 0 <=? Resources.steel (Player.resources (GameStore.pay cost player)))%js
       = true
    /\ (num 0 <=? Resources.energy (Player.resources (GameStore.pay cost player)))%js
       = true
    /\ (num 0 <=? Resources.money (Player.resources (GameStore.pay cost player)))%js
       = true.
Proof.
  intros [o Ho] [t Ht] [e He] [m Hm]. unfold GameStore.canAfford.
  destruct (find _ (GameStore.players s)) as [player | ] eqn:Ef; [ | discriminate ].
  intros H. apply andb_true_iff in H. destruct H as [H H4].
  apply andb_true_iff in H. destruct H as [H H3].
  apply andb_true_iff in H. destruct H as [H1 H2].
  exists player. split; [ reflexivity | ].
  split; [ apply find_charge_self; exact Ef | ].
  unfold GameStore.pay, Player.with_resources.
  cbn [Player.resources Resources.oil Resources.steel Resources.energy
       Resources.money].
  repeat split; eapply paid_in_full; eassumption.
Qed.

Lemma buildingCosts_finite type :
  (exists o, Resources.oil (GameStore.buildingCosts type) = Num o)
  /\ (exists o, Resources.steel (GameStore.buildingCosts type) = Num o)
  /\ (exists o, Resources.energy (GameStore.buildingCosts type) = Num o)
  /\ (exists o, Resources.money (GameStore.buildingCosts type) = Num o).
Proof. destruct type; cbn; repeat split; eexists; reflexivity. Qed.

Lemma unitCosts_finite unitType :
  (exists o, Resources.oil (GameStore.unitCosts unitType) = Num o)
  /\ (exists o, Resources.steel (GameStore.unitCosts unitType) = Num o)
  /\ (exists o, Resources.energy (GameStore.unitCosts unitType) = Num o)
  /\ (exists o, Resources.money (GameStore.unitCosts unitType) = Num o).
Proof. destruct unitType; cbn; repeat split; eexists; reflexivity. Qed.

(** X26. [constructBuilding] either finds that the current player cannot
    afford the building and leaves the store as it is, or appends one
    building under construction that belongs to the current player and
    charges its price to that player, whose four resources stay at zero or
    above; the resources of players of other ids and the units are
    untouched. *)
Theorem constructBuilding_pays_or_does_nothing type position newId s :
  let s' := GameStore.constructBuilding type position newId s in
  let cost := GameStore.buildingCosts type in
  let current := fun p => String.eqb (Player.id p) (GameStore.currentPlayerId s) in
  (GameStore.canAfford (GameStore.currentPlayerId s) cost s = false /\ s' = s)
  \/ (exists player,
        find current (GameStore.players s) = Some player
        /\ find current (GameStore.players s') = Some (GameStore.pay cost player)
        /\ (num 0 <=? Resources.oil (Player.resources (GameStore.pay cost player)))%js
           = true
        /\ (num 0 <=? Resources.steel (Player.resources (GameStore.pay cost player)))%js
           = true
        /\ (num 0 <=? Resources.energy (Player.resources (GameStore.pay cost player)))%js
           = true
        /\ (num 0 <=? Resources.money (Player.resources (GameStore.pay cost player)))%js
           = true)
     /\ GameStore.buildings s'
        = GameStore.buildings s
          ++ [StoredBuilding.mk
                (Building.mk newId type position (GameStore.currentPlayerId s))
                (num 100) (num 100) false (num 0) false []]
     /\ (forall playerId,
           playerId <> GameStore.currentPlayerId s ->
           find (fun p => String.eqb (Player.id p) playerId) (GameStore.players s')
           = find (fun p => String.eqb (Player.id p) playerId) (GameStore.players s))
     /\ GameStore.units s' = GameStore.units s.
Proof.
  cbv zeta. unfold GameStore.constructBuilding. cbv zeta.
  destruct (GameStore.canAfford (GameStore.currentPlayerId s)
              (GameStore.buildingCosts type) s) eqn:E; cbn [negb];
    [ right | left; split; reflexivity ].
  unfold GameStore.with_buildings, GameStore.with_players.
  cbn [GameStore.players GameStore.buildings GameStore.units].
  destruct (buildingCosts_finite type) as (H1 & H2 & H3 & H4).
  split; [ apply canAfford_pay; assumption | ].
  split; [ reflexivity | ].
  split; [ intros playerId Hne; apply find_charge_other; exact Hne | reflexivity ].
Qed.

Lemma find_map_queue buildingId queue (l : list StoredBuilding.t) found :
  find (fun b => String.eqb (Building.id (StoredBuilding.building b)) buildingId) l
  = Some found ->
  find (fun b => String.eqb (Building.id (StoredBuilding.building b)) buildingId)
       (map
          (fun b =>
             if String.eqb (Building.id (StoredBuilding.building b)) buildingId
             then StoredBuilding.with_productionQueue (queue b) b
             else b)
          l)
  = Some (StoredBuilding.with_productionQueue (queue found) found).
Proof.
  induction l as [ | b l IH ]; simpl; [ discriminate | ].
  destruct (String.eqb (Building.id (StoredBuilding.building b)) buildingId) eqn:E.
  - intros [= <-]. unfold StoredBuilding.with_productionQueue at 1.
    cbn [StoredBuilding.building]. rewrite E. reflexivity.
  - rewrite E. exact IH.
Qed.

(** X27. [produceUnit] leaves the store as it is unless the building is
    there, belongs to the current player and that player can afford the
    unit.  Then the price is charged to the current player, whose four
    resources stay at zero or above, and one item of progress zero is added
    at the end of the production queue of that building; the resources of
    players of other ids and the units are untouched. *)
Theorem produceUnit_pays_or_does_nothing buildingId unitType s :
  let s' := GameStore.produceUnit buildingId unitType s in
  let cost := GameStore.unitCosts unitType in
  let current := fun p => String.eqb (Player.id p) (GameStore.currentPlayerId s) in
  let wanted :=
    fun b => String.eqb (Building.id (StoredBuilding.building b)) buildingId in
  (s' = s
   /\ forall found,
        find wanted (GameStore.buildings s) = Some found ->
        Building.playerId (StoredBuilding.building found)
        = GameStore.currentPlayerId s ->
        GameStore.canAfford (GameStore.currentPlayerId s) cost s = false)
  \/ (exists player,
        find current (GameStore.players s) = Some player
        /\ find current (GameStore.players s') = Some (GameStore.pay cost player)
        /\ (num 0 <=? Resources.oil (Player.resources (GameStore.pay cost player)))%js
           = true
        /\ (num 0 <=? Resources.steel (Player.resources (GameStore.pay cost player)))%js
           = true
        /\ (num 0 <=? Resources.energy (Player.resources (GameStore.pay cost player)))%js
           = true
        /\ (num 0 <=? Resources.money (Player.resources (GameStore.pay cost player)))%js
           = true)
     /\ (exists found,
           find wanted (GameStore.buildings s) = Some found
           /\ Building.playerId (StoredBuilding.building found)
              = GameStore.currentPlayerId s
           /\ find wanted (GameStore.buildings s')
              = Some (StoredBuilding.with_productionQueue
                        (StoredBuilding.productionQueue found
                         ++ [ProductionItem.mk unitType (num 0) cost])
                        found))
     /\ List.length (GameStore.buildings s') = List.length (GameStore.buildings s)
     /\ (forall playerId,
           playerId <> GameStore.currentPlayerId s ->
           find (fun p => String.eqb (Player.id p) playerId) (GameStore.players s')
           = find (fun p => String.eqb (Player.id p) playerId) (GameStore.players s))
     /\ GameStore.units s' = GameStore.units s.
Proof.
  cbv zeta. unfold GameStore.produceUnit. cbv zeta.
  destruct (find _ (GameStore.buildings s)) as [found | ] eqn:Ef;
    [ | left; split; [ reflexivity | discriminate ] ].
  destruct (String.eqb (Building.playerId (StoredBuilding.building found))
              (GameStore.currentPlayerId s)) eqn:Eowner; cbn [negb].
  2: { left. split; [ reflexivity | ]. intros ? [= <-] H.
       apply String.eqb_neq in Eowner. contradiction. }
  destruct (GameStore.canAfford (GameStore.currentPlayerId s)
              (GameStore.unitCosts unitType) s) eqn:E; cbn [negb];
    [ right | left; split; [ reflexivity | intros; reflexivity ] ].
  unfold GameStore.with_buildings, GameStore.with_players.
  cbn [GameStore.players GameStore.buildings GameStore.units].
  destruct (unitCosts_finite unitType) as (H1 & H2 & H3 & H4).
  split; [ apply canAfford_pay; assumption | ].
  split.
  - exists found. split; [ reflexivity | ].
    split; [ apply String.eqb_eq; exact Eowner | ].
    apply (find_map_queue buildingId
             (fun b => StoredBuilding.productionQueue b
                       ++ [ProductionItem.mk unitType (num 0)
                             (GameStore.unitCosts unitType)])).
    exact Ef.
  - split; [ apply length_map | ].
    split; [ intros playerId Hne; apply find_charge_other; exact Hne | reflexivity ].
Qed.

(** ** Orders to the selection *)

(** X28. After [selectUnits unitIds] and [moveUnitsTo position], a unit is
    selected exactly when its id is in [unitIds]; the selected units of the
    current player are moving towards [position], and neither the units of
    other players, selected or not, nor the units outside the selection
    have a new target. *)
Theorem moveUnitsTo_moves_own_selected_units unitIds position s i u :
  nth_error (GameStore.units s) i = Some u ->
  exists u',
    nth_error
      (GameStore.units (GameStore.moveUnitsTo position (GameStore.selectUnits unitIds s)))
      i
    = Some u'
    /\ StoredUnit.unit u' = StoredUnit.unit u
    /\ StoredUnit.isSelected u'
       = existsb (String.eqb (Unit.id (StoredUnit.unit u))) unitIds
    /\ (In (Unit.id (StoredUnit.unit u)) unitIds ->
        Unit.playerId (StoredUnit.unit u) = GameStore.currentPlayerId s ->
        StoredUnit.target u' = Some position /\ StoredUnit.isMoving u' = true)
    /\ (Unit.playerId (StoredUnit.unit u) <> GameStore.currentPlayerId s
        \/ ~ In (Unit.id (StoredUnit.unit u)) unitIds ->
        StoredUnit.target u' = StoredUnit.target u
        /\ StoredUnit.isMoving u' = StoredUnit.isMoving u).
Proof.
  intros Hu.
  unfold GameStore.moveUnitsTo, GameStore.selectUnits, GameStore.with_units,
    GameStore.with_selectedUnits, GameStore.with_selectedBuildings.
  cbn [GameStore.selectedUnits GameStore.units GameStore.currentPlayerId].
  destruct (List.length unitIds =? 0)%nat eqn:Elen.
  - cbn [GameStore.units]. rewrite nth_error_map, Hu. cbn [option_map].
    eexists. split; [ reflexivity | ]. cbn.
    apply Nat.eqb_eq in Elen. apply length_zero_iff_nil in Elen. subst unitIds.
    repeat split; auto; contradiction.
  - cbn [GameStore.units]. rewrite !nth_error_map, Hu. cbn [option_map].
    cbn [StoredUnit.unit].
    destruct (existsb (String.eqb (Unit.id (StoredUnit.unit u))) unitIds) eqn:Esel;
      destruct (String.eqb (Unit.playerId (StoredUnit.unit u))
                  (GameStore.currentPlayerId s)) eqn:Eown;
      cbn [andb]; (eexists; split; [ reflexivity | ]); cbn;
      (split; [ reflexivity | ]); (split; [ reflexivity | ]).
    + split; [ auto | ]. intros [H | H].
      * apply String.eqb_eq in Eown. contradiction.
      * exfalso. apply H. apply existsb_exists in Esel.
        destruct Esel as (k & Hk & E). apply String.eqb_eq in E. congruence.
    + split; [ | auto ]. intros _ H. apply String.eqb_neq in Eown. contradiction.
    + split; [ | auto ]. intros H _. exfalso.
      assert (E : existsb (String.eqb (Unit.id (StoredUnit.unit u))) unitIds = true).
      { apply existsb_exists. eexists. split; [ exact H | apply String.eqb_refl ]. }
      congruence.
    + split; [ | auto ]. intros _ H. apply String.eqb_neq in Eown. contradiction.
Qed.

Lemma moveUnitsTo_moves_own_selected_units_witness :
  exists u',
    nth_error
      (GameStore.units
         (GameStore.moveUnitsTo (Sample.at_ 5 5)
            (GameStore.selectUnits ["mine"; "theirs"]%string Sample.store)))
      1
    = Some u'
    /\ StoredUnit.target u' = None /\ StoredUnit.isSelected u' = true.
Proof.
  destruct (@moveUnitsTo_moves_own_selected_units
              ["mine"; "theirs"]%string (Sample.at_ 5 5) Sample.store 1%nat
              (StoredUnit.mk
                 (Unit.mk "theirs" infantry (Sample.at_ 8 8) "ai1" (num 100)
                    (num 100) (num 25) (num 3) (num 1))
                 false None false (num 0))
              eq_refl)
    as (u' & Hu' & _ & Hsel & _ & Hother).
  exists u'. split; [ exact Hu' | ]. split.
  - apply Hother. left. cbn. discriminate.
  - exact Hsel.
Defined.

(* ================================================================== *)
(** * Properties of the game loop *)
(* ================================================================== *)

(** ** Fog of war *)

Lemma uncovers_refl fog : uncovers fog fog.
Proof. split; [ reflexivity | ]. intros j r H. exists r. auto. Qed.

Lemma uncovers_trans fog1 fog2 fog3 :
  uncovers fog1 fog2 -> uncovers fog2 fog3 -> uncovers fog1 fog3.
Proof.
  intros [L1 H1] [L2 H2]. split; [ congruence | ].
  intros j r Hr. destruct (H1 j r Hr) as (r' & Hr' & Hl & Hc).
  destruct (H2 j r' Hr') as (r'' & Hr'' & Hl' & Hc').
  exists r''. split; [ exact Hr'' | ]. split; [ lia | auto ].
Qed.

Lemma uncovers_rows_for size fog fog' :
  uncovers fog fog' -> rows_for size fog -> rows_for size fog'.
Proof. intros [L _] H j Hj. rewrite L. apply H. exact Hj. Qed.

Lemma uncovers_uncovered i j fog fog' :
  uncovers fog fog' -> uncovered i j fog -> uncovered i j fog'.
Proof.
  intros [_ H] (r & Hr & Hc). destruct (H j r Hr) as (r' & Hr' & _ & Hc').
  exists r'. auto.
Qed.

Lemma update_nth_length {A : Type} (f : A -> A) (l : list A) i :
  List.length (update_nth i f l) = List.length l.
Proof.
  revert i. induction l as [ | a l IH ]; intros [ | i ]; simpl; auto.
Qed.

Lemma clear_cell_spec i (r : GameStore.row) :
  (List.length r <= List.length (GameStore.clear_cell i r))%nat
  /\ (forall k,
        nth_error r k = Some (Some false) ->
        nth_error (GameStore.clear_cell i r) k = Some (Some false))
  /\ ((Z.of_nat i < 2 ^ 32 - 1)%Z ->
      nth_error (GameStore.clear_cell i r) i = Some (Some false)).
Proof.
  unfold GameStore.clear_cell.
  destruct (i <? List.length r)%nat eqn:E.
  - apply Nat.ltb_lt in E. rewrite update_nth_length.
    split; [ lia | ]. split.
    + intros k Hk. rewrite nth_error_update_nth.
      destruct (i =? k)%nat; [ rewrite Hk; reflexivity | exact Hk ].
    + intros _. rewrite nth_error_update_nth, Nat.eqb_refl.
      destruct (nth_error r i) eqn:En; [ reflexivity | ].
      apply nth_error_None in En. lia.
  - apply Nat.ltb_ge in E.
    destruct (Z.of_nat i <? 2 ^ 32 - 1)%Z eqn:Eb.
    + split; [ rewrite length_app; lia | ]. split.
      * intros k Hk. rewrite nth_error_app1; [ exact Hk | ].
        apply nth_error_Some. congruence.
      * intros _. rewrite nth_error_app2 by exact E.
        rewrite nth_error_app2 by (rewrite repeat_length; lia).
        rewrite repeat_length, Nat.sub_diag. reflexivity.
    + split; [ lia | ]. split; [ auto | ]. intros H.
      apply Z.ltb_ge in Eb. lia.
Qed.

Lemma index_of_of_nat j : index_of (Number.of_nat j) = Some j.
Proof.
  unfold index_of, Number.of_nat, Number.of_Z. rewrite Qfloor_Z.
  rewrite Qeq_bool_refl.
  replace (0 <=? Z.of_nat j)%Z with true by (symmetry; apply Z.leb_le; lia).
  cbn [andb]. rewrite Nat2Z.id. reflexivity.
Qed.

Lemma clear_spec i j fog :
  (j < List.length fog)%nat ->
  exists fog',
    GameStore.clear (Number.of_nat j) (Number.of_nat i) fog = Some fog'
    /\ uncovers fog fog'
    /\ ((Z.of_nat i < 2 ^ 32 - 1)%Z -> uncovered i j fog').
Proof.
  intros Hj. unfold GameStore.clear. rewrite !index_of_of_nat.
  destruct (nth_error fog j) as [r | ] eqn:Er;
    [ | apply nth_error_None in Er; lia ].
  eexists. split; [ reflexivity | ].
  destruct (clear_cell_spec i r) as (Hlen & Hkeep & Hset).
  split; [ split | ].
  - apply update_nth_length.
  - intros j' r' Hr'. rewrite nth_error_update_nth.
    destruct (j =? j')%nat eqn:E.
    + apply Nat.eqb_eq in E. subst j'. rewrite Hr'. cbn [option_map].
      assert (r' = r) by congruence. subst r'.
      eexists. split; [ reflexivity | ]. split; assumption.
    + exists r'. split; [ exact Hr' | ]. split; [ lia | auto ].
  - intros Hi. exists (GameStore.clear_cell i r). split; [ | auto ].
    rewrite nth_error_update_nth, Nat.eqb_refl, Er. reflexivity.
Qed.

(** What passes the test of [reveal] is the number of a column or row. *)
Lemma floor_on_map (n bound : number) :
  (Number.floor n >=? num 0)%js = true ->
  (Number.floor n <? bound)%js = true ->
  exists k, Number.floor n = Number.of_nat k.
Proof.
  destruct n as [ | | | q ]; cbn [Number.floor]; intros H0 Hb.
  - discriminate.
  - discriminate.
  - destruct bound; discriminate.
  - exists (Z.to_nat (Qfloor q)). unfold Number.of_nat, Number.of_Z in *.
    rewrite num_is_Num in H0. apply geb_Num in H0.
    change 0%Q with (inject_Z 0) in H0. rewrite <- Zle_Qle in H0.
    rewrite Z2Nat.id by exact H0. reflexivity.
Qed.

Lemma reveal_spec size position dx dy fog :
  rows_for size fog ->
  exists fog',
    GameStore.reveal size position dx dy fog = Some fog' /\ uncovers fog fog'.
Proof.
  intros Hrows. unfold GameStore.reveal. cbv zeta.
  destruct (_ && _) eqn:Eguard;
    [ | exists fog; split; [ reflexivity | apply uncovers_refl ] ].
  destruct (_ <=? _)%js;
    [ | exists fog; split; [ reflexivity | apply uncovers_refl ] ].
  apply andb_true_iff in Eguard. destruct Eguard as [Eguard Hy2].
  apply andb_true_iff in Eguard. destruct Eguard as [Eguard Hy1].
  apply andb_true_iff in Eguard. destruct Eguard as [Hx1 Hx2].
  destruct (floor_on_map _ _ Hx1 Hx2) as [i Hi].
  destruct (floor_on_map _ _ Hy1 Hy2) as [j Hj].
  rewrite Hi, Hj in *.
  destruct (@clear_spec i j fog (Hrows j Hy2)) as (fog' & H & Hu & _).
  exists fog'. split; assumption.
Qed.

(** A loop whose body never throws and only uncovers neither throws nor
    covers. *)
Lemma forEach_uncovers {A : Type} size
    (body : A -> list GameStore.row -> option (list GameStore.row)) l :
  (forall a fog,
     rows_for size fog ->
     exists fog', body a fog = Some fog' /\ uncovers fog fog') ->
  forall fog,
    rows_for size fog ->
    exists fog', GameStore.forEach body l fog = Some fog' /\ uncovers fog fog'.
Proof.
  intros Hbody. induction l as [ | a l IH ]; intros fog Hrows; cbn [GameStore.forEach].
  - exists fog. split; [ reflexivity | apply uncovers_refl ].
  - destruct (Hbody a fog Hrows) as (fog1 & -> & H1).
    destruct (IH fog1 (uncovers_rows_for H1 Hrows)) as (fog2 & -> & H2).
    exists fog2. split; [ reflexivity | eapply uncovers_trans; eassumption ].
Qed.

(** What one round of such a loop uncovers is uncovered at its end. *)
Lemma forEach_uncovered {A : Type} size i j
    (body : A -> list GameStore.row -> option (list GameStore.row)) l a :
  (forall a fog,
     rows_for size fog ->
     exists fog', body a fog = Some fog' /\ uncovers fog fog') ->
  In a l ->
  (forall fog fog', rows_for size fog -> body a fog = Some fog' -> uncovered i j fog') ->
  forall fog fog',
    rows_for size fog ->
    GameStore.forEach body l fog = Some fog' -> uncovered i j fog'.
Proof.
  intros Hbody Hin Hhit. induction l as [ | b l IH ]; [ contradiction | ].
  intros fog fog' Hrows. cbn [GameStore.forEach].
  destruct (Hbody b fog Hrows) as (fog1 & E1 & H1). rewrite E1.
  destruct Hin as [-> | Hin].
  - intros Hrest.
    destruct (forEach_uncovers body l Hbody (uncovers_rows_for H1 Hrows))
      as (fog2 & E2 & H2).
    assert (fog2 = fog') by congruence. subst fog2.
    eapply uncovers_uncovered; [ exact H2 | ]. eapply Hhit; eassumption.
  - apply IH; [ exact Hin | ]. eapply uncovers_rows_for; eassumption.
Qed.

Lemma revealAround_spec size position fog :
  rows_for size fog ->
  exists fog',
    GameStore.revealAround size position fog = Some fog' /\ uncovers fog fog'.
Proof.
  unfold GameStore.revealAround. revert fog.
  apply forEach_uncovers. intros dx. apply forEach_uncovers.
  intros dy. apply reveal_spec.
Qed.

Lemma floor_add_zero (n : number) : Number.floor (n + num 0)%js = Number.floor n.
Proof.
  destruct n as [ | | | q ]; try reflexivity.
  rewrite num_is_Num, add_Num. cbn [Number.floor]. unfold Number.of_Z.
  f_equal. f_equal. apply Qfloor_comp. rewrite Qred_correct.
  change (inject_Z 0) with 0%Q. lra.
Qed.

Lemma of_nat_nonneg k : (Number.of_nat k >=? num 0)%js = true.
Proof.
  rewrite of_nat_is_Num, num_is_Num. apply geb_Num. rewrite <- Zle_Qle. lia.
Qed.

(** The cell that an entity stands on is uncovered when its turn comes. *)
Lemma revealAround_under size position i j fog fog' :
  Number.floor (x position) = Number.of_nat i ->
  Number.floor (y position) = Number.of_nat j ->
  (Number.of_nat i <? MapSize.width size)%js = true ->
  (Number.of_nat j <? MapSize.height size)%js = true ->
  (Z.of_nat i < 2 ^ 32 - 1)%Z ->
  rows_for size fog ->
  GameStore.revealAround size position fog = Some fog' ->
  uncovered i j fog'.
Proof.
  intros Hx Hy Hw Hh Hi. unfold GameStore.revealAround. revert fog fog'.
  assert (Hzero : In 0%Z GameStore.offsets) by (vm_compute; tauto).
  apply forEach_uncovered with (a := 0%Z); [ | exact Hzero | ].
  { intros dx. apply forEach_uncovers. intros dy. apply reveal_spec. }
  apply forEach_uncovered with (a := 0%Z); [ | exact Hzero | ].
  { intros dy. apply reveal_spec. }
  intros fog fog' Hrows. unfold GameStore.reveal. cbv zeta.
  rewrite !floor_add_zero, Hx, Hy, !of_nat_nonneg, Hw, Hh. cbn [andb].
  replace (Number.sqrt (num 0 * num 0 + num 0 * num 0) <=? num GameStore.visionRange)%js
    with true by (vm_compute; reflexivity).
  destruct (@clear_spec i j fog (Hrows j Hh)) as (fog1 & E & _ & Hc).
  rewrite E. intros [= <-]. auto.
Qed.

(** [updateFogOfWar] on a fog with a row for each line of the map. *)
Lemma updateFogOfWar_spec playerId s :
  rows_for (GameStore.mapSize s) (GameStore.fogOfWar s) ->
  exists fog',
    GameStore.updateFogOfWar playerId s = Some (GameStore.with_fogOfWar fog' s)
    /\ uncovers (GameStore.fogOfWar s) fog'
    /\ forall position i j,
         (In position
            (map (fun u => Unit.position (StoredUnit.unit u))
               (filter
                  (fun u => String.eqb (Unit.playerId (StoredUnit.unit u)) playerId)
                  (GameStore.units s)))
          \/ In position
               (map (fun b => Building.position (StoredBuilding.building b))
                  (filter
                     (fun b =>
                        String.eqb (Building.playerId (StoredBuilding.building b))
                          playerId)
                     (GameStore.buildings s)))) ->
         Number.floor (x position) = Number.of_nat i ->
         Number.floor (y position) = Number.of_nat j ->
         (Number.of_nat i <? MapSize.width (GameStore.mapSize s))%js = true ->
         (Number.of_nat j <? MapSize.height (GameStore.mapSize s))%js = true ->
         (Z.of_nat i < 2 ^ 32 - 1)%Z ->
         uncovered i j fog'.
Proof.
  intros Hrows. unfold GameStore.updateFogOfWar. cbv zeta.
  set (entities := _ ++ _).
  destruct (@forEach_uncovers _ (GameStore.mapSize s)
              (GameStore.revealAround (GameStore.mapSize s)) entities
              (@revealAround_spec (GameStore.mapSize s))
              (GameStore.fogOfWar s) Hrows) as (fog' & E & Hu).
  exists fog'. rewrite E. split; [ reflexivity | ]. split; [ exact Hu | ].
  intros position i j Hin Hx Hy Hw Hh Hi.
  apply (@forEach_uncovered _ (GameStore.mapSize s) i j
           (GameStore.revealAround (GameStore.mapSize s)) entities position
           (@revealAround_spec (GameStore.mapSize s)))
    with (fog := GameStore.fogOfWar s); try assumption.
  - unfold entities. apply in_or_app. exact Hin.
  - intros fog0 fog1 Hrows0. apply revealAround_under; assumption.
Qed.

(** X29. On a fog with a row for each line of the map, [updateFogOfWar]
    returns and only uncovers: the fog keeps its rows, no row gets shorter
    and no uncovered cell is covered again.  The cell under each unit and
    each building of the player that stands on the map is uncovered
    afterwards. *)
Theorem updateFogOfWar_only_uncovers playerId s :
  rows_for (GameStore.mapSize s) (GameStore.fogOfWar s) ->
  exists fog',
    GameStore.updateFogOfWar playerId s = Some (GameStore.with_fogOfWar fog' s)
    /\ uncovers (GameStore.fogOfWar s) fog'
    /\ (forall unit i j,
          In unit (GameStore.units s) ->
          Unit.playerId (StoredUnit.unit unit) = playerId ->
          Number.floor (x (Unit.position (StoredUnit.unit unit))) = Number.of_nat i ->
          Number.floor (y (Unit.position (StoredUnit.unit unit))) = Number.of_nat j ->
          (Number.of_nat i <? MapSize.width (GameStore.mapSize s))%js = true ->
          (Number.of_nat j <? MapSize.height (GameStore.mapSize s))%js = true ->
          (Z.of_nat i < 2 ^ 32 - 1)%Z ->
          uncovered i j fog')
    /\ (forall building i j,
          In building (GameStore.buildings s) ->
          Building.playerId (StoredBuilding.building building) = playerId ->
          Number.floor (x (Building.position (StoredBuilding.building building)))
          = Number.of_nat i ->
          Number.floor (y (Building.position (StoredBuilding.building building)))
          = Number.of_nat j ->
          (Number.of_nat i <? MapSize.width (GameStore.mapSize s))%js = true ->
          (Number.of_nat j <? MapSize.height (GameStore.mapSize s))%js = true ->
          (Z.of_nat i < 2 ^ 32 - 1)%Z ->
          uncovered i j fog').
Proof.
  intros Hrows.
  destruct (updateFogOfWar_spec playerId s Hrows) as (fog' & E & Hu & Hunder).
  exists fog'. split; [ exact E | ]. split; [ exact Hu | ]. split.
  - intros unit i j Hin Hown. apply Hunder. left.
    apply in_map_iff. exists unit. split; [ reflexivity | ].
    apply filter_In. split; [ exact Hin | ]. apply String.eqb_eq. exact Hown.
  - intros building i j Hin Hown. apply Hunder. right.
    apply in_map_iff. exists building. split; [ reflexivity | ].
    apply filter_In. split; [ exact Hin | ]. apply String.eqb_eq. exact Hown.
Qed.

Lemma updateFogOfWar_only_uncovers_witness :
  exists fog',
    GameStore.updateFogOfWar "p1" Sample.store
    = Some (GameStore.with_fogOfWar fog' Sample.store)
    /\ uncovers (GameStore.fogOfWar Sample.store) fog'
    /\ uncovered 1 1 fog'.
Proof.
  assert (Hrows : rows_for (GameStore.mapSize Sample.store)
                    (GameStore.fogOfWar Sample.store)).
  { intros j Hj. change (j < 10)%nat.
    change (Number.of_nat j <? num 10)%js with (Num (inject_Z (Z.of_nat j)) <? Num (inject_Z 10))%js in Hj.
    apply ltb_Num in Hj. rewrite <- Zlt_Qlt in Hj. lia. }
  destruct (@updateFogOfWar_only_uncovers "p1"%string Sample.store Hrows)
    as (fog' & E & Hu & Hunits & _).
  exists fog'. split; [ exact E | ]. split; [ exact Hu | ].
  apply (Hunits (StoredUnit.mk
                   (Unit.mk "mine" infantry (Sample.at_ 1 1) "p1" (num 100)
                      (num 100) (num 25) (num 3) (num 1))
                   false None false (num 0))).
  - left. reflexivity.
  - reflexivity.
  - reflexivity.
  - reflexivity.
  - reflexivity.
  - reflexivity.
  - reflexivity.
Defined.

(** ** Production *)

Lemma mapWith_nth {A B S : Type} (callback : S -> A -> S * B) (l : list A) :
  forall store i a,
    nth_error l i = Some a ->
    exists store',
      nth_error (snd (GameStore.mapWith callback store l)) i
      = Some (snd (callback store' a)).
Proof.
  induction l as [ | b l IH ]; intros store [ | i ] a H; try discriminate;
    cbn [GameStore.mapWith];
    destruct (callback store b) as [store1 b'] eqn:E1;
    destruct (GameStore.mapWith callback store1 l) as [store2 bs] eqn:E2;
    cbn [snd nth_error].
  - injection H as <-. exists store. rewrite E1. reflexivity.
  - destruct (IH store1 i a H) as [store' H']. rewrite E2 in H'.
    exists store'. exact H'.
Qed.

Lemma moveUnit_id unit :
  Unit.id (StoredUnit.unit (GameStore.moveUnit unit)) = Unit.id (StoredUnit.unit unit).
Proof.
  unfold GameStore.moveUnit.
  destruct (StoredUnit.isMoving unit); [ | reflexivity ].
  destruct (StoredUnit.target unit); [ | reflexivity ].
  cbv zeta. destruct (_ <? _)%js; reflexivity.
Qed.

(** X30. [tick] never adds a unit.  In a running game whose fog has a row
    for each line of the map it returns, and the units of the store bear
    the ids they bore before, in the same order: the unit that the callback
    of a finished production adds to the store is overwritten by the units
    computed before.  The finished item has left its queue all the same. *)
Theorem tick_loses_the_units_it_makes uuidv4 s :
  GameStore.isGameStarted s = true ->
  GameStore.isPaused s = false ->
  rows_for (GameStore.mapSize s) (GameStore.fogOfWar s) ->
  exists s' callsAI,
    GameStore.tick uuidv4 s = Some (s', callsAI)
    /\ map (fun u => Unit.id (StoredUnit.unit u)) (GameStore.units s')
       = map (fun u => Unit.id (StoredUnit.unit u)) (GameStore.units s)
    /\ forall i building item rest,
         nth_error (GameStore.buildings s) i = Some building ->
         StoredBuilding.isConstructed building = true ->
         StoredBuilding.productionQueue building = item :: rest ->
         (Number.min (num 100) (ProductionItem.progress item + num 1)
          >=? num 100)%js = true ->
         nth_error (GameStore.buildings s') i
         = Some (StoredBuilding.with_productionQueue rest building).
Proof.
  intros Hstarted Hpaused Hrows. unfold GameStore.tick.
  rewrite Hstarted, Hpaused. cbn [negb orb]. cbv zeta.
  pose proof (@mapWith_nth _ _ _
                (GameStore.tickBuilding uuidv4 (GameStore.currentTick s + num 1)%js)
                (GameStore.buildings s) (GameStore.units s, 0%nat)) as Hnth.
  destruct (GameStore.mapWith _ _ _) as [store updatedBuildings].
  cbn [snd] in Hnth.
  match goal with
  | |- context [GameStore.updateFogOfWar ?p ?s2] =>
      destruct (@updateFogOfWar_spec p s2 Hrows) as (fog' & E & _)
  end.
  rewrite E. eexists _, _. split; [ reflexivity | ].
  cbn [GameStore.with_fogOfWar GameStore.with_currentTick GameStore.with_gameTime
       GameStore.with_units GameStore.with_buildings GameStore.with_players
       GameStore.units GameStore.buildings].
  split.
  - rewrite map_map. apply map_ext. intros unit. apply moveUnit_id.
  - intros i building item rest Hi Hbuilt Hqueue Hdone.
    destruct (Hnth i building Hi) as [store' ->]. f_equal.
    unfold GameStore.tickBuilding. rewrite Hbuilt, Hqueue. cbn [negb].
    cbv zeta. cbn [ProductionItem.progress]. rewrite Hdone. reflexivity.
Qed.

Lemma tick_loses_the_units_it_makes_witness :
  exists s' callsAI,
    GameStore.tick (fun _ => "fresh"%string) Sample.store = Some (s', callsAI)
    /\ map (fun u => Unit.id (StoredUnit.unit u)) (GameStore.units s')
       = ["mine"; "theirs"]%string
    /\ option_map StoredBuilding.productionQueue
         (nth_error (GameStore.buildings s') 0)
       = Some [].
Proof.
  assert (Hrows : rows_for (GameStore.mapSize Sample.store)
                    (GameStore.fogOfWar Sample.store)).
  { intros j Hj. change (j < 10)%nat.
    change (Number.of_nat j <? num 10)%js with (Num (inject_Z (Z.of_nat j)) <? Num (inject_Z 10))%js in Hj.
    apply ltb_Num in Hj. rewrite <- Zlt_Qlt in Hj. lia. }
  destruct (@tick_loses_the_units_it_makes (fun _ => "fresh"%string) Sample.store
              eq_refl eq_refl Hrows)
    as (s' & callsAI & E & Hids & Hqueue).
  exists s', callsAI. split; [ exact E | ]. split; [ exact Hids | ].
  rewrite (Hqueue 0%nat _ _ _ eq_refl eq_refl eq_refl eq_refl). reflexivity.
Defined.
